(** * notion-mcp: request lifecycle and telemetry core

  A shallow embedding of three TypeScript classes of the server,

  - [RequestTracker]   (services/request-tracker.ts),
  - [ProgressReporter] (services/progress-reporter.ts),
  - [LogShipper]       (services/log-shipper.ts),

  of what surrounds them ([LogBatcher], the core of [Logger], the
  validation of the server configuration, the progress calls of a tool
  execution and the periodic cleanup), and the properties stated about
  them.

  Conventions of the embedding.
  - A JavaScript [number] that holds a timestamp, a counter, an HTTP
    status or a progress value is an integer [Z]; [NaN], infinities and
    fractions are outside the model.
  - A JavaScript [Map] is a [gmap]; the keys [string | number] are the
    type [key].  Objects that are shared by reference (the request
    contexts) live in an explicit store indexed by locations.
  - [Date.now()], the outcome of a network call and the environment
    variables are inputs of the functions that read them; an awaited
    flush reads them anew at every attempt and at every response.
  - A lookup in an object literal also finds what the literal inherits
    from [Object.prototype]; a field that such a lookup fills is a
    [Field], a string or an inherited value.
  - A metadata value is known by what [typeof], [JSON.stringify] and
    [String] make of it; [JSON.stringify] throws on a BigInt and on an
    object it cannot serialise, and whatever calls it throws with it.
  - Calls to a logger or to [console.error] are recorded in a trace. *)

From stdpp Require Import gmap strings list fin_maps sorting.

Local Open Scope Z_scope.

(** ** JavaScript values shared by the three classes *)

Module Js.

(** [string | number], the type of request ids and progress tokens. *)
Inductive key :=
| KStr (s : string)
| KNum (n : Z).

#[global] Instance key_eq_dec : EqDecision key.
Proof. solve_decision. Defined.

#[global] Instance key_countable : Countable key.
Proof.
  refine (inj_countable'
            (fun k => match k with KStr s => inl s | KNum n => inr n end)
            (fun x => match x with inl s => KStr s | inr n => KNum n end) _).
  intros []; reflexivity.
Defined.

(** Truthiness of a string and of a key: the empty string and [0] are falsy. *)
Definition truthy (s : string) : bool :=
  match s with EmptyString => false | String _ _ => true end.

Definition key_truthy (k : key) : bool :=
  match k with
  | KStr s => truthy s
  | KNum n => negb (n =? 0)
  end.

(** [a || b] on strings, and on a possibly undefined string. *)
Definition or_else (a b : string) : string := if truthy a then a else b.

Definition opt_or_else (a : option string) (b : string) : string :=
  match a with
  | Some s => or_else s b
  | None => b
  end.

(** [!!x] for an optional string ([undefined] and the empty string are falsy). *)
Definition opt_truthy (a : option string) : bool :=
  match a with Some s => truthy s | None => false end.

(** [String.prototype.toLowerCase] on the ASCII letters. *)
Definition lower_ascii (c : Ascii.ascii) : Ascii.ascii :=
  let n := Ascii.nat_of_ascii c in
  if ((65 <=? n) && (n <=? 90))%nat then Ascii.ascii_of_nat (n + 32) else c.

Fixpoint toLowerCase (s : string) : string :=
  match s with
  | EmptyString => EmptyString
  | String c r => String (lower_ascii c) (toLowerCase r)
  end.

(** What a field that is meant to hold a string can hold: a string,
    or [Inherited name], the value an object literal gives under a name
    it does not define but inherits: the built-in function
    [Object.prototype[name]], and under [__proto__] the object
    [Object.prototype] itself. *)
Inductive Field :=
| Str (s : string)
| Inherited (name : string).

#[global] Coercion Str : string >-> Field.

#[global] Instance Field_eq_dec : EqDecision Field.
Proof. solve_decision. Defined.

(** The names every object inherits from [Object.prototype]. *)
Definition objectPrototype : list string :=
  [ "constructor"; "__defineGetter__"; "__defineSetter__"; "hasOwnProperty";
    "__lookupGetter__"; "__lookupSetter__"; "isPrototypeOf";
    "propertyIsEnumerable"; "toString"; "valueOf"; "__proto__";
    "toLocaleString" ]%string.

(** Truthiness of a field: functions and objects are truthy. *)
Definition field_truthy (v : Field) : bool :=
  match v with
  | Str s => truthy s
  | Inherited _ => true
  end.

(** [v || d] *)
Definition field_or (v : Field) (d : string) : Field :=
  if field_truthy v then v else Str d.

(** [String(v)]: a built-in function prints its name, which is
    [Object] for the one found under [constructor]. *)
Definition toStr (v : Field) : string :=
  match v with
  | Str s => s
  | Inherited name =>
      if String.eqb name "__proto__" then "[object Object]"
      else
        ("function "
         ++ (if String.eqb name "constructor" then "Object" else name)
         ++ "() { [native code] }")%string
  end.

(** Levels of the structured logger. *)
Inductive Level := DEBUG | INFO | WARN | ERROR | FATAL.

(** One call [logger.<level>(code, ...)]. *)
Record LogCall := { lc_level : Level; lc_code : string }.

End Js.

(** ** RequestTracker *)

Module Tracker.
Import Js.

(** The observable state of [context.abortController]:
    [signal.aborted] and the argument given to [abort]. *)
Record AbortController := {
  aborted : bool;
  reason : option string
}.

(** [new AbortController()] *)
Definition newAbortController : AbortController :=
  {| aborted := false; reason := None |}.

(** [controller.abort(reason)]: the first call wins. *)
Definition abort (r : option string) (c : AbortController) : AbortController :=
  if aborted c then c else {| aborted := true; reason := r |}.

Record RequestContext := {
  requestId : key;
  abortController : AbortController;
  progressToken : option key;
  startTime : Z;
  toolName : option string
}.

Definition with_abortController (c : RequestContext) (a : AbortController)
  : RequestContext :=
  {| requestId := requestId c;
     abortController := a;
     progressToken := progressToken c;
     startTime := startTime c;
     toolName := toolName c |}.

(** A reference to a context object. *)
Definition loc := positive.

(** The tracker: its two maps, the store holding the context objects
    the maps and the callers refer to, and the calls made to its
    logger.  [activeRequests] holds references, as the [Map] does. *)
Record RequestTracker := {
  store : gmap loc RequestContext;
  activeRequests : gmap key loc;
  progressTokens : gmap key key;
  logger : list LogCall
}.

(** [new RequestTracker(logger)] *)
Definition new : RequestTracker :=
  {| store := ∅; activeRequests := ∅; progressTokens := ∅; logger := [] |}.

Definition log (l : Level) (code : string) (t : RequestTracker) : RequestTracker :=
  {| store := store t;
     activeRequests := activeRequests t;
     progressTokens := progressTokens t;
     logger := logger t ++ [ {| lc_level := l; lc_code := code |} ] |}.

(** [this.activeRequests.get(requestId)], dereferenced. *)
Definition getRequest (t : RequestTracker) (id : key) : option RequestContext :=
  l ← activeRequests t !! id; store t !! l.

(** [registerRequest(requestId, progressToken?, toolName?)];
    [now] is [Date.now()].  Returns the reference to the context. *)
Definition registerRequest (t : RequestTracker) (id : key)
    (tok : option key) (tool : option string) (now : Z)
  : RequestTracker * loc :=
  match activeRequests t !! id with
  | Some l => (log WARN "REQUEST_DUPLICATE" t, l)
  | None =>
      let l := fresh (dom (store t)) in
      let context :=
        {| requestId := id;
           abortController := newAbortController;
           progressToken := tok;
           startTime := now;
           toolName := tool |} in
      let t1 :=
        {| store := <[l := context]> (store t);
           activeRequests := <[id := l]> (activeRequests t);
           progressTokens :=
             match tok with
             | Some p => <[p := id]> (progressTokens t)
             | None => progressTokens t
             end;
           logger := logger t |} in
      (log INFO "REQUEST_REGISTERED" t1, l)
  end.

(** [getRequestByProgressToken]: a falsy request id reads as absent. *)
Definition getRequestByProgressToken (t : RequestTracker) (tok : key)
  : option RequestContext :=
  match progressTokens t !! tok with
  | Some id => if key_truthy id then getRequest t id else None
  | None => None
  end.

(** [cleanup(requestId)] *)
Definition cleanup (t : RequestTracker) (id : key) : RequestTracker :=
  match activeRequests t !! id with
  | Some l =>
      match store t !! l with
      | Some context =>
          log DEBUG "REQUEST_CLEANUP"
            {| store := store t;
               activeRequests := delete id (activeRequests t);
               progressTokens :=
                 match progressToken context with
                 | Some p => delete p (progressTokens t)
                 | None => progressTokens t
                 end;
               logger := logger t |}
      | None => t
      end
  | None => t
  end.

(** [cancelRequest(requestId, reason?)] *)
Definition cancelRequest (t : RequestTracker) (id : key) (r : option string)
  : RequestTracker * bool :=
  match activeRequests t !! id with
  | Some l =>
      match store t !! l with
      | Some context =>
          if aborted (abortController context) then
            (log DEBUG "CANCEL_REQUEST_ALREADY_ABORTED" t, false)
          else
            let context' :=
              with_abortController context (abort r (abortController context)) in
            let t1 :=
              {| store := <[l := context']> (store t);
                 activeRequests := activeRequests t;
                 progressTokens := progressTokens t;
                 logger := logger t |} in
            (cleanup (log INFO "REQUEST_CANCELLED" t1) id, true)
      | None => (log DEBUG "CANCEL_REQUEST_NOT_FOUND" t, false)
      end
  | None => (log DEBUG "CANCEL_REQUEST_NOT_FOUND" t, false)
  end.

(** [isActive(requestId)] *)
Definition isActive (t : RequestTracker) (id : key) : bool :=
  match getRequest t id with
  | Some context => negb (aborted (abortController context))
  | None => false
  end.

(** [isProgressTokenActive(progressToken)] *)
Definition isProgressTokenActive (t : RequestTracker) (tok : key) : bool :=
  match progressTokens t !! tok with
  | Some id => if key_truthy id then isActive t id else false
  | None => false
  end.

(** A holder of the reference [l] aborts the controller directly
    ([context.abortController.abort(reason)]), as the tests do. *)
Definition abortThrough (t : RequestTracker) (l : loc) (r : option string)
  : RequestTracker :=
  {| store := alter (fun c => with_abortController c (abort r (abortController c)))
                    l (store t);
     activeRequests := activeRequests t;
     progressTokens := progressTokens t;
     logger := logger t |}.

(** What a holder of the reference [l] reads in [signal.aborted]. *)
Definition observedAborted (t : RequestTracker) (l : loc) : option bool :=
  (fun c => aborted (abortController c)) <$> store t !! l.

Definition observedReason (t : RequestTracker) (l : loc) : option (option string) :=
  (fun c => reason (abortController c)) <$> store t !! l.

(** The calls the server makes on its tracker. *)
Inductive Op :=
| Register (id : key) (tok : option key) (tool : option string) (now : Z)
| Cancel (id : key) (r : option string)
| Cleanup (id : key).

Definition perform (t : RequestTracker) (op : Op) : RequestTracker :=
  match op with
  | Register id tok tool now => (registerRequest t id tok tool now).1
  | Cancel id r => (cancelRequest t id r).1
  | Cleanup id => cleanup t id
  end.

(** Every tracked id refers to a context of its own, and the handle of
    that context is not cancelled. *)
Definition consistent (t : RequestTracker) : Prop :=
  (forall id l, activeRequests t !! id = Some l ->
                exists c, store t !! l = Some c
                          /\ aborted (abortController c) = false)
  /\ (forall id id' l, activeRequests t !! id = Some l ->
                       activeRequests t !! id' = Some l -> id = id').

End Tracker.

(** ** ProgressReporter *)

Module Reporter.
Import Js.

Record ProgressUpdate := {
  progress : Z;
  total : option Z;
  message : option string
}.

Record ProgressState := {
  lastProgress : Z;
  lastUpdateTime : Z;
  updateCount : Z
}.

(** The [params] of one ["notifications/progress"] message. *)
Record Notification := {
  n_progressToken : key;
  n_progress : Z;
  n_total : option Z;
  n_message : option string
}.

(** The reporter: its state map, the notifications the server has
    accepted ([this.server.notification] resolved), in order, and the
    calls made to its logger. *)
Record ProgressReporter := {
  progressStates : gmap key ProgressState;
  sent : list Notification;
  logger : list LogCall
}.

(** [new ProgressReporter(server, logger, requestTracker)] *)
Definition new : ProgressReporter :=
  {| progressStates := ∅; sent := []; logger := [] |}.

(** Minimum 100ms between updates *)
Definition minUpdateInterval : Z := 100.

Definition log (l : Level) (code : string) (p : ProgressReporter) : ProgressReporter :=
  {| progressStates := progressStates p;
     sent := sent p;
     logger := logger p ++ [ {| lc_level := l; lc_code := code |} ] |}.

(** The object passed to [this.server.notification]. *)
Definition notificationOf (tok : key) (u : ProgressUpdate) : Notification :=
  {| n_progressToken := tok;
     n_progress := progress u;
     n_total := total u;
     n_message := if opt_truthy (message u) then message u else None |}.

(** [update.total !== undefined && update.progress >= update.total] *)
Definition isComplete (u : ProgressUpdate) : bool :=
  match total u with
  | Some t => t <=? progress u
  | None => false
  end.

(** [cleanup(progressToken)] *)
Definition cleanup (p : ProgressReporter) (tok : key) : ProgressReporter :=
  match progressStates p !! tok with
  | Some _ =>
      let p1 := log DEBUG "PROGRESS_CLEANUP" p in
      {| progressStates := delete tok (progressStates p1);
         sent := sent p1;
         logger := logger p1 |}
  | None => p
  end.

(** [report(progressToken, update)], run to completion.  [now] is
    [Date.now()]; [delivered] tells whether the awaited
    [this.server.notification(...)] resolves ([true]) or throws. *)
Definition report (t : Tracker.RequestTracker) (p : ProgressReporter)
    (tok : key) (u : ProgressUpdate) (now : Z) (delivered : bool)
  : ProgressReporter :=
  if negb (Tracker.isProgressTokenActive t tok) then
    log DEBUG "PROGRESS_TOKEN_INACTIVE" p
  else
    let state := progressStates p !! tok in
    if match state with
       | Some st => progress u <=? lastProgress st
       | None => false
       end
    then log WARN "PROGRESS_NOT_INCREASING" p
    else if match state with
            | Some st => now - lastUpdateTime st <? minUpdateInterval
            | None => false
            end
    then log DEBUG "PROGRESS_RATE_LIMITED" p
    else if delivered then
      let count := match state with Some st => updateCount st | None => 0 end in
      let p1 :=
        {| progressStates :=
             <[tok := {| lastProgress := progress u;
                         lastUpdateTime := now;
                         updateCount := count + 1 |}]> (progressStates p);
           sent := sent p ++ [notificationOf tok u];
           logger := logger p |} in
      let p2 := log INFO "PROGRESS_REPORTED" p1 in
      if isComplete u then cleanup p2 tok else p2
    else log ERROR "PROGRESS_REPORT_ERROR" p.

(** [reportPercentage(progressToken, percentage, message?)] *)
Definition reportPercentage (t : Tracker.RequestTracker) (p : ProgressReporter)
    (tok : key) (percentage : Z) (msg : option string) (now : Z) (delivered : bool)
  : ProgressReporter :=
  if (percentage <? 0) || (100 <? percentage) then
    log WARN "PROGRESS_PERCENTAGE_INVALID" p
  else
    report t p tok
      {| progress := percentage; total := Some 100; message := msg |}
      now delivered.

(** [reportStep(progressToken, currentStep, totalSteps, message?)] *)
Definition reportStep (t : Tracker.RequestTracker) (p : ProgressReporter)
    (tok : key) (currentStep totalSteps : Z) (msg : option string)
    (now : Z) (delivered : bool) : ProgressReporter :=
  report t p tok
    {| progress := currentStep; total := Some totalSteps; message := msg |}
    now delivered.

(** The guards of [report]: the update reaches [server.notification]. *)
Definition admitted (t : Tracker.RequestTracker) (p : ProgressReporter)
    (tok : key) (u : ProgressUpdate) (now : Z) : Prop :=
  Tracker.isProgressTokenActive t tok = true
  /\ forall st, progressStates p !! tok = Some st ->
                lastProgress st < progress u
                /\ minUpdateInterval <= now - lastUpdateTime st.

(** The call changed neither the notifications nor the states. *)
Definition dropped (p q : ProgressReporter) : Prop :=
  sent q = sent p /\ progressStates q = progressStates p.

(** The state map after an accepted update. *)
Definition accepted (p : ProgressReporter) (tok : key) (u : ProgressUpdate)
    (now : Z) : gmap key ProgressState :=
  if isComplete u then delete tok (progressStates p)
  else <[tok := {| lastProgress := progress u;
                   lastUpdateTime := now;
                   updateCount :=
                     match progressStates p !! tok with
                     | Some st => updateCount st
                     | None => 0
                     end + 1 |}]> (progressStates p).

(** One awaited call [report(tok, update)] of a caller, with the state
    of the tracker at the call, the clock reading and the fate of its
    notification. *)
Record Call := {
  c_tracker : Tracker.RequestTracker;
  c_update : ProgressUpdate;
  c_now : Z;
  c_delivered : bool
}.

Definition call (tok : key) (p : ProgressReporter) (c : Call) : ProgressReporter :=
  report (c_tracker c) p tok (c_update c) (c_now c) (c_delivered c).

(** A sequence of [report] calls on one channel, each awaited before
    the next is made; the tracker may have changed between two calls. *)
Definition reports (tok : key) (calls : list Call) (p : ProgressReporter)
  : ProgressReporter :=
  foldl (call tok) p calls.

(** The notifications accepted between the states [p] and [q]. *)
Definition emittedSince (p q : ProgressReporter) : list Notification :=
  drop (length (sent p)) (sent q).

(** [n] reached its declared total. *)
Definition reachedTotal (n : Notification) : bool :=
  match n_total n with
  | Some t => t <=? n_progress n
  | None => false
  end.

(** Each notification has a strictly larger progress value than the
    one before it, unless the one before it had reached its total. *)
Fixpoint increasingUntilTotal (ns : list Notification) : Prop :=
  match ns with
  | [] => True
  | a :: rest =>
      match rest with
      | [] => True
      | b :: _ => (n_progress a < n_progress b ∨ reachedTotal a = true)
      end ∧ increasingUntilTotal rest
  end.

End Reporter.

(** ** LogShipper: data, configuration and normalisation *)

Module Shipper.
Import Js.

(** A value stored under a key of [metadata], as far as
    [cleanMetadata] and [JSON.stringify] tell values apart:
    - [MUndefined] and [MFunction];
    - [MObject serializable asString], an object other than [null]:
      [JSON.stringify] accepts it or throws (a cycle, a [BigInt] inside),
      and [String] prints it as [asString] or throws as well (an object
      without prototype, a [toString] that throws);
    - [MBigInt], which is no object and which [JSON.stringify] rejects;
    - [MPlain text], a string, a number, a boolean, [null] or a symbol,
      which [JSON.stringify] never rejects. *)
Inductive MetaValue :=
| MUndefined
| MFunction
| MObject (serializable : bool) (asString : option string)
| MBigInt
| MPlain (text : string).

Record LogEntry := {
  timestamp : string;
  level : Field;
  sessionId : string;
  user : string;
  integration : string;
  component : Field;
  action : string;
  message : string;
  serverName : string;
  projectId : option string;
  organizationId : option string;
  metadata : option (list (string * MetaValue))
}.

Record LogShipperConfig := {
  endpoint : string;
  apiKey : option string;
  requireApiKey : option bool;
  batchSize : Z;
  flushInterval : Z;
  maxRetries : Z;
  enabled : bool
}.

(** What the code reads from its host when it runs: the environment
    variables, [Date.now()], [new Date().toISOString()] and the session
    id [generateSessionId()] would produce for the entry at a given
    position of a batch. *)
Record Host := {
  CORETEXT_USER : option string;
  PROJECT_ID : option string;
  ORGANIZATION_ID : option string;
  now : Z;
  isoNow : string;
  generateSessionId : nat -> string
}.

(** What the shipper does to the outside, in order. *)
Inductive Effect :=
| Console (lvl : string) (msg : string)
| Post (payload : list LogEntry) (withApiKey : bool)
| Sleep (ms : Z).

(** The value written under [k] in an object literal. *)
Fixpoint ownProperty (r : list (string * string)) (k : string) : option string :=
  match r with
  | [] => None
  | (k', v) :: rest => if String.eqb k' k then Some v else ownProperty rest k
  end.

(** [r[k]] for an object literal [r] used as [Record<string, string>]:
    the value written under [k], else what the literal inherits under
    [k], else [undefined]. *)
Definition lookupRecord (r : list (string * string)) (k : string) : option Field :=
  match ownProperty r k with
  | Some v => Some (Str v)
  | None => if bool_decide (k ∈ objectPrototype) then Some (Inherited k) else None
  end.

(** [mapped || d] for the result of a lookup. *)
Definition mapped_or (mapped : option Field) (d : string) : Field :=
  match mapped with
  | Some v => field_or v d
  | None => Str d
  end.

Definition componentMap : list (string * string) :=
  [ ("server", "client"); ("client", "client"); ("tools", "tools");
    ("oauth-client", "oauth-client") ]%string.

Definition levelMap : list (string * string) :=
  [ ("info", "info"); ("error", "error"); ("warn", "warn");
    ("warning", "warn"); ("debug", "debug"); ("fatal", "error") ]%string.

(** [mapComponentToValidEnum(component)] *)
Definition mapComponentToValidEnum (c : Field) : Field :=
  let componentStr := toStr (field_or c "client") in
  mapped_or (lookupRecord componentMap (toLowerCase componentStr)) "client".

(** [mapLogLevelToValidEnum(level)] *)
Definition mapLogLevelToValidEnum (l : Field) : Field :=
  let levelStr := toStr (field_or l "info") in
  mapped_or (lookupRecord levelMap (toLowerCase levelStr)) "info".

(** [cleaned[key] = v].  The name [__proto__] is the accessor of the
    prototype: assigning to it adds no property to [cleaned]. *)
Definition assign (key : string) (v : MetaValue) : option (string * MetaValue) :=
  if String.eqb key "__proto__" then None else Some (key, v).

(** One iteration of the loop of [cleanMetadata]: the property it
    adds to [cleaned], if any. *)
Definition cleanField (kv : string * MetaValue) : option (string * MetaValue) :=
  match kv.2 with
  | MUndefined => None
  | MFunction => assign kv.1 (MPlain "[Function]")
  | MObject true _ => assign kv.1 kv.2
  | MObject false (Some s) => assign kv.1 (MPlain s)
  | MObject false None => None
  | MBigInt => assign kv.1 kv.2
  | MPlain _ => assign kv.1 kv.2
  end.

(** The iteration ends in the outer [catch]: [JSON.stringify(value)]
    threw and [String(value)] threw as well. *)
Definition skipped (kv : string * MetaValue) : bool :=
  match kv.2 with
  | MObject false None => true
  | _ => false
  end.

(** [cleanMetadata(metadata)] over [Object.entries(metadata)], which
    lists every key once. *)
Definition cleanMetadata (md : list (string * MetaValue)) : list (string * MetaValue) :=
  omap cleanField md.

(** The body of the [map] callback of [validateAndCleanLogs]; [i] is
    the position of [log] in the batch. *)
Definition cleanLog (h : Host) (i : nat) (log : LogEntry) : LogEntry :=
  {| timestamp := or_else (timestamp log) (isoNow h);
     level := mapLogLevelToValidEnum (field_or (level log) "info");
     sessionId := or_else (sessionId log) (generateSessionId h i);
     user := or_else (user log) (opt_or_else (CORETEXT_USER h) "unknown");
     integration := or_else (integration log) "unknown";
     component := mapComponentToValidEnum (field_or (component log) "client");
     action := or_else (action log) "unknown";
     message := or_else (message log) "No message";
     serverName := or_else (serverName log) "notion-mcp";
     projectId :=
       Some (opt_or_else (projectId log) (opt_or_else (PROJECT_ID h) EmptyString));
     organizationId :=
       Some (opt_or_else (organizationId log) (opt_or_else (ORGANIZATION_ID h) EmptyString));
     metadata := cleanMetadata <$> metadata log |}.

(** The [filter] callback of [validateAndCleanLogs]. *)
Definition hasRequiredFields (log : LogEntry) : bool :=
  truthy (timestamp log) && field_truthy (level log)
  && truthy (user log) && truthy (message log).

(** [validateAndCleanLogs(logs)] *)
Definition validateAndCleanLogs (h : Host) (logs : list LogEntry) : list LogEntry :=
  List.filter hasRequiredFields (imap (cleanLog h) logs).

(** What [validateAndCleanLogs(logs)] prints: one warning for every
    metadata field that [cleanMetadata] skips. *)
Definition cleaningWarnings (logs : list LogEntry) : list Effect :=
  flat_map
    (fun log =>
       (fun _ => Console "WARN" "Skipping problematic metadata field")
         <$> List.filter skipped (default [] (metadata log)))
    logs.

(** [JSON.stringify] throws on the value. *)
Definition rejected (v : MetaValue) : bool :=
  match v with
  | MBigInt => true
  | MObject false _ => true
  | _ => false
  end.

(** [JSON.stringify] returns on an object that holds the metadata [md]. *)
Definition serializable (md : option (list (string * MetaValue))) : bool :=
  forallb (fun kv : string * MetaValue => negb (rejected kv.2)) (default [] md).

(** [JSON.stringify({ logs })] returns. *)
Definition serializes (logs : list LogEntry) : bool :=
  forallb (fun log => serializable (metadata log)) logs.

(** What [JSON.stringify] writes for a property that holds [v]: a
    string, the empty object for [Object.prototype], and nothing for a
    function. *)
Inductive Written :=
| WString (s : string)
| WEmptyObject
| WNothing.

Definition written (v : Field) : Written :=
  match v with
  | Str s => WString s
  | Inherited name =>
      if String.eqb name "__proto__" then WEmptyObject else WNothing
  end.

(** *** Construction *)

Record LogShipper := {
  config : LogShipperConfig;
  logQueue : list LogEntry;
  flushTimer : option nat;
  isShuttingDown : bool;
  lastSuccessfulFlush : Z
}.

(** The field initialisers of the class. *)
Definition initial (c : LogShipperConfig) : LogShipper :=
  {| config := c;
     logQueue := [];
     flushTimer := None;
     isShuttingDown := false;
     lastSuccessfulFlush := 0 |}.

Definition hasApiKey (c : LogShipperConfig) : bool := opt_truthy (apiKey c).

Definition apiKeyRequired (c : LogShipperConfig) : bool :=
  match requireApiKey c with Some b => b | None => false end.

(** A statement either completes or throws [new Error(msg)]. *)
Inductive Completion (A : Type) :=
| Normal (a : A)
| Throw (msg : string).
Arguments Normal {A} a.
Arguments Throw {A} msg.

Definition apiKeyWarning : Effect :=
  Console "WARN"
    "API key not configured. Log shipping will work now but will require an API key in the future.".

(** [validateConfig()]: what it prints, and how it completes. *)
Definition validateConfig (c : LogShipperConfig) : list Effect * Completion unit :=
  if negb (truthy (endpoint c)) then
    ([], Throw "LogShipper: endpoint is required")
  else if apiKeyRequired c && negb (hasApiKey c) then
    ([], Throw "LogShipper: apiKey is required when requireApiKey is true")
  else
    let warning :=
      if negb (hasApiKey c) && negb (apiKeyRequired c) then [apiKeyWarning] else [] in
    if negb (String.prefix "https://" (endpoint c)) then
      (warning, Throw "LogShipper: endpoint must use HTTPS")
    else (warning, Normal tt).

(** [startFlushTimer()]; [timer] is the handle [setInterval] returns. *)
Definition startFlushTimer (s : LogShipper) (timer : nat) : LogShipper :=
  {| config := config s;
     logQueue := logQueue s;
     flushTimer := Some timer;
     isShuttingDown := isShuttingDown s;
     lastSuccessfulFlush := lastSuccessfulFlush s |}.

(** [new LogShipper(config)] *)
Definition construct (c : LogShipperConfig) (timer : nat)
  : list Effect * Completion LogShipper :=
  if negb (enabled c) then ([], Normal (initial c))
  else
    match validateConfig c with
    | (out, Throw msg) => (out, Throw msg)
    | (out, Normal _) =>
        (out ++ [Console "INFO" "LogShipper initialized"],
         Normal (startFlushTimer (initial c) timer))
    end.

(** *** Delivery

    [flush], [sendLogsWithRetry] and [sendLogs] are asynchronous: each
    runs until its next [await] and resumes when the awaited promise
    settles, and other calls run in between.  A call of [flush] that has
    taken a batch is a [FlushTask]; it is suspended on the [fetch] of its
    current attempt, on the [setTimeout] of its backoff delay, or on a
    promise that is settled already: that of [sendLogsWithRetry] when its
    loop was left without an error, that of [sendLogs] when it threw
    before its [fetch]. *)

(** The fate of one [fetch]: it rejects, or a response arrives with a
    status, a body, and a body that [response.json()] parses or not. *)
Inductive FetchOutcome :=
| NetworkError
| Response (status : Z) (body : string) (parses : bool).

(** The errors [sendLogs] rejects with; [NoStatus] stands for those
    that carry no status: what [fetch], [response.json()] and
    [JSON.stringify] throw. *)
Inductive Failure :=
| AuthenticationRequired (status : Z)
| BadRequest (body : string)
| HttpFailure (status : Z) (body : string)
| NoStatus.

(** [error.status || error.response?.status] *)
Definition statusOf (f : Failure) : option Z :=
  match f with
  | AuthenticationRequired st => Some st
  | BadRequest _ => Some 400
  | HttpFailure st _ => Some st
  | NoStatus => None
  end.

(** [response.ok] *)
Definition ok (status : Z) : bool := (200 <=? status) && (status <=? 299).

(** The part of [sendLogs] after [await fetch(...)]: what it prints
    and the error it rejects with, if any. *)
Definition sendLogsResult (c : LogShipperConfig) (o : FetchOutcome)
  : list Effect * option Failure :=
  match o with
  | NetworkError => ([], Some NoStatus)
  | Response status body parses =>
      if ok status then ([], if parses then None else Some NoStatus)
      else
        ([Console "ERROR" "HTTP error response from log ingestion API"],
         if ((status =? 401) || (status =? 403)) && negb (hasApiKey c)
         then Some (AuthenticationRequired status)
         else if status =? 400 then Some (BadRequest body)
         else Some (HttpFailure status body))
  end.

(** The part of [sendLogs] up to [await fetch(...)]: what it does to
    the outside, and the error it throws, if any.  The payload is
    serialised for the debug line first; when that throws, nothing is
    printed and no request is made. *)
Definition sendLogsRequest (c : LogShipperConfig) (h : Host) (logs : list LogEntry)
  : list Effect * option Failure :=
  let cleanedLogs := validateAndCleanLogs h logs in
  if serializes cleanedLogs then
    (cleaningWarnings logs
     ++ [ Console "DEBUG" "Sending log payload";
          Post cleanedLogs (hasApiKey c) ],
     None)
  else (cleaningWarnings logs, Some NoStatus).

(** [status >= 400 && status < 500 && status !== 429] *)
Definition isClientError (status : option Z) : bool :=
  match status with
  | Some st => (400 <=? st) && (st <? 500) && negb (st =? 429)
  | None => false
  end.

(** [status === 429 ? 1000 : 500] *)
Definition baseDelay (status : option Z) : Z :=
  match status with
  | Some st => if st =? 429 then 1000 else 500
  | None => 500
  end.

(** [baseDelay * Math.pow(2, attempt - 1)] *)
Definition backoffDelay (status : option Z) (attempt : Z) : Z :=
  baseDelay status * 2 ^ (attempt - 1).

(** What the [catch] block of [sendLogsWithRetry] decides. *)
Inductive Verdict :=
| Rethrow (why : string)
| RetryAfter (delay : Z).

Definition catchBlock (c : LogShipperConfig) (attempt : Z) (f : Failure) : Verdict :=
  let status := statusOf f in
  if isClientError status then Rethrow "Client error - not retrying"
  else if attempt =? maxRetries c then Rethrow "Max retries exceeded"
  else RetryAfter (backoffDelay status attempt).

(** Who called [flush] and handles its promise. *)
Inductive Caller := ByTimer | ByAddLog | ByShutdown | Direct.

(** What a suspended [flush] waits for: the [fetch] of its attempt,
    its backoff delay, [sendLogsWithRetry] that has returned, or
    [sendLogs] that has thrown. *)
Inductive Phase :=
| Fetching
| Sleeping (delay : Z)
| Returning
| Failing.

#[global] Instance Phase_eq_dec : EqDecision Phase.
Proof. solve_decision. Defined.

Record FlushTask := {
  batch : list LogEntry;
  attempt : Z;
  phase : Phase;
  caller : Caller
}.

(** The shipper with its suspended [flush] calls, the effects so far,
    and how the [flush] promises settled ([None]: resolved). *)
Record Machine := {
  shipper : LogShipper;
  pending : gmap nat FlushTask;
  nextFlush : nat;
  io : list Effect;
  settled : list (nat * Caller * option Failure)
}.

Definition boot (s : LogShipper) : Machine :=
  {| shipper := s; pending := ∅; nextFlush := 0%nat; io := []; settled := [] |}.

Definition with_queue (s : LogShipper) (q : list LogEntry) : LogShipper :=
  {| config := config s;
     logQueue := q;
     flushTimer := flushTimer s;
     isShuttingDown := isShuttingDown s;
     lastSuccessfulFlush := lastSuccessfulFlush s |}.

Definition with_lastSuccessfulFlush (s : LogShipper) (t : Z) : LogShipper :=
  {| config := config s;
     logQueue := logQueue s;
     flushTimer := flushTimer s;
     isShuttingDown := isShuttingDown s;
     lastSuccessfulFlush := t |}.

Definition emit (out : list Effect) (m : Machine) : Machine :=
  {| shipper := shipper m;
     pending := pending m;
     nextFlush := nextFlush m;
     io := io m ++ out;
     settled := settled m |}.

Definition with_shipper (m : Machine) (s : LogShipper) : Machine :=
  {| shipper := s;
     pending := pending m;
     nextFlush := nextFlush m;
     io := io m;
     settled := settled m |}.

Definition with_pending (m : Machine) (p : gmap nat FlushTask) : Machine :=
  {| shipper := shipper m;
     pending := p;
     nextFlush := nextFlush m;
     io := io m;
     settled := settled m |}.

(** The promise of flush [id] settles; the handler its caller attached
    runs. *)
Definition settle (id : nat) (who : Caller) (r : option Failure) (m : Machine)
  : Machine :=
  let handler :=
    match who, r with
    | ByTimer, Some _ => [Console "ERROR" "Scheduled flush failed"]
    | ByAddLog, Some _ => [Console "ERROR" "Immediate flush failed"]
    | ByShutdown, Some _ => [Console "ERROR" "Final flush failed"]
    | ByShutdown, None => [Console "INFO" "Final flush completed successfully"]
    | _, _ => []
    end in
  {| shipper := shipper m;
     pending := delete id (pending m);
     nextFlush := nextFlush m;
     io := io m ++ handler;
     settled := settled m ++ [(id, who, r)] |}.

(** [flush] after [await this.sendLogsWithRetry(batch)] returned. *)
Definition flushSucceeded (id : nat) (t : FlushTask) (h : Host) (m : Machine)
  : Machine :=
  settle id (caller t) None
    (emit [Console "DEBUG" "Logs shipped successfully"]
       (with_shipper m (with_lastSuccessfulFlush (shipper m) (now h)))).

(** The [catch] block of [flush]. *)
Definition flushFailed (id : nat) (t : FlushTask) (f : Failure) (m : Machine)
  : Machine :=
  settle id (caller t) (Some f)
    (emit [Console "ERROR" "Failed to ship logs after retries"]
       (with_shipper m (with_queue (shipper m) (batch t ++ logQueue (shipper m))))).

(** Where the call of [sendLogs] leaves the flush: on its [fetch], or
    on the error thrown before. *)
Definition phaseAfter (request : list Effect * option Failure) : Phase :=
  match request.2 with
  | None => Fetching
  | Some _ => Failing
  end.

(** One iteration of the loop of [sendLogsWithRetry] begins: the loop
    test, then [sendLogs] up to its [fetch] or to the error it throws
    before.  When the test fails the loop is left and [sendLogsWithRetry]
    returns; [flush] goes on when its [await] resumes. *)
Definition startAttempt (id : nat) (t : FlushTask) (n : Z) (h : Host) (m : Machine)
  : Machine :=
  let c := config (shipper m) in
  if n <=? maxRetries c then
    let request := sendLogsRequest c h (batch t) in
    with_pending (emit request.1 m)
      (<[id := {| batch := batch t; attempt := n;
                  phase := phaseAfter request; caller := caller t |}]>
         (pending m))
  else
    with_pending m
      (<[id := {| batch := batch t; attempt := n;
                  phase := Returning; caller := caller t |}]> (pending m)).

(** [flush()], up to its first suspension. *)
Definition flush (who : Caller) (h : Host) (m : Machine) : Machine :=
  let s := shipper m in
  let c := config s in
  let id := nextFlush m in
  let m0 :=
    {| shipper := s; pending := pending m; nextFlush := S id;
       io := io m; settled := settled m |} in
  if negb (enabled c) || (length (logQueue s) =? 0)%nat then
    settle id who None m0
  else
    let size := Z.to_nat (batchSize c) in
    let t := {| batch := take size (logQueue s); attempt := 1;
                phase := Fetching; caller := who |} in
    startAttempt id t 1 h (with_shipper m0 (with_queue s (drop size (logQueue s)))).

(** The [catch] block of [sendLogsWithRetry] runs on the error [f] of
    the attempt of flush [id], and what follows it: the [catch] block of
    [flush], or the backoff delay. *)
Definition caught (id : nat) (t : FlushTask) (f : Failure) (m : Machine) : Machine :=
  match catchBlock (config (shipper m)) (attempt t) f with
  | Rethrow why => flushFailed id t f (emit [Console "ERROR" why] m)
  | RetryAfter d =>
      with_pending
        (emit [Console "WARN" "Retrying log shipment"; Sleep d] m)
        (<[id := {| batch := batch t; attempt := attempt t;
                    phase := Sleeping d; caller := caller t |}]>
           (pending m))
  end.

(** The [fetch] of flush [id] settles with [o]. *)
Definition respond (id : nat) (o : FetchOutcome) (h : Host) (m : Machine) : Machine :=
  match pending m !! id with
  | Some t =>
      match phase t with
      | Fetching =>
          let c := config (shipper m) in
          let '(out, r) := sendLogsResult c o in
          let m1 := emit out m in
          match r with
          | None => flushSucceeded id t h m1
          | Some f => caught id t f m1
          end
      | _ => m
      end
  | None => m
  end.

(** The backoff delay of flush [id] has elapsed: [attempt++]. *)
Definition wake (id : nat) (h : Host) (m : Machine) : Machine :=
  match pending m !! id with
  | Some t =>
      match phase t with
      | Sleeping _ => startAttempt id t (attempt t + 1) h m
      | _ => m
      end
  | None => m
  end.

(** The [await] of flush [id] on a promise that is settled already
    resumes: [flush] goes on after a [sendLogsWithRetry] that left its
    loop, or [sendLogsWithRetry] catches what [sendLogs] threw before its
    [fetch]. *)
Definition resume (id : nat) (h : Host) (m : Machine) : Machine :=
  match pending m !! id with
  | Some t =>
      match phase t with
      | Returning => flushSucceeded id t h m
      | Failing => caught id t NoStatus m
      | _ => m
      end
  | None => m
  end.

(** [addLog(logEntry)] *)
Definition addLog (e : LogEntry) (h : Host) (m : Machine) : Machine :=
  let s := shipper m in
  if negb (enabled (config s)) || isShuttingDown s then m
  else
    let m1 := with_shipper m (with_queue s (logQueue s ++ [e])) in
    if batchSize (config s) <=? Z.of_nat (length (logQueue (shipper m1)))
    then flush ByAddLog h m1
    else m1.

(** The callback given to [setInterval] runs. *)
Definition tick (h : Host) (m : Machine) : Machine :=
  match flushTimer (shipper m) with
  | Some _ => flush ByTimer h m
  | None => m
  end.

(** [shutdown()], up to its first suspension. *)
Definition shutdown (h : Host) (m : Machine) : Machine :=
  let s := shipper m in
  let s1 :=
    {| config := config s;
       logQueue := logQueue s;
       flushTimer := None;
       isShuttingDown := true;
       lastSuccessfulFlush := lastSuccessfulFlush s |} in
  let m1 := emit [Console "INFO" "LogShipper shutting down"] (with_shipper m s1) in
  if (0 <? length (logQueue s))%nat then flush ByShutdown h m1 else m1.

(** What can happen next on the event loop. *)
Inductive Event :=
| AddLog (e : LogEntry)
| Flush
| Tick
| Respond (id : nat) (o : FetchOutcome)
| Wake (id : nat)
| Resume (id : nat)
| Shutdown.

Definition step (m : Machine) (x : Event * Host) : Machine :=
  match x.1 with
  | AddLog e => addLog e x.2 m
  | Flush => flush Direct x.2 m
  | Tick => tick x.2 m
  | Respond id o => respond id o x.2 m
  | Wake id => wake id x.2 m
  | Resume id => resume id x.2 m
  | Shutdown => shutdown x.2 m
  end.

Definition run (m : Machine) (xs : list (Event * Host)) : Machine :=
  foldl step m xs.

(** The deliveries in flight: suspended flushes whose [fetch] has not
    settled. *)
Definition inFlight (m : Machine) : nat :=
  size (filter (fun kv : nat * FlushTask => phase kv.2 = Fetching) (pending m)).

(** One when the flush [o], if there is one, waits for its [fetch]. *)
Definition fetching (o : option FlushTask) : nat :=
  match o with
  | Some t => if decide (phase t = Fetching) then 1%nat else 0%nat
  | None => 0%nat
  end.

(** The payloads handed to [fetch] so far. *)
Definition posts (out : list Effect) : list (list LogEntry) :=
  omap (fun e => match e with Post p _ => Some p | _ => None end) out.

(** The backoff delays waited so far. *)
Definition sleeps (out : list Effect) : list Z :=
  omap (fun e => match e with Sleep d => Some d | _ => None end) out.

(** Every entry of the payload passes the test of the [filter] of
    [validateAndCleanLogs]. *)
Definition cleanPayload (p : list LogEntry) : Prop :=
  Forall (fun e => hasRequiredFields e = true) p.

(** No [flush] is called while another is suspended: each event of
    the run either finds no suspended flush or calls no [flush]. *)
Fixpoint serial (m : Machine) (xs : list (Event * Host)) : Prop :=
  match xs with
  | [] => True
  | x :: rest =>
      (pending m = ∅ \/ nextFlush (step m x) = nextFlush m)
      /\ serial (step m x) rest
  end.

(** Every payload posted passes the test of the [filter]. *)
Definition tidy (out : list Effect) : Prop := Forall cleanPayload (posts out).

(** The entries the [addLog] calls of a run were given. *)
Definition added (xs : list (Event * Host)) : list LogEntry :=
  omap (fun x : Event * Host =>
          match x.1 with AddLog e => Some e | _ => None end) xs.

(** What a step that calls no [flush] can do to the suspended flushes,
    the settled promises and the queue. *)
Inductive quiet (m m' : Machine) (es : list LogEntry) : Prop :=
| quiet_push :
    pending m' = pending m ->
    settled m' = settled m ->
    logQueue (shipper m') = logQueue (shipper m) ++ es ->
    quiet m m' es
| quiet_continue id t t' :
    es = [] ->
    pending m !! id = Some t ->
    batch t' = batch t ->
    caller t' = caller t ->
    pending m' = <[id := t']> (pending m) ->
    settled m' = settled m ->
    logQueue (shipper m') = logQueue (shipper m) ->
    quiet m m' es
| quiet_failed id t f :
    es = [] ->
    pending m !! id = Some t ->
    pending m' = delete id (pending m) ->
    settled m' = settled m ++ [(id, caller t, Some f)] ->
    logQueue (shipper m') = batch t ++ logQueue (shipper m) ->
    quiet m m' es
| quiet_succeeded id t :
    es = [] ->
    pending m !! id = Some t ->
    pending m' = delete id (pending m) ->
    settled m' = settled m ++ [(id, caller t, None)] ->
    logQueue (shipper m') = logQueue (shipper m) ->
    quiet m m' es.


(** The flushes suspended are among those counted so far. *)
Definition counted (m : Machine) : Prop :=
  forall id, (nextFlush m <= id)%nat -> pending m !! id = None.

(** What the host reads while a [flush] is awaited: [onAttempt n]
    when attempt [n] begins, [onArrival n] when its [fetch] settles. *)
Record Clock := {
  onAttempt : Z -> Host;
  onArrival : Z -> Host
}.

(** A caller that awaits its [flush]: nothing else runs until the
    promise settles.  [fetched n] is the fate of the [fetch] of the
    [n]-th attempt, if that attempt gets as far.  Each round takes the
    suspended flush through one iteration of the loop: an [await] on a
    promise that is settled already resumes, or the response arrives;
    then the delay elapses and the next attempt begins. *)
Fixpoint awaitFlush (rounds : nat) (id : nat) (fetched : Z -> FetchOutcome)
    (clock : Clock) (m : Machine) : Machine :=
  match rounds with
  | O => m
  | S rounds' =>
      match pending m !! id with
      | Some t =>
          let n := attempt t in
          awaitFlush rounds' id fetched clock
            (wake id (onAttempt clock (n + 1))
               (respond id (fetched n) (onArrival clock n)
                  (resume id (onAttempt clock n) m)))
      | None => m
      end
  end.

(** [await shipper.flush()]; one round per attempt is enough, and one
    round when no attempt is made. *)
Definition flushAndWait (fetched : Z -> FetchOutcome) (clock : Clock) (m : Machine)
  : Machine :=
  awaitFlush (S (Z.to_nat (maxRetries (config (shipper m))))) (nextFlush m)
    fetched clock (flush Direct (onAttempt clock 1) m).

(** [sendLogsWithRetry(logs)] read as the loop it is, from attempt
    [n] on and with [left] iterations to go, for a caller that awaits it
    while nothing else runs: what it does to the outside, in order, and
    the error it rejects with, if any. *)
Fixpoint sendLogsWithRetry (left : nat) (c : LogShipperConfig)
    (fetched : Z -> FetchOutcome) (clock : Clock) (logs : list LogEntry) (n : Z)
  : list Effect * option Failure :=
  match left with
  | O => ([], None)
  | S left' =>
      let request := sendLogsRequest c (onAttempt clock n) logs in
      let result :=
        match request.2 with
        | Some f => ([], Some f)
        | None => sendLogsResult c (fetched n)
        end in
      match result.2 with
      | None => (request.1 ++ result.1, None)
      | Some f =>
          match catchBlock c n f with
          | Rethrow why =>
              (request.1 ++ result.1 ++ [Console "ERROR" why], Some f)
          | RetryAfter d =>
              let rest := sendLogsWithRetry left' c fetched clock logs (n + 1) in
              (request.1 ++ result.1
               ++ [Console "WARN" "Retrying log shipment"; Sleep d] ++ rest.1,
               rest.2)
          end
      end
  end.

(** The error attempt [n] of that loop ends with, if any. *)
Definition errorAt (c : LogShipperConfig) (fetched : Z -> FetchOutcome)
    (clock : Clock) (logs : list LogEntry) (n : Z) : option Failure :=
  match (sendLogsRequest c (onAttempt clock n) logs).2 with
  | Some f => Some f
  | None => (sendLogsResult c (fetched n)).2
  end.

(** The status of that error, if it has one. *)
Definition statusAt (c : LogShipperConfig) (fetched : Z -> FetchOutcome)
    (clock : Clock) (logs : list LogEntry) (n : Z) : option Z :=
  errorAt c fetched clock logs n ≫= statusOf.

(** The payloads attempt [n] of that loop hands to [fetch]: one, or
    none when [sendLogs] throws before. *)
Definition postedAt (c : LogShipperConfig) (clock : Clock) (logs : list LogEntry)
    (n : Z) : list (list LogEntry) :=
  posts (sendLogsRequest c (onAttempt clock n) logs).1.

(** The step [x] brings the outcome of a [fetch] that is awaited. *)
Definition answers (m : Machine) (x : Event * Host) : bool :=
  match x.1 with
  | Respond id _ =>
      match pending m !! id with
      | Some t => bool_decide (phase t = Fetching)
      | None => false
      end
  | _ => false
  end.

(** The requests posted so far are [done] requests and those in
    flight. *)
Definition outstanding (m : Machine) (done : nat) : Prop :=
  length (posts (io m)) = (done + inFlight m)%nat.

(** The number of requests answered in the run [xs] from [m]. *)
Fixpoint answered (m : Machine) (xs : list (Event * Host)) : nat :=
  match xs with
  | [] => 0%nat
  | x :: rest => ((if answers m x then 1 else 0) + answered (step m x) rest)%nat
  end.

End Shipper.

(** ** Concrete states used in the examples below *)

Module Scenario.
Import Js.

Definition req1 : key := KStr "req-1".
Definition tok1 : key := KStr "tok-1".

(** A tracker in which ["req-1"] is registered with channel ["tok-1"]. *)
Definition registered1 : Tracker.RequestTracker * Tracker.loc :=
  Tracker.registerRequest Tracker.new req1 (Some tok1) None 1000.

Definition tracked1 : Tracker.RequestTracker := registered1.1.
Definition ctx1 : Tracker.loc := registered1.2.

(** The update [{ progress, total }]. *)
Definition update (progress : Z) (total : option Z) : Reporter.ProgressUpdate :=
  {| Reporter.progress := progress; Reporter.total := total;
     Reporter.message := None |}.

(** A shipper configuration in the shape the tests use. *)
Definition testConfig (size retries : Z) : Shipper.LogShipperConfig :=
  {| Shipper.endpoint := "https://logs.example.com/api/logs";
     Shipper.apiKey := Some "test-api-key"%string;
     Shipper.requireApiKey := None;
     Shipper.batchSize := size;
     Shipper.flushInterval := 5000;
     Shipper.maxRetries := retries;
     Shipper.enabled := true |}.

(** A disabled configuration without endpoint. *)
Definition disabledConfig : Shipper.LogShipperConfig :=
  {| Shipper.endpoint := EmptyString;
     Shipper.apiKey := None;
     Shipper.requireApiKey := Some true;
     Shipper.batchSize := 10;
     Shipper.flushInterval := 5000;
     Shipper.maxRetries := 3;
     Shipper.enabled := false |}.

(** An enabled configuration without API key, none required. *)
Definition keylessConfig : Shipper.LogShipperConfig :=
  {| Shipper.endpoint := "https://logs.example.com/api/logs";
     Shipper.apiKey := None;
     Shipper.requireApiKey := Some false;
     Shipper.batchSize := 10;
     Shipper.flushInterval := 5000;
     Shipper.maxRetries := 3;
     Shipper.enabled := true |}.

(** An enabled configuration whose endpoint is not an HTTPS one. *)
Definition insecureConfig : Shipper.LogShipperConfig :=
  {| Shipper.endpoint := "http://logs.example.com/api/logs";
     Shipper.apiKey := Some "test-api-key"%string;
     Shipper.requireApiKey := None;
     Shipper.batchSize := 10;
     Shipper.flushInterval := 5000;
     Shipper.maxRetries := 3;
     Shipper.enabled := true |}.

Definition host (t : Z) : Shipper.Host :=
  {| Shipper.CORETEXT_USER := None;
     Shipper.PROJECT_ID := None;
     Shipper.ORGANIZATION_ID := None;
     Shipper.now := t;
     Shipper.isoNow := "2024-01-01T00:00:00.000Z";
     Shipper.generateSessionId := fun _ => "notion-mcp-0-abcdefg"%string |}.

(** The log entry of the tests, with a message to tell entries apart. *)
Definition entry (msg : string) : Shipper.LogEntry :=
  {| Shipper.timestamp := "2024-01-01T00:00:00.000Z";
     Shipper.level := "info";
     Shipper.sessionId := "test-session";
     Shipper.user := "test-user";
     Shipper.integration := "test";
     Shipper.component := "client";
     Shipper.action := "test_action";
     Shipper.message := msg;
     Shipper.serverName := "test-server";
     Shipper.projectId := None;
     Shipper.organizationId := None;
     Shipper.metadata := None |}.

(** The host of an awaited flush whose [t]-th attempt begins at
    second [t] of the first minute of 2024 and is answered 100 ms
    later. *)
Definition clock : Shipper.Clock :=
  {| Shipper.onAttempt := fun n =>
       {| Shipper.CORETEXT_USER := None;
          Shipper.PROJECT_ID := None;
          Shipper.ORGANIZATION_ID := None;
          Shipper.now := 1000 * n;
          Shipper.isoNow :=
            if n =? 1 then "2024-01-01T00:00:01.000Z"
            else if n =? 2 then "2024-01-01T00:00:02.000Z"
            else "2024-01-01T00:00:03.000Z";
          Shipper.generateSessionId := fun _ => "notion-mcp-0-abcdefg"%string |};
     Shipper.onArrival := fun n => host (1000 * n + 100) |}.

(** The entry of the tests with a level of its own. *)
Definition entryAt (lvl : string) : Shipper.LogEntry :=
  {| Shipper.timestamp := "2024-01-01T00:00:00.000Z";
     Shipper.level := lvl;
     Shipper.sessionId := "test-session";
     Shipper.user := "test-user";
     Shipper.integration := "test";
     Shipper.component := "client";
     Shipper.action := "test_action";
     Shipper.message := "Test log message";
     Shipper.serverName := "test-server";
     Shipper.projectId := None;
     Shipper.organizationId := None;
     Shipper.metadata := None |}.

(** The entry of the tests without timestamp and with metadata. *)
Definition entryWith (md : list (string * Shipper.MetaValue)) : Shipper.LogEntry :=
  {| Shipper.timestamp := EmptyString;
     Shipper.level := "info";
     Shipper.sessionId := "test-session";
     Shipper.user := "test-user";
     Shipper.integration := "test";
     Shipper.component := "client";
     Shipper.action := "test_action";
     Shipper.message := "Test log message";
     Shipper.serverName := "test-server";
     Shipper.projectId := None;
     Shipper.organizationId := None;
     Shipper.metadata := Some md |}.

(** A shipper as [new LogShipper(testConfig size retries)] leaves it. *)
Definition started (size retries : Z) : Shipper.Machine :=
  Shipper.boot (Shipper.startFlushTimer (Shipper.initial (testConfig size retries)) 1).

End Scenario.

(** ** RequestTracker: the periodic sweep and the shutdown *)

Module TrackerOps.
Import Js Tracker.

(** [age > maxAgeMs], where [age] is [now - context.startTime]. *)
Definition stale (maxAgeMs now : Z) (context : RequestContext) : bool :=
  maxAgeMs <? now - startTime context.

(** The body of the loop of [cleanupStaleRequests] for one entry
    [[requestId, context]] of [this.activeRequests]; the number is
    [cleanedCount].  The handle is aborted unless it already is. *)
Definition sweepEntry (maxAgeMs now : Z) (acc : RequestTracker * Z)
    (e : key * loc) : RequestTracker * Z :=
  match store acc.1 !! e.2 with
  | Some context =>
      if stale maxAgeMs now context then
        let t1 := log WARN "REQUEST_STALE" acc.1 in
        let t2 := abortThrough t1 e.2 (Some "Request timed out"%string) in
        (cleanup t2 e.1, acc.2 + 1)
      else acc
  | None => acc
  end.

(** [cleanupStaleRequests(maxAgeMs = 300000)]; [entries] is what
    [this.activeRequests.entries()] enumerates, [now] is [Date.now()]. *)
Definition cleanupStaleRequests (entries : list (key * loc))
    (t : RequestTracker) (maxAgeMs : option Z) (now : Z) : RequestTracker * Z :=
  let maxAge := default 300000 maxAgeMs in
  let r := foldl (sweepEntry maxAge now) (t, 0) entries in
  (if 0 <? r.2 then log INFO "STALE_CLEANUP_COMPLETE" r.1 else r.1, r.2).

(** [entries] enumerates the map, in some order. *)
Definition enumerates (entries : list (key * loc)) (t : RequestTracker) : Prop :=
  entries ≡ₚ map_to_list (activeRequests t).

(** [shutdown()]: every tracked context whose handle is not aborted is
    aborted, then both maps are cleared. *)
Definition shutdown (t : RequestTracker) : RequestTracker :=
  let t1 := log INFO "REQUEST_TRACKER_SHUTDOWN" t in
  {| store :=
       foldr (fun l s =>
                alter (fun c => with_abortController c
                                  (abort (Some "Server shutting down"%string)
                                         (abortController c))) l s)
             (store t1) (map_to_list (activeRequests t1)).*2;
     activeRequests := ∅;
     progressTokens := ∅;
     logger := logger t1 |}.

(** What [abort('Request timed out')] leaves of a context whose handle
    was not aborted. *)
Definition timedOut (c : RequestContext) : RequestContext :=
  with_abortController c
    {| aborted := true; reason := Some "Request timed out"%string |}.

(** Every entry of [progressTokens] leads to a tracked request that was
    registered with that token. *)
Definition tokensLead (t : RequestTracker) : Prop :=
  forall p id, progressTokens t !! p = Some id ->
    exists l c, activeRequests t !! id = Some l
                /\ store t !! l = Some c
                /\ progressToken c = Some p.

(** The states a tracker goes through: the calls of the server and of
    its periodic cleanup, from a new tracker. *)
Inductive reachable : RequestTracker -> Prop :=
| reach_new : reachable Tracker.new
| reach_perform t op : reachable t -> reachable (perform t op)
| reach_sweep t entries maxAgeMs now :
    reachable t ->
    enumerates entries t ->
    reachable (cleanupStaleRequests entries t maxAgeMs now).1
| reach_shutdown t : reachable t -> reachable (shutdown t).

End TrackerOps.

(** ** ProgressReporter: the periodic sweep, the shutdown and the calls
  made around one tool execution *)

Module ReporterOps.
Import Js Reporter.

(** The body of the loop of [cleanupCompletedRequests] for one
    [progressToken] of [this.progressStates]; the number is
    [cleanedCount]. *)
Definition sweepToken (t : Tracker.RequestTracker)
    (acc : gmap key ProgressState * Z) (tok : key) : gmap key ProgressState * Z :=
  if negb (Tracker.isProgressTokenActive t tok)
  then (delete tok acc.1, acc.2 + 1)
  else acc.

(** [cleanupCompletedRequests()]; [tokens] is what
    [this.progressStates.entries()] enumerates. *)
Definition cleanupCompletedRequests (tokens : list key)
    (t : Tracker.RequestTracker) (p : ProgressReporter) : ProgressReporter :=
  let r := foldl (sweepToken t) (progressStates p, 0) tokens in
  let p1 := {| progressStates := r.1; sent := sent p; logger := logger p |} in
  if 0 <? r.2 then log INFO "PROGRESS_CLEANUP_COMPLETED" p1 else p1.

(** [tokens] enumerates the keys of the state map, in some order. *)
Definition enumerates (tokens : list key) (p : ProgressReporter) : Prop :=
  tokens ≡ₚ (map_to_list (progressStates p)).*1.

(** [shutdown()] *)
Definition shutdown (p : ProgressReporter) : ProgressReporter :=
  let p1 := log INFO "PROGRESS_REPORTER_SHUTDOWN" p in
  {| progressStates := ∅; sent := sent p1; logger := logger p1 |}.

(** The state of the tracker, the clock and the fate of the
    notification at one awaited call. *)
Record Moment := {
  m_tracker : Tracker.RequestTracker;
  m_now : Z;
  m_delivered : bool
}.

Definition at_moment (m : Moment) (u : ProgressUpdate) : Call :=
  {| c_tracker := m_tracker m; c_update := u;
     c_now := m_now m; c_delivered := m_delivered m |}.

(** The update [{ progress, total: 100, message }]. *)
Definition percent (progress : Z) (msg : string) : ProgressUpdate :=
  {| progress := progress; total := Some 100; message := Some msg |}.

(** [context?.progressToken && progressReporter]: the token under
    which [executeTool] and the client method report, if any. *)
Definition reportingToken (context : Tracker.RequestContext) : option key :=
  match Tracker.progressToken context with
  | Some tok => if key_truthy tok then Some tok else None
  | None => None
  end.

(** The progress calls of one [executeTool] whose client request
    succeeds, in the order they are awaited: the tool's initial report,
    the client method's initial report, the client method's completion
    report after the HTTP response, the tool's completion report.  [op]
    is the name of the operation, as in ["list_databases"]. *)
Definition toolProgress (op : string) (context : Tracker.RequestContext)
    (m0 m1 m2 m3 : Moment) (p : ProgressReporter) : ProgressReporter :=
  match reportingToken context with
  | Some tok =>
      reports tok
        [ at_moment m0 (percent 0 ("Starting " ++ op ++ " operation..."));
          at_moment m1 (percent 0 ("Starting " ++ op ++ " request..."));
          at_moment m2 (percent 100 ("Completed " ++ op ++ " request"));
          at_moment m3 (percent 100 ("Completed " ++ op ++ " operation")) ]
        p
  | None => p
  end.

(** The last notification sent on the token [tok]. *)
Definition lastSent (tok : key) (p : ProgressReporter) : option Notification :=
  last (filter (fun n => n_progressToken n = tok) (sent p)).

(** The state kept for a token agrees with the last notification sent
    on it. *)
Definition mirrors (p : ProgressReporter) : Prop :=
  forall tok st,
    progressStates p !! tok = Some st ->
    1 <= updateCount st
    /\ exists n, lastSent tok p = Some n
                 /\ n_progress n = lastProgress st
                 /\ reachedTotal n = false.

(** The states a reporter goes through: the calls of its methods, from
    a new reporter. *)
Inductive reachable : ProgressReporter -> Prop :=
| reached_new : reachable Reporter.new
| reached_report t p tok u now delivered :
    reachable p -> reachable (report t p tok u now delivered)
| reached_percentage t p tok percentage msg now delivered :
    reachable p ->
    reachable (reportPercentage t p tok percentage msg now delivered)
| reached_step t p tok currentStep totalSteps msg now delivered :
    reachable p ->
    reachable (reportStep t p tok currentStep totalSteps msg now delivered)
| reached_cleanup p tok : reachable p -> reachable (cleanup p tok)
| reached_sweep tokens t p :
    reachable p -> enumerates tokens p ->
    reachable (cleanupCompletedRequests tokens t p)
| reached_shutdown p : reachable p -> reachable (shutdown p).

End ReporterOps.

(** ** LogShipper: health status and what the runs are measured by *)

Module ShipperOps.
Import Js Shipper.

(** The result of [getHealthStatus()]; [lastFlush] is the instant
    that the code prints as an ISO string. *)
Record HealthStatus := {
  healthy : bool;
  lastFlush : option Z;
  queueSize : nat;
  h_enabled : bool;
  h_endpoint : string;
  h_batchSize : Z;
  h_flushInterval : Z
}.

(** [getHealthStatus()]; [now] is [Date.now()]. *)
Definition getHealthStatus (s : LogShipper) (now : Z) : HealthStatus :=
  let timeSinceLastFlush := now - lastSuccessfulFlush s in
  let isHealthy :=
    enabled (config s)
    && ((lastSuccessfulFlush s =? 0)
        || (timeSinceLastFlush <? flushInterval (config s) * 3)) in
  {| healthy := isHealthy;
     lastFlush := if 0 <? lastSuccessfulFlush s
                  then Some (lastSuccessfulFlush s) else None;
     queueSize := length (logQueue s);
     h_enabled := enabled (config s);
     h_endpoint := endpoint (config s);
     h_batchSize := batchSize (config s);
     h_flushInterval := flushInterval (config s) |}.

(** [error.status || error.response?.status] of the error [sendLogs]
    rejects with when its [fetch] settles with [o]. *)
Definition failureStatus (c : LogShipperConfig) (o : FetchOutcome) : option Z :=
  match (sendLogsResult c o).2 with
  | Some f => statusOf f
  | None => None
  end.

(** [sendLogs] rejects on the outcome [o], with an error that
    [sendLogsWithRetry] retries. *)
Definition retryable (c : LogShipperConfig) (o : FetchOutcome) : Prop :=
  exists f, (sendLogsResult c o).2 = Some f /\ isClientError (statusOf f) = false.

(** The line [flush] prints after [sendLogsWithRetry] returned. *)
Definition shippedLine : Effect := Console "DEBUG" "Logs shipped successfully".

(** From [m] to [m'] the configuration is the same, output and settled
    promises were only added, and the time of the last successful flush
    changed only if [shippedLine] has been printed. *)
Definition ledger (m m' : Machine) : Prop :=
  config (shipper m') = config (shipper m)
  /\ io m `prefix_of` io m'
  /\ settled m `prefix_of` settled m'
  /\ (shippedLine ∉ io m' ->
      lastSuccessfulFlush (shipper m') = lastSuccessfulFlush (shipper m)).

(** The promise of a [flush] was resolved. *)
Definition resolved (r : nat * Caller * option Failure) : Prop := r.2 = None.

(** The queue holds fewer entries than a batch. *)
Definition belowBatch (m : Machine) : Prop :=
  Z.of_nat (length (logQueue (shipper m))) < batchSize (config (shipper m)).

(** From [m] to [m'] the configuration is the same, settled promises
    were only added, and a queue that was below the batch size still is
    unless a promise was rejected. *)
Definition keeps (m m' : Machine) : Prop :=
  config (shipper m') = config (shipper m)
  /\ settled m `prefix_of` settled m'
  /\ (belowBatch m -> Forall resolved (settled m') -> belowBatch m').

(** The batch of every suspended flush holds between one entry and
    [batchSize] entries. *)
Definition batchesSized (m : Machine) : Prop :=
  forall id t, pending m !! id = Some t ->
    (1 <= length (batch t) <= Z.to_nat (batchSize (config (shipper m))))%nat.

(** Every payload posted holds between one entry and [size] entries. *)
Definition payloadsSized (size : nat) (out : list Effect) : Prop :=
  Forall (fun p : list LogEntry => (1 <= length p <= size)%nat) (posts out).

(** Batches and payloads of [m] are within the batch size. *)
Definition sized (m : Machine) : Prop :=
  batchesSized m
  /\ payloadsSized (Z.to_nat (batchSize (config (shipper m)))) (io m).

(** The batch the flush [id] holds, if it is suspended. *)
Definition batchOf (m : Machine) (id : nat) : list LogEntry :=
  match pending m !! id with
  | Some t => batch t
  | None => []
  end.

(** The batches of the flushes numbered from [n] that are suspended,
    in the order the flushes were called. *)
Definition heldFrom (n : nat) (m : Machine) : list LogEntry :=
  flat_map (batchOf m) (seq n (nextFlush m - n)).

(** The entries the step [x] takes into the queue: the entry of an
    [addLog] that is not ignored. *)
Definition taken (m : Machine) (x : Event * Host) : list LogEntry :=
  match x.1 with
  | AddLog e =>
      if negb (enabled (config (shipper m))) || isShuttingDown (shipper m)
      then [] else [e]
  | _ => []
  end.

(** The entries the step [x] lets go of: the batch of a flush whose
    [sendLogsWithRetry] returns, after a response that [sendLogs] accepts
    or after its loop made no attempt. *)
Definition released (m : Machine) (x : Event * Host) : list LogEntry :=
  match x.1 with
  | Respond id o =>
      match pending m !! id with
      | Some t =>
          match phase t, (sendLogsResult (config (shipper m)) o).2 with
          | Fetching, None => batch t
          | _, _ => []
          end
      | None => []
      end
  | Resume id =>
      match pending m !! id with
      | Some t => match phase t with Returning => batch t | _ => [] end
      | None => []
      end
  | _ => []
  end.

Fixpoint takenIn (m : Machine) (xs : list (Event * Host)) : list LogEntry :=
  match xs with
  | [] => []
  | x :: rest => taken m x ++ takenIn (step m x) rest
  end.

Fixpoint releasedIn (m : Machine) (xs : list (Event * Host)) : list LogEntry :=
  match xs with
  | [] => []
  | x :: rest => released m x ++ releasedIn (step m x) rest
  end.

(** Every suspended flush is within its attempts: it waits for a
    response or for a delay, and a delay is followed by another
    attempt. *)
Definition attempting (m : Machine) : Prop :=
  forall id t, pending m !! id = Some t ->
    1 <= attempt t <= maxRetries (config (shipper m))
    /\ phase t <> Returning
    /\ (forall d, phase t = Sleeping d -> attempt t < maxRetries (config (shipper m))).

(** The clock of every event of the run prints as a non-empty string,
    as [new Date().toISOString()] does. *)
Definition clocked (xs : list (Event * Host)) : Prop :=
  Forall (fun x : Event * Host => isoNow x.2 <> EmptyString) xs.

End ShipperOps.

(** ** Server configuration *)

Module Config.
Import Js Shipper.

(** [ServerConfig]; [logLevel] is [config.logShipping.logLevel], a
    field the shipper does not read. *)
Record ServerConfig := {
  logShipping : LogShipperConfig;
  logLevel : string;
  nOTIONACCESSTOKEN : string
}.

Definition logLevels : list string := ["DEBUG"; "INFO"; "WARN"; "ERROR"; "FATAL"]%string.

Definition when (b : bool) (msg : string) : list string := if b then [msg] else [].

(** [validateConfig(config)]: the lines printed with [console.warn],
    and [errors]. *)
Definition validateConfig (cfg : ServerConfig) : list string * list string :=
  let c := logShipping cfg in
  let shipping :=
    if enabled c then
      when (negb (truthy (endpoint c)))
        "LOG_INGESTION_URL environment variable is required when log shipping is enabled"
      ++ when (apiKeyRequired c && negb (hasApiKey c))
           "LOG_INGESTION_API_KEY environment variable is required when LOG_SHIPPING_REQUIRE_API_KEY is true"
      ++ when (truthy (endpoint c) && negb (String.prefix "https://" (endpoint c)))
           "LOG_INGESTION_URL must use HTTPS protocol"
      ++ when ((batchSize c <? 1) || (1000 <? batchSize c))
           "LOG_SHIPPING_BATCH_SIZE must be between 1 and 1000"
      ++ when (flushInterval c <? 1000)
           "LOG_SHIPPING_INTERVAL must be at least 1000ms"
      ++ when (negb (bool_decide (logLevel cfg ∈ logLevels)))
           "LOG_LEVEL must be one of: DEBUG, INFO, WARN, ERROR, FATAL"
    else [] in
  let warnings :=
    if enabled c && negb (hasApiKey c) && negb (apiKeyRequired c) then
      [ "[CONFIG WARNING] LOG_INGESTION_API_KEY not set. Log shipping will work now but will require an API key in the future.";
        "[CONFIG WARNING] Set LOG_INGESTION_API_KEY to prepare for future requirements." ]%string
    else [] in
  (warnings,
   shipping
   ++ when (negb (truthy (nOTIONACCESSTOKEN cfg)))
        "NOTION_ACCESS_TOKEN environment variable is required for notion").

(** [validation.isValid] *)
Definition isValid (cfg : ServerConfig) : bool :=
  (length (validateConfig cfg).2 =? 0)%nat.

End Config.

(** ** LogBatcher *)

Module Batcher.
Import Js Shipper.

Record LogBatcher := {
  logs : list LogEntry;
  maxBatchSize : Z;
  flushInterval : Z;
  sessionId : string;
  flushTimer : option nat
}.

(** [new LogBatcher(logShipper, maxBatchSize = 500, flushInterval = 5000)];
    [session] is what [generateSessionId()] returns and [timer] the
    handle of [setInterval]. *)
Definition new (size interval : option Z) (session : string) (timer : nat)
  : LogBatcher :=
  {| logs := [];
     maxBatchSize := default 500 size;
     flushInterval := default 5000 interval;
     sessionId := session;
     flushTimer := Some timer |}.

Definition with_logs (b : LogBatcher) (l : list LogEntry) : LogBatcher :=
  {| logs := l;
     maxBatchSize := maxBatchSize b;
     flushInterval := flushInterval b;
     sessionId := sessionId b;
     flushTimer := flushTimer b |}.

(** The loop [for (const logEntry of batch) this.logShipper.addLog(logEntry)]. *)
Definition handOver (batch : list LogEntry) (h : Host) (m : Machine) : Machine :=
  foldl (fun m e => addLog e h m) m batch.

(** [flush()], up to its [await]: the batcher and its shipper after
    the entries were handed over and [logShipper.flush()] was called.
    When the promise of that call is rejected, the batcher prints the
    error and goes on. *)
Definition flush (h : Host) (b : LogBatcher) (m : Machine) : LogBatcher * Machine :=
  if (length (logs b) =? 0)%nat then (b, m)
  else
    let size := Z.to_nat (maxBatchSize b) in
    (with_logs b (drop size (logs b)),
     Shipper.flush Direct h (handOver (take size (logs b)) h m)).

(** [addStructuredLog(logEntry)] *)
Definition addStructuredLog (e : LogEntry) (h : Host) (b : LogBatcher) (m : Machine)
  : LogBatcher * Machine :=
  let b1 := with_logs b (logs b ++ [e]) in
  if maxBatchSize b <=? Z.of_nat (length (logs b1)) then flush h b1 m else (b1, m).

(** [getSessionId()] *)
Definition getSessionId (b : LogBatcher) : string := sessionId b.

End Batcher.

(** ** Logger *)

Module Logging.
Import Js Shipper.

Record LoggerConfig := {
  logLevel : string;
  component : string;
  enableConsole : bool;
  enableShipping : bool;
  serverName : string
}.

Record Logger := {
  config : LoggerConfig;
  batcher : option Batcher.LogBatcher
}.

(** [new Logger(config)]; [shipper] tells whether [config.logShipper]
    is given. *)
Definition construct (c : LoggerConfig) (shipper : bool) (session : string)
    (timer : nat) : Logger :=
  {| config := c;
     batcher := if enableShipping c && shipper
                then Some (Batcher.new None None session timer) else None |}.

Definition levelName (l : Level) : string :=
  match l with
  | DEBUG => "DEBUG" | INFO => "INFO" | WARN => "WARN"
  | ERROR => "ERROR" | FATAL => "FATAL"
  end.

(** The rank of a level. *)
Definition priority (l : Level) : Z :=
  match l with
  | DEBUG => 0 | INFO => 1 | WARN => 2 | ERROR => 3 | FATAL => 4
  end.

(** [this.logLevelPriority[name]]; a name that is no key of the table
    gives no number. *)
Definition logLevelPriority (name : string) : option Z :=
  if String.eqb name "DEBUG" then Some 0
  else if String.eqb name "INFO" then Some 1
  else if String.eqb name "WARN" then Some 2
  else if String.eqb name "ERROR" then Some 3
  else if String.eqb name "FATAL" then Some 4
  else None.

(** The test at the head of [log], negated: the entry is processed.
    A comparison with no number is false. *)
Definition processed (c : LoggerConfig) (l : Level) : bool :=
  match logLevelPriority (levelName l), logLevelPriority (logLevel c) with
  | Some p, Some q => negb (p <? q)
  | _, _ => true
  end.

(** [String.prototype.toUpperCase] on the ASCII letters. *)
Definition upper_ascii (c : Ascii.ascii) : Ascii.ascii :=
  let n := Ascii.nat_of_ascii c in
  if ((97 <=? n) && (n <=? 122))%nat then Ascii.ascii_of_nat (n - 32) else c.

Fixpoint toUpperCase (s : string) : string :=
  match s with
  | EmptyString => EmptyString
  | String c r => String (upper_ascii c) (toUpperCase r)
  end.

(** [fullLogEntry]: what [log] hands to the batcher.  It has no
    [level] and no [serverName]; an absent field and the empty string are
    both falsy, which is all the shipper tests. *)
Definition fullLogEntry (c : LoggerConfig) (session : string) (h : Host)
    (action message : string) (md : option (list (string * MetaValue))) : LogEntry :=
  {| timestamp := isoNow h;
     level := EmptyString;
     sessionId := session;
     user := opt_or_else (CORETEXT_USER h) "unknown";
     integration := EmptyString;
     Shipper.component := component c;
     Shipper.action := action;
     Shipper.message := message;
     Shipper.serverName := EmptyString;
     projectId := Some (opt_or_else (PROJECT_ID h) EmptyString);
     organizationId := Some (opt_or_else (ORGANIZATION_ID h) EmptyString);
     metadata := md |}.

(** One line written with [console.error]: its prefix and the entry
    printed, which carries the level. *)
Record Line := {
  l_prefix : string;
  l_level : string;
  l_entry : LogEntry
}.

(** What a call of [log] leaves: whether it threw, the lines printed,
    the logger and the shipper. *)
Record Outcome := {
  threw : bool;
  printed : list Line;
  o_logger : Logger;
  o_machine : Machine
}.

(** [log(level, action, message, metadata?)]; [generated] is the
    session id made up when there is no batcher, and the metadata, when
    given, is an object.  The line for the console is made with
    [JSON.stringify(logEntry)] before anything is handed to the batcher:
    when the metadata does not serialise, the call throws there. *)
Definition log (lg : Logger) (generated : string) (h : Host) (l : Level)
    (action message : string) (md : option (list (string * MetaValue)))
    (m : Machine) : Outcome :=
  let c := config lg in
  if negb (processed c l)
  then {| threw := false; printed := []; o_logger := lg; o_machine := m |}
  else
    let session :=
      match batcher lg with
      | Some b => or_else (Batcher.getSessionId b) generated
      | None => generated
      end in
    let e := fullLogEntry c session h action message md in
    if enableConsole c && negb (serializable md)
    then {| threw := true; printed := []; o_logger := lg; o_machine := m |}
    else
      let lines :=
        if enableConsole c
        then [ {| l_prefix := "-" ++ toUpperCase (component c);
                  l_level := levelName l;
                  l_entry := e |} ]
        else [] in
      match batcher lg with
      | Some b =>
          if enableShipping c then
            let r := Batcher.addStructuredLog e h b m in
            {| threw := false;
               printed := lines;
               o_logger := {| config := c; batcher := Some r.1 |};
               o_machine := r.2 |}
          else {| threw := false; printed := lines; o_logger := lg; o_machine := m |}
      | None => {| threw := false; printed := lines; o_logger := lg; o_machine := m |}
      end.

End Logging.

(** ** The server's periodic cleanup *)

Module Server.
Import Js.

(** The callback the server gives to [setInterval]:
    [requestTracker.cleanupStaleRequests()] followed by
    [progressReporter.cleanupCompletedRequests()].  [entries] and
    [tokens] are what the two loops enumerate. *)
Definition periodicCleanup (entries : list (key * Tracker.loc)) (tokens : list key)
    (t : Tracker.RequestTracker) (p : Reporter.ProgressReporter) (now : Z)
  : Tracker.RequestTracker * Reporter.ProgressReporter :=
  let t' := (TrackerOps.cleanupStaleRequests entries t None now).1 in
  (t', ReporterOps.cleanupCompletedRequests tokens t' p).

End Server.

(** * Properties *)

(** ** RequestTracker: registration and cancellation *)

Module TrackerFacts.
Import Js Tracker Scenario.

Lemma log_store l code t : store (log l code t) = store t.
Proof. reflexivity. Qed.

Lemma cleanup_store t id : store (cleanup t id) = store t.
Proof.
  unfold cleanup.
  destruct (activeRequests t !! id) as [l|]; [|reflexivity].
  destruct (store t !! l); reflexivity.
Qed.

Lemma cleanup_removes t id l context :
  activeRequests t !! id = Some l ->
  store t !! l = Some context ->
  activeRequests (cleanup t id) !! id = None.
Proof.
  intros Hid Hl. unfold cleanup. rewrite Hid, Hl. simpl.
  apply lookup_delete_eq.
Qed.

Lemma cleanup_forgets_token t id l context p :
  activeRequests t !! id = Some l ->
  store t !! l = Some context ->
  progressToken context = Some p ->
  progressTokens (cleanup t id) !! p = None.
Proof.
  intros Hid Hl Hp. unfold cleanup. rewrite Hid, Hl. simpl.
  rewrite Hp. apply lookup_delete_eq.
Qed.

(** A registration leaves the id tracked under the reference it
    returns. *)
Lemma registerRequest_tracked t id tok tool now :
  activeRequests (registerRequest t id tok tool now).1 !! id
  = Some (registerRequest t id tok tool now).2.
Proof.
  unfold registerRequest.
  destruct (activeRequests t !! id) as [l|] eqn:Hid; simpl.
  - exact Hid.
  - apply lookup_insert_eq.
Qed.

(** A first registration allocates a context that did not exist. *)
Lemma registerRequest_fresh t id tok tool now :
  activeRequests t !! id = None ->
  let r := registerRequest t id tok tool now in
  store t !! r.2 = None
  /\ store r.1 !! r.2
     = Some {| requestId := id; abortController := newAbortController;
               progressToken := tok; startTime := now; toolName := tool |}.
Proof.
  intros Hid. unfold registerRequest. rewrite Hid. simpl. split.
  - apply not_elem_of_dom. apply is_fresh.
  - apply lookup_insert_eq.
Qed.

(** C5.  Registering an id that is still tracked returns the reference
    the first registration returned; the store of contexts is the same
    before and after, so no context and no cancellation handle is
    created and no field (start time, progress token, tool name, handle)
    of the existing context is written; the two maps are unchanged. *)
Theorem registerRequest_duplicate :
  forall t id tok tool now,
    let first := registerRequest t id tok tool now in
    activeRequests first.1 !! id = Some first.2
    /\ forall t' tok' tool' now',
        activeRequests t' !! id = Some first.2 ->
        let second := registerRequest t' id tok' tool' now' in
        second.2 = first.2
        /\ store second.1 = store t'
        /\ activeRequests second.1 = activeRequests t'
        /\ progressTokens second.1 = progressTokens t'.
Proof.
  intros t id tok tool now first. split.
  - apply registerRequest_tracked.
  - intros t' tok' tool' now' Hid second.
    subst second. unfold registerRequest at 1 2 3 4. rewrite Hid.
    simpl. repeat split; reflexivity.
Qed.

Lemma registerRequest_duplicate_witness :
  let first := registerRequest Tracker.new req1 (Some tok1) None 1000 in
  activeRequests first.1 !! req1 = Some first.2
  /\ let second := registerRequest first.1 req1 None (Some "other"%string) 9000 in
     second.2 = first.2
     /\ store second.1 = store first.1
     /\ activeRequests second.1 = activeRequests first.1
     /\ progressTokens second.1 = progressTokens first.1.
Proof.
  pose proof (registerRequest_duplicate Tracker.new req1 (Some tok1) None 1000)
    as [Htracked Hdup].
  split; [exact Htracked|].
  apply (Hdup _ None (Some "other"%string) 9000). exact Htracked.
Defined.

(** C4, as amended.  For an id that is tracked and whose handle is
    not yet cancelled, the first [cancelRequest] returns [true], leaves
    the handle cancelled with the reason given and cleans up (the id and
    its progress token are forgotten); a second [cancelRequest] on that
    id returns [false] and leaves every context, hence what a holder of
    the reference reads, as the first call left it.  On an id that is not
    tracked [cancelRequest] returns [false].  On an id that is tracked
    and whose handle is cancelled already, [cancelRequest] returns
    [false] as well, and changes neither a context nor the two maps: the
    id stays tracked. *)
Theorem cancelRequest_idempotent :
  forall t id l context r1 r2,
    activeRequests t !! id = Some l ->
    store t !! l = Some context ->
    aborted (abortController context) = false ->
    let first := cancelRequest t id r1 in
    let second := cancelRequest first.1 id r2 in
    first.2 = true
    /\ observedAborted first.1 l = Some true
    /\ observedReason first.1 l = Some r1
    /\ activeRequests first.1 !! id = None
    /\ (forall p, progressToken context = Some p ->
                  progressTokens first.1 !! p = None)
    /\ second.2 = false
    /\ store second.1 = store first.1
    /\ observedAborted second.1 l = Some true
    /\ observedReason second.1 l = Some r1
    /\ (forall t' id' r, activeRequests t' !! id' = None ->
                         (cancelRequest t' id' r).2 = false
                         /\ store (cancelRequest t' id' r).1 = store t')
    /\ (forall t' id' l' context' r,
          activeRequests t' !! id' = Some l' ->
          store t' !! l' = Some context' ->
          aborted (abortController context') = true ->
          (cancelRequest t' id' r).2 = false
          /\ store (cancelRequest t' id' r).1 = store t'
          /\ activeRequests (cancelRequest t' id' r).1 = activeRequests t'
          /\ progressTokens (cancelRequest t' id' r).1 = progressTokens t').
Proof.
  intros t id l context r1 r2 Hid Hl Hlive first second.
  assert (Hfirst : first =
    (cleanup (log INFO "REQUEST_CANCELLED"
       {| store := <[l := with_abortController context
                            {| aborted := true; reason := r1 |}]> (store t);
          activeRequests := activeRequests t;
          progressTokens := progressTokens t;
          logger := logger t |}) id, true)).
  { subst first. unfold cancelRequest. rewrite Hid, Hl, Hlive.
    unfold abort. rewrite Hlive. reflexivity. }
  assert (Hstore1 : store first.1 !! l
                    = Some (with_abortController context
                              {| aborted := true; reason := r1 |})).
  { rewrite Hfirst. simpl. rewrite cleanup_store. simpl.
    apply lookup_insert_eq. }
  assert (Hgone : activeRequests first.1 !! id = None).
  { rewrite Hfirst. simpl.
    eapply cleanup_removes with (l := l); simpl.
    - exact Hid.
    - apply lookup_insert_eq. }
  assert (Hsecond : second = (log DEBUG "CANCEL_REQUEST_NOT_FOUND" first.1, false)).
  { subst second. unfold cancelRequest. rewrite Hgone. reflexivity. }
  assert (Hobs : observedAborted first.1 l = Some true
                 /\ observedReason first.1 l = Some r1).
  { unfold observedAborted, observedReason. rewrite Hstore1. split; reflexivity. }
  destruct Hobs as [Hobs1 Hobs2].
  split; [rewrite Hfirst; reflexivity|].
  split; [exact Hobs1|].
  split; [exact Hobs2|].
  split; [exact Hgone|].
  split.
  { intros p Hp. rewrite Hfirst. simpl.
    eapply cleanup_forgets_token with (l := l); simpl.
    - exact Hid.
    - apply lookup_insert_eq.
    - exact Hp. }
  split; [rewrite Hsecond; reflexivity|].
  split; [rewrite Hsecond; reflexivity|].
  split; [rewrite Hsecond; exact Hobs1|].
  split; [rewrite Hsecond; exact Hobs2|].
  split.
  - intros t' id' r Hnone. unfold cancelRequest. rewrite Hnone. split; reflexivity.
  - intros t' id' l' context' r Hid' Hl' Hdone. unfold cancelRequest.
    rewrite Hid', Hl', Hdone. repeat split; reflexivity.
Qed.

Lemma cancelRequest_idempotent_witness :
  let first := cancelRequest tracked1 req1 (Some "User cancelled"%string) in
  let second := cancelRequest first.1 req1 (Some "again"%string) in
  first.2 = true
  /\ observedAborted first.1 ctx1 = Some true
  /\ observedReason first.1 ctx1 = Some (Some "User cancelled"%string)
  /\ second.2 = false
  /\ observedAborted second.1 ctx1 = Some true
  /\ observedReason second.1 ctx1 = Some (Some "User cancelled"%string)
  /\ (cancelRequest tracked1 (KStr "req-2") None).2 = false
  /\ (let t := abortThrough tracked1 ctx1 None in
      activeRequests (cancelRequest t req1 None).1 = activeRequests t).
Proof.
  assert (Hid : activeRequests tracked1 !! req1 = Some ctx1)
    by (vm_compute; reflexivity).
  assert (Hl : store tracked1 !! ctx1
               = Some {| requestId := req1; abortController := newAbortController;
                         progressToken := Some tok1; startTime := 1000;
                         toolName := None |})
    by (vm_compute; reflexivity).
  pose proof (cancelRequest_idempotent tracked1 req1 ctx1 _
                (Some "User cancelled"%string) (Some "again"%string)
                Hid Hl eq_refl) as H.
  cbv zeta in H.
  destruct H as (H1 & H2 & H3 & _ & _ & H6 & _ & H8 & H9 & H10 & H12).
  assert (Hnone : activeRequests tracked1 !! KStr "req-2" = None)
    by (vm_compute; reflexivity).
  destruct (H10 tracked1 (KStr "req-2") None Hnone) as [H11 _].
  destruct (H12 (abortThrough tracked1 ctx1 None) req1 ctx1
              {| requestId := req1;
                 abortController := {| aborted := true; reason := None |};
                 progressToken := Some tok1; startTime := 1000;
                 toolName := None |} None)
    as (_ & _ & H13 & _).
  { vm_compute. reflexivity. }
  { vm_compute. reflexivity. }
  { reflexivity. }
  repeat split; assumption.
Defined.

(** C4, counterexample.  The id [req-1] is registered and the holder
    of its context cancels the handle itself, as the tests do.  The
    first [cancelRequest] on the id returns [false], does not set its
    reason, and does not clean up: the id and its progress token are
    still tracked. *)
Lemma cancelRequest_idempotent_counterexample :
  let t := abortThrough tracked1 ctx1 None in
  let first := cancelRequest t req1 (Some "User cancelled"%string) in
  activeRequests t !! req1 = Some ctx1
  /\ first.2 = false
  /\ observedReason first.1 ctx1 = Some None
  /\ activeRequests first.1 !! req1 = Some ctx1
  /\ progressTokens first.1 !! tok1 = Some req1.
Proof. vm_compute. repeat split; reflexivity. Qed.

(** When a holder of the reference has aborted the handle itself, the
    id stays tracked, is no longer active, and [cancelRequest] returns
    [false] without touching the contexts. *)
Lemma cancelRequest_after_direct_abort t id l context r r' :
  activeRequests t !! id = Some l ->
  store t !! l = Some context ->
  let t' := abortThrough t l r in
  isActive t' id = false
  /\ (cancelRequest t' id r').2 = false
  /\ store (cancelRequest t' id r').1 = store t'
  /\ activeRequests (cancelRequest t' id r').1 !! id = Some l.
Proof.
  intros Hid Hl t'.
  assert (Hl' : exists c, store t' !! l = Some c
                          /\ aborted (abortController c) = true).
  { subst t'. cbn [abortThrough store]. rewrite lookup_alter_eq, Hl. simpl.
    eexists. split; [reflexivity|]. unfold abort.
    destruct (aborted (abortController context)) eqn:Ha; simpl; [exact Ha|reflexivity]. }
  destruct Hl' as (c & Hc & Ha).
  assert (Hid' : activeRequests t' !! id = Some l) by exact Hid.
  unfold isActive, getRequest, cancelRequest.
  rewrite Hid'. cbn [mbind option_bind]. rewrite Hc, Ha.
  repeat split; try reflexivity. exact Hid'.
Qed.

(** *** States the tracker reaches through its own methods *)

Lemma log_consistent l code t : consistent t -> consistent (log l code t).
Proof. intros H. exact H. Qed.

Lemma cleanup_consistent t id : consistent t -> consistent (cleanup t id).
Proof.
  intros [Hlive Hinj]. unfold cleanup.
  destruct (activeRequests t !! id) as [l|] eqn:Hid; [|split; assumption].
  destruct (store t !! l) as [context|] eqn:Hl; [|split; assumption].
  split; simpl.
  - intros id0 l0 H0. apply lookup_delete_Some in H0 as [_ H0]. eauto.
  - intros id0 id1 l0 H0 H1.
    apply lookup_delete_Some in H0 as [_ H0].
    apply lookup_delete_Some in H1 as [_ H1]. eauto.
Qed.

Lemma registerRequest_consistent t id tok tool now :
  consistent t -> consistent (registerRequest t id tok tool now).1.
Proof.
  intros [Hlive Hinj]. unfold registerRequest.
  destruct (activeRequests t !! id) as [l|] eqn:Hid; [split; assumption|].
  assert (Hfresh : store t !! fresh (dom (store t)) = None)
    by (apply not_elem_of_dom, is_fresh).
  split; simpl.
  - intros id0 l0 H0. apply lookup_insert_Some in H0 as [[<- <-]|[Hne H0]].
    + eexists. split; [apply lookup_insert_eq|reflexivity].
    + destruct (Hlive id0 l0 H0) as (c & Hc & Hlivec).
      exists c. split; [|exact Hlivec].
      rewrite lookup_insert_ne; [exact Hc|]. intros <-. congruence.
  - intros id0 id1 l0 H0 H1.
    apply lookup_insert_Some in H0 as [[<- <-]|[Hne0 H0]];
      apply lookup_insert_Some in H1 as [[<- Hl1]|[Hne1 H1]]; try reflexivity.
    + destruct (Hlive id1 _ H1) as (c & Hc & _). congruence.
    + subst l0. destruct (Hlive id0 _ H0) as (c & Hc & _). congruence.
    + eauto.
Qed.

Lemma cancelRequest_consistent t id r :
  consistent t -> consistent (cancelRequest t id r).1.
Proof.
  intros Hcons. pose proof Hcons as [Hlive Hinj]. unfold cancelRequest.
  destruct (activeRequests t !! id) as [l|] eqn:Hid; [|exact Hcons].
  destruct (store t !! l) as [context|] eqn:Hl; [|exact Hcons].
  destruct (aborted (abortController context)); [exact Hcons|].
  cbn [fst]. unfold cleanup. cbn [activeRequests log store]. rewrite Hid.
  rewrite lookup_insert_eq. split; simpl.
  - intros id0 l0 H0. apply lookup_delete_Some in H0 as [Hne H0].
    destruct (Hlive id0 l0 H0) as (c & Hc & Hlivec).
    exists c. split; [|exact Hlivec].
    rewrite lookup_insert_ne; [exact Hc|].
    intros <-. apply Hne. exact (Hinj _ _ _ Hid H0).
  - intros id0 id1 l0 H0 H1.
    apply lookup_delete_Some in H0 as [_ H0].
    apply lookup_delete_Some in H1 as [_ H1]. eauto.
Qed.

Lemma perform_consistent t op : consistent t -> consistent (perform t op).
Proof.
  destruct op; simpl.
  - apply registerRequest_consistent.
  - apply cancelRequest_consistent.
  - apply cleanup_consistent.
Qed.

Lemma new_consistent : consistent Tracker.new.
Proof.
  split.
  - intros id l H. cbn in H. rewrite lookup_empty in H. discriminate.
  - intros id id' l H. cbn in H. rewrite lookup_empty in H. discriminate.
Qed.

Lemma performed_consistent ops :
  forall t, consistent t -> consistent (foldl perform t ops).
Proof.
  induction ops as [|op ops IH]; intros t H; [exact H|].
  simpl. apply IH, perform_consistent, H.
Qed.

(** After any sequence of registrations, cancellations and cleanups on
    a new tracker, every id that is tracked is active, and cancelling it
    returns [true]. *)
Lemma tracked_is_live ops id l :
  let t := foldl perform Tracker.new ops in
  activeRequests t !! id = Some l ->
  isActive t id = true /\ forall r, (cancelRequest t id r).2 = true.
Proof.
  intros t Hid.
  destruct (performed_consistent ops Tracker.new new_consistent) as [Hlive _].
  destruct (Hlive id l Hid) as (c & Hc & Hlivec).
  split.
  - unfold isActive, getRequest. fold t. rewrite Hid. simpl.
    fold t in Hc. rewrite Hc, Hlivec. reflexivity.
  - intros r. unfold cancelRequest. rewrite Hid. fold t in Hc.
    rewrite Hc, Hlivec. reflexivity.
Qed.

End TrackerFacts.

(** ** ProgressReporter: monotonicity, rate limit, failed emission *)

Module ReporterFacts.
Import Js Reporter Scenario.

(** [report] either drops the update or emits it; it emits exactly
    when the guards pass and the notification is delivered. *)
Lemma report_cases t p tok u now delivered :
  let q := report t p tok u now delivered in
  (dropped p q /\ ~ (admitted t p tok u now /\ delivered = true))
  \/ (admitted t p tok u now /\ delivered = true
      /\ sent q = sent p ++ [notificationOf tok u]
      /\ progressStates q = accepted p tok u now).
Proof.
  unfold report, admitted, accepted, dropped.
  destruct (Tracker.isProgressTokenActive t tok) eqn:Hact; simpl.
  2: { left. split; [split; reflexivity|]. intros [[H _] _]. discriminate. }
  destruct (progressStates p !! tok) as [st|] eqn:Hst.
  - destruct (progress u <=? lastProgress st) eqn:Hle.
    { left. split; [split; reflexivity|].
      intros [[_ H] _]. destruct (H st eq_refl). lia. }
    destruct (now - lastUpdateTime st <? minUpdateInterval) eqn:Hrate.
    { left. split; [split; reflexivity|].
      intros [[_ H] _]. destruct (H st eq_refl). lia. }
    destruct delivered.
    2: { left. split; [split; reflexivity|]. intros [_ H]. discriminate. }
    right. split; [|split; [reflexivity|]].
    { split; [reflexivity|]. intros st' [= <-]. lia. }
    destruct (isComplete u); simpl.
    + unfold cleanup. simpl. rewrite lookup_insert_eq. simpl.
      split; [reflexivity|]. apply delete_insert_eq.
    + split; reflexivity.
  - destruct delivered.
    2: { left. split; [split; reflexivity|]. intros [_ H]. discriminate. }
    right. split; [|split; [reflexivity|]].
    { split; [reflexivity|]. intros st' [=]. }
    destruct (isComplete u); simpl.
    + unfold cleanup. simpl. rewrite lookup_insert_eq. simpl.
      split; [reflexivity|]. apply delete_insert_eq.
    + split; reflexivity.
Qed.

Lemma emittedSince_refl p : emittedSince p p = [].
Proof. unfold emittedSince. apply drop_all. Qed.

Lemma emittedSince_app p q ns : sent q = sent p ++ ns -> emittedSince p q = ns.
Proof. intros H. unfold emittedSince. rewrite H. apply drop_app_length. Qed.

(** Notifications are only ever appended. *)
Lemma report_extends t p tok u now delivered :
  exists ns, sent (report t p tok u now delivered) = sent p ++ ns.
Proof.
  destruct (report_cases t p tok u now delivered)
    as [[[Hs _] _]|(_ & _ & Hs & _)].
  - exists []. rewrite Hs. symmetry. apply app_nil_r.
  - eauto.
Qed.

Lemma call_cases tok p c :
  let q := call tok p c in
  (dropped p q
   /\ ~ (admitted (c_tracker c) p tok (c_update c) (c_now c)
         /\ c_delivered c = true))
  \/ (admitted (c_tracker c) p tok (c_update c) (c_now c)
      /\ c_delivered c = true
      /\ sent q = sent p ++ [notificationOf tok (c_update c)]
      /\ progressStates q = accepted p tok (c_update c) (c_now c)).
Proof. apply report_cases. Qed.

Lemma call_extends tok p c : exists ns, sent (call tok p c) = sent p ++ ns.
Proof. apply report_extends. Qed.

Lemma reports_cons tok c calls p :
  reports tok (c :: calls) p
  = reports tok calls (call tok p c).
Proof. reflexivity. Qed.

Lemma reports_extends tok calls :
  forall p, exists ns, sent (reports tok calls p) = sent p ++ ns.
Proof.
  induction calls as [|c calls IH]; intros p.
  - exists []. symmetry. apply app_nil_r.
  - rewrite reports_cons.
    destruct (IH (call tok p c))
      as [ns Hns].
    destruct (call_extends tok p c)
      as [ms Hms].
    exists (ms ++ ns). rewrite Hns, Hms.
    symmetry. apply app_assoc.
Qed.

(** The emissions of a sequence of calls are those of the first call
    followed by those of the rest. *)
Lemma emittedSince_cons tok c calls p :
  let q := call tok p c in
  emittedSince p (reports tok (c :: calls) p)
  = emittedSince p q ++ emittedSince q (reports tok calls q).
Proof.
  intros q. rewrite reports_cons. fold q.
  destruct (call_extends tok p c)
    as [ms Hms]. fold q in Hms.
  destruct (reports_extends tok calls q) as [ns Hns].
  rewrite (emittedSince_app p q ms Hms), (emittedSince_app q _ ns Hns).
  apply emittedSince_app. rewrite Hns, Hms.
  symmetry. apply app_assoc.
Qed.

Lemma reachedTotal_notificationOf tok u :
  reachedTotal (notificationOf tok u) = isComplete u.
Proof. reflexivity. Qed.

(** The emissions of any sequence of calls increase until a total is
    reached, and the first of them exceeds the progress on record. *)
Lemma reports_increasing tok calls :
  forall p,
    let ns := emittedSince p (reports tok calls p) in
    increasingUntilTotal ns
    /\ forall st n, progressStates p !! tok = Some st ->
                    head ns = Some n ->
                    lastProgress st < n_progress n.
Proof.
  induction calls as [|c calls IH]; intros p ns.
  - subst ns. simpl. rewrite emittedSince_refl. split; [exact I|].
    intros st n _ [=].
  - subst ns. rewrite emittedSince_cons.
    set (q := call tok p c).
    destruct (IH q) as [IHinc IHhead].
    destruct (call_cases tok p c)
      as [[[Hs Hst] _]|([_ Hadm] & _ & Hs & Hst)]; fold q in Hs, Hst.
    + rewrite (emittedSince_app p q []) by (rewrite Hs; symmetry; apply app_nil_r).
      simpl. split; [exact IHinc|].
      intros st n Hp. apply IHhead. rewrite Hst. exact Hp.
    + rewrite (emittedSince_app p q _ Hs). simpl. split.
      * split; [|exact IHinc].
        destruct (emittedSince q (reports tok calls q)) as [|b rest] eqn:Hrest;
          [exact I|].
        destruct (isComplete (c_update c)) eqn:Hc.
        { right. rewrite reachedTotal_notificationOf. exact Hc. }
        left. simpl.
        refine (IHhead {| lastProgress := progress (c_update c);
                          lastUpdateTime := c_now c;
                          updateCount := _ |} b _ eq_refl).
        rewrite Hst. unfold accepted. rewrite Hc. apply lookup_insert_eq.
      * intros st n Hp [= <-]. simpl. destruct (Hadm st Hp); assumption.
Qed.

(** Every emission of a sequence of calls carries the update of one of
    the calls. *)
Lemma reports_emitted_from tok calls :
  forall p n,
    n ∈ emittedSince p (reports tok calls p) ->
    exists c, c ∈ calls /\ n = notificationOf tok (c_update c).
Proof.
  induction calls as [|c calls IH]; intros p n.
  - simpl. rewrite emittedSince_refl. intros H. inversion H.
  - rewrite emittedSince_cons.
    set (q := call tok p c).
    intros [Hin|Hin]%elem_of_app.
    + destruct (call_cases tok p c)
        as [[[Hs _] _]|(_ & _ & Hs & _)]; fold q in Hs.
      * rewrite (emittedSince_app p q []) in Hin
          by (rewrite Hs; symmetry; apply app_nil_r).
        inversion Hin.
      * rewrite (emittedSince_app p q _ Hs) in Hin.
        apply list_elem_of_singleton in Hin. exists c. split; [left|exact Hin].
    + destruct (IH q n Hin) as (c' & Hc' & Hn).
      exists c'. split; [right; exact Hc'|exact Hn].
Qed.

Lemma increasing_sorted ns :
  increasingUntilTotal ns ->
  Forall (fun n => reachedTotal n = false) ns ->
  StronglySorted Z.lt (n_progress <$> ns).
Proof.
  induction ns as [|a rest IH]; intros Hinc Hno; simpl.
  - constructor.
  - destruct Hinc as [Hab Hinc]. inversion Hno as [|? ? Ha Hrest]; subst.
    specialize (IH Hinc Hrest). constructor; [exact IH|].
    destruct rest as [|b rest']; simpl; [constructor|].
    destruct Hab as [Hab|Hab]; [|congruence].
    inversion IH as [|? ? _ Hall]; subst.
    constructor; [exact Hab|].
    eapply Forall_impl; [exact Hall|]. simpl. intros x Hx. lia.
Qed.

Lemma report_dropped_not_increasing t p tok u now delivered st :
  progressStates p !! tok = Some st ->
  progress u <= lastProgress st ->
  dropped p (report t p tok u now delivered).
Proof.
  intros Hst Hle.
  destruct (report_cases t p tok u now delivered)
    as [[Hd _]|([_ Hadm] & _)]; [exact Hd|].
  destruct (Hadm st Hst). lia.
Qed.

Lemma report_dropped_rate_limited t p tok u now delivered st :
  progressStates p !! tok = Some st ->
  now - lastUpdateTime st < minUpdateInterval ->
  dropped p (report t p tok u now delivered).
Proof.
  intros Hst Hlt.
  destruct (report_cases t p tok u now delivered)
    as [[Hd _]|([_ Hadm] & _)]; [exact Hd|].
  destruct (Hadm st Hst). lia.
Qed.

(** C1, as amended.  On any channel, a [report] whose progress is not
    above the progress on record is dropped: no notification, no change
    of the state map.  Over any sequence of [report] calls each emitted
    progress value is strictly above the one emitted before it, unless
    that one had reached its total (which removes the record).  When no
    update of the sequence reaches its total the emitted values are
    strictly increasing, and all are above the progress on record at the
    start. *)
Theorem report_monotone :
  forall tok,
    (forall t p u now delivered st,
        progressStates p !! tok = Some st ->
        progress u <= lastProgress st ->
        let q := report t p tok u now delivered in
        sent q = sent p /\ progressStates q = progressStates p)
    /\ (forall p calls,
          let ns := emittedSince p (reports tok calls p) in
          increasingUntilTotal ns
          /\ (Forall (fun c => isComplete (c_update c) = false) calls ->
              StronglySorted Z.lt (n_progress <$> ns)
              /\ forall st, progressStates p !! tok = Some st ->
                            Forall (fun n => lastProgress st < n_progress n) ns)).
Proof.
  intros tok. split.
  - intros t p u now delivered st Hst Hle.
    exact (report_dropped_not_increasing t p tok u now delivered st Hst Hle).
  - intros p calls ns.
    destruct (reports_increasing tok calls p) as [Hinc Hhead]. fold ns in Hinc, Hhead.
    split; [exact Hinc|].
    intros Hno.
    assert (Hopen : Forall (fun n => reachedTotal n = false) ns).
    { apply Forall_forall. intros n Hn.
      destruct (reports_emitted_from tok calls p n Hn) as (c & Hc & ->).
      rewrite reachedTotal_notificationOf.
      rewrite Forall_forall in Hno. exact (Hno c Hc). }
    pose proof (increasing_sorted ns Hinc Hopen) as Hsorted.
    split; [exact Hsorted|].
    intros st Hst.
    destruct ns as [|a rest]; [constructor|].
    specialize (Hhead st a Hst eq_refl).
    simpl in Hsorted. inversion Hsorted as [|? ? _ Hall]; subst.
    constructor; [exact Hhead|].
    rewrite Forall_fmap in Hall.
    eapply Forall_impl; [exact Hall|]. simpl. intros n Hn. lia.
Qed.

Lemma report_monotone_witness :
  let p := report tracked1 Reporter.new tok1 (update 50 None) 1000 true in
  let q := report tracked1 p tok1 (update 40 None) 5000 true in
  let calls := [ {| c_tracker := tracked1; c_update := update 60 (Some 100);
                    c_now := 2000; c_delivered := true |};
                 {| c_tracker := tracked1; c_update := update 55 (Some 100);
                    c_now := 3000; c_delivered := true |};
                 {| c_tracker := tracked1; c_update := update 80 (Some 100);
                    c_now := 4000; c_delivered := true |} ] in
  let ns := emittedSince p (reports tok1 calls p) in
  (sent q = sent p /\ progressStates q = progressStates p)
  /\ n_progress <$> ns = [60; 80]
  /\ StronglySorted Z.lt (n_progress <$> ns)
  /\ Forall (fun n => 50 < n_progress n) ns.
Proof.
  intros p q calls ns.
  destruct (report_monotone tok1) as [Hdrop Hseq].
  set (st := {| lastProgress := 50; lastUpdateTime := 1000; updateCount := 1 |}).
  assert (Hst : progressStates p !! tok1 = Some st) by (vm_compute; reflexivity).
  split.
  - apply (Hdrop tracked1 p (update 40 None) 5000 true st Hst). simpl. lia.
  - split; [vm_compute; reflexivity|].
    destruct (Hseq p calls) as [_ Hsorted].
    destruct Hsorted as [Hsorted Habove].
    + repeat constructor.
    + split; [exact Hsorted|]. exact (Habove st Hst).
Defined.

(** C1, counterexample.  With ["req-1"] active on channel ["tok-1"], a
    report of 100 out of 100 followed a second later by a report of 50
    out of 100 emits both: the emitted values are 100 then 50. *)
Lemma report_monotone_counterexample :
  let calls := [ {| c_tracker := tracked1; c_update := update 100 (Some 100);
                    c_now := 1000; c_delivered := true |};
                 {| c_tracker := tracked1; c_update := update 50 (Some 100);
                    c_now := 2000; c_delivered := true |} ] in
  let ns := emittedSince Reporter.new (reports tok1 calls Reporter.new) in
  n_progress <$> ns = [100; 50]
  /\ ~ StronglySorted Z.lt (n_progress <$> ns).
Proof.
  intros calls ns.
  assert (Hns : n_progress <$> ns = [100; 50]) by (vm_compute; reflexivity).
  split; [exact Hns|].
  rewrite Hns. intros Hsorted.
  inversion Hsorted as [|? ? _ Hall]; subst.
  inversion Hall as [|? ? Hlt _]; subst. lia.
Qed.

(** C6, as amended.  On a channel with a record, a [report] arriving
    less than 100 ms after the time on record is dropped: no
    notification, no change of the state map.  Of two [report] calls
    less than 100 ms apart, when the first is emitted and has not
    reached its total, the second is dropped. *)
Theorem report_rate_limited :
  forall tok,
    (forall t p u now delivered st,
        progressStates p !! tok = Some st ->
        now - lastUpdateTime st < minUpdateInterval ->
        let q := report t p tok u now delivered in
        sent q = sent p /\ progressStates q = progressStates p)
    /\ (forall t t' p u1 u2 t1 t2 d1 d2,
          let q := report t p tok u1 t1 d1 in
          let r := report t' q tok u2 t2 d2 in
          sent q = sent p ++ [notificationOf tok u1] ->
          isComplete u1 = false ->
          t2 - t1 < minUpdateInterval ->
          sent r = sent q /\ progressStates r = progressStates q).
Proof.
  intros tok. split.
  - intros t p u now delivered st Hst Hlt.
    exact (report_dropped_rate_limited t p tok u now delivered st Hst Hlt).
  - intros t t' p u1 u2 t1 t2 d1 d2 q r Hemit Hopen Hlt.
    destruct (report_cases t p tok u1 t1 d1)
      as [[[Hs _] _]|(_ & _ & _ & Hst)]; fold q in Hs || fold q in Hst.
    + rewrite Hs in Hemit. apply (f_equal length) in Hemit.
      rewrite length_app in Hemit. simpl in Hemit. lia.
    + unfold accepted in Hst. rewrite Hopen in Hst.
      eapply (report_dropped_rate_limited t' q tok u2 t2 d2).
      * rewrite Hst. apply lookup_insert_eq.
      * simpl. exact Hlt.
Qed.

Lemma report_rate_limited_witness :
  let p := Reporter.new in
  let q := report tracked1 p tok1 (update 10 None) 1000 true in
  let r := report tracked1 q tok1 (update 20 None) 1050 true in
  let r' := report tracked1 q tok1 (update 30 None) 1099 true in
  (sent r = sent q /\ progressStates r = progressStates q)
  /\ (sent r' = sent q /\ progressStates r' = progressStates q).
Proof.
  intros p q r r'.
  destruct (report_rate_limited tok1) as [Hone Hpair].
  split.
  - apply (Hpair tracked1 tracked1 p (update 10 None) (update 20 None)
             1000 1050 true true).
    + vm_compute. reflexivity.
    + reflexivity.
    + unfold minUpdateInterval. lia.
  - apply (Hone tracked1 q (update 30 None) 1099 true
             {| lastProgress := 10; lastUpdateTime := 1000; updateCount := 1 |}).
    + vm_compute. reflexivity.
    + unfold minUpdateInterval. simpl. lia.
Defined.

(** C6, counterexample.  With ["req-1"] active on channel ["tok-1"], a
    report of 100 out of 100 followed 10 ms later by a report of 150 out
    of 200 emits both, although the two are increasing and less than
    100 ms apart. *)
Lemma report_rate_limited_counterexample :
  let q := report tracked1 Reporter.new tok1 (update 100 (Some 100)) 1000 true in
  let r := report tracked1 q tok1 (update 150 (Some 200)) 1010 true in
  1010 - 1000 < minUpdateInterval
  /\ n_progress <$> sent q = [100]
  /\ n_progress <$> sent r = [100; 150].
Proof. vm_compute. repeat split; reflexivity. Qed.

(** C10.  When the notification throws, [report] leaves the state map
    and the notifications as they were; the same update, reported again
    at the same or a later time with the tracker unchanged, is then
    emitted if it had passed the guards the first time. *)
Theorem report_failed_emission :
  forall t p tok u now,
    let q := report t p tok u now false in
    progressStates q = progressStates p
    /\ sent q = sent p
    /\ forall now',
        admitted t p tok u now ->
        now <= now' ->
        let r := report t q tok u now' true in
        sent r = sent q ++ [notificationOf tok u]
        /\ progressStates r = accepted p tok u now'.
Proof.
  intros t p tok u now q.
  assert (Hq : dropped p q).
  { destruct (report_cases t p tok u now false)
      as [[Hd _]|(_ & Hfalse & _)]; [exact Hd|discriminate]. }
  destruct Hq as [Hs Hst].
  split; [exact Hst|]. split; [exact Hs|].
  intros now' [Hact Hadm] Hlater r.
  destruct (report_cases t q tok u now' true)
    as [[_ Hno]|(_ & _ & Hs' & Hst')]; fold r in Hs' || idtac.
  - exfalso. apply Hno. split; [|reflexivity].
    split; [exact Hact|]. intros st Hlook. rewrite Hst in Hlook.
    destruct (Hadm st Hlook). split; lia.
  - split; [exact Hs'|]. fold r in Hst'. rewrite Hst'.
    unfold accepted. rewrite Hst. reflexivity.
Qed.

Lemma report_failed_emission_witness :
  let q := report tracked1 Reporter.new tok1 (update 50 None) 1000 false in
  progressStates q = progressStates Reporter.new
  /\ sent q = []
  /\ sent (report tracked1 q tok1 (update 50 None) 1000 true)
     = [notificationOf tok1 (update 50 None)].
Proof.
  intros q.
  destruct (report_failed_emission tracked1 Reporter.new tok1 (update 50 None) 1000)
    as (Hst & Hs & Hretry).
  fold q in Hst, Hs, Hretry.
  split; [exact Hst|]. split; [exact Hs|].
  assert (Hadm : admitted tracked1 Reporter.new tok1 (update 50 None) 1000).
  { split; [vm_compute; reflexivity|]. intros st Hlook. inversion Hlook. }
  destruct (Hretry 1000 Hadm (Z.le_refl _)) as [Hr _].
  rewrite Hr, Hs. reflexivity.
Defined.

End ReporterFacts.

(** ** LogShipper: configuration and normalisation *)

Module ShipperFacts.
Import Js Shipper Scenario.

Lemma truthy_nonempty s : truthy s = true <-> s <> EmptyString.
Proof. destruct s; simpl; split; congruence. Qed.

Lemma truthy_empty s : truthy s = false <-> s = EmptyString.
Proof. destruct s; simpl; split; congruence. Qed.

(** C8, as amended.  A disabled configuration is accepted as it is:
    nothing is validated, nothing is printed and no timer is started.
    For an enabled configuration, construction throws exactly when the
    endpoint is empty or does not start with [https://], or an API key
    is required and none is present; when no API key is present, none is
    required and the endpoint is a non-empty HTTPS one, construction
    succeeds, starts the timer, and prints the API-key warning followed
    by the initialisation message. *)
Theorem construct_validates :
  forall c timer,
    (enabled c = false -> construct c timer = ([], Normal (initial c)))
    /\ (enabled c = true ->
        ((endpoint c = EmptyString
          \/ String.prefix "https://" (endpoint c) = false
          \/ (apiKeyRequired c = true /\ hasApiKey c = false))
         <-> exists out msg, construct c timer = (out, Throw msg)))
    /\ (enabled c = true ->
        endpoint c <> EmptyString ->
        String.prefix "https://" (endpoint c) = true ->
        hasApiKey c = false ->
        apiKeyRequired c = false ->
        construct c timer
        = ([apiKeyWarning; Console "INFO" "LogShipper initialized"],
           Normal (startFlushTimer (initial c) timer))).
Proof.
  intros c timer. unfold construct, validateConfig.
  split; [intros ->; reflexivity|].
  split.
  - intros ->. cbn [negb].
    destruct (truthy (endpoint c)) eqn:He; cbn [negb].
    2: { apply truthy_empty in He. split; [eauto|]. intros _. left. exact He. }
    assert (Hne : endpoint c <> EmptyString) by (apply truthy_nonempty; exact He).
    destruct (apiKeyRequired c) eqn:Hreq, (hasApiKey c) eqn:Hkey; cbn [negb andb];
      destruct (String.prefix "https://" (endpoint c)) eqn:Hp; cbn [negb].
    all: split;
      [ intros [H|[H|[H1 H2]]]; try congruence; eauto
      | intros (out & msg & Heq); try discriminate Heq; auto ].
  - intros -> He Hp Hkey Hreq. cbn [negb].
    apply truthy_nonempty in He. rewrite He, Hp, Hkey, Hreq. reflexivity.
Qed.

Lemma construct_validates_witness :
  construct disabledConfig 1 = ([], Normal (initial disabledConfig))
  /\ construct keylessConfig 1
     = ([apiKeyWarning; Console "INFO" "LogShipper initialized"],
        Normal (startFlushTimer (initial keylessConfig) 1))
  /\ exists out msg, construct insecureConfig 1 = (out, Throw msg).
Proof.
  destruct (construct_validates disabledConfig 1%nat) as [Hoff _].
  destruct (construct_validates keylessConfig 1%nat) as (_ & _ & Hon).
  destruct (construct_validates insecureConfig 1%nat) as (_ & Hthrow & _).
  split; [|split].
  - apply Hoff. reflexivity.
  - apply Hon.
    + reflexivity.
    + discriminate.
    + reflexivity.
    + reflexivity.
    + reflexivity.
  - apply Hthrow; [reflexivity|]. right. left. reflexivity.
Defined.

(** C8, counterexample.  A configuration with [enabled = false], an
    empty endpoint, and [requireApiKey = true] without API key is
    constructed without an error. *)
Lemma construct_validates_counterexample :
  endpoint disabledConfig = EmptyString
  /\ apiKeyRequired disabledConfig = true
  /\ hasApiKey disabledConfig = false
  /\ construct disabledConfig 1 = ([], Normal (initial disabledConfig)).
Proof. repeat split; reflexivity. Qed.

(** *** Normalisation *)

Lemma or_else_truthy a b : truthy b = true -> truthy (or_else a b) = true.
Proof. unfold or_else. destruct (truthy a) eqn:Ha; intros; assumption. Qed.

Lemma opt_or_else_truthy a b : truthy b = true -> truthy (opt_or_else a b) = true.
Proof. destruct a; simpl; [apply or_else_truthy|trivial]. Qed.

Lemma field_or_truthy v d : truthy d = true -> field_truthy (field_or v d) = true.
Proof. unfold field_or. destruct (field_truthy v) eqn:Hv; intros; assumption. Qed.

Lemma mapped_or_truthy mapped d :
  truthy d = true -> field_truthy (mapped_or mapped d) = true.
Proof. destruct mapped; simpl; [apply field_or_truthy|trivial]. Qed.

(** The level and the component of a normalised entry are truthy. *)
Lemma mapLogLevelToValidEnum_truthy l : field_truthy (mapLogLevelToValidEnum l) = true.
Proof. apply mapped_or_truthy. reflexivity. Qed.

Lemma mapComponentToValidEnum_truthy c : field_truthy (mapComponentToValidEnum c) = true.
Proof. apply mapped_or_truthy. reflexivity. Qed.

(** Normalisation fills every required field, so the filter that
    follows it keeps every entry, provided the host clock prints a
    non-empty time. *)
Lemma cleanLog_hasRequiredFields h i log :
  isoNow h <> EmptyString -> hasRequiredFields (cleanLog h i log) = true.
Proof.
  intros Hiso%truthy_nonempty. unfold hasRequiredFields, cleanLog. simpl.
  rewrite (or_else_truthy _ _ Hiso).
  rewrite (or_else_truthy (user log) (opt_or_else (CORETEXT_USER h) "unknown"))
    by (apply opt_or_else_truthy; reflexivity).
  rewrite (or_else_truthy (message log) "No message") by reflexivity.
  rewrite mapLogLevelToValidEnum_truthy. reflexivity.
Qed.

Lemma filter_imap_all (f : nat -> LogEntry -> LogEntry) logs :
  (forall i log, hasRequiredFields (f i log) = true) ->
  List.filter hasRequiredFields (imap f logs) = imap f logs.
Proof.
  revert f. induction logs as [|log logs IH]; intros f Hf; simpl; [reflexivity|].
  rewrite Hf. f_equal. apply IH. intros i log'. apply Hf.
Qed.

Lemma validateAndCleanLogs_keeps_all h logs :
  isoNow h <> EmptyString ->
  validateAndCleanLogs h logs = imap (cleanLog h) logs.
Proof.
  intros Hiso. apply filter_imap_all. intros i log.
  apply cleanLog_hasRequiredFields. exact Hiso.
Qed.

(** Whether a payload serialises is a matter of the metadata of the
    batch alone, not of the clock it is normalised with. *)
Lemma serializes_imap (f : nat -> LogEntry -> LogEntry) g logs :
  (forall i x, metadata (f i x) = g x) ->
  serializes (imap f logs) = forallb (fun x => serializable (g x)) logs.
Proof.
  revert f. induction logs as [|x logs IH]; intros f Hf; [reflexivity|].
  cbn [imap]. unfold serializes in *. cbn [forallb]. rewrite Hf. f_equal.
  apply IH. intros i y. apply Hf.
Qed.

Lemma serializes_any_clock h h' logs :
  isoNow h <> EmptyString ->
  isoNow h' <> EmptyString ->
  serializes (validateAndCleanLogs h' logs) = serializes (validateAndCleanLogs h logs).
Proof.
  intros Hh Hh'. rewrite !validateAndCleanLogs_keeps_all by assumption.
  rewrite !(serializes_imap _ (fun x => cleanMetadata <$> metadata x));
    [reflexivity|reflexivity|reflexivity].
Qed.

Lemma hasRequiredFields_nonempty e :
  hasRequiredFields e = true ->
  timestamp e <> EmptyString /\ field_truthy (level e) = true
  /\ user e <> EmptyString /\ message e <> EmptyString.
Proof.
  unfold hasRequiredFields. rewrite !andb_true_iff, !truthy_nonempty. tauto.
Qed.

Lemma validateAndCleanLogs_clean h logs : cleanPayload (validateAndCleanLogs h logs).
Proof.
  unfold cleanPayload, validateAndCleanLogs. apply Forall_forall.
  intros e He. apply list_elem_of_In, filter_In in He. tauto.
Qed.

End ShipperFacts.

(** ** LogShipper: delivery, retry and re-queueing *)

Module DeliveryFacts.
Import Js Shipper Scenario ShipperFacts.

Lemma posts_app a b : posts (a ++ b) = posts a ++ posts b.
Proof. apply omap_app. Qed.

Lemma sleeps_app a b : sleeps (a ++ b) = sleeps a ++ sleeps b.
Proof. apply omap_app. Qed.

(** After the response, [sendLogs] only prints. *)
Lemma sendLogsResult_quiet c o :
  posts (sendLogsResult c o).1 = [] /\ sleeps (sendLogsResult c o).1 = [].
Proof.
  destruct o as [|status body parses]; simpl; [split; reflexivity|].
  destruct (ok status); simpl; split; reflexivity.
Qed.

(** How [sendLogs] classifies a response that is not [ok]. *)
Lemma sendLogsResult_status c status body parses :
  ok status = false ->
  exists f, (sendLogsResult c (Response status body parses)).2 = Some f
            /\ statusOf f = Some status.
Proof.
  intros Hok. simpl. rewrite Hok. simpl.
  destruct (((status =? 401) || (status =? 403)) && negb (hasApiKey c)).
  - eexists. split; reflexivity.
  - destruct (status =? 400) eqn:H400.
    + apply Z.eqb_eq in H400. subst. eexists. split; reflexivity.
    + eexists. split; reflexivity.
Qed.

Lemma baseDelay_cases status :
  baseDelay status = if decide (status = Some 429) then 1000 else 500.
Proof.
  destruct status as [st|]; simpl; [|reflexivity].
  destruct (st =? 429) eqn:H.
  - apply Z.eqb_eq in H. subst. reflexivity.
  - apply Z.eqb_neq in H. destruct (decide (Some st = Some 429)) as [[=]|_];
      [contradiction|reflexivity].
Qed.

(** [respond] when [sendLogs] rejects. *)
Lemma respond_failure m id t o h out f :
  pending m !! id = Some t ->
  phase t = Fetching ->
  sendLogsResult (config (shipper m)) o = (out, Some f) ->
  respond id o h m
  = match catchBlock (config (shipper m)) (attempt t) f with
    | Rethrow why =>
        flushFailed id t f (emit [Console "ERROR" why] (emit out m))
    | RetryAfter d =>
        with_pending
          (emit [Console "WARN" "Retrying log shipment"; Sleep d] (emit out m))
          (<[id := {| batch := batch t; attempt := attempt t;
                      phase := Sleeping d; caller := caller t |}]> (pending m))
    end.
Proof. intros Hp Hb Hr. unfold respond. rewrite Hp, Hb, Hr. reflexivity. Qed.

(** [resume] when [sendLogs] threw before its [fetch]. *)
Lemma resume_failing m id t h :
  pending m !! id = Some t ->
  phase t = Failing ->
  resume id h m = caught id t NoStatus m.
Proof. intros Hp Hb. unfold resume. rewrite Hp, Hb. reflexivity. Qed.

Lemma respond_success m id t o h out :
  pending m !! id = Some t ->
  phase t = Fetching ->
  sendLogsResult (config (shipper m)) o = (out, None) ->
  respond id o h m = flushSucceeded id t h (emit out m).
Proof. intros Hp Hb Hr. unfold respond. rewrite Hp, Hb, Hr. reflexivity. Qed.

(** What the [catch] block of [flush] leaves behind. *)
Lemma flushFailed_spec id t f m :
  let m' := flushFailed id t f m in
  logQueue (shipper m') = batch t ++ logQueue (shipper m)
  /\ config (shipper m') = config (shipper m)
  /\ pending m' = delete id (pending m)
  /\ nextFlush m' = nextFlush m
  /\ settled m' = settled m ++ [(id, caller t, Some f)]
  /\ posts (io m') = posts (io m)
  /\ sleeps (io m') = sleeps (io m).
Proof.
  simpl. repeat split.
  - rewrite !posts_app. destruct (caller t); simpl; rewrite ?app_nil_r; reflexivity.
  - rewrite !sleeps_app. destruct (caller t); simpl; rewrite ?app_nil_r; reflexivity.
Qed.

Lemma flushSucceeded_spec id t h m :
  let m' := flushSucceeded id t h m in
  logQueue (shipper m') = logQueue (shipper m)
  /\ config (shipper m') = config (shipper m)
  /\ lastSuccessfulFlush (shipper m') = now h
  /\ pending m' = delete id (pending m)
  /\ nextFlush m' = nextFlush m
  /\ settled m' = settled m ++ [(id, caller t, None)]
  /\ posts (io m') = posts (io m)
  /\ sleeps (io m') = sleeps (io m).
Proof.
  simpl. repeat split.
  - rewrite !posts_app. destruct (caller t); simpl; rewrite ?app_nil_r; reflexivity.
  - rewrite !sleeps_app. destruct (caller t); simpl; rewrite ?app_nil_r; reflexivity.
Qed.

(** What [sendLogs] does before its [fetch]. *)
Lemma cleaningWarnings_quiet logs :
  posts (cleaningWarnings logs) = [] /\ sleeps (cleaningWarnings logs) = [].
Proof.
  unfold cleaningWarnings. induction logs as [|log logs [IHp IHs]]; [split; reflexivity|].
  cbn [flat_map]. rewrite posts_app, sleeps_app, IHp, IHs, !app_nil_r.
  induction (List.filter skipped (default [] (metadata log))) as [|kv l IHl];
    [split; reflexivity|exact IHl].
Qed.

Lemma sendLogsRequest_sent c h logs :
  serializes (validateAndCleanLogs h logs) = true ->
  sendLogsRequest c h logs
  = (cleaningWarnings logs
     ++ [ Console "DEBUG" "Sending log payload";
          Post (validateAndCleanLogs h logs) (hasApiKey c) ], None).
Proof. intros H. unfold sendLogsRequest. rewrite H. reflexivity. Qed.

Lemma sendLogsRequest_thrown c h logs :
  serializes (validateAndCleanLogs h logs) = false ->
  sendLogsRequest c h logs = (cleaningWarnings logs, Some NoStatus).
Proof. intros H. unfold sendLogsRequest. rewrite H. reflexivity. Qed.

Lemma posts_request c h logs :
  posts (sendLogsRequest c h logs).1
  = if serializes (validateAndCleanLogs h logs)
    then [validateAndCleanLogs h logs] else [].
Proof.
  destruct (cleaningWarnings_quiet logs) as [Hp _]. unfold sendLogsRequest.
  destruct (serializes (validateAndCleanLogs h logs)); cbn [fst].
  - rewrite posts_app, Hp. reflexivity.
  - exact Hp.
Qed.

Lemma phaseAfter_request c h logs :
  phaseAfter (sendLogsRequest c h logs)
  = if serializes (validateAndCleanLogs h logs) then Fetching else Failing.
Proof.
  unfold phaseAfter, sendLogsRequest.
  destruct (serializes (validateAndCleanLogs h logs)); reflexivity.
Qed.

Lemma sleeps_request c h logs : sleeps (sendLogsRequest c h logs).1 = [].
Proof.
  destruct (cleaningWarnings_quiet logs) as [_ Hs]. unfold sendLogsRequest.
  destruct (serializes (validateAndCleanLogs h logs)); cbn [fst].
  - rewrite sleeps_app, Hs. reflexivity.
  - exact Hs.
Qed.

(** [flush] on an enabled shipper with a non-empty queue and at least
    one attempt allowed takes the batch and calls [sendLogs] on it. *)
Lemma flush_starts who h m :
  enabled (config (shipper m)) = true ->
  logQueue (shipper m) <> [] ->
  1 <= maxRetries (config (shipper m)) ->
  let size := Z.to_nat (batchSize (config (shipper m))) in
  let sent := take size (logQueue (shipper m)) in
  let request := sendLogsRequest (config (shipper m)) h sent in
  let t := {| batch := sent; attempt := 1;
              phase := phaseAfter request; caller := who |} in
  flush who h m
  = {| shipper := with_queue (shipper m) (drop size (logQueue (shipper m)));
       pending := <[nextFlush m := t]> (pending m);
       nextFlush := S (nextFlush m);
       io := io m ++ request.1;
       settled := settled m |}.
Proof.
  intros Hen Hq Hretries size sent request t. unfold flush. rewrite Hen.
  destruct (logQueue (shipper m)) as [|e q] eqn:Hqueue; [contradiction|].
  cbn [negb orb length Nat.eqb]. unfold startAttempt. cbn [shipper config with_shipper with_queue].
  replace (1 <=? maxRetries (config (shipper m))) with true
    by (symmetry; apply Z.leb_le; exact Hretries).
  reflexivity.
Qed.

Lemma awaitFlush_settled fuel id fetched clock m :
  pending m !! id = None -> awaitFlush fuel id fetched clock m = m.
Proof. intros H. destruct fuel; simpl; [reflexivity|]. rewrite H. reflexivity. Qed.

Lemma respond_settled id o h m : pending m !! id = None -> respond id o h m = m.
Proof. intros H. unfold respond. rewrite H. reflexivity. Qed.

Lemma wake_settled id h m : pending m !! id = None -> wake id h m = m.
Proof. intros H. unfold wake. rewrite H. reflexivity. Qed.

Lemma resume_settled id h m : pending m !! id = None -> resume id h m = m.
Proof. intros H. unfold resume. rewrite H. reflexivity. Qed.

(** [sendLogs] throws nothing but an error without status before its
    [fetch]. *)
Lemma sendLogsRequest_failure c h logs f :
  (sendLogsRequest c h logs).2 = Some f -> f = NoStatus.
Proof.
  unfold sendLogsRequest. destruct (serializes (validateAndCleanLogs h logs)); cbn.
  - discriminate.
  - intros [= <-]. reflexivity.
Qed.

Lemma sendLogsRequest_fetches c h logs :
  (sendLogsRequest c h logs).2 = None <-> serializes (validateAndCleanLogs h logs) = true.
Proof.
  unfold sendLogsRequest. destruct (serializes (validateAndCleanLogs h logs)); cbn;
    split; congruence.
Qed.

(** The next attempt of a flush, while attempts are left. *)
Lemma startAttempt_within id t n h m :
  n <= maxRetries (config (shipper m)) ->
  startAttempt id t n h m
  = with_pending (emit (sendLogsRequest (config (shipper m)) h (batch t)).1 m)
      (<[id := {| batch := batch t; attempt := n;
                  phase := phaseAfter (sendLogsRequest (config (shipper m)) h (batch t));
                  caller := caller t |}]> (pending m)).
Proof.
  intros Hn. unfold startAttempt.
  replace (n <=? maxRetries (config (shipper m))) with true
    by (symmetry; apply Z.leb_le; exact Hn).
  reflexivity.
Qed.

Lemma caught_rethrow id t f m why :
  catchBlock (config (shipper m)) (attempt t) f = Rethrow why ->
  caught id t f m = flushFailed id t f (emit [Console "ERROR" why] m).
Proof. intros H. unfold caught. rewrite H. reflexivity. Qed.

Lemma caught_retry id t f m d :
  catchBlock (config (shipper m)) (attempt t) f = RetryAfter d ->
  caught id t f m
  = with_pending (emit [Console "WARN" "Retrying log shipment"; Sleep d] m)
      (<[id := {| batch := batch t; attempt := attempt t;
                  phase := Sleeping d; caller := caller t |}]> (pending m)).
Proof. intros H. unfold caught. rewrite H. reflexivity. Qed.

Lemma catchBlock_retry c n f d :
  catchBlock c n f = RetryAfter d ->
  n <> maxRetries c /\ isClientError (statusOf f) = false
  /\ d = backoffDelay (statusOf f) n.
Proof.
  unfold catchBlock. destruct (isClientError (statusOf f)); [discriminate|].
  destruct (n =? maxRetries c) eqn:H; [discriminate|].
  intros [= <-]. split; [apply Z.eqb_neq; exact H|]. split; reflexivity.
Qed.

Lemma catchBlock_rethrow c n f why :
  catchBlock c n f = Rethrow why ->
  isClientError (statusOf f) = true \/ n = maxRetries c.
Proof.
  unfold catchBlock. destruct (isClientError (statusOf f)); [left; reflexivity|].
  destruct (n =? maxRetries c) eqn:H; [|discriminate].
  intros _. right. apply Z.eqb_eq. exact H.
Qed.

Lemma catchBlock_fatal c n f :
  isClientError (statusOf f) = true \/ n = maxRetries c ->
  exists why, catchBlock c n f = Rethrow why.
Proof.
  intros H. unfold catchBlock.
  destruct (isClientError (statusOf f)); [eauto|].
  destruct H as [H| ->]; [discriminate|]. rewrite Z.eqb_refl. eauto.
Qed.

(** *** An awaited flush runs the loop of [sendLogsWithRetry] *)

Lemma machine_ext m m' :
  shipper m = shipper m' -> pending m = pending m' -> nextFlush m = nextFlush m' ->
  io m = io m' -> settled m = settled m' -> m = m'.
Proof. destruct m, m'; cbn. intros -> -> -> -> ->. reflexivity. Qed.

Lemma flushFailed_ext id t t' f m m' :
  batch t = batch t' -> caller t = caller t' ->
  shipper m = shipper m' -> delete id (pending m) = delete id (pending m') ->
  nextFlush m = nextFlush m' -> io m = io m' -> settled m = settled m' ->
  flushFailed id t f m = flushFailed id t' f m'.
Proof.
  intros Hb Hc Hs Hp Hn Hio Hset. unfold flushFailed, settle.
  apply machine_ext; cbn [shipper pending nextFlush io settled emit with_shipper];
    rewrite ?Hb, ?Hc, ?Hs, ?Hp, ?Hn, ?Hio, ?Hset; reflexivity.
Qed.

Lemma flushSucceeded_ext id t t' h m m' :
  caller t = caller t' ->
  shipper m = shipper m' -> delete id (pending m) = delete id (pending m') ->
  nextFlush m = nextFlush m' -> io m = io m' -> settled m = settled m' ->
  flushSucceeded id t h m = flushSucceeded id t' h m'.
Proof.
  intros Hc Hs Hp Hn Hio Hset. unfold flushSucceeded, settle.
  apply machine_ext; cbn [shipper pending nextFlush io settled emit with_shipper];
    rewrite ?Hc, ?Hs, ?Hp, ?Hn, ?Hio, ?Hset; reflexivity.
Qed.

Lemma flushFailed_gone id t f m : pending (flushFailed id t f m) !! id = None.
Proof. cbn. apply lookup_delete_eq. Qed.

Lemma flushSucceeded_gone id t h m : pending (flushSucceeded id t h m) !! id = None.
Proof. cbn. apply lookup_delete_eq. Qed.

Section Awaited.

Variable fetched : Z -> FetchOutcome.
Variable clock : Clock.

(** The rounds that are left once the promise has settled change
    nothing. *)
Lemma awaited_settled rounds id h h' o m :
  pending m !! id = None ->
  awaitFlush rounds id fetched clock (wake id h (respond id o h' m)) = m.
Proof.
  intros Hgone.
  rewrite (respond_settled _ _ _ _ Hgone), (wake_settled _ _ _ Hgone).
  apply awaitFlush_settled. exact Hgone.
Qed.

(** From the moment attempt [n] of a flush begins, the awaited flush
    does what the loop of [sendLogsWithRetry] does from its [n]-th
    iteration on, and then what [flush] does after its [await]. *)
Lemma awaitFlush_loop :
  forall left rounds id t n m0,
    n <= maxRetries (config (shipper m0)) ->
    Z.of_nat left = maxRetries (config (shipper m0)) - n + 1 ->
    (left <= rounds)%nat ->
    let c := config (shipper m0) in
    let r := sendLogsWithRetry left c fetched clock (batch t) n in
    let m' := awaitFlush rounds id fetched clock
                (startAttempt id t n (onAttempt clock n) m0) in
    match r.2 with
    | Some f => m' = flushFailed id t f (emit r.1 m0)
    | None => exists h, m' = flushSucceeded id t h (emit r.1 m0)
    end.
Proof.
  induction left as [|left IH]; intros rounds id t n m0 Hn Hleft Hrounds c r m';
    [lia|].
  destruct rounds as [|rounds]; [lia|].
  subst m'. rewrite (startAttempt_within id t n _ m0 Hn). fold c.
  subst r. cbn [sendLogsWithRetry].
  set (request := sendLogsRequest c (onAttempt clock n) (batch t)).
  set (tn := {| batch := batch t; attempt := n; phase := phaseAfter request;
                caller := caller t |}).
  set (m1 := with_pending (emit request.1 m0) (<[id := tn]> (pending m0))).
  assert (Hp1 : pending m1 !! id = Some tn) by apply lookup_insert_eq.
  cbn [awaitFlush]. rewrite Hp1. cbn [attempt tn].
  (* what the catch block of [sendLogsWithRetry] leads to *)
  assert (Hcaught : forall f out m2,
            m2 = with_pending (emit (request.1 ++ out) m0) (<[id := tn]> (pending m0)) ->
            let rest := sendLogsWithRetry left c fetched clock (batch t) (n + 1) in
            let r := match catchBlock c n f with
                     | Rethrow why =>
                         (request.1 ++ out ++ [Console "ERROR" why], Some f)
                     | RetryAfter d =>
                         (request.1 ++ out
                          ++ [Console "WARN" "Retrying log shipment"; Sleep d]
                          ++ rest.1, rest.2)
                     end in
            let m' := awaitFlush rounds id fetched clock
                        (wake id (onAttempt clock (n + 1)) (caught id tn f m2)) in
            match r.2 with
            | Some f' => m' = flushFailed id t f' (emit r.1 m0)
            | None => exists h, m' = flushSucceeded id t h (emit r.1 m0)
            end).
  { intros f out m2 -> rest r m'. subst r m'.
    set (m2 := with_pending (emit (request.1 ++ out) m0) (<[id := tn]> (pending m0))).
    destruct (catchBlock c n f) as [why|d] eqn:Hcatch.
    - rewrite (caught_rethrow id tn f m2 why Hcatch).
      rewrite (wake_settled _ _ _ (flushFailed_gone _ _ _ _)).
      rewrite (awaitFlush_settled _ _ _ _ _ (flushFailed_gone _ _ _ _)).
      cbn [snd fst].
      apply flushFailed_ext; cbn [m2 tn batch caller shipper pending nextFlush io
                                   settled emit with_pending];
        try reflexivity.
      + apply delete_insert_eq.
      + rewrite <- !app_assoc. reflexivity.
    - rewrite (caught_retry id tn f m2 d Hcatch).
      apply catchBlock_retry in Hcatch as (Hne & _ & _).
      set (ts := {| batch := batch tn; attempt := attempt tn; phase := Sleeping d;
                    caller := caller tn |}).
      set (m3 := with_pending
                   (emit [Console "WARN" "Retrying log shipment"; Sleep d] m2)
                   (<[id := ts]> (pending m2))).
      assert (Hp3 : pending m3 !! id = Some ts) by apply lookup_insert_eq.
      unfold wake. rewrite Hp3. cbn [phase ts attempt tn].
      specialize (IH rounds id ts (n + 1) m3).
      cbn [m3 m2 shipper with_pending emit config batch ts tn] in IH.
      fold c in IH. fold rest in IH.
      assert (Hnext : n + 1 <= maxRetries c) by (subst c; lia).
      assert (Hleft' : Z.of_nat left = maxRetries c - (n + 1) + 1) by (subst c; lia).
      specialize (IH Hnext Hleft' ltac:(lia)). cbv zeta in IH.
      cbn [snd fst].
      destruct (rest.2) as [f'|].
      + etrans; [exact IH|].
        apply flushFailed_ext; cbn [ts tn batch caller shipper pending nextFlush io
                                     settled emit with_pending];
          try reflexivity.
        * unfold m3, m2. cbn [pending with_pending emit].
          rewrite !delete_insert_eq. reflexivity.
        * unfold m3, m2. cbn [io with_pending emit].
          rewrite <- !app_assoc. reflexivity.
      + destruct IH as [h IH]. exists h. etrans; [exact IH|].
        apply flushSucceeded_ext; cbn [ts tn batch caller shipper pending nextFlush io
                                        settled emit with_pending];
          try reflexivity.
        * unfold m3, m2. cbn [pending with_pending emit].
          rewrite !delete_insert_eq. reflexivity.
        * unfold m3, m2. cbn [io with_pending emit].
          rewrite <- !app_assoc. reflexivity. }
  destruct (request.2) as [f0|] eqn:Hreq.
  - (* [sendLogs] threw before its [fetch] *)
    assert (Hb : phase tn = Failing) by (cbn; unfold phaseAfter; rewrite Hreq; reflexivity).
    rewrite (resume_failing m1 id tn _ Hp1 Hb).
    apply sendLogsRequest_failure in Hreq as ->.
    assert (Hquiet : forall m2, respond id (fetched n) (onArrival clock n)
                                  (caught id tn NoStatus m2)
                                = caught id tn NoStatus m2).
    { intros m2. unfold caught.
      destruct (catchBlock (config (shipper m2)) (attempt tn) NoStatus).
      - apply respond_settled, flushFailed_gone.
      - unfold respond. cbn [pending with_pending emit]. rewrite lookup_insert_eq.
        reflexivity. }
    rewrite Hquiet. cbn [snd fst].
    specialize (Hcaught NoStatus [] m1). cbv zeta in Hcaught.
    cbn [app] in Hcaught. apply Hcaught.
    subst m1. rewrite app_nil_r. reflexivity.
  - (* the request was made *)
    assert (Hb : phase tn = Fetching) by (cbn; unfold phaseAfter; rewrite Hreq; reflexivity).
    assert (Hres : resume id (onAttempt clock n) m1 = m1).
    { unfold resume. rewrite Hp1, Hb. reflexivity. }
    rewrite Hres.
    destruct (sendLogsResult c (fetched n)) as [out [f|]] eqn:Hresult.
    + rewrite (respond_failure m1 id tn _ _ out f Hp1 Hb Hresult).
      change (match catchBlock (config (shipper m1)) (attempt tn) f with
              | Rethrow why =>
                  flushFailed id tn f (emit [Console "ERROR" why] (emit out m1))
              | RetryAfter d =>
                  with_pending
                    (emit [Console "WARN" "Retrying log shipment"; Sleep d]
                       (emit out m1))
                    (<[id := {| batch := batch tn; attempt := attempt tn;
                                phase := Sleeping d; caller := caller tn |}]>
                       (pending m1))
              end) with (caught id tn f (emit out m1)).
      cbn [snd fst].
      apply (Hcaught f out (emit out m1)).
      subst m1. apply machine_ext; cbn; try reflexivity.
      rewrite app_assoc. reflexivity.
    + rewrite (respond_success m1 id tn _ _ out Hp1 Hb Hresult).
      rewrite (wake_settled _ _ _ (flushSucceeded_gone _ _ _ _)).
      rewrite (awaitFlush_settled _ _ _ _ _ (flushSucceeded_gone _ _ _ _)).
      cbn [snd fst]. exists (onArrival clock n).
      apply flushSucceeded_ext; cbn [m1 tn batch caller shipper pending nextFlush io
                                      settled emit with_pending];
        try reflexivity.
      * apply delete_insert_eq.
      * rewrite <- !app_assoc. reflexivity.
Qed.

End Awaited.

(** [await shipper.flush()] on an enabled shipper with a non-empty
    queue does what the loop of [sendLogsWithRetry] does on the batch
    taken, in the same order, and then what [flush] does after its
    [await]: it prints a line and settles, with the batch back at the
    front of the queue when the loop ended in an error. *)
Lemma flushAndWait_loop fetched clock m :
  enabled (config (shipper m)) = true ->
  logQueue (shipper m) <> [] ->
  let c := config (shipper m) in
  let size := Z.to_nat (batchSize c) in
  let r := sendLogsWithRetry (Z.to_nat (maxRetries c)) c fetched clock
             (take size (logQueue (shipper m))) 1 in
  let m' := flushAndWait fetched clock m in
  (exists tail, io m' = io m ++ r.1 ++ tail /\ posts tail = [] /\ sleeps tail = [])
  /\ settled m' = settled m ++ [(nextFlush m, Direct, r.2)]
  /\ pending m' = delete (nextFlush m) (pending m)
  /\ logQueue (shipper m')
     = match r.2 with
       | Some _ => logQueue (shipper m)
       | None => drop size (logQueue (shipper m))
       end
  /\ config (shipper m') = c
  /\ nextFlush m' = S (nextFlush m)
  /\ (r.2 <> None ->
      lastSuccessfulFlush (shipper m') = lastSuccessfulFlush (shipper m)).
Proof.
  intros Hen Hq c size r m'.
  set (t := {| batch := take size (logQueue (shipper m)); attempt := 1;
               phase := Fetching; caller := Direct |}).
  set (m0 := {| shipper := with_queue (shipper m) (drop size (logQueue (shipper m)));
                pending := pending m; nextFlush := S (nextFlush m);
                io := io m; settled := settled m |}).
  assert (Hflush : flush Direct (onAttempt clock 1) m
                   = startAttempt (nextFlush m) t 1 (onAttempt clock 1) m0).
  { unfold flush. rewrite Hen.
    destruct (logQueue (shipper m)) as [|e q] eqn:Hqueue; [contradiction|].
    reflexivity. }
  assert (Hend : match r.2 with
                 | Some f => m' = flushFailed (nextFlush m) t f (emit r.1 m0)
                 | None => exists h, m' = flushSucceeded (nextFlush m) t h (emit r.1 m0)
                 end).
  { subst m'. unfold flushAndWait. rewrite Hflush. fold c.
    destruct (Z_le_gt_dec 1 (maxRetries c)) as [Hone|Hnone].
    - apply (awaitFlush_loop fetched clock (Z.to_nat (maxRetries c))
               (S (Z.to_nat (maxRetries c))) (nextFlush m) t 1 m0).
      + exact Hone.
      + cbn [m0 shipper with_queue config]. fold c. lia.
      + lia.
    - subst r. replace (Z.to_nat (maxRetries c)) with 0%nat by lia.
      cbn [sendLogsWithRetry snd fst]. exists (onAttempt clock 1).
      unfold startAttempt. cbn [m0 shipper with_queue config]. fold c.
      replace (1 <=? maxRetries c) with false by (symmetry; apply Z.leb_gt; lia).
      cbn [awaitFlush with_pending pending]. rewrite lookup_insert_eq.
      cbn [attempt]. unfold resume at 1. cbn [with_pending pending].
      rewrite lookup_insert_eq. cbn [phase].
      rewrite (respond_settled _ _ _ _ (flushSucceeded_gone _ _ _ _)).
      rewrite (wake_settled _ _ _ (flushSucceeded_gone _ _ _ _)).
      apply flushSucceeded_ext; cbn; try reflexivity.
      + apply delete_insert_eq.
      + symmetry. apply app_nil_r. }
  destruct (r.2) as [f|].
  - rewrite Hend.
    destruct (flushFailed_spec (nextFlush m) t f (emit r.1 m0))
      as (Hqueue & Hc & Hpend & Hnext & Hsettled & _).
    rewrite Hqueue, Hc, Hpend, Hnext, Hsettled.
    split; [|split; [|split; [|split; [|split; [|split]]]]]; try reflexivity.
    + eexists. split; [|split].
      * cbn [flushFailed settle emit io with_shipper m0]. rewrite <- !app_assoc.
        reflexivity.
      * reflexivity.
      * reflexivity.
    + cbn [batch t emit shipper m0 logQueue with_queue]. apply take_drop.
  - destruct Hend as [h ->].
    destruct (flushSucceeded_spec (nextFlush m) t h (emit r.1 m0))
      as (Hqueue & Hc & _ & Hpend & Hnext & Hsettled & _).
    rewrite Hqueue, Hc, Hpend, Hnext, Hsettled.
    split; [|split; [|split; [|split; [|split; [|split]]]]]; try reflexivity.
    + eexists. split; [|split].
      * cbn [flushSucceeded settle emit io with_shipper m0]. rewrite <- !app_assoc.
        reflexivity.
      * reflexivity.
      * reflexivity.
    + intros H. contradiction.
Qed.

(** The loop of [sendLogsWithRetry] when the attempts from [n] on end
    in errors that are retried and the one [j] attempts later ends in an
    error that is not: the error is that one, every attempt up to it posts
    what its call of [sendLogs] posts, and every attempt before it is
    followed by its backoff delay. *)
Lemma sendLogsWithRetry_raises c fetched clock logs :
  forall j left n f,
    Z.of_nat left = maxRetries c - n + 1 ->
    n + Z.of_nat j <= maxRetries c ->
    (forall k, n <= k < n + Z.of_nat j ->
               exists f', errorAt c fetched clock logs k = Some f'
                          /\ isClientError (statusOf f') = false) ->
    errorAt c fetched clock logs (n + Z.of_nat j) = Some f ->
    isClientError (statusOf f) = true \/ n + Z.of_nat j = maxRetries c ->
    let r := sendLogsWithRetry left c fetched clock logs n in
    r.2 = Some f
    /\ posts r.1 = flat_map (postedAt c clock logs) (seqZ n (Z.of_nat j + 1))
    /\ sleeps r.1
       = (fun k => backoffDelay (statusAt c fetched clock logs k) k)
           <$> seqZ n (Z.of_nat j).
Proof.
  induction j as [|j IH]; intros left n f Hleft Hle Hretried Hlast Hfatal r.
  - destruct left as [|left]; [lia|]. subst r. cbn [sendLogsWithRetry].
    replace (n + Z.of_nat 0) with n in * by lia.
    unfold errorAt in Hlast.
    set (request := sendLogsRequest c (onAttempt clock n) logs) in *.
    assert (Hquiet : posts (match request.2 with
                            | Some f0 => ([], Some f0)
                            | None => sendLogsResult c (fetched n)
                            end).1 = []
                     /\ sleeps (match request.2 with
                                | Some f0 => ([], Some f0)
                                | None => sendLogsResult c (fetched n)
                                end).1 = []).
    { destruct (request.2); [split; reflexivity|apply sendLogsResult_quiet]. }
    assert (Hresult : (match request.2 with
                       | Some f0 => ([], Some f0)
                       | None => sendLogsResult c (fetched n)
                       end).2 = Some f).
    { destruct (request.2); [exact Hlast|exact Hlast]. }
    destruct Hquiet as [Hqp Hqs]. rewrite Hresult.
    destruct (catchBlock_fatal c n f Hfatal) as [why ->]. cbn [fst snd].
    split; [reflexivity|].
    rewrite !posts_app, !sleeps_app, Hqp, Hqs. unfold request.
    rewrite sleeps_request.
    change (Z.of_nat 0 + 1) with 1. rewrite seqZ_cons by lia.
    cbn [flat_map seqZ Z.pred Z.to_nat Z.add fmap list_fmap seq Z.opp app sleeps posts omap list_omap].
    rewrite !app_nil_r. split; reflexivity.
  - destruct left as [|left]; [lia|]. subst r. cbn [sendLogsWithRetry].
    destruct (Hretried n ltac:(lia)) as (f' & Hf' & Hretry).
    assert (Hst : statusAt c fetched clock logs n = statusOf f')
      by (unfold statusAt; rewrite Hf'; reflexivity).
    unfold errorAt in Hf'.
    set (request := sendLogsRequest c (onAttempt clock n) logs) in *.
    assert (Hquiet : posts (match request.2 with
                            | Some f0 => ([], Some f0)
                            | None => sendLogsResult c (fetched n)
                            end).1 = []
                     /\ sleeps (match request.2 with
                                | Some f0 => ([], Some f0)
                                | None => sendLogsResult c (fetched n)
                                end).1 = []).
    { destruct (request.2); [split; reflexivity|apply sendLogsResult_quiet]. }
    assert (Hresult : (match request.2 with
                       | Some f0 => ([], Some f0)
                       | None => sendLogsResult c (fetched n)
                       end).2 = Some f').
    { destruct (request.2); [exact Hf'|exact Hf']. }
    destruct Hquiet as [Hqp Hqs]. rewrite Hresult.
    assert (Hcatch : catchBlock c n f' = RetryAfter (backoffDelay (statusOf f') n)).
    { unfold catchBlock. rewrite Hretry.
      replace (n =? maxRetries c) with false by (symmetry; apply Z.eqb_neq; lia).
      reflexivity. }
    rewrite Hcatch. cbn [fst snd].
    destruct (IH left (n + 1) f) as (I1 & I2 & I3).
    + lia.
    + lia.
    + intros k Hk. apply Hretried. lia.
    + replace (n + 1 + Z.of_nat j) with (n + Z.of_nat (S j)) by lia. exact Hlast.
    + replace (n + 1 + Z.of_nat j) with (n + Z.of_nat (S j)) by lia. exact Hfatal.
    + split; [exact I1|].
      rewrite !posts_app, !sleeps_app, Hqp, Hqs, I2, I3. unfold request at 1 2.
      rewrite sleeps_request.
      rewrite (seqZ_cons n (Z.of_nat (S j) + 1)) by lia.
      rewrite (seqZ_cons n (Z.of_nat (S j))) by lia.
      replace (Z.succ n) with (n + 1) by lia.
      replace (Z.pred (Z.of_nat (S j) + 1)) with (Z.of_nat j + 1) by lia.
      replace (Z.pred (Z.of_nat (S j))) with (Z.of_nat j) by lia.
      cbn [flat_map fmap list_fmap app]. rewrite Hst. split; reflexivity.
Qed.

(** [await shipper.flush()] when the attempts before the [n]-th end in
    errors that are retried and the [n]-th ends in one that is not: what
    is posted, what is waited for, and how the flush settles. *)
Lemma flushAndWait_raises fetched clock m n f :
  enabled (config (shipper m)) = true ->
  logQueue (shipper m) <> [] ->
  pending m !! nextFlush m = None ->
  let c := config (shipper m) in
  let sent := take (Z.to_nat (batchSize c)) (logQueue (shipper m)) in
  1 <= n <= maxRetries c ->
  (forall k, 1 <= k < n ->
             exists f', errorAt c fetched clock sent k = Some f'
                        /\ isClientError (statusOf f') = false) ->
  errorAt c fetched clock sent n = Some f ->
  isClientError (statusOf f) = true \/ n = maxRetries c ->
  let m' := flushAndWait fetched clock m in
  posts (io m') = posts (io m) ++ flat_map (postedAt c clock sent) (seqZ 1 n)
  /\ sleeps (io m')
     = sleeps (io m)
       ++ ((fun k => backoffDelay (statusAt c fetched clock sent k) k)
             <$> seqZ 1 (n - 1))
  /\ settled m' = settled m ++ [(nextFlush m, Direct, Some f)]
  /\ pending m' = pending m
  /\ logQueue (shipper m') = logQueue (shipper m)
  /\ lastSuccessfulFlush (shipper m') = lastSuccessfulFlush (shipper m).
Proof.
  intros Hen Hq Hfresh c sent Hn Hretried Hlast Hfatal m'.
  destruct (flushAndWait_loop fetched clock m Hen Hq)
    as ((tail & Hio & Htp & Hts) & Hsettled & Hpend & Hqueue & _ & _ & Hlsf).
  fold c sent m' in Hio, Hsettled, Hpend, Hqueue, Hlsf.
  destruct (sendLogsWithRetry_raises c fetched clock sent (Z.to_nat (n - 1))
              (Z.to_nat (maxRetries c)) 1 f) as (Hr & Hposts & Hsleeps).
  - lia.
  - lia.
  - intros k Hk. apply Hretried. lia.
  - replace (1 + Z.of_nat (Z.to_nat (n - 1))) with n by lia. exact Hlast.
  - replace (1 + Z.of_nat (Z.to_nat (n - 1))) with n by lia. exact Hfatal.
  - replace (Z.of_nat (Z.to_nat (n - 1)) + 1) with n in Hposts by lia.
    replace (Z.of_nat (Z.to_nat (n - 1))) with (n - 1) in Hsleeps by lia.
    rewrite Hr in Hsettled, Hqueue, Hlsf.
    split; [|split; [|split; [|split; [|split]]]].
    + rewrite Hio, !posts_app, Hposts, Htp, app_nil_r. reflexivity.
    + rewrite Hio, !sleeps_app, Hsleeps, Hts, app_nil_r. reflexivity.
    + exact Hsettled.
    + rewrite Hpend. apply delete_id. exact Hfresh.
    + exact Hqueue.
    + apply Hlsf. discriminate.
Qed.

(** C3.  When the [fetch] of attempt [n] of a flush fails with an error
    of status [s] (none for a network error):
    - if [s] is not in [400, 500) or is 429 and [n < maxRetries], the
      flush stays suspended and waits exactly [1000 * 2^(n-1)] ms when
      [s] is 429 and [500 * 2^(n-1)] ms otherwise, without a new POST;
      when that delay has elapsed, attempt [n + 1] begins: [sendLogs] is
      called on the same batch, and posts it, normalised anew, unless
      the payload does not serialise; it does when it did at an earlier
      attempt;
    - if [n = maxRetries], the error is raised: the flush settles as
      rejected with it, without waiting, the batch is back at the head
      of the queue, and no further attempt follows;
    - if [s] is in [400, 500) and not 429, the same happens at once,
      whatever [n] is.
    Responses with status 5xx or 429 and network errors are of the
    first kind.  For an awaited [flush] whose first [n - 1] attempts end
    in errors of the first kind and whose [n]-th ends in an error that
    is raised, the POSTs are those of the attempts 1 to [n], the delays
    are those after the attempts 1 to [n - 1], in this order, the flush
    is rejected with the error of attempt [n], and the queue is then as
    it was before the call.  In particular an awaited [flush] whose
    first response has a status in [400, 500) other than 429 makes
    exactly one POST and waits for no delay. *)
Theorem sendLogsWithRetry_backoff :
  (forall m id t o h h' out f,
      pending m !! id = Some t ->
      phase t = Fetching ->
      sendLogsResult (config (shipper m)) o = (out, Some f) ->
      let c := config (shipper m) in
      let m1 := respond id o h m in
      let m2 := wake id h' m1 in
      (isClientError (statusOf f) = false ->
       attempt t < maxRetries c ->
       let d := (if decide (statusOf f = Some 429) then 1000 else 500)
                * 2 ^ (attempt t - 1) in
       let request := sendLogsRequest c h' (batch t) in
       pending m1 !! id
       = Some {| batch := batch t; attempt := attempt t;
                 phase := Sleeping d; caller := caller t |}
       /\ sleeps (io m1) = sleeps (io m) ++ [d]
       /\ posts (io m1) = posts (io m)
       /\ settled m1 = settled m
       /\ pending m2 !! id
          = Some {| batch := batch t; attempt := attempt t + 1;
                    phase := phaseAfter request; caller := caller t |}
       /\ io m2 = io m1 ++ request.1
       /\ sleeps (io m2) = sleeps (io m1)
       /\ settled m2 = settled m
       /\ (serializes (validateAndCleanLogs h' (batch t)) = true ->
           phaseAfter request = Fetching
           /\ posts (io m2) = posts (io m) ++ [validateAndCleanLogs h' (batch t)])
       /\ (forall h0,
             isoNow h0 <> EmptyString ->
             isoNow h' <> EmptyString ->
             serializes (validateAndCleanLogs h0 (batch t)) = true ->
             phaseAfter request = Fetching
             /\ posts (io m2) = posts (io m) ++ [validateAndCleanLogs h' (batch t)]))
      /\ (attempt t = maxRetries c ->
          pending m1 !! id = None
          /\ settled m1 = settled m ++ [(id, caller t, Some f)]
          /\ sleeps (io m1) = sleeps (io m)
          /\ posts (io m1) = posts (io m)
          /\ logQueue (shipper m1) = batch t ++ logQueue (shipper m)
          /\ m2 = m1)
      /\ (isClientError (statusOf f) = true ->
          pending m1 !! id = None
          /\ settled m1 = settled m ++ [(id, caller t, Some f)]
          /\ sleeps (io m1) = sleeps (io m)
          /\ posts (io m1) = posts (io m)
          /\ logQueue (shipper m1) = batch t ++ logQueue (shipper m)
          /\ m2 = m1))
  /\ (forall c status body parses,
        500 <= status <= 599 \/ status = 429 ->
        exists f, (sendLogsResult c (Response status body parses)).2 = Some f
                  /\ statusOf f = Some status
                  /\ isClientError (statusOf f) = false)
  /\ (forall c, exists f, (sendLogsResult c NetworkError).2 = Some f
                         /\ statusOf f = None
                         /\ isClientError (statusOf f) = false)
  /\ (forall fetched clock m n f,
        enabled (config (shipper m)) = true ->
        logQueue (shipper m) <> [] ->
        pending m !! nextFlush m = None ->
        let c := config (shipper m) in
        let sent := take (Z.to_nat (batchSize c)) (logQueue (shipper m)) in
        1 <= n <= maxRetries c ->
        (forall k, 1 <= k < n ->
                   exists f', errorAt c fetched clock sent k = Some f'
                              /\ isClientError (statusOf f') = false) ->
        errorAt c fetched clock sent n = Some f ->
        isClientError (statusOf f) = true \/ n = maxRetries c ->
        let m' := flushAndWait fetched clock m in
        posts (io m') = posts (io m) ++ flat_map (postedAt c clock sent) (seqZ 1 n)
        /\ sleeps (io m')
           = sleeps (io m)
             ++ ((fun k => (if decide (statusAt c fetched clock sent k = Some 429)
                            then 1000 else 500) * 2 ^ (k - 1))
                   <$> seqZ 1 (n - 1))
        /\ settled m' = settled m ++ [(nextFlush m, Direct, Some f)]
        /\ pending m' = pending m
        /\ logQueue (shipper m') = logQueue (shipper m))
  /\ (forall fetched clock m status body parses,
        enabled (config (shipper m)) = true ->
        logQueue (shipper m) <> [] ->
        pending m !! nextFlush m = None ->
        let c := config (shipper m) in
        let sent := take (Z.to_nat (batchSize c)) (logQueue (shipper m)) in
        let payload := validateAndCleanLogs (onAttempt clock 1) sent in
        1 <= maxRetries c ->
        serializes payload = true ->
        fetched 1 = Response status body parses ->
        400 <= status < 500 ->
        status <> 429 ->
        let m' := flushAndWait fetched clock m in
        posts (io m') = posts (io m) ++ [payload]
        /\ sleeps (io m') = sleeps (io m)
        /\ (exists f, statusOf f = Some status
                      /\ settled m' = settled m ++ [(nextFlush m, Direct, Some f)])
        /\ pending m' = pending m
        /\ logQueue (shipper m') = logQueue (shipper m)).
Proof.
  split; [|split; [|split; [|split]]].
  - intros m id t o h h' out f Hp Hb Hres c m1 m2.
    pose proof (sendLogsResult_quiet (config (shipper m)) o) as [Hposts Hsleeps].
    rewrite Hres in Hposts, Hsleeps. simpl in Hposts, Hsleeps.
    assert (Hm1 : m1 = caught id t f (emit out m)).
    { subst m1. rewrite (respond_failure m id t o h out f Hp Hb Hres). reflexivity. }
    assert (Hraised : forall why,
               catchBlock c (attempt t) f = Rethrow why ->
               pending m1 !! id = None
               /\ settled m1 = settled m ++ [(id, caller t, Some f)]
               /\ sleeps (io m1) = sleeps (io m)
               /\ posts (io m1) = posts (io m)
               /\ logQueue (shipper m1) = batch t ++ logQueue (shipper m)
               /\ m2 = m1).
    { intros why Hcatch.
      assert (Hgone : pending m1 !! id = None).
      { rewrite Hm1, (caught_rethrow id t f (emit out m) why Hcatch).
        apply flushFailed_gone. }
      split; [exact Hgone|].
      subst m2. rewrite (wake_settled _ _ _ Hgone).
      rewrite Hm1, (caught_rethrow id t f (emit out m) why Hcatch).
      destruct (flushFailed_spec id t f (emit [Console "ERROR" why] (emit out m)))
        as (Hqueue & _ & _ & _ & Hsettled & Hp' & Hs').
      rewrite Hsettled, Hp', Hs', Hqueue. cbn [io emit settled shipper].
      rewrite !sleeps_app, !posts_app, Hposts, Hsleeps. simpl.
      rewrite !app_nil_r. repeat split; reflexivity. }
    split; [|split].
    + intros Hretry Hlt d request.
      assert (Hcatch : catchBlock c (attempt t) f = RetryAfter d).
      { unfold catchBlock. rewrite Hretry.
        replace (attempt t =? maxRetries c) with false
          by (symmetry; apply Z.eqb_neq; lia).
        unfold backoffDelay. rewrite baseDelay_cases. reflexivity. }
      rewrite (caught_retry id t f (emit out m) d Hcatch) in Hm1.
      assert (Hp1 : pending m1 !! id
                    = Some {| batch := batch t; attempt := attempt t;
                              phase := Sleeping d; caller := caller t |}).
      { rewrite Hm1. apply lookup_insert_eq. }
      assert (Hm2 : m2 = startAttempt id {| batch := batch t; attempt := attempt t;
                                            phase := Sleeping d; caller := caller t |}
                           (attempt t + 1) h' m1).
      { subst m2. unfold wake. rewrite Hp1. reflexivity. }
      rewrite startAttempt_within in Hm2
        by (rewrite Hm1; cbn [shipper with_pending emit]; fold c; lia).
      assert (Hc1 : config (shipper m1) = c) by (rewrite Hm1; reflexivity).
      rewrite Hc1 in Hm2. cbn [batch caller] in Hm2. fold request in Hm2.
      assert (Hio2 : io m2 = io m1 ++ request.1) by (rewrite Hm2; reflexivity).
      assert (Hio1 : io m1 = (io m ++ out)
                             ++ [Console "WARN" "Retrying log shipment"; Sleep d])
        by (rewrite Hm1; reflexivity).
      assert (Hs1 : sleeps (io m1) = sleeps (io m) ++ [d]).
      { rewrite Hio1, !sleeps_app, Hsleeps. simpl. rewrite app_nil_r. reflexivity. }
      assert (Hposts1 : posts (io m1) = posts (io m)).
      { rewrite Hio1, !posts_app, Hposts. simpl. rewrite !app_nil_r. reflexivity. }
      split; [exact Hp1|]. split; [exact Hs1|]. split; [exact Hposts1|].
      split; [rewrite Hm1; reflexivity|].
      split; [rewrite Hm2; cbn [pending with_pending]; apply lookup_insert_eq|].
      split; [exact Hio2|].
      split.
      { rewrite Hio2, sleeps_app. unfold request. rewrite sleeps_request.
        apply app_nil_r. }
      split; [rewrite Hm2, Hm1; reflexivity|].
      assert (Hsent : serializes (validateAndCleanLogs h' (batch t)) = true ->
                      phaseAfter request = Fetching
                      /\ posts (io m2)
                         = posts (io m) ++ [validateAndCleanLogs h' (batch t)]).
      { intros Hser. split.
        - unfold phaseAfter, request.
          rewrite (proj2 (sendLogsRequest_fetches c h' (batch t)) Hser). reflexivity.
        - rewrite Hio2, posts_app, Hposts1. unfold request.
          rewrite posts_request, Hser. reflexivity. }
      split; [exact Hsent|].
      intros h0 Hh0 Hh' Hser. apply Hsent.
      rewrite (serializes_any_clock h0 h' _ Hh0 Hh'). exact Hser.
    + intros Hlast.
      destruct (catchBlock_fatal c (attempt t) f (or_intror Hlast)) as [why Hcatch].
      exact (Hraised why Hcatch).
    + intros Hclient.
      destruct (catchBlock_fatal c (attempt t) f (or_introl Hclient)) as [why Hcatch].
      exact (Hraised why Hcatch).
  - intros c status body parses Hstatus.
    assert (Hnotok : ok status = false) by (unfold ok; lia).
    destruct (sendLogsResult_status c status body parses Hnotok) as (f & Hf & Hs).
    exists f. split; [exact Hf|]. split; [exact Hs|].
    rewrite Hs. unfold isClientError. lia.
  - intros c. exists NoStatus. repeat split; reflexivity.
  - intros fetched clock m n f Hen Hq Hfresh c sent Hn Hretried Hlast Hfatal m'.
    destruct (flushAndWait_raises fetched clock m n f Hen Hq Hfresh Hn Hretried
                Hlast Hfatal) as (H1 & H2 & H3 & H4 & H5 & _).
    split; [exact H1|]. split; [|split; [exact H3|split; [exact H4|exact H5]]].
    fold c sent m' in H2. rewrite H2. f_equal. apply list_fmap_ext.
    intros _ k _. unfold backoffDelay. rewrite baseDelay_cases. reflexivity.
  - intros fetched clock m status body parses Hen Hq Hfresh c sent payload
      Hretries Hser Hfetch Hrange Hnot m'.
    assert (Hnotok : ok status = false) by (unfold ok; lia).
    destruct (sendLogsResult_status c status body parses Hnotok) as (f & Hf & Hstatus).
    assert (Hlast : errorAt c fetched clock sent 1 = Some f).
    { unfold errorAt.
      rewrite (proj2 (sendLogsRequest_fetches c (onAttempt clock 1) sent) Hser).
      rewrite Hfetch. exact Hf. }
    assert (Hclient : isClientError (statusOf f) = true)
      by (rewrite Hstatus; unfold isClientError; lia).
    destruct (flushAndWait_raises fetched clock m 1 f Hen Hq Hfresh) as
      (H1 & H2 & H3 & H4 & H5 & _).
    + fold c. lia.
    + intros k Hk. lia.
    + exact Hlast.
    + left. exact Hclient.
    + fold c sent m' in H1, H2, H3, H4, H5.
      split; [|split; [|split; [|split; [exact H4|exact H5]]]].
      * rewrite H1. change (seqZ 1 1) with [1]. cbn [flat_map].
        unfold postedAt. rewrite posts_request. fold payload.
        rewrite Hser, app_nil_r. reflexivity.
      * rewrite H2. change (seqZ 1 (1 - 1)) with (@nil Z). apply app_nil_r.
      * exists f. split; [exact Hstatus|exact H3].
Qed.

(** *** Steps that call [flush] and steps that do not *)

Lemma flush_nextFlush who h m : nextFlush (flush who h m) = S (nextFlush m).
Proof.
  unfold flush.
  destruct (negb (enabled (config (shipper m)))
            || (length (logQueue (shipper m)) =? 0)%nat); [reflexivity|].
  unfold startAttempt. cbn [shipper with_shipper config with_queue].
  destruct (1 <=? maxRetries (config (shipper m))); reflexivity.
Qed.

Lemma startAttempt_nextFlush id t n h m :
  nextFlush (startAttempt id t n h m) = nextFlush m.
Proof.
  unfold startAttempt. destruct (n <=? maxRetries (config (shipper m))); reflexivity.
Qed.

Lemma caught_nextFlush id t f m : nextFlush (caught id t f m) = nextFlush m.
Proof.
  unfold caught. destruct (catchBlock (config (shipper m)) (attempt t) f); reflexivity.
Qed.

Lemma respond_nextFlush id o h m : nextFlush (respond id o h m) = nextFlush m.
Proof.
  unfold respond.
  destruct (pending m !! id) as [t|]; [|reflexivity].
  destruct (phase t); try reflexivity.
  destruct (sendLogsResult (config (shipper m)) o) as [out [f|]]; [|reflexivity].
  rewrite caught_nextFlush. reflexivity.
Qed.

Lemma wake_nextFlush id h m : nextFlush (wake id h m) = nextFlush m.
Proof.
  unfold wake.
  destruct (pending m !! id) as [t|]; [|reflexivity].
  destruct (phase t); try reflexivity. apply startAttempt_nextFlush.
Qed.

Lemma resume_nextFlush id h m : nextFlush (resume id h m) = nextFlush m.
Proof.
  unfold resume.
  destruct (pending m !! id) as [t|]; [|reflexivity].
  destruct (phase t); try reflexivity. apply caught_nextFlush.
Qed.

Lemma quiet_refl m : quiet m m [].
Proof. apply quiet_push; [reflexivity|reflexivity|]. symmetry. apply app_nil_r. Qed.

Lemma startAttempt_quiet id t n h m :
  pending m !! id = Some t -> quiet m (startAttempt id t n h m) [].
Proof.
  intros Hp. unfold startAttempt.
  destruct (n <=? maxRetries (config (shipper m))).
  - apply quiet_continue
      with (id := id) (t := t)
           (t' := {| batch := batch t; attempt := n;
                     phase := phaseAfter
                                (sendLogsRequest (config (shipper m)) h (batch t));
                     caller := caller t |});
      try reflexivity.
    exact Hp.
  - apply quiet_continue
      with (id := id) (t := t)
           (t' := {| batch := batch t; attempt := n;
                     phase := Returning; caller := caller t |});
      try reflexivity.
    exact Hp.
Qed.

Lemma caught_quiet id t f out m :
  pending m !! id = Some t -> quiet m (caught id t f (emit out m)) [].
Proof.
  intros Hp. unfold caught. cbn [emit shipper].
  destruct (catchBlock (config (shipper m)) (attempt t) f).
  - apply quiet_failed with (id := id) (t := t) (f := f); try reflexivity.
    exact Hp.
  - apply quiet_continue
      with (id := id) (t := t)
           (t' := {| batch := batch t; attempt := attempt t;
                     phase := Sleeping delay; caller := caller t |});
      try reflexivity.
    exact Hp.
Qed.

Lemma emit_nil m : emit [] m = m.
Proof. destruct m. unfold emit. cbn. rewrite app_nil_r. reflexivity. Qed.

Lemma respond_quiet id o h m : quiet m (respond id o h m) [].
Proof.
  unfold respond.
  destruct (pending m !! id) as [t|] eqn:Hp; [|apply quiet_refl].
  destruct (phase t); try apply quiet_refl.
  destruct (sendLogsResult (config (shipper m)) o) as [out [f|]].
  - apply caught_quiet. exact Hp.
  - apply quiet_succeeded with (id := id) (t := t); try reflexivity. exact Hp.
Qed.

Lemma wake_quiet id h m : quiet m (wake id h m) [].
Proof.
  unfold wake.
  destruct (pending m !! id) as [t|] eqn:Hp; [|apply quiet_refl].
  destruct (phase t); try apply quiet_refl.
  apply startAttempt_quiet. exact Hp.
Qed.

Lemma resume_quiet id h m : quiet m (resume id h m) [].
Proof.
  unfold resume.
  destruct (pending m !! id) as [t|] eqn:Hp; [|apply quiet_refl].
  destruct (phase t); try apply quiet_refl.
  - apply quiet_succeeded with (id := id) (t := t); try reflexivity. exact Hp.
  - rewrite <- (emit_nil m) at 2. apply caught_quiet. exact Hp.
Qed.

(** A step that leaves the flush counter alone has called no [flush];
    it is quiet, and pushes at most the entry it was given. *)
Lemma step_quiet m x :
  nextFlush (step m x) = nextFlush m ->
  exists es, es `sublist_of` added [x] /\ quiet m (step m x) es.
Proof.
  destruct x as [ev h]. unfold step, added. cbn [fst snd omap].
  destruct ev as [e| | |id o|id|id|].
  - unfold addLog.
    destruct (negb (enabled (config (shipper m))) || isShuttingDown (shipper m)).
    { intros _. exists []. split; [apply sublist_nil_l|apply quiet_refl]. }
    match goal with |- context [if ?b then _ else _] => destruct b end.
    { rewrite flush_nextFlush. cbn. lia. }
    intros _. exists [e]. split; [reflexivity|].
    apply quiet_push; reflexivity.
  - rewrite flush_nextFlush. lia.
  - unfold tick. destruct (flushTimer (shipper m)).
    + rewrite flush_nextFlush. lia.
    + intros _. exists []. split; [reflexivity|apply quiet_refl].
  - intros _. exists []. split; [reflexivity|apply respond_quiet].
  - intros _. exists []. split; [reflexivity|apply wake_quiet].
  - intros _. exists []. split; [reflexivity|apply resume_quiet].
  - unfold shutdown.
    destruct (0 <? length (logQueue (shipper m)))%nat.
    + rewrite flush_nextFlush. cbn. lia.
    + intros _. exists []. split; [reflexivity|].
      apply quiet_push; try reflexivity. cbn. symmetry. apply app_nil_r.
Qed.




(** *** Order of the queue around one flush *)





(** *** Deliveries in flight *)

Lemma inFlight_le m : (inFlight m <= size (pending m))%nat.
Proof. unfold inFlight. apply map_subseteq_size, map_filter_subseteq. Qed.

Lemma size_delete_le (p : gmap nat FlushTask) id : (size (delete id p) <= size p)%nat.
Proof. rewrite map_size_delete. destruct (p !! id); simpl; lia. Qed.

Lemma size_insert_le (p : gmap nat FlushTask) id t :
  (size (<[id := t]> p) <= S (size p))%nat.
Proof. rewrite map_size_insert. destruct (p !! id); simpl; lia. Qed.

Lemma quiet_size m m' es : quiet m m' es -> (size (pending m') <= size (pending m))%nat.
Proof.
  intros [Hp _ _|i t t' _ Hi _ _ Hp _ _|i t f _ _ Hp _ _|i t _ _ Hp _ _]; rewrite Hp.
  - lia.
  - rewrite map_size_insert_Some by eauto. lia.
  - apply size_delete_le.
  - apply size_delete_le.
Qed.

Lemma flush_pending_size who h m :
  (size (pending (flush who h m)) <= S (size (pending m)))%nat.
Proof.
  unfold flush.
  destruct (negb (enabled (config (shipper m)))
            || (length (logQueue (shipper m)) =? 0)%nat).
  - cbn [settle pending]. pose proof (size_delete_le (pending m) (nextFlush m)). lia.
  - unfold startAttempt. cbn [shipper with_shipper config with_queue].
    destruct (1 <=? maxRetries (config (shipper m)));
      cbn [with_pending pending emit]; apply size_insert_le.
Qed.

Lemma step_pending_size m x :
  (size (pending (step m x)) <= S (size (pending m)))%nat.
Proof.
  destruct x as [ev h]. unfold step. cbn [fst snd].
  destruct ev as [e| | |id o|id|id|].
  - unfold addLog.
    destruct (negb (enabled (config (shipper m))) || isShuttingDown (shipper m));
      [lia|].
    match goal with |- context [if ?b then _ else _] => destruct b end.
    + match goal with |- context [flush ?w ?hh ?mm] =>
        pose proof (flush_pending_size w hh mm) as H end.
      exact H.
    + cbn. lia.
  - apply flush_pending_size.
  - unfold tick. destruct (flushTimer (shipper m)); [apply flush_pending_size|lia].
  - pose proof (quiet_size _ _ _ (respond_quiet id o h m)). lia.
  - pose proof (quiet_size _ _ _ (wake_quiet id h m)). lia.
  - pose proof (quiet_size _ _ _ (resume_quiet id h m)). lia.
  - unfold shutdown.
    destruct (0 <? length (logQueue (shipper m)))%nat.
    + match goal with |- context [flush ?w ?hh ?mm] =>
        pose proof (flush_pending_size w hh mm) as H end.
      exact H.
    + cbn. lia.
Qed.

Lemma serial_bound xs :
  forall m,
    (size (pending m) <= 1)%nat ->
    serial m xs ->
    (size (pending (run m xs)) <= 1)%nat.
Proof.
  induction xs as [|x xs IH]; intros m Hm Hserial; [exact Hm|].
  destruct Hserial as [Hx Hrest].
  change (run m (x :: xs)) with (run (step m x) xs).
  apply IH; [|exact Hrest].
  destruct Hx as [Hidle|Hquiet].
  - pose proof (step_pending_size m x) as H.
    rewrite Hidle, map_size_empty in H. exact H.
  - destruct (step_quiet m x Hquiet) as (es & _ & Hq).
    pose proof (quiet_size _ _ _ Hq). lia.
Qed.

(** *** Payloads *)

Lemma tidy_app a b : tidy a -> tidy b -> tidy (a ++ b).
Proof. unfold tidy. rewrite posts_app. apply Forall_app_2. Qed.

Lemma tidy_silent out : posts out = [] -> tidy out.
Proof. unfold tidy. intros ->. constructor. Qed.

Lemma settle_tidy id who r m : tidy (io m) -> tidy (io (settle id who r m)).
Proof.
  intros H. cbn [settle io]. apply tidy_app; [exact H|].
  apply tidy_silent. destruct who, r; reflexivity.
Qed.

Lemma flushSucceeded_tidy id t h m : tidy (io m) -> tidy (io (flushSucceeded id t h m)).
Proof.
  intros H. unfold flushSucceeded. apply settle_tidy. cbn [emit io with_shipper].
  apply tidy_app; [exact H|]. apply tidy_silent. reflexivity.
Qed.

Lemma flushFailed_tidy id t f m : tidy (io m) -> tidy (io (flushFailed id t f m)).
Proof.
  intros H. unfold flushFailed. apply settle_tidy. cbn [emit io with_shipper].
  apply tidy_app; [exact H|]. apply tidy_silent. reflexivity.
Qed.

Lemma sendLogsRequest_tidy c h logs : tidy (sendLogsRequest c h logs).1.
Proof.
  unfold tidy. rewrite posts_request.
  destruct (serializes (validateAndCleanLogs h logs)); [|constructor].
  constructor; [|constructor]. apply validateAndCleanLogs_clean.
Qed.

Lemma startAttempt_tidy id t n h m : tidy (io m) -> tidy (io (startAttempt id t n h m)).
Proof.
  intros H. unfold startAttempt.
  destruct (n <=? maxRetries (config (shipper m))).
  - cbn [with_pending emit io]. apply tidy_app; [exact H|].
    apply sendLogsRequest_tidy.
  - exact H.
Qed.

Lemma flush_tidy who h m : tidy (io m) -> tidy (io (flush who h m)).
Proof.
  intros H. unfold flush.
  destruct (negb (enabled (config (shipper m)))
            || (length (logQueue (shipper m)) =? 0)%nat).
  - apply settle_tidy. exact H.
  - apply startAttempt_tidy. exact H.
Qed.

Lemma caught_tidy id t f m : tidy (io m) -> tidy (io (caught id t f m)).
Proof.
  intros H. unfold caught.
  destruct (catchBlock (config (shipper m)) (attempt t) f).
  - apply flushFailed_tidy. cbn [emit io]. apply tidy_app; [exact H|].
    apply tidy_silent. reflexivity.
  - cbn [with_pending emit io]. apply tidy_app; [exact H|].
    apply tidy_silent. reflexivity.
Qed.

Lemma respond_tidy id o h m : tidy (io m) -> tidy (io (respond id o h m)).
Proof.
  intros H. unfold respond.
  destruct (pending m !! id) as [t|]; [|exact H].
  destruct (phase t); try exact H.
  pose proof (sendLogsResult_quiet (config (shipper m)) o) as [Hquiet _].
  destruct (sendLogsResult (config (shipper m)) o) as [out r]. simpl in Hquiet.
  assert (H1 : tidy (io (emit out m))).
  { cbn [emit io]. apply tidy_app; [exact H|]. apply tidy_silent. exact Hquiet. }
  destruct r as [f|].
  - apply caught_tidy. exact H1.
  - apply flushSucceeded_tidy. exact H1.
Qed.

Lemma wake_tidy id h m : tidy (io m) -> tidy (io (wake id h m)).
Proof.
  intros H. unfold wake.
  destruct (pending m !! id) as [t|]; [|exact H].
  destruct (phase t); try exact H.
  apply startAttempt_tidy. exact H.
Qed.

Lemma resume_tidy id h m : tidy (io m) -> tidy (io (resume id h m)).
Proof.
  intros H. unfold resume.
  destruct (pending m !! id) as [t|]; [|exact H].
  destruct (phase t); try exact H.
  - apply flushSucceeded_tidy. exact H.
  - apply caught_tidy. exact H.
Qed.

Lemma step_tidy m x : tidy (io m) -> tidy (io (step m x)).
Proof.
  intros H. destruct x as [ev h]. unfold step. cbn [fst snd].
  destruct ev as [e| | |id o|id|id|].
  - unfold addLog.
    destruct (negb (enabled (config (shipper m))) || isShuttingDown (shipper m));
      [exact H|].
    match goal with |- context [if ?b then _ else _] => destruct b end;
      [apply flush_tidy|]; exact H.
  - apply flush_tidy. exact H.
  - unfold tick. destruct (flushTimer (shipper m)); [apply flush_tidy|]; exact H.
  - apply respond_tidy. exact H.
  - apply wake_tidy. exact H.
  - apply resume_tidy. exact H.
  - unfold shutdown.
    assert (H1 : tidy (io m ++ [Console "INFO" "LogShipper shutting down"])).
    { apply tidy_app; [exact H|]. apply tidy_silent. reflexivity. }
    destruct (0 <? length (logQueue (shipper m)))%nat;
      [apply flush_tidy|]; exact H1.
Qed.

Lemma run_tidy xs : forall m, tidy (io m) -> tidy (io (run m xs)).
Proof.
  induction xs as [|x xs IH]; intros m H; [exact H|].
  change (run m (x :: xs)) with (run (step m x) xs).
  apply IH, step_tidy, H.
Qed.

(** Every payload that a shipper hands to [fetch], at a first attempt
    or at a retry, consists of entries that pass the filter of
    [validateAndCleanLogs]. *)
Lemma posted_entries_pass s xs payload e :
  payload ∈ posts (io (run (boot s) xs)) ->
  e ∈ payload ->
  hasRequiredFields e = true.
Proof.
  intros Hpayload He.
  assert (Htidy : tidy (io (run (boot s) xs))).
  { apply run_tidy. constructor. }
  unfold tidy in Htidy. rewrite Forall_forall in Htidy.
  specialize (Htidy payload Hpayload).
  unfold cleanPayload in Htidy. rewrite Forall_forall in Htidy.
  exact (Htidy e He).
Qed.

(** C7, at the failing input.  An entry whose level is the string
    [constructor] is normalised to an entry whose level is the function
    that the table [levelMap] inherits under that name.  The filter
    keeps the entry, since a function is truthy; the shipper posts it;
    and [JSON.stringify] writes nothing for its level.  With the level
    [__PROTO__] the level posted is [Object.prototype], written as an
    empty object.  The component goes through the same lookup. *)
Theorem validateAndCleanLogs_inherited_level :
  let e := cleanLog (host 0) 0 (entryAt "constructor") in
  let e' := cleanLog (host 0) 0 (entryAt "__PROTO__") in
  let m := run (started 1 3) [ (AddLog (entryAt "constructor"), host 0) ] in
  validateAndCleanLogs (host 0) [entryAt "constructor"] = [e]
  /\ hasRequiredFields e = true
  /\ posts (io m) = [[e]]
  /\ level e = Inherited "constructor"
  /\ written (level e) = WNothing
  /\ level e' = Inherited "__proto__"
  /\ written (level e') = WEmptyObject
  /\ mapComponentToValidEnum "constructor" = Inherited "constructor".
Proof. vm_compute. repeat split; reflexivity. Qed.

(** *** Flush identifiers *)

Lemma quiet_counted m m' es :
  nextFlush m' = nextFlush m -> quiet m m' es -> counted m -> counted m'.
Proof.
  intros Hn Hq Hm id Hid. rewrite Hn in Hid. specialize (Hm id Hid).
  destruct Hq as [Hp _ _|i t t' _ Hi _ _ Hp _ _|i t f _ _ Hp _ _|i t _ _ Hp _ _];
    rewrite Hp.
  - exact Hm.
  - rewrite lookup_insert_ne; [exact Hm|]. intros <-. congruence.
  - apply lookup_delete_None. right. exact Hm.
  - apply lookup_delete_None. right. exact Hm.
Qed.

Lemma flush_counted who h m : counted m -> counted (flush who h m).
Proof.
  intros Hm id Hid. rewrite flush_nextFlush in Hid.
  assert (Hold : pending m !! id = None) by (apply Hm; lia).
  unfold flush.
  destruct (negb (enabled (config (shipper m)))
            || (length (logQueue (shipper m)) =? 0)%nat).
  - cbn [settle pending]. apply lookup_delete_None. right. exact Hold.
  - unfold startAttempt. cbn [shipper with_shipper config with_queue].
    destruct (1 <=? maxRetries (config (shipper m)));
      cbn [with_pending pending emit]; (rewrite lookup_insert_ne; [exact Hold|lia]).
Qed.

Lemma step_counted m x : counted m -> counted (step m x).
Proof.
  intros Hm.
  destruct (decide (nextFlush (step m x) = nextFlush m)) as [Hsame|Hcalled].
  { destruct (step_quiet m x Hsame) as (es & _ & Hq).
    exact (quiet_counted _ _ _ Hsame Hq Hm). }
  destruct x as [ev h]. unfold step in *. cbn [fst snd] in *.
  destruct ev as [e| | |id o|id|id|].
  - unfold addLog in *.
    destruct (negb (enabled (config (shipper m))) || isShuttingDown (shipper m));
      [contradiction|].
    match goal with |- context [if ?b then _ else _] => destruct b end.
    + apply flush_counted. exact Hm.
    + exfalso. apply Hcalled. reflexivity.
  - apply flush_counted. exact Hm.
  - unfold tick in *. destruct (flushTimer (shipper m));
      [apply flush_counted; exact Hm|contradiction].
  - rewrite respond_nextFlush in Hcalled. contradiction.
  - rewrite wake_nextFlush in Hcalled. contradiction.
  - rewrite resume_nextFlush in Hcalled. contradiction.
  - unfold shutdown in *.
    destruct (0 <? length (logQueue (shipper m)))%nat.
    + apply flush_counted. exact Hm.
    + exfalso. apply Hcalled. reflexivity.
Qed.

(** In every state a new shipper reaches, the identifier of the next
    flush is not that of a suspended one. *)
Lemma run_counted xs : forall m, counted m -> counted (run m xs).
Proof.
  induction xs as [|x xs IH]; intros m H; [exact H|].
  change (run m (x :: xs)) with (run (step m x) xs).
  apply IH, step_counted, H.
Qed.

Lemma boot_counted s : counted (boot s).
Proof. intros id _. apply lookup_empty. Qed.

(** *** Requests posted, answered and in flight *)

Lemma inFlight_delete (p : gmap nat FlushTask) id :
  (size (filter (fun kv : nat * FlushTask => phase kv.2 = Fetching) (delete id p))
   + fetching (p !! id)
   = size (filter (fun kv : nat * FlushTask => phase kv.2 = Fetching) p))%nat.
Proof.
  rewrite map_filter_delete.
  set (q := filter (fun kv : nat * FlushTask => phase kv.2 = Fetching) p).
  destruct (p !! id) as [t|] eqn:Hid; unfold fetching.
  - destruct (decide (phase t = Fetching)) as [Hb|Hb].
    + assert (Hq : q !! id = Some t) by (apply map_lookup_filter_Some; auto).
      rewrite <- (insert_delete_id q id t Hq) at 2.
      rewrite map_size_insert_None by apply lookup_delete_eq. lia.
    + assert (Hq : q !! id = None).
      { apply map_lookup_filter_None. right. intros x Hx.
        rewrite Hid in Hx. injection Hx as <-. exact Hb. }
      rewrite (delete_id _ _ Hq). lia.
  - assert (Hq : q !! id = None) by (apply map_lookup_filter_None; auto).
    rewrite (delete_id _ _ Hq). lia.
Qed.

Lemma inFlight_insert (p : gmap nat FlushTask) id t :
  (size (filter (fun kv : nat * FlushTask => phase kv.2 = Fetching) (<[id := t]> p))
   + fetching (p !! id)
   = size (filter (fun kv : nat * FlushTask => phase kv.2 = Fetching) p)
     + fetching (Some t))%nat.
Proof.
  pose proof (inFlight_delete p id) as Hdel.
  rewrite map_filter_insert. unfold fetching at 2. cbn [snd].
  destruct (decide (phase t = Fetching)) as [Hb|Hb].
  - rewrite <- insert_delete_eq, map_size_insert_None by apply lookup_delete_eq.
    rewrite <- map_filter_delete. lia.
  - lia.
Qed.

Lemma emit_outstanding out m k :
  posts out = [] -> outstanding m k -> outstanding (emit out m) k.
Proof.
  unfold outstanding, inFlight. intros Hout H. cbn [emit io pending].
  rewrite posts_app, Hout, app_nil_r. exact H.
Qed.

Lemma settle_outstanding id who r m k :
  outstanding m k ->
  outstanding (settle id who r m) (k + fetching (pending m !! id)).
Proof.
  unfold outstanding, inFlight. intros H. cbn [settle io pending].
  pose proof (inFlight_delete (pending m) id) as Hdel.
  rewrite posts_app.
  replace (posts match who, r with
                 | ByTimer, Some _ => [Console "ERROR" "Scheduled flush failed"]
                 | ByAddLog, Some _ => [Console "ERROR" "Immediate flush failed"]
                 | ByShutdown, Some _ => [Console "ERROR" "Final flush failed"]
                 | ByShutdown, None =>
                     [Console "INFO" "Final flush completed successfully"]
                 | _, _ => []
                 end) with (@nil (list LogEntry)) by (destruct who, r; reflexivity).
  rewrite app_nil_r. lia.
Qed.

Lemma flushFailed_outstanding id t f m k :
  outstanding m k ->
  outstanding (flushFailed id t f m) (k + fetching (pending m !! id)).
Proof.
  intros H. unfold flushFailed.
  apply (settle_outstanding id (caller t) (Some f)
           (emit [Console "ERROR" "Failed to ship logs after retries"]
              (with_shipper m (with_queue (shipper m) (batch t ++ logQueue (shipper m)))))).
  apply emit_outstanding; [reflexivity|]. exact H.
Qed.

Lemma flushSucceeded_outstanding id t h m k :
  outstanding m k ->
  outstanding (flushSucceeded id t h m) (k + fetching (pending m !! id)).
Proof.
  intros H. unfold flushSucceeded.
  apply (settle_outstanding id (caller t) None
           (emit [Console "DEBUG" "Logs shipped successfully"]
              (with_shipper m (with_lastSuccessfulFlush (shipper m) (now h))))).
  apply emit_outstanding; [reflexivity|]. exact H.
Qed.

Lemma caught_outstanding id t f m k :
  outstanding m k ->
  outstanding (caught id t f m) (k + fetching (pending m !! id)).
Proof.
  intros H. unfold caught.
  destruct (catchBlock (config (shipper m)) (attempt t) f).
  - apply (flushFailed_outstanding id t f (emit [Console "ERROR" why] m)).
    apply emit_outstanding; [reflexivity|]. exact H.
  - unfold outstanding, inFlight in *. cbn [with_pending emit io pending].
    pose proof (inFlight_insert (pending m) id
                  {| batch := batch t; attempt := attempt t;
                     phase := Sleeping delay; caller := caller t |}) as Hins.
    unfold fetching at 2 in Hins. cbn [phase] in Hins.
    rewrite decide_False in Hins by discriminate.
    rewrite posts_app. cbn [posts omap list_omap]. rewrite app_nil_r. lia.
Qed.

Lemma startAttempt_outstanding id t n h m k :
  fetching (pending m !! id) = 0%nat ->
  outstanding m k -> outstanding (startAttempt id t n h m) k.
Proof.
  intros Hold H. unfold startAttempt.
  destruct (n <=? maxRetries (config (shipper m))).
  - set (request := sendLogsRequest (config (shipper m)) h (batch t)).
    unfold outstanding, inFlight in *. cbn [with_pending emit io pending].
    pose proof (inFlight_insert (pending m) id
                  {| batch := batch t; attempt := n;
                     phase := phaseAfter request; caller := caller t |}) as Hins.
    rewrite Hold in Hins. unfold fetching in Hins. cbn [phase] in Hins.
    rewrite posts_app, length_app. unfold request in *.
    rewrite posts_request. rewrite phaseAfter_request in *.
    destruct (serializes (validateAndCleanLogs h (batch t)));
      [rewrite decide_True in Hins by reflexivity
      |rewrite decide_False in Hins by discriminate];
      cbn [length]; lia.
  - unfold outstanding, inFlight in *. cbn [with_pending io pending].
    pose proof (inFlight_insert (pending m) id
                  {| batch := batch t; attempt := n;
                     phase := Returning; caller := caller t |}) as Hins.
    rewrite Hold in Hins. unfold fetching in Hins. cbn [phase] in Hins.
    rewrite decide_False in Hins by discriminate. lia.
Qed.

Lemma flush_outstanding who h m k :
  counted m -> outstanding m k -> outstanding (flush who h m) k.
Proof.
  intros Hcounted H.
  assert (Hfresh : pending m !! nextFlush m = None) by (apply Hcounted; lia).
  unfold flush.
  destruct (negb (enabled (config (shipper m)))
            || (length (logQueue (shipper m)) =? 0)%nat).
  - match goal with
    | |- outstanding (settle ?i ?w ?r ?mm) _ =>
        pose proof (settle_outstanding i w r mm k H) as Hs
    end.
    cbn [pending] in Hs. rewrite Hfresh in Hs. cbn [fetching] in Hs.
    rewrite Nat.add_0_r in Hs. exact Hs.
  - apply startAttempt_outstanding.
    + cbn [with_shipper pending]. rewrite Hfresh. reflexivity.
    + exact H.
Qed.

Lemma step_outstanding m x k :
  counted m -> outstanding m k ->
  outstanding (step m x) (k + if answers m x then 1 else 0).
Proof.
  intros Hcounted H. destruct x as [ev h]. unfold step, answers. cbn [fst snd].
  destruct ev as [e| | |id o|id|id|]; rewrite ?Nat.add_0_r.
  - unfold addLog.
    destruct (negb (enabled (config (shipper m))) || isShuttingDown (shipper m));
      [exact H|].
    match goal with |- context [if ?b then _ else _] => destruct b end.
    + apply flush_outstanding; [|exact H].
      intros i Hi. apply Hcounted. exact Hi.
    + exact H.
  - apply flush_outstanding; assumption.
  - unfold tick. destruct (flushTimer (shipper m));
      [apply flush_outstanding; assumption|exact H].
  - unfold respond.
    destruct (pending m !! id) as [t|] eqn:Hp; [|rewrite Nat.add_0_r; exact H].
    destruct (phase t) eqn:Hb;
      try (rewrite bool_decide_eq_false_2 by discriminate;
           rewrite Nat.add_0_r; exact H).
    rewrite bool_decide_eq_true_2 by reflexivity.
    pose proof (sendLogsResult_quiet (config (shipper m)) o) as [Hquiet _].
    destruct (sendLogsResult (config (shipper m)) o) as [out [f|]]; cbn [fst] in Hquiet.
    + pose proof (caught_outstanding id t f (emit out m) k
                    (emit_outstanding out m k Hquiet H)) as Hc.
      cbn [emit pending] in Hc. rewrite Hp in Hc. unfold fetching in Hc.
      rewrite decide_True in Hc by exact Hb. exact Hc.
    + pose proof (flushSucceeded_outstanding id t h (emit out m) k
                    (emit_outstanding out m k Hquiet H)) as Hc.
      cbn [emit pending] in Hc. rewrite Hp in Hc. unfold fetching in Hc.
      rewrite decide_True in Hc by exact Hb. exact Hc.
  - unfold wake.
    destruct (pending m !! id) as [t|] eqn:Hp; [|exact H].
    destruct (phase t) eqn:Hb; try exact H.
    apply startAttempt_outstanding; [|exact H].
    rewrite Hp. unfold fetching. rewrite decide_False by (rewrite Hb; discriminate).
    reflexivity.
  - unfold resume.
    destruct (pending m !! id) as [t|] eqn:Hp; [|exact H].
    destruct (phase t) eqn:Hb; try exact H.
    + pose proof (flushSucceeded_outstanding id t h m k H) as Hc.
      rewrite Hp in Hc. unfold fetching in Hc.
      rewrite decide_False in Hc by (rewrite Hb; discriminate).
      rewrite Nat.add_0_r in Hc. exact Hc.
    + pose proof (caught_outstanding id t NoStatus m k H) as Hc.
      rewrite Hp in Hc. unfold fetching in Hc.
      rewrite decide_False in Hc by (rewrite Hb; discriminate).
      rewrite Nat.add_0_r in Hc. exact Hc.
  - unfold shutdown.
    match goal with
    | |- context [if ?b then flush ByShutdown h ?m1 else _] =>
        assert (H1 : outstanding m1 k) by (apply emit_outstanding; [reflexivity|exact H]);
        destruct b; [apply flush_outstanding; [|exact H1]|exact H1]
    end.
    intros i Hi. apply Hcounted. exact Hi.
Qed.

Lemma run_outstanding xs :
  forall m k,
    counted m -> outstanding m k -> outstanding (run m xs) (k + answered m xs).
Proof.
  induction xs as [|x xs IH]; intros m k Hcounted H; cbn [answered].
  - rewrite Nat.add_0_r. exact H.
  - change (run m (x :: xs)) with (run (step m x) xs).
    rewrite Nat.add_assoc. apply IH.
    + apply step_counted. exact Hcounted.
    + apply step_outstanding; assumption.
Qed.

(** C9, as amended.  In every run of a shipper the requests posted
    are the requests answered and the deliveries in flight, one per
    suspended flush that waits for its [fetch]: the deliveries in flight
    are at most the flushes that are suspended.  A response, the end of a
    backoff delay and the resumption of a flush never add a suspended
    flush.  In every run from a new shipper in which no [flush] is called
    while another is suspended, at most one flush is suspended, at most
    one delivery is in flight, and every request but the last has been
    answered. *)
Theorem flush_not_serialised :
  (forall s xs,
      let m := run (boot s) xs in
      length (posts (io m)) = (answered (boot s) xs + inFlight m)%nat
      /\ (inFlight m <= size (pending m))%nat)
  /\ (forall m id o h, (size (pending (respond id o h m)) <= size (pending m))%nat)
  /\ (forall m id h, (size (pending (wake id h m)) <= size (pending m))%nat)
  /\ (forall m id h, (size (pending (resume id h m)) <= size (pending m))%nat)
  /\ (forall s xs,
        serial (boot s) xs ->
        let m := run (boot s) xs in
        (size (pending m) <= 1)%nat
        /\ (inFlight m <= 1)%nat
        /\ (length (posts (io m)) <= answered (boot s) xs + 1)%nat).
Proof.
  assert (Hposted : forall s xs,
             length (posts (io (run (boot s) xs)))
             = (answered (boot s) xs + inFlight (run (boot s) xs))%nat).
  { intros s xs.
    pose proof (run_outstanding xs (boot s) 0 (boot_counted s)) as H.
    unfold outstanding in H. rewrite Nat.add_0_l in H. apply H.
    unfold inFlight. cbn. rewrite map_filter_empty, map_size_empty. reflexivity. }
  split; [intros s xs m; split; [apply Hposted|apply inFlight_le]|].
  split; [intros m id o h; exact (quiet_size _ _ _ (respond_quiet id o h m))|].
  split; [intros m id h; exact (quiet_size _ _ _ (wake_quiet id h m))|].
  split; [intros m id h; exact (quiet_size _ _ _ (resume_quiet id h m))|].
  intros s xs Hserial m.
  assert (Hsize : (size (pending m) <= 1)%nat).
  { apply serial_bound; [|exact Hserial]. cbn. rewrite map_size_empty. lia. }
  pose proof (inFlight_le m) as Hle. pose proof (Hposted s xs) as Hp. fold m in Hp.
  split; [exact Hsize|]. split; lia.
Qed.

(** C9, counterexample.  On a new shipper with batch size 1, two
    [addLog] calls in a row leave two deliveries in flight: each call
    reaches the batch size and calls [flush], and the second [flush]
    does not wait for the first. *)
Lemma flush_not_serialised_counterexample :
  let m := run (started 1 3)
               [ (AddLog (entry "first"), host 0);
                 (AddLog (entry "second"), host 1) ] in
  inFlight m = 2%nat
  /\ posts (io m)
     = [ validateAndCleanLogs (host 0) [entry "first"];
         validateAndCleanLogs (host 1) [entry "second"] ]
  /\ settled m = [].
Proof. vm_compute. repeat split; reflexivity. Qed.

(** *** An awaited flush settles *)

(** Whatever the responses, an awaited [flush] settles: after one
    round per attempt its promise is resolved or rejected and the flush
    is no longer suspended. *)
Lemma flushAndWait_settles fetched clock m :
  let m' := flushAndWait fetched clock m in
  pending m' !! nextFlush m = None
  /\ exists r, settled m' = settled m ++ [(nextFlush m, Direct, r)].
Proof.
  intros m'.
  destruct (negb (enabled (config (shipper m)))
            || (length (logQueue (shipper m)) =? 0)%nat) eqn:Hguard.
  - subst m'. unfold flushAndWait, flush. rewrite Hguard.
    match goal with
    | |- context [awaitFlush ?n ?i fetched clock ?mm] =>
        assert (Hgone : pending mm !! i = None)
          by (cbn [settle pending]; apply lookup_delete_eq);
        rewrite (awaitFlush_settled n i fetched clock mm Hgone)
    end.
    split; [exact Hgone|]. exists None. reflexivity.
  - apply orb_false_iff in Hguard as [Hen Hq].
    apply negb_false_iff in Hen. apply Nat.eqb_neq in Hq.
    assert (Hq' : logQueue (shipper m) <> []) by (intros H; rewrite H in Hq; auto).
    destruct (flushAndWait_loop fetched clock m Hen Hq')
      as (_ & Hsettled & Hpend & _).
    fold m' in Hsettled, Hpend. split.
    + rewrite Hpend. apply lookup_delete_eq.
    + eexists. exact Hsettled.
Qed.

(** *** The theorems at work on the shipper of the tests *)

Lemma sendLogsWithRetry_backoff_witness :
  let m0 := addLog (entry "a") (host 0) (started 10 5) in
  let m1 := flush Direct (host 1) m0 in
  let m2 := wake 0 (host 3) (respond 0 (Response 503 "busy" false) (host 2) m1) in
  let m3 := respond 0 (Response 429 "busy" false) (host 4) m2 in
  let m4 := wake 0 (host 5) m3 in
  let l1 := flush Direct (host 1) (addLog (entry "a") (host 0) (started 10 1)) in
  let fetched := fun k => if k =? 1 then Response 503 "busy" false
                          else if k =? 2 then Response 429 "busy" false
                          else Response 404 "gone" false in
  let payload := validateAndCleanLogs (host 1) [entry "a"] in
  (sleeps (io m3) = [500; 2000]
   /\ posts (io m3) = [payload; payload]
   /\ pending m4 !! 0%nat
      = Some {| batch := [entry "a"]; attempt := 3; phase := Fetching;
                caller := Direct |}
   /\ posts (io m4) = [payload; payload; payload])
  /\ (settled (respond 0 (Response 503 "busy" false) (host 2) l1)
      = [(0%nat, Direct, Some (HttpFailure 503 "busy"))]
      /\ wake 0 (host 3) (respond 0 (Response 503 "busy" false) (host 2) l1)
         = respond 0 (Response 503 "busy" false) (host 2) l1)
  /\ logQueue (shipper (respond 0 (Response 404 "busy" false) (host 4) m2))
     = [entry "a"]
  /\ (let m' := flushAndWait fetched clock m0 in
      length (posts (io m')) = 3%nat
      /\ sleeps (io m') = [500; 2000]
      /\ settled m' = [(0%nat, Direct, Some (HttpFailure 404 "gone"))]
      /\ logQueue (shipper m') = [entry "a"])
  /\ (let m' := flushAndWait (fun _ => Response 400 "busy" false) clock m0 in
      length (posts (io m')) = 1%nat
      /\ sleeps (io m') = []
      /\ logQueue (shipper m') = [entry "a"]).
Proof.
  intros m0 m1 m2 m3 m4 l1 fetched payload.
  destruct sendLogsWithRetry_backoff as (Hstep & _ & _ & Hrun & Hfirst).
  set (t1 := {| batch := [entry "a"]; attempt := 1; phase := Fetching;
                caller := Direct |}).
  set (t2 := {| batch := [entry "a"]; attempt := 2; phase := Fetching;
                caller := Direct |}).
  assert (Hp2 : pending m2 !! 0%nat = Some t2) by (vm_compute; reflexivity).
  assert (Hl : pending l1 !! 0%nat = Some t1) by (vm_compute; reflexivity).
  split; [|split; [|split; [|split]]].
  - destruct (Hstep m2 0%nat t2 (Response 429 "busy" false) (host 4) (host 5)
                [Console "ERROR" "HTTP error response from log ingestion API"]
                (HttpFailure 429 "busy") Hp2 eq_refl eq_refl) as [Hretry _].
    destruct Hretry as (_ & Hsleeps & Hposts & _ & Hp4 & _ & _ & _ & _ & Hsent);
      [reflexivity|vm_compute; reflexivity|].
    destruct (Hsent (host 1)) as [_ Hposts4];
      [discriminate|discriminate|vm_compute; reflexivity|].
    fold m3 in Hsleeps, Hposts, Hp4, Hposts4. fold m4 in Hp4, Hposts4.
    split; [rewrite Hsleeps; vm_compute; reflexivity|].
    split; [rewrite Hposts; vm_compute; reflexivity|].
    split; [rewrite Hp4; vm_compute; reflexivity|].
    rewrite Hposts4. vm_compute. reflexivity.
  - destruct (Hstep l1 0%nat t1 (Response 503 "busy" false) (host 2) (host 3)
                [Console "ERROR" "HTTP error response from log ingestion API"]
                (HttpFailure 503 "busy") Hl eq_refl eq_refl) as (_ & Hlast & _).
    destruct Hlast as (_ & Hsettled & _ & _ & _ & Hstays); [reflexivity|].
    split; [rewrite Hsettled; reflexivity|exact Hstays].
  - destruct (Hstep m2 0%nat t2 (Response 404 "busy" false) (host 4) (host 5)
                [Console "ERROR" "HTTP error response from log ingestion API"]
                (HttpFailure 404 "busy") Hp2 eq_refl eq_refl) as (_ & _ & Hclient).
    destruct Hclient as (_ & _ & _ & _ & Hqueue & _); [reflexivity|].
    rewrite Hqueue. vm_compute. reflexivity.
  - destruct (Hrun fetched clock m0 3 (HttpFailure 404 "gone"))
      as (Hposts & Hsleeps & Hsettled & _ & Hqueue).
    + reflexivity.
    + discriminate.
    + reflexivity.
    + vm_compute. split; discriminate.
    + intros k Hk. assert (Hcases : k = 1 \/ k = 2) by lia.
      destruct Hcases as [-> | ->].
      * exists (HttpFailure 503 "busy"). split; vm_compute; reflexivity.
      * exists (HttpFailure 429 "busy"). split; vm_compute; reflexivity.
    + vm_compute. reflexivity.
    + left. reflexivity.
    + cbv zeta. rewrite Hposts, Hsleeps, Hsettled, Hqueue.
      vm_compute. repeat split; reflexivity.
  - destruct (Hfirst (fun _ => Response 400 "busy" false) clock m0 400
                "busy"%string false)
      as (Hposts & Hsleeps & _ & _ & Hqueue).
    + reflexivity.
    + discriminate.
    + reflexivity.
    + vm_compute. discriminate.
    + vm_compute. reflexivity.
    + reflexivity.
    + lia.
    + lia.
    + cbv zeta. rewrite Hposts, Hsleeps, Hqueue. vm_compute. repeat split; reflexivity.
Defined.


Lemma flush_not_serialised_witness :
  let xs := [ (AddLog (entry "first"), host 0);
              (Respond 0 (Response 200 "{}" true), host 1);
              (AddLog (entry "second"), host 2) ] in
  let m := run (started 1 3) xs in
  serial (started 1 3) xs
  /\ (size (pending m) <= 1)%nat
  /\ (inFlight m <= 1)%nat
  /\ (length (posts (io m)) <= answered (started 1 3) xs + 1)%nat.
Proof.
  intros xs m.
  assert (Hserial : serial (started 1 3) xs).
  { split; [left; reflexivity|].
    split; [right; vm_compute; reflexivity|].
    split; [left; vm_compute; reflexivity|].
    exact I. }
  split; [exact Hserial|].
  destruct flush_not_serialised as (_ & _ & _ & _ & Hbound).
  exact (Hbound _ xs Hserial).
Defined.

End DeliveryFacts.

(** ** The scenarios of the test suites, run on the model *)

Module Checks.
Import Js Scenario.

(** Tracker: a cancelled request is forgotten together with its
    progress token, and its channel is no longer active. *)
Example cancel_cleans_up :
  let t := (Tracker.cancelRequest tracked1 req1 None).1 in
  Tracker.getRequest t req1 = None
  /\ Tracker.getRequestByProgressToken t tok1 = None
  /\ Tracker.isProgressTokenActive tracked1 tok1 = true
  /\ Tracker.isProgressTokenActive t tok1 = false.
Proof. vm_compute. repeat split; reflexivity. Qed.

(** Reporter: 0 of 100 is sent; 50 of 100, 100 ms later, is sent; 40 of
    100 right after is dropped; 100 of 100, 100 ms later, is sent and
    the state of the channel is removed. *)
Example progress_end_to_end :
  let calls :=
    [ {| Reporter.c_tracker := tracked1;
         Reporter.c_update := update 0 (Some 100);
         Reporter.c_now := 1000; Reporter.c_delivered := true |};
      {| Reporter.c_tracker := tracked1;
         Reporter.c_update := update 50 (Some 100);
         Reporter.c_now := 1100; Reporter.c_delivered := true |};
      {| Reporter.c_tracker := tracked1;
         Reporter.c_update := update 40 (Some 100);
         Reporter.c_now := 1100; Reporter.c_delivered := true |};
      {| Reporter.c_tracker := tracked1;
         Reporter.c_update := update 100 (Some 100);
         Reporter.c_now := 1200; Reporter.c_delivered := true |} ] in
  let p := Reporter.reports tok1 calls Reporter.new in
  Reporter.n_progress <$> Reporter.sent p = [0; 50; 100]
  /\ Reporter.progressStates p !! tok1 = None
  /\ lc_code <$> Reporter.logger p
     = [ "PROGRESS_REPORTED"; "PROGRESS_REPORTED"; "PROGRESS_NOT_INCREASING";
         "PROGRESS_REPORTED"; "PROGRESS_CLEANUP" ]%string.
Proof. vm_compute. repeat split; reflexivity. Qed.

(** Reporter: a percentage outside [0, 100] is rejected. *)
Example percentage_out_of_range :
  Reporter.sent
    (Reporter.reportPercentage tracked1 Reporter.new tok1 150 None 1000 true) = []
  /\ Reporter.n_total
       <$> Reporter.sent
             (Reporter.reportPercentage tracked1 Reporter.new tok1 75 None 1000 true)
     = [Some 100].
Proof. vm_compute. split; reflexivity. Qed.

(** Shipper: levels and components are mapped to the accepted ones,
    but for the names the tables inherit. *)
Example level_and_component_mapping :
  Shipper.mapLogLevelToValidEnum "FATAL" = "error"%string
  /\ Shipper.mapLogLevelToValidEnum "Warning" = "warn"%string
  /\ Shipper.mapLogLevelToValidEnum "verbose" = "info"%string
  /\ Shipper.mapLogLevelToValidEnum "toString" = "info"%string
  /\ Shipper.mapLogLevelToValidEnum "Constructor" = Inherited "constructor"
  /\ Shipper.mapComponentToValidEnum "server" = "client"%string
  /\ Shipper.mapComponentToValidEnum "OAuth-Client" = "oauth-client"%string.
Proof. vm_compute. repeat split; reflexivity. Qed.

(** Shipper: functions in the metadata are replaced, undefined values
    are left out, objects that do not serialise are printed, or left out
    with a warning when they do not print either; a [BigInt] is kept,
    and the payload that holds it does not serialise. *)
Example metadata_cleaning :
  let md :=
    [ ("callback", Shipper.MFunction);
      ("missing", Shipper.MUndefined);
      ("self", Shipper.MObject false (Some "[object Object]"));
      ("bare", Shipper.MObject false None);
      ("count", Shipper.MBigInt);
      ("duration_ms", Shipper.MPlain "12") ]%string in
  Shipper.cleanMetadata md
  = [ ("callback", Shipper.MPlain "[Function]");
      ("self", Shipper.MPlain "[object Object]");
      ("count", Shipper.MBigInt);
      ("duration_ms", Shipper.MPlain "12") ]%string
  /\ Shipper.cleaningWarnings [entryWith md]
     = [Shipper.Console "WARN" "Skipping problematic metadata field"]
  /\ Shipper.serializes (Shipper.validateAndCleanLogs (host 0) [entryWith md]) = false.
Proof. vm_compute. repeat split; reflexivity. Qed.

(** Shipper: with batch size 2, two [addLog] calls cause one POST of
    both entries; [flush] on the emptied queue posts nothing more. *)
Example batch_trigger :
  let m := Shipper.run (started 2 3)
             [ (Shipper.AddLog (entry "first"), host 0);
               (Shipper.AddLog (entry "second"), host 1) ] in
  Shipper.posts (Shipper.io m)
  = [ Shipper.validateAndCleanLogs (host 1) [entry "first"; entry "second"] ]
  /\ Shipper.logQueue (Shipper.shipper m) = []
  /\ Shipper.posts (Shipper.io (Shipper.flush Shipper.Direct (host 2) m))
     = Shipper.posts (Shipper.io m).
Proof. vm_compute. repeat split; reflexivity. Qed.

(** Shipper: a network error at each of three attempts is retried
    after 500 ms and after 1000 ms, then raised; the entry is back in
    the queue. *)
Example three_attempts :
  let m0 := Shipper.addLog (entry "a") (host 0) (started 10 3) in
  let m := Shipper.flushAndWait (fun _ => Shipper.NetworkError) clock m0 in
  Shipper.sleeps (Shipper.io m) = [500; 1000]
  /\ length (Shipper.posts (Shipper.io m)) = 3%nat
  /\ Shipper.settled m = [(0%nat, Shipper.Direct, Some Shipper.NoStatus)]
  /\ Shipper.logQueue (Shipper.shipper m) = [entry "a"].
Proof. vm_compute. repeat split; reflexivity. Qed.

(** Shipper: a 401 without API key is reported as a missing key and is
    not retried. *)
Example auth_hint :
  let m0 :=
    Shipper.addLog (entry "a") (host 0)
      (Shipper.boot (Shipper.startFlushTimer (Shipper.initial keylessConfig) 1)) in
  let m := Shipper.flushAndWait (fun _ => Shipper.Response 401 "Unauthorized" false)
             clock m0 in
  Shipper.settled m
  = [(0%nat, Shipper.Direct, Some (Shipper.AuthenticationRequired 401))]
  /\ length (Shipper.posts (Shipper.io m)) = 1%nat.
Proof. vm_compute. split; reflexivity. Qed.

(** Shipper: with no attempt allowed the batch is taken and dropped,
    and the flush resolves. *)
Example no_attempt :
  let m0 := Shipper.addLog (entry "a") (host 0) (started 10 0) in
  let m := Shipper.flushAndWait (fun _ => Shipper.NetworkError) clock m0 in
  Shipper.posts (Shipper.io m) = []
  /\ Shipper.settled m = [(0%nat, Shipper.Direct, None)]
  /\ Shipper.logQueue (Shipper.shipper m) = [].
Proof. vm_compute. repeat split; reflexivity. Qed.

(** Shipper: a batch whose payload does not serialise is never
    posted; every attempt fails before its request, is followed by its
    delay, and the batch ends up back in the queue. *)
Example unserialisable_batch :
  let e := entryWith [("count", Shipper.MBigInt)]%string in
  let m0 := Shipper.addLog e (host 0) (started 10 3) in
  let m := Shipper.flushAndWait (fun _ => Shipper.Response 200 "{}" true) clock m0 in
  Shipper.posts (Shipper.io m) = []
  /\ Shipper.sleeps (Shipper.io m) = [500; 1000]
  /\ Shipper.settled m = [(0%nat, Shipper.Direct, Some Shipper.NoStatus)]
  /\ Shipper.logQueue (Shipper.shipper m) = [e].
Proof. vm_compute. repeat split; reflexivity. Qed.

(** Shipper: an entry without timestamp is stamped anew at every
    attempt. *)
Example retry_restamps :
  let m0 := Shipper.addLog (entryWith []) (host 0) (started 10 3) in
  let m := Shipper.flushAndWait (fun _ => Shipper.NetworkError) clock m0 in
  map (map Shipper.timestamp) (Shipper.posts (Shipper.io m))
  = [ ["2024-01-01T00:00:01.000Z"]; ["2024-01-01T00:00:02.000Z"];
      ["2024-01-01T00:00:03.000Z"] ]%string.
Proof. vm_compute. reflexivity. Qed.

End Checks.

(** * Further properties of the code *)

(** ** RequestTracker: lookups, sweep and shutdown *)

Module TrackerOpsFacts.
Import Js Tracker TrackerOps Scenario TrackerFacts.

Lemma getRequest_log l code t id : getRequest (log l code t) id = getRequest t id.
Proof. reflexivity. Qed.

(** X1.  After the registration of an id that was not tracked, with a
    progress token: the id is found and active; the token leads to the
    new context and is active exactly when the id is truthy.  For the id
    [0] or the empty string the token reads as unknown and inactive. *)
Theorem register_then_token_lookup :
  forall t id tok tool now,
    activeRequests t !! id = None ->
    let r := registerRequest t id (Some tok) tool now in
    let context :=
      {| requestId := id; abortController := newAbortController;
         progressToken := Some tok; startTime := now; toolName := tool |} in
    getRequest r.1 id = Some context
    /\ isActive r.1 id = true
    /\ getRequestByProgressToken r.1 tok
       = (if key_truthy id then Some context else None)
    /\ isProgressTokenActive r.1 tok = key_truthy id.
Proof.
  intros t id tok tool now Hid r context.
  assert (Hget : getRequest r.1 id = Some context).
  { subst r. unfold registerRequest. rewrite Hid. cbn [fst].
    rewrite getRequest_log. unfold getRequest. cbn [activeRequests store].
    rewrite lookup_insert_eq. cbn. apply lookup_insert_eq. }
  assert (Htok : progressTokens r.1 !! tok = Some id).
  { subst r. unfold registerRequest. rewrite Hid. cbn. apply lookup_insert_eq. }
  assert (Hact : isActive r.1 id = true).
  { unfold isActive. rewrite Hget. reflexivity. }
  split; [exact Hget|]. split; [exact Hact|].
  unfold getRequestByProgressToken, isProgressTokenActive. rewrite Htok.
  destruct (key_truthy id); [split; assumption|split; reflexivity].
Qed.

Lemma register_then_token_lookup_witness :
  let r := registerRequest Tracker.new (KNum 0) (Some tok1) None 1000 in
  let r' := registerRequest Tracker.new (KNum 7) (Some tok1) None 1000 in
  isActive r.1 (KNum 0) = true
  /\ isProgressTokenActive r.1 tok1 = false
  /\ isProgressTokenActive r'.1 tok1 = true.
Proof.
  intros r r'.
  destruct (register_then_token_lookup Tracker.new (KNum 0) tok1 None 1000)
    as (_ & H1 & _ & H2); [reflexivity|].
  destruct (register_then_token_lookup Tracker.new (KNum 7) tok1 None 1000)
    as (_ & _ & _ & H3); [reflexivity|].
  repeat split; assumption.
Defined.

(** *** Removing a request whose context was written through its
    reference *)

Lemma cleanup_retires t t' id l c c' :
  consistent t ->
  activeRequests t !! id = Some l ->
  store t !! l = Some c ->
  activeRequests t' = activeRequests t ->
  progressTokens t' = progressTokens t ->
  store t' !! l = Some c' ->
  progressToken c' = progressToken c ->
  (forall l', l' <> l -> store t' !! l' = store t !! l') ->
  consistent (cleanup t' id)
  /\ (tokensLead t -> tokensLead (cleanup t' id))
  /\ activeRequests (cleanup t' id) = delete id (activeRequests t)
  /\ store (cleanup t' id) = store t'
  /\ progressTokens (cleanup t' id)
     = match progressToken c with
       | Some p => delete p (progressTokens t)
       | None => progressTokens t
       end.
Proof.
  intros [Hlive Hinj] Hid Hl Hact Htoks Hl' Hp Hframe.
  assert (Hshape : cleanup t' id =
    log DEBUG "REQUEST_CLEANUP"
      {| store := store t';
         activeRequests := delete id (activeRequests t);
         progressTokens :=
           match progressToken c with
           | Some p => delete p (progressTokens t)
           | None => progressTokens t
           end;
         logger := logger t' |}).
  { unfold cleanup. rewrite Hact, Hid, Hl', Hp, Htoks. reflexivity. }
  rewrite Hshape. cbn [log store activeRequests progressTokens].
  assert (Hother : forall id0 l0, delete id (activeRequests t) !! id0 = Some l0 ->
            activeRequests t !! id0 = Some l0 /\ id0 <> id /\ l0 <> l).
  { intros id0 l0 H0. apply lookup_delete_Some in H0 as [Hne H0].
    split; [exact H0|]. split; [congruence|].
    intros ->. apply Hne. exact (Hinj _ _ _ Hid H0). }
  split; [split; cbn [log store activeRequests]|]; [| |split; [|repeat split]].
  - intros id0 l0 H0. destruct (Hother _ _ H0) as (H1 & _ & Hne).
    rewrite (Hframe _ Hne). eauto.
  - intros id0 id1 l0 H0 H1.
    destruct (Hother _ _ H0) as (H0' & _). destruct (Hother _ _ H1) as (H1' & _).
    eauto.
  - intros Hlead p id0 H0. cbn [log store activeRequests progressTokens] in H0 |- *.
    assert (H0' : progressTokens t !! p = Some id0
                  /\ progressToken c <> Some p).
    { destruct (progressToken c) as [q|].
      - apply lookup_delete_Some in H0 as [Hne H0]. split; [exact H0|congruence].
      - split; [exact H0|discriminate]. }
    destruct H0' as [H0' Hcp].
    destruct (Hlead _ _ H0') as (l0 & c0 & Ha & Hs & Hp0).
    assert (Hne : id0 <> id).
    { intros ->. rewrite Hid in Ha. injection Ha as <-.
      rewrite Hl in Hs. injection Hs as <-. contradiction. }
    assert (Hnel : l0 <> l).
    { intros ->. apply Hne. exact (Hinj _ _ _ Ha Hid). }
    exists l0, c0. split; [|split].
    + rewrite lookup_delete_ne; [exact Ha|congruence].
    + rewrite (Hframe _ Hnel). exact Hs.
    + exact Hp0.
Qed.

Lemma cleanup_tokensLead t id :
  consistent t -> tokensLead t -> tokensLead (cleanup t id).
Proof.
  intros Hcons Hlead.
  destruct (activeRequests t !! id) as [l|] eqn:Hid.
  - destruct (store t !! l) as [c|] eqn:Hl.
    + destruct (cleanup_retires t t id l c c Hcons Hid Hl eq_refl eq_refl Hl eq_refl)
        as (_ & H & _); [reflexivity|]. exact (H Hlead).
    + unfold cleanup. rewrite Hid, Hl. exact Hlead.
  - unfold cleanup. rewrite Hid. exact Hlead.
Qed.

Lemma registerRequest_tokensLead t id tok tool now :
  consistent t -> tokensLead t ->
  tokensLead (registerRequest t id tok tool now).1.
Proof.
  intros [Hlive _] Hlead. unfold registerRequest.
  destruct (activeRequests t !! id) as [l|] eqn:Hid; [exact Hlead|].
  assert (Hfresh : store t !! fresh (dom (store t)) = None)
    by (apply not_elem_of_dom, is_fresh).
  assert (Hold : forall p id0, progressTokens t !! p = Some id0 ->
    exists l0 c0,
      <[id := fresh (dom (store t))]> (activeRequests t) !! id0 = Some l0
      /\ <[fresh (dom (store t)) :=
             {| requestId := id; abortController := newAbortController;
                progressToken := tok; startTime := now; toolName := tool |}]>
           (store t) !! l0 = Some c0
      /\ progressToken c0 = Some p).
  { intros p id0 H0. destruct (Hlead _ _ H0) as (l0 & c0 & Ha & Hs & Hp0).
    exists l0, c0. split; [|split; [|exact Hp0]].
    - rewrite lookup_insert_ne; [exact Ha|congruence].
    - rewrite lookup_insert_ne; [exact Hs|congruence]. }
  intros p id0 H0. cbn in H0 |- *.
  destruct tok as [q|]; [|exact (Hold _ _ H0)].
  apply lookup_insert_Some in H0 as [[<- <-]|[Hne H0]]; [|exact (Hold _ _ H0)].
  eexists _, _. split; [apply lookup_insert_eq|].
  split; [apply lookup_insert_eq|reflexivity].
Qed.

Lemma cancelRequest_tokensLead t id r :
  consistent t -> tokensLead t -> tokensLead (cancelRequest t id r).1.
Proof.
  intros Hcons Hlead. unfold cancelRequest.
  destruct (activeRequests t !! id) as [l|] eqn:Hid; [|exact Hlead].
  destruct (store t !! l) as [c|] eqn:Hl; [|exact Hlead].
  destruct (aborted (abortController c)); [exact Hlead|].
  cbn [fst].
  match goal with
  | |- tokensLead (cleanup ?t' id) =>
      destruct (cleanup_retires t t' id l c
                  (with_abortController c (abort r (abortController c)))
                  Hcons Hid Hl eq_refl eq_refl) as (_ & H & _)
  end.
  - cbn. apply lookup_insert_eq.
  - reflexivity.
  - intros l' Hne. cbn. apply lookup_insert_ne. congruence.
  - exact (H Hlead).
Qed.

(** *** The sweep, one entry at a time *)

Lemma sweepEntry_fresh m now t n id l c :
  store t !! l = Some c -> stale m now c = false ->
  sweepEntry m now (t, n) (id, l) = (t, n).
Proof.
  intros Hl Hs. unfold sweepEntry. cbn [fst snd]. rewrite Hl, Hs. reflexivity.
Qed.

Lemma sweepEntry_stale m now t n id l c :
  store t !! l = Some c -> stale m now c = true ->
  sweepEntry m now (t, n) (id, l)
  = (cleanup (abortThrough (log WARN "REQUEST_STALE" t) l
                (Some "Request timed out"%string)) id, n + 1).
Proof.
  intros Hl Hs. unfold sweepEntry. cbn [fst snd]. rewrite Hl, Hs. reflexivity.
Qed.

Lemma sweepEntry_retires m now t n id l c :
  consistent t ->
  activeRequests t !! id = Some l ->
  store t !! l = Some c ->
  stale m now c = true ->
  let r := sweepEntry m now (t, n) (id, l) in
  consistent r.1
  /\ (tokensLead t -> tokensLead r.1)
  /\ activeRequests r.1 = delete id (activeRequests t)
  /\ store r.1 = <[l := timedOut c]> (store t)
  /\ progressTokens r.1
     = match progressToken c with
       | Some p => delete p (progressTokens t)
       | None => progressTokens t
       end
  /\ r.2 = n + 1.
Proof.
  intros Hcons Hid Hl Hs r. subst r.
  rewrite (sweepEntry_stale _ _ _ _ _ _ _ Hl Hs). cbn [fst snd].
  destruct (proj1 Hcons _ _ Hid) as (c0 & Hc0 & Hlivec).
  rewrite Hl in Hc0. injection Hc0 as <-.
  set (t' := abortThrough _ _ _).
  assert (Hl' : store t' !! l = Some (timedOut c)).
  { subst t'. cbn [abortThrough store log]. rewrite lookup_alter_eq, Hl. cbn.
    unfold abort. rewrite Hlivec. reflexivity. }
  assert (Hframe : forall l', l' <> l -> store t' !! l' = store t !! l').
  { intros l' Hne. subst t'. cbn [abortThrough store log].
    apply lookup_alter_ne. congruence. }
  destruct (cleanup_retires t t' id l c (timedOut c) Hcons Hid Hl eq_refl eq_refl
              Hl' eq_refl Hframe) as (H1 & H2 & H3 & H4 & H5).
  repeat split; try assumption.
  - apply H1.
  - apply H1.
  - rewrite H4. apply map_eq. intros l'.
    destruct (decide (l' = l)) as [->|Hne].
    + rewrite Hl', lookup_insert_eq. reflexivity.
    + rewrite (Hframe _ Hne), lookup_insert_ne; [reflexivity|congruence].
Qed.

Lemma sweepEntry_store_frame m now acc e l :
  l <> e.2 -> store (sweepEntry m now acc e).1 !! l = store acc.1 !! l.
Proof.
  intros Hne. unfold sweepEntry.
  destruct (store acc.1 !! e.2) as [c|]; [|reflexivity].
  destruct (stale m now c); [|reflexivity].
  cbn [fst]. rewrite cleanup_store. cbn [abortThrough store log].
  apply lookup_alter_ne. congruence.
Qed.

Lemma sweep_fold_store_frame m now es :
  forall acc l,
    l ∉ es.*2 ->
    store (foldl (sweepEntry m now) acc es).1 !! l = store acc.1 !! l.
Proof.
  induction es as [|e es IH]; intros acc l Hl; [reflexivity|].
  cbn [foldl]. cbn [fmap list_fmap] in Hl.
  apply not_elem_of_cons in Hl as [Hne Hl].
  rewrite IH by exact Hl. apply sweepEntry_store_frame. exact Hne.
Qed.

(** The loop of [cleanupStaleRequests] over entries of the map. *)
Lemma sweep_fold m now es :
  forall t n,
    consistent t ->
    NoDup es.*1 ->
    (forall id l, (id, l) ∈ es -> activeRequests t !! id = Some l) ->
    let r := foldl (sweepEntry m now) (t, n) es in
    consistent r.1
    /\ (tokensLead t -> tokensLead r.1)
    /\ (forall id l c,
          activeRequests t !! id = Some l -> store t !! l = Some c ->
          if bool_decide ((id, l) ∈ es) && stale m now c
          then activeRequests r.1 !! id = None
               /\ store r.1 !! l = Some (timedOut c)
               /\ (forall p, progressToken c = Some p ->
                             progressTokens r.1 !! p = None)
          else activeRequests r.1 !! id = Some l /\ store r.1 !! l = Some c)
    /\ (forall id, activeRequests t !! id = None ->
                   activeRequests r.1 !! id = None)
    /\ (forall p, progressTokens t !! p = None -> progressTokens r.1 !! p = None)
    /\ (forall l, store t !! l = None -> store r.1 !! l = None)
    /\ r.2 - n = Z.of_nat (size (activeRequests t))
                 - Z.of_nat (size (activeRequests r.1)).
Proof.
  induction es as [|[id0 l0] es IH]; intros t n Hcons Hnodup Hin r.
  - subst r. cbn [foldl fst snd].
    split; [exact Hcons|]. split; [auto|]. split.
    { intros id l c Hid Hl. rewrite bool_decide_eq_false_2 by apply not_elem_of_nil.
      cbn. split; assumption. }
    repeat split; auto. lia.
  - cbn [fmap list_fmap fst] in Hnodup. apply NoDup_cons in Hnodup as [Hnotin Hnodup].
    assert (Hid0 : activeRequests t !! id0 = Some l0) by (apply Hin; left).
    destruct (proj1 Hcons _ _ Hid0) as (c0 & Hc0 & Hlive0).
    subst r. cbn [foldl].
    destruct (stale m now c0) eqn:Hs.
    + (* the entry is stale *)
      destruct (sweepEntry_retires m now t n id0 l0 c0 Hcons Hid0 Hc0 Hs)
        as (Hcons' & Hlead' & Hact' & Hstore' & Htoks' & Hn').
      destruct (sweepEntry m now (t, n) (id0, l0)) as [t' n'] eqn:Hstep.
      cbn [fst snd] in Hcons', Hlead', Hact', Hstore', Htoks', Hn'.
      assert (Hne : forall id l, (id, l) ∈ es -> id <> id0 /\ l <> l0).
      { intros id l He.
        assert (id <> id0).
        { intros ->. apply Hnotin. apply list_elem_of_fmap. exists (id0, l). auto. }
        split; [assumption|]. intros ->.
        assert (Ha : activeRequests t !! id = Some l0) by (apply Hin; right; exact He).
        apply H. exact (proj2 Hcons _ _ _ Ha Hid0). }
      assert (Hin' : forall id l, (id, l) ∈ es -> activeRequests t' !! id = Some l).
      { intros id l He. rewrite Hact'. destruct (Hne _ _ He) as [Hn1 _].
        rewrite lookup_delete_ne by congruence. apply Hin. right. exact He. }
      destruct (IH t' n' Hcons' Hnodup Hin')
        as (I1 & I2 & I3 & I4 & I5 & I6 & I7).
      split; [exact I1|]. split; [auto|]. split.
      { intros id l c Hid Hl.
        destruct (decide (id = id0)) as [->|Hneq].
        - rewrite Hid0 in Hid. injection Hid as <-.
          rewrite Hc0 in Hl. injection Hl as <-.
          rewrite bool_decide_eq_true_2 by left. rewrite Hs. cbn.
          assert (Hgone : activeRequests t' !! id0 = None)
            by (rewrite Hact'; apply lookup_delete_eq).
          split; [exact (I4 _ Hgone)|]. split.
          + assert (Hl0 : store t' !! l0 = Some (timedOut c0))
              by (rewrite Hstore'; apply lookup_insert_eq).
            rewrite (sweep_fold_store_frame m now es (t', n') l0); [exact Hl0|].
            intros He. apply list_elem_of_fmap in He as ([id l] & -> & He).
            destruct (Hne _ _ He) as [_ Hx]. apply Hx. reflexivity.
          + intros p Hp. apply I5. rewrite Htoks', Hp. apply lookup_delete_eq.
        - assert (Hl' : l <> l0).
          { intros ->. apply Hneq. exact (proj2 Hcons _ _ _ Hid Hid0). }
          assert (Hid' : activeRequests t' !! id = Some l)
            by (rewrite Hact', lookup_delete_ne by congruence; exact Hid).
          assert (Hls : store t' !! l = Some c)
            by (rewrite Hstore', lookup_insert_ne by congruence; exact Hl).
          specialize (I3 id l c Hid' Hls).
          assert (Hdec : bool_decide ((id, l) ∈ (id0, l0) :: es)
                         = bool_decide ((id, l) ∈ es)).
          { apply bool_decide_ext. rewrite elem_of_cons. split; [|auto].
            intros [Heq|He]; [congruence|exact He]. }
          rewrite Hdec.
          destruct (bool_decide ((id, l) ∈ es) && stale m now c); exact I3. }
      split.
      { intros id Hid. apply I4. rewrite Hact'.
        apply lookup_delete_None. right. exact Hid. }
      split.
      { intros p Hp. apply I5. rewrite Htoks'.
        destruct (progressToken c0); [|exact Hp].
        apply lookup_delete_None. right. exact Hp. }
      split.
      { intros l Hl. apply I6. rewrite Hstore'.
        rewrite lookup_insert_ne; [exact Hl|congruence]. }
      rewrite Hact' in I7.
      assert (Hsz : size (activeRequests t)
                    = S (size (delete id0 (activeRequests t)))).
      { rewrite <- (insert_delete_id (activeRequests t) id0 l0 Hid0) at 1.
        rewrite map_size_insert, lookup_delete_eq. reflexivity. }
      rewrite Hsz. lia.
    + (* the entry is kept *)
      rewrite (sweepEntry_fresh _ _ _ _ _ _ _ Hc0 Hs).
      assert (Hin' : forall id l, (id, l) ∈ es -> activeRequests t !! id = Some l)
        by (intros id l He; apply Hin; right; exact He).
      destruct (IH t n Hcons Hnodup Hin')
        as (I1 & I2 & I3 & I4 & I5 & I6 & I7).
      split; [exact I1|]. split; [exact I2|]. split.
      { intros id l c Hid Hl. specialize (I3 id l c Hid Hl).
        destruct (decide (id = id0)) as [->|Hneq].
        - rewrite Hid0 in Hid. injection Hid as <-.
          rewrite Hc0 in Hl. injection Hl as <-.
          rewrite Hs, andb_false_r. rewrite Hs, andb_false_r in I3. exact I3.
        - assert (Hdec : bool_decide ((id, l) ∈ (id0, l0) :: es)
                         = bool_decide ((id, l) ∈ es)).
          { apply bool_decide_ext. rewrite elem_of_cons. split; [|auto].
            intros [Heq|He]; [congruence|exact He]. }
          rewrite Hdec. exact I3. }
      repeat split; assumption.
Qed.

Lemma enumerates_entries entries t :
  enumerates entries t ->
  NoDup entries.*1
  /\ (forall id l, (id, l) ∈ entries <-> activeRequests t !! id = Some l).
Proof.
  unfold enumerates. intros Hperm. split.
  - rewrite Hperm. apply NoDup_fst_map_to_list.
  - intros id l. rewrite Hperm. apply elem_of_map_to_list.
Qed.

Lemma sweep_consistent entries t maxAgeMs now :
  consistent t -> enumerates entries t ->
  consistent (cleanupStaleRequests entries t maxAgeMs now).1
  /\ (tokensLead t ->
      tokensLead (cleanupStaleRequests entries t maxAgeMs now).1).
Proof.
  intros Hcons Henum. destruct (enumerates_entries _ _ Henum) as [Hnodup Hin].
  destruct (sweep_fold (default 300000 maxAgeMs) now entries t 0 Hcons Hnodup
              (fun id l => proj1 (Hin id l))) as (H1 & H2 & _).
  unfold cleanupStaleRequests. cbn [fst].
  destruct (0 <? _); auto.
Qed.

(** X2.  One sweep of [cleanupStaleRequests] over a tracker whose
    tracked handles are not cancelled: a request older than the maximum
    age is no longer tracked, its handle is cancelled with the reason
    ["Request timed out"] and its progress token is forgotten; a request
    whose age is at most the maximum age stays tracked, unchanged and
    active; no id becomes tracked; the number returned is the number of
    ids that were removed. *)
Theorem cleanupStaleRequests_sweeps :
  forall t entries maxAgeMs now,
    consistent t ->
    enumerates entries t ->
    let maxAge := default 300000 maxAgeMs in
    let r := cleanupStaleRequests entries t maxAgeMs now in
    (forall id l c,
       activeRequests t !! id = Some l -> store t !! l = Some c ->
       if stale maxAge now c
       then getRequest r.1 id = None
            /\ observedAborted r.1 l = Some true
            /\ observedReason r.1 l = Some (Some "Request timed out"%string)
            /\ (forall p, progressToken c = Some p ->
                          progressTokens r.1 !! p = None)
       else getRequest r.1 id = Some c /\ isActive r.1 id = true)
    /\ (forall id, getRequest t id = None -> getRequest r.1 id = None)
    /\ r.2 = Z.of_nat (size (activeRequests t))
             - Z.of_nat (size (activeRequests r.1)).
Proof.
  intros t entries maxAgeMs now Hcons Henum maxAge r.
  destruct (enumerates_entries _ _ Henum) as [Hnodup Hin].
  destruct (sweep_fold maxAge now entries t 0 Hcons Hnodup
              (fun id l => proj1 (Hin id l)))
    as (_ & _ & I3 & I4 & _ & _ & I7).
  cbv zeta in I3, I4, I7.
  assert (Hact : activeRequests r.1
                 = activeRequests (foldl (sweepEntry maxAge now) (t, 0) entries).1).
  { subst r. unfold cleanupStaleRequests. cbn [fst]. fold maxAge.
    destruct (0 <? _); reflexivity. }
  assert (Hstore : store r.1
                   = store (foldl (sweepEntry maxAge now) (t, 0) entries).1).
  { subst r. unfold cleanupStaleRequests. cbn [fst]. fold maxAge.
    destruct (0 <? _); reflexivity. }
  assert (Htoks : progressTokens r.1
                  = progressTokens (foldl (sweepEntry maxAge now) (t, 0) entries).1).
  { subst r. unfold cleanupStaleRequests. cbn [fst]. fold maxAge.
    destruct (0 <? _); reflexivity. }
  split; [|split].
  - intros id l c Hid Hl. specialize (I3 id l c Hid Hl).
    rewrite bool_decide_eq_true_2 in I3 by (apply Hin; exact Hid).
    cbn [andb] in I3.
    unfold getRequest, isActive, getRequest, observedAborted, observedReason.
    rewrite Hact, Hstore, Htoks.
    destruct (stale maxAge now c).
    + destruct I3 as (H1 & H2 & H3). rewrite H1, H2. cbn. auto.
    + destruct I3 as (H1 & H2). rewrite H1. cbn. rewrite H2.
      destruct (proj1 Hcons _ _ Hid) as (c0 & Hc0 & Hlive).
      rewrite Hl in Hc0. injection Hc0 as <-. rewrite Hlive. auto.
  - intros id Hget. unfold getRequest in Hget |- *. rewrite Hact.
    destruct (activeRequests t !! id) as [l|] eqn:Hid.
    + destruct (proj1 Hcons _ _ Hid) as (c0 & Hc0 & _).
      cbn in Hget. congruence.
    + rewrite (I4 _ Hid). reflexivity.
  - rewrite Hact. subst r. unfold cleanupStaleRequests. cbn [snd]. fold maxAge. lia.
Qed.

Lemma cleanupStaleRequests_sweeps_witness :
  let t1 := (registerRequest Tracker.new (KNum 1) (Some tok1) None 0).1 in
  let t2 := (registerRequest t1 (KNum 2) None None 200000).1 in
  let r := cleanupStaleRequests (map_to_list (activeRequests t2)) t2 None 300001 in
  r.2 = 1
  /\ getRequest r.1 (KNum 1) = None
  /\ progressTokens r.1 !! tok1 = None
  /\ isActive r.1 (KNum 2) = true.
Proof.
  intros t1 t2 r.
  assert (Hcons : consistent t2).
  { apply registerRequest_consistent, registerRequest_consistent, new_consistent. }
  assert (Henum : enumerates (map_to_list (activeRequests t2)) t2)
    by (unfold enumerates; reflexivity).
  destruct (cleanupStaleRequests_sweeps t2 _ None 300001 Hcons Henum)
    as (H1 & _ & H3).
  split; [vm_compute; reflexivity|].
  pose proof (H1 (KNum 1) 1%positive
                {| requestId := KNum 1; abortController := newAbortController;
                   progressToken := Some tok1; startTime := 0; toolName := None |}
                eq_refl eq_refl) as Ha.
  pose proof (H1 (KNum 2) 2%positive
                {| requestId := KNum 2; abortController := newAbortController;
                   progressToken := None; startTime := 200000; toolName := None |}
                eq_refl eq_refl) as Hb.
  cbn in Ha, Hb. destruct Ha as (Ha1 & _ & _ & Ha4). destruct Hb as (_ & Hb2).
  split; [exact Ha1|]. split; [exact (Ha4 tok1 eq_refl)|exact Hb2].
Defined.

(** *** Shutdown *)

Lemma abort_abort r c : abort r (abort r c) = abort r c.
Proof. unfold abort. destruct (aborted c) eqn:Ha; cbn; [rewrite Ha|]; reflexivity. Qed.

Lemma foldr_alter_lookup (f : RequestContext -> RequestContext) ls
    (s : gmap loc RequestContext) (l : loc) :
  (forall c, f (f c) = f c) ->
  foldr (fun l s => alter f l s) s ls !! l
  = if bool_decide (l ∈ ls) then f <$> s !! l else s !! l.
Proof.
  intros Hidem. induction ls as [|l1 ls IH]; cbn [foldr].
  - rewrite bool_decide_eq_false_2 by apply not_elem_of_nil. reflexivity.
  - destruct (decide (l = l1)) as [->|Hne].
    + rewrite lookup_alter_eq, IH.
      rewrite (bool_decide_eq_true_2 (l1 ∈ l1 :: ls)) by left.
      destruct (bool_decide (l1 ∈ ls)); [|reflexivity].
      destruct (s !! l1); cbn; [rewrite Hidem|]; reflexivity.
    + rewrite lookup_alter_ne by congruence. rewrite IH.
      apply (f_equal (fun b : bool => if b then f <$> s !! l else s !! l)).
      apply bool_decide_ext. rewrite elem_of_cons. split; [auto|].
      intros [Heq|He]; [congruence|exact He].
Qed.

(** X3.  After [shutdown] no id is tracked or active and no progress
    token is known or active; the handle of every context that was
    tracked is cancelled, with the reason ["Server shutting down"] when
    it was not cancelled before and with its earlier reason otherwise;
    contexts that were not tracked are left as they were. *)
Theorem shutdown_cancels_all :
  forall t,
    let t' := shutdown t in
    (forall id, getRequest t' id = None /\ isActive t' id = false)
    /\ (forall p, getRequestByProgressToken t' p = None
                  /\ isProgressTokenActive t' p = false)
    /\ (forall id l c,
          activeRequests t !! id = Some l -> store t !! l = Some c ->
          observedAborted t' l = Some true
          /\ observedReason t' l
             = Some (if aborted (abortController c)
                     then reason (abortController c)
                     else Some "Server shutting down"%string))
    /\ (forall l, (forall id, activeRequests t !! id <> Some l) ->
                  store t' !! l = store t !! l).
Proof.
  intros t t'.
  assert (Hstore : forall l,
    store t' !! l
    = if bool_decide (l ∈ (map_to_list (activeRequests t)).*2)
      then (fun c => with_abortController c
                       (abort (Some "Server shutting down"%string)
                              (abortController c))) <$> store t !! l
      else store t !! l).
  { intros l. subst t'. unfold shutdown. cbn [store log activeRequests].
    apply foldr_alter_lookup. intros c. unfold with_abortController. cbn.
    rewrite abort_abort. reflexivity. }
  split; [|split; [|split]].
  - intros id. unfold isActive, getRequest. cbn. rewrite lookup_empty. auto.
  - intros p. unfold getRequestByProgressToken, isProgressTokenActive. cbn.
    rewrite lookup_empty. auto.
  - intros id l c Hid Hl. unfold observedAborted, observedReason.
    rewrite Hstore, bool_decide_eq_true_2, Hl.
    + cbn. unfold abort. destruct (aborted (abortController c)) eqn:Ha; cbn.
      * rewrite Ha. auto.
      * auto.
    + apply list_elem_of_fmap. exists (id, l). split; [reflexivity|].
      apply elem_of_map_to_list. exact Hid.
  - intros l Hnone. rewrite Hstore, bool_decide_eq_false_2; [reflexivity|].
    intros He. apply list_elem_of_fmap in He as ([id l'] & -> & He).
    apply elem_of_map_to_list in He. exact (Hnone _ He).
Qed.

Lemma shutdown_cancels_all_witness :
  observedAborted (shutdown tracked1) ctx1 = Some true
  /\ observedReason (shutdown tracked1) ctx1
     = Some (Some "Server shutting down"%string)
  /\ isActive (shutdown tracked1) req1 = false.
Proof.
  destruct (shutdown_cancels_all tracked1) as (H1 & _ & H3 & _).
  destruct (H3 req1 ctx1
              {| requestId := req1; abortController := newAbortController;
                 progressToken := Some tok1; startTime := 1000;
                 toolName := None |}) as (Ha & Hb).
  - vm_compute. reflexivity.
  - vm_compute. reflexivity.
  - split; [exact Ha|]. split; [exact Hb|]. apply H1.
Defined.

(** *** What holds in every state the tracker reaches *)

Lemma new_tokensLead : tokensLead Tracker.new.
Proof. intros p id H. cbn in H. rewrite lookup_empty in H. discriminate. Qed.

Lemma reachable_sound t : reachable t -> consistent t /\ tokensLead t.
Proof.
  induction 1 as [|t op _ [Hcons Hlead]|t entries maxAgeMs now _ [Hcons Hlead] Henum
                 |t _ _].
  - split; [apply new_consistent|apply new_tokensLead].
  - split; [apply perform_consistent, Hcons|].
    destruct op; cbn [perform].
    + apply registerRequest_tokensLead; assumption.
    + apply cancelRequest_tokensLead; assumption.
    + apply cleanup_tokensLead; assumption.
  - destruct (sweep_consistent entries t maxAgeMs now Hcons Henum). auto.
  - split; [split|].
    + intros id l H. cbn in H. rewrite lookup_empty in H. discriminate.
    + intros id id' l H. cbn in H. rewrite lookup_empty in H. discriminate.
    + intros p id H. cbn in H. rewrite lookup_empty in H. discriminate.
Qed.

(** X4.  In every state a tracker reaches from [new RequestTracker]
    through registrations, cancellations, cleanups, sweeps and shutdowns:
    an id that is tracked is active, and cancelling it returns [true];
    an entry of the token map leads to a tracked, active request that
    was registered with that token. *)
Theorem reachable_tracked_is_active :
  forall t,
    reachable t ->
    (forall id, is_Some (activeRequests t !! id) ->
                isActive t id = true
                /\ forall r, (cancelRequest t id r).2 = true)
    /\ (forall p id, progressTokens t !! p = Some id ->
           exists c, getRequest t id = Some c
                     /\ progressToken c = Some p
                     /\ isActive t id = true).
Proof.
  intros t Hreach. destruct (reachable_sound t Hreach) as [[Hlive _] Hlead].
  assert (Hactive : forall id l, activeRequests t !! id = Some l ->
            exists c, getRequest t id = Some c /\ store t !! l = Some c
                      /\ aborted (abortController c) = false).
  { intros id l Hid. destruct (Hlive _ _ Hid) as (c & Hc & Ha).
    exists c. unfold getRequest. rewrite Hid. cbn. auto. }
  split.
  - intros id [l Hid]. destruct (Hactive _ _ Hid) as (c & Hget & Hc & Ha). split.
    + unfold isActive. rewrite Hget, Ha. reflexivity.
    + intros r. unfold cancelRequest. rewrite Hid, Hc, Ha. reflexivity.
  - intros p id Hp. destruct (Hlead _ _ Hp) as (l & c & Hid & Hc & Htok).
    destruct (Hactive _ _ Hid) as (c' & Hget & Hc' & Ha).
    rewrite Hc in Hc'. injection Hc' as <-.
    exists c. split; [exact Hget|]. split; [exact Htok|].
    unfold isActive. rewrite Hget, Ha. reflexivity.
Qed.

Lemma reachable_tracked_is_active_witness :
  let t1 := perform (perform Tracker.new (Register (KNum 1) (Some tok1) None 0))
                    (Register (KNum 2) None None 200000) in
  let t2 := (cleanupStaleRequests (map_to_list (activeRequests t1)) t1 None 300001).1 in
  isActive t2 (KNum 2) = true /\ (cancelRequest t2 (KNum 2) None).2 = true.
Proof.
  intros t1 t2.
  assert (Hreach : reachable t2).
  { apply reach_sweep; [|unfold enumerates; reflexivity].
    apply reach_perform, reach_perform, reach_new. }
  destruct (reachable_tracked_is_active t2 Hreach) as (H1 & _).
  destruct (H1 (KNum 2)) as (Ha & Hb).
  - exists 2%positive. vm_compute. reflexivity.
  - split; [exact Ha|apply Hb].
Defined.

(** X5.  Two requests registered with the same progress token: the
    later registration takes the token over; when the earlier request is
    cleaned up, the token is deleted, so the later request, still tracked
    and active, is no longer found through its token. *)
Theorem cleanup_shared_token :
  forall t id1 id2 tok tool1 tool2 now1 now2,
    consistent t ->
    id1 <> id2 ->
    activeRequests t !! id1 = None ->
    activeRequests t !! id2 = None ->
    let t1 := (registerRequest t id1 (Some tok) tool1 now1).1 in
    let t2 := (registerRequest t1 id2 (Some tok) tool2 now2).1 in
    let t3 := cleanup t2 id1 in
    progressTokens t2 !! tok = Some id2
    /\ isActive t3 id2 = true
    /\ progressTokens t3 !! tok = None
    /\ getRequestByProgressToken t3 tok = None
    /\ isProgressTokenActive t3 tok = false.
Proof.
  intros t id1 id2 tok tool1 tool2 now1 now2 Hcons Hne Hid1 Hid2 t1 t2 t3.
  assert (Hc1 : consistent t1) by (apply registerRequest_consistent, Hcons).
  assert (Hc2 : consistent t2) by (apply registerRequest_consistent, Hc1).
  assert (H1 : activeRequests t1 !! id1 = Some (registerRequest t id1 (Some tok) tool1 now1).2)
    by apply registerRequest_tracked.
  destruct (registerRequest_fresh t id1 (Some tok) tool1 now1 Hid1) as [_ Hs1].
  fold t1 in Hs1.
  assert (Hid2' : activeRequests t1 !! id2 = None).
  { subst t1. unfold registerRequest. rewrite Hid1. cbn.
    rewrite lookup_insert_ne by congruence. exact Hid2. }
  destruct (registerRequest_fresh t1 id2 (Some tok) tool2 now2 Hid2') as [Hf2 Hs2].
  fold t2 in Hs2.
  assert (H2 : activeRequests t2 !! id2 = Some (registerRequest t1 id2 (Some tok) tool2 now2).2)
    by apply registerRequest_tracked.
  set (l1 := (registerRequest t id1 (Some tok) tool1 now1).2) in *.
  set (l2 := (registerRequest t1 id2 (Some tok) tool2 now2).2) in *.
  assert (Hl : l1 <> l2) by congruence.
  assert (Ht2 : t2 = log INFO "REQUEST_REGISTERED"
                       {| store := <[l2 := {| requestId := id2;
                                             abortController := newAbortController;
                                             progressToken := Some tok;
                                             startTime := now2;
                                             toolName := tool2 |}]> (store t1);
                          activeRequests := <[id2 := l2]> (activeRequests t1);
                          progressTokens := <[tok := id2]> (progressTokens t1);
                          logger := logger t1 |}).
  { subst t2 l2. unfold registerRequest at 1. rewrite Hid2'. cbn [fst].
    unfold registerRequest. rewrite Hid2'. reflexivity. }
  assert (H12 : activeRequests t2 !! id1 = Some l1).
  { rewrite Ht2. cbn. rewrite lookup_insert_ne by congruence. exact H1. }
  assert (Hs12 : store t2 !! l1
                 = Some {| requestId := id1; abortController := newAbortController;
                           progressToken := Some tok; startTime := now1;
                           toolName := tool1 |}).
  { rewrite Ht2. cbn. rewrite lookup_insert_ne by congruence. exact Hs1. }
  assert (Htok2 : progressTokens t2 !! tok = Some id2).
  { rewrite Ht2. cbn. apply lookup_insert_eq. }
  assert (Htok3 : progressTokens t3 !! tok = None).
  { subst t3. eapply cleanup_forgets_token; eauto. }
  assert (Hact3 : isActive t3 id2 = true).
  { subst t3. unfold isActive, getRequest. rewrite cleanup_store.
    unfold cleanup. rewrite H12, Hs12. cbn [log activeRequests].
    rewrite lookup_delete_ne by congruence. rewrite H2. cbn. rewrite Hs2.
    reflexivity. }
  split; [exact Htok2|]. split; [exact Hact3|]. split; [exact Htok3|].
  unfold getRequestByProgressToken, isProgressTokenActive. rewrite Htok3. auto.
Qed.

Lemma cleanup_shared_token_witness :
  let t1 := (registerRequest Tracker.new (KNum 1) (Some tok1) None 0).1 in
  let t2 := (registerRequest t1 (KNum 2) (Some tok1) None 10).1 in
  let t3 := cleanup t2 (KNum 1) in
  isActive t3 (KNum 2) = true /\ isProgressTokenActive t3 tok1 = false.
Proof.
  intros t1 t2 t3.
  destruct (cleanup_shared_token Tracker.new (KNum 1) (KNum 2) tok1 None None 0 10)
    as (_ & H2 & _ & _ & H5).
  - apply new_consistent.
  - discriminate.
  - reflexivity.
  - reflexivity.
  - split; [exact H2|exact H5].
Defined.

End TrackerOpsFacts.

(** ** ProgressReporter: sweep, cancellation and the calls of a tool *)

Module ReporterOpsFacts.
Import Js Reporter ReporterOps Scenario ReporterFacts.

(** *** The sweep *)

Lemma sweepToken_fold t tokens :
  forall acc,
    let r := foldl (sweepToken t) acc tokens in
    (forall tok,
       r.1 !! tok
       = if bool_decide (tok ∈ tokens) && negb (Tracker.isProgressTokenActive t tok)
         then None else acc.1 !! tok)
    /\ acc.2 <= r.2
    /\ (acc.2 < r.2 <->
        exists tok, tok ∈ tokens /\ Tracker.isProgressTokenActive t tok = false).
Proof.
  induction tokens as [|tok0 tokens IH]; intros acc r.
  - subst r. cbn [foldl]. split; [|split; [lia|]].
    + intros tok. rewrite bool_decide_eq_false_2 by apply not_elem_of_nil.
      reflexivity.
    + split; [lia|]. intros (tok & H & _). apply not_elem_of_nil in H. contradiction.
  - subst r. cbn [foldl].
    assert (Hdec : forall tok, tok <> tok0 ->
              bool_decide (tok ∈ tok0 :: tokens) = bool_decide (tok ∈ tokens)).
    { intros tok Hne. apply bool_decide_ext. rewrite elem_of_cons.
      split; [|auto]. intros [Heq|He]; [congruence|exact He]. }
    destruct (Tracker.isProgressTokenActive t tok0) eqn:Hact.
    + assert (Hstep : sweepToken t acc tok0 = acc)
        by (unfold sweepToken; rewrite Hact; reflexivity).
      rewrite Hstep. destruct (IH acc) as (I1 & I2 & I3).
      split; [|split; [exact I2|]].
      * intros tok. rewrite I1. destruct (decide (tok = tok0)) as [->|Hne].
        -- rewrite Hact. cbn. rewrite !andb_false_r. reflexivity.
        -- rewrite Hdec by exact Hne. reflexivity.
      * rewrite I3. split.
        -- intros (tok & He & Hin). exists tok. split; [right; exact He|exact Hin].
        -- intros (tok & He & Hin). exists tok. split; [|exact Hin].
           apply elem_of_cons in He as [->|He]; [congruence|exact He].
    + assert (Hstep : sweepToken t acc tok0 = (delete tok0 acc.1, acc.2 + 1))
        by (unfold sweepToken; rewrite Hact; reflexivity).
      rewrite Hstep. destruct (IH (delete tok0 acc.1, acc.2 + 1)) as (I1 & I2 & I3).
      cbn [fst snd] in I1, I2, I3. split; [|split; [lia|]].
      * intros tok. rewrite I1. destruct (decide (tok = tok0)) as [->|Hne].
        -- rewrite Hact. cbn. rewrite (bool_decide_eq_true_2 (tok0 ∈ tok0 :: tokens))
             by left.
           cbn. destruct (bool_decide (tok0 ∈ tokens)); cbn;
             [reflexivity|apply lookup_delete_eq].
        -- rewrite Hdec by exact Hne. rewrite lookup_delete_ne by congruence.
           reflexivity.
      * split; [|lia]. intros _. exists tok0. split; [left|exact Hact].
Qed.

Lemma enumerates_tokens tokens p tok :
  enumerates tokens p -> tok ∈ tokens <-> is_Some (progressStates p !! tok).
Proof.
  unfold enumerates. intros ->. rewrite list_elem_of_fmap. split.
  - intros ([k st] & -> & He). apply elem_of_map_to_list in He. eauto.
  - intros [st Hst]. exists (tok, st). split; [reflexivity|].
    apply elem_of_map_to_list. exact Hst.
Qed.

Lemma sweep_states tokens t p tok :
  enumerates tokens p ->
  progressStates (cleanupCompletedRequests tokens t p) !! tok
  = if Tracker.isProgressTokenActive t tok then progressStates p !! tok else None.
Proof.
  intros Henum.
  destruct (sweepToken_fold t tokens (progressStates p, 0)) as (H1 & _).
  cbv zeta in H1. cbn [fst] in H1.
  assert (Hst : progressStates (cleanupCompletedRequests tokens t p)
                = (foldl (sweepToken t) (progressStates p, 0) tokens).1).
  { unfold cleanupCompletedRequests. destruct (0 <? _); reflexivity. }
  rewrite Hst, H1.
  destruct (Tracker.isProgressTokenActive t tok); cbn;
    [rewrite andb_false_r; reflexivity|].
  rewrite andb_true_r.
  destruct (bool_decide (tok ∈ tokens)) eqn:Hd; [reflexivity|].
  apply bool_decide_eq_false in Hd.
  rewrite (enumerates_tokens _ _ _ Henum) in Hd.
  destruct (progressStates p !! tok) eqn:Hp; [|reflexivity].
  exfalso. apply Hd. eauto.
Qed.

Lemma sweep_nothing tokens t p :
  enumerates tokens p ->
  (forall tok, is_Some (progressStates p !! tok) ->
               Tracker.isProgressTokenActive t tok = true) ->
  cleanupCompletedRequests tokens t p = p.
Proof.
  intros Henum Hall.
  destruct (sweepToken_fold t tokens (progressStates p, 0)) as (H1 & H2 & H3).
  cbv zeta in H1, H2, H3. cbn [fst snd] in H1, H2, H3.
  assert (Hzero : (foldl (sweepToken t) (progressStates p, 0) tokens).2 = 0).
  { destruct (Z.eq_dec (foldl (sweepToken t) (progressStates p, 0) tokens).2 0)
      as [Hz|Hnz]; [exact Hz|].
    assert (Hlt : 0 < (foldl (sweepToken t) (progressStates p, 0) tokens).2) by lia.
    apply H3 in Hlt as (tok & He & Hin).
    apply (enumerates_tokens _ _ _ Henum) in He.
    rewrite (Hall _ He) in Hin. discriminate. }
  unfold cleanupCompletedRequests. rewrite Hzero. cbn.
  assert (Hsame : (foldl (sweepToken t) (progressStates p, 0) tokens).1
                  = progressStates p).
  { apply map_eq. intros tok. rewrite H1.
    destruct (bool_decide (tok ∈ tokens)) eqn:Hd; [|reflexivity].
    apply bool_decide_eq_true in Hd.
    apply (enumerates_tokens _ _ _ Henum) in Hd.
    rewrite (Hall _ Hd). reflexivity. }
  rewrite Hsame. destruct p; reflexivity.
Qed.

(** X6.  One sweep of [cleanupCompletedRequests]: the state of a token
    is kept exactly when the tracker reports the token active, and is
    removed otherwise; no notification is sent; when a state was removed
    one INFO entry is logged, and when every state belongs to an active
    token the reporter is left as it was; a second sweep against the
    same tracker changes nothing. *)
Theorem cleanupCompletedRequests_sweeps :
  forall t p tokens,
    enumerates tokens p ->
    let q := cleanupCompletedRequests tokens t p in
    (forall tok,
       progressStates q !! tok
       = if Tracker.isProgressTokenActive t tok
         then progressStates p !! tok else None)
    /\ sent q = sent p
    /\ ((exists tok, is_Some (progressStates p !! tok)
                     /\ Tracker.isProgressTokenActive t tok = false) ->
        logger q
        = logger p
          ++ [ {| lc_level := INFO; lc_code := "PROGRESS_CLEANUP_COMPLETED" |} ])
    /\ ((forall tok, is_Some (progressStates p !! tok) ->
                     Tracker.isProgressTokenActive t tok = true) ->
        q = p)
    /\ (forall tokens', enumerates tokens' q ->
                        cleanupCompletedRequests tokens' t q = q).
Proof.
  intros t p tokens Henum q.
  assert (Hstates : forall tok,
            progressStates q !! tok
            = if Tracker.isProgressTokenActive t tok
              then progressStates p !! tok else None)
    by (intros tok; apply sweep_states, Henum).
  split; [exact Hstates|]. split; [|split; [|split]].
  - subst q. unfold cleanupCompletedRequests. destruct (0 <? _); reflexivity.
  - intros (tok & Hs & Hin).
    destruct (sweepToken_fold t tokens (progressStates p, 0)) as (_ & _ & H3).
    cbv zeta in H3. cbn [snd] in H3.
    assert (Hpos : 0 < (foldl (sweepToken t) (progressStates p, 0) tokens).2).
    { apply H3. exists tok. split; [|exact Hin].
      apply (enumerates_tokens _ _ _ Henum). exact Hs. }
    apply Z.ltb_lt in Hpos.
    subst q. unfold cleanupCompletedRequests. rewrite Hpos. reflexivity.
  - intros Hall. apply sweep_nothing; assumption.
  - intros tokens' Henum'. apply sweep_nothing; [exact Henum'|].
    intros tok [st Hst]. rewrite Hstates in Hst.
    destruct (Tracker.isProgressTokenActive t tok); [reflexivity|discriminate].
Qed.

Lemma cleanupCompletedRequests_sweeps_witness :
  let p := report Scenario.tracked1 Reporter.new tok1 (update 10 (Some 100)) 0 true in
  let q := cleanupCompletedRequests (map_to_list (progressStates p)).*1
             Tracker.new p in
  is_Some (progressStates p !! tok1)
  /\ progressStates q !! tok1 = None
  /\ sent q = sent p.
Proof.
  intros p q.
  assert (Henum : enumerates (map_to_list (progressStates p)).*1 p)
    by (unfold enumerates; reflexivity).
  destruct (cleanupCompletedRequests_sweeps Tracker.new p _ Henum) as (H1 & H2 & _).
  split; [eexists; vm_compute; reflexivity|].
  split; [exact (H1 tok1)|exact H2].
Defined.

(** *** Reports on a token the tracker has forgotten *)

Lemma report_inactive t p tok u now delivered :
  Tracker.isProgressTokenActive t tok = false ->
  report t p tok u now delivered = log DEBUG "PROGRESS_TOKEN_INACTIVE" p.
Proof. intros H. unfold report. rewrite H. reflexivity. Qed.

Lemma forgotten_token_inactive t tok :
  Tracker.progressTokens t !! tok = None ->
  Tracker.isProgressTokenActive t tok = false.
Proof. intros H. unfold Tracker.isProgressTokenActive. rewrite H. reflexivity. Qed.

(** X7.  Once a tracked request that was registered with a progress
    token has been cancelled, cleaned up on completion, or the tracker
    has been shut down, every [report] on that token is dropped, whatever
    the update, the time and the reporter state: nothing is sent and no
    state changes; and the next [cleanupCompletedRequests] removes the
    state kept for the token. *)
Theorem finished_request_goes_silent :
  forall t id l c tok r t',
    Tracker.activeRequests t !! id = Some l ->
    Tracker.store t !! l = Some c ->
    Tracker.aborted (Tracker.abortController c) = false ->
    Tracker.progressToken c = Some tok ->
    t' = (Tracker.cancelRequest t id r).1
    \/ t' = Tracker.cleanup t id
    \/ t' = TrackerOps.shutdown t ->
    (forall p u now delivered, dropped p (report t' p tok u now delivered))
    /\ (forall p tokens,
          enumerates tokens p ->
          progressStates (cleanupCompletedRequests tokens t' p) !! tok = None).
Proof.
  intros t id l c tok r t' Hid Hl Hlive Htok Ht'.
  assert (Hgone : Tracker.progressTokens t' !! tok = None).
  { destruct Ht' as [->|[->| ->]].
    - unfold Tracker.cancelRequest. rewrite Hid, Hl, Hlive. cbn [fst].
      eapply TrackerFacts.cleanup_forgets_token with (l := l).
      + exact Hid.
      + cbn. apply lookup_insert_eq.
      + exact Htok.
    - eapply TrackerFacts.cleanup_forgets_token; eauto.
    - cbn. apply lookup_empty. }
  apply forgotten_token_inactive in Hgone. split.
  - intros p u now delivered. rewrite report_inactive by exact Hgone.
    split; reflexivity.
  - intros p tokens Henum. rewrite sweep_states by exact Henum.
    rewrite Hgone. reflexivity.
Qed.

Lemma finished_request_goes_silent_witness :
  let t' := (Tracker.cancelRequest tracked1 req1 (Some "User cancelled"%string)).1 in
  let p := report tracked1 Reporter.new tok1 (update 10 (Some 100)) 0 true in
  dropped p (report t' p tok1 (update 50 (Some 100)) 500 true)
  /\ progressStates
       (cleanupCompletedRequests (map_to_list (progressStates p)).*1 t' p) !! tok1
     = None.
Proof.
  intros t' p.
  destruct (finished_request_goes_silent tracked1 req1 ctx1
              {| Tracker.requestId := req1;
                 Tracker.abortController := Tracker.newAbortController;
                 Tracker.progressToken := Some tok1;
                 Tracker.startTime := 1000;
                 Tracker.toolName := None |}
              tok1 (Some "User cancelled"%string) t') as (H1 & H2).
  - vm_compute. reflexivity.
  - vm_compute. reflexivity.
  - reflexivity.
  - reflexivity.
  - left. reflexivity.
  - split; [apply H1|apply H2]. unfold enumerates. reflexivity.
Defined.

(** *** Channels do not interfere *)

Lemma accepted_other p tok u now tok' :
  tok' <> tok -> accepted p tok u now !! tok' = progressStates p !! tok'.
Proof.
  intros Hne. unfold accepted. destruct (isComplete u).
  - apply lookup_delete_ne. congruence.
  - apply lookup_insert_ne. congruence.
Qed.

(** X8.  A sequence of awaited [report] calls on one token leaves the
    state of every other token as it was, only appends to the
    notifications already sent, and every notification it appends
    carries that token. *)
Theorem reports_isolated :
  forall tok calls p,
    let q := reports tok calls p in
    (forall tok', tok' <> tok ->
                  progressStates q !! tok' = progressStates p !! tok')
    /\ sent q = sent p ++ emittedSince p q
    /\ Forall (fun n => n_progressToken n = tok) (emittedSince p q).
Proof.
  intros tok calls. induction calls as [|c calls IH]; intros p q.
  - subst q. cbn. rewrite emittedSince_refl. split; [auto|].
    split; [symmetry; apply app_nil_r|constructor].
  - subst q. rewrite emittedSince_cons. rewrite reports_cons.
    set (p1 := call tok p c).
    destruct (IH p1) as (I1 & I2 & I3). cbv zeta in I1, I2, I3.
    destruct (call_cases tok p c)
      as [[[Hs Hst] _]|(_ & _ & Hs & Hst)]; fold p1 in Hs, Hst.
    + rewrite (emittedSince_app p p1 []) by (rewrite Hs; symmetry; apply app_nil_r).
      cbn [app]. split; [|split; [|exact I3]].
      * intros tok' Hne. rewrite I1 by exact Hne. rewrite Hst. reflexivity.
      * rewrite I2, Hs. reflexivity.
    + rewrite (emittedSince_app p p1 _ Hs). split; [|split].
      * intros tok' Hne. rewrite I1 by exact Hne. rewrite Hst.
        apply accepted_other. exact Hne.
      * rewrite I2, Hs. symmetry. apply app_assoc.
      * apply Forall_app. split; [|exact I3].
        constructor; [reflexivity|constructor].
Qed.

Lemma reports_isolated_witness :
  let p := report tracked1 Reporter.new tok1 (update 10 (Some 100)) 0 true in
  let q := reports (KStr "tok-2")
             [ {| c_tracker := tracked1; c_update := update 5 None;
                  c_now := 10; c_delivered := true |} ] p in
  progressStates q !! tok1 = progressStates p !! tok1.
Proof.
  intros p q.
  destruct (reports_isolated (KStr "tok-2")
              [ {| c_tracker := tracked1; c_update := update 5 None;
                   c_now := 10; c_delivered := true |} ] p) as (H & _).
  apply H. discriminate.
Defined.

(** *** The calls made around one tool execution *)

Lemma report_emits t p tok u now :
  admitted t p tok u now ->
  sent (report t p tok u now true) = sent p ++ [notificationOf tok u]
  /\ progressStates (report t p tok u now true) = accepted p tok u now.
Proof.
  intros Hadm.
  destruct (report_cases t p tok u now true) as [[_ Hno]|(_ & _ & Hs & Hst)].
  - exfalso. apply Hno. split; [exact Hadm|reflexivity].
  - split; assumption.
Qed.

Lemma report_drops t p tok u now delivered :
  ~ admitted t p tok u now ->
  dropped p (report t p tok u now delivered).
Proof.
  intros Hno.
  destruct (report_cases t p tok u now delivered) as [[Hd _]|(Hadm & _)].
  - exact Hd.
  - contradiction.
Qed.

Lemma four_reports tok m0 m1 m2 m3 p msg0 msg1 msg2 msg3 :
  progressStates p !! tok = None ->
  Forall (fun m => Tracker.isProgressTokenActive (m_tracker m) tok = true
                   /\ m_delivered m = true) [m0; m1; m2; m3] ->
  let q := reports tok [ at_moment m0 (percent 0 msg0);
                         at_moment m1 (percent 0 msg1);
                         at_moment m2 (percent 100 msg2);
                         at_moment m3 (percent 100 msg3) ] p in
  exists ns,
    sent q = sent p ++ ns
    /\ n_progress <$> ns
       = (if 100 <=? m_now m2 - m_now m0 then [0; 100; 100]
          else if 100 <=? m_now m3 - m_now m0 then [0; 100]
          else [0])
    /\ progressStates q !! tok
       = (if (100 <=? m_now m2 - m_now m0) || (100 <=? m_now m3 - m_now m0)
          then None
          else Some {| lastProgress := 0; lastUpdateTime := m_now m0;
                       updateCount := 1 |}).
Proof.
  intros Hnone Hall q.
  apply Forall_cons in Hall as [[Ha0 Hd0] Hall].
  apply Forall_cons in Hall as [[Ha1 Hd1] Hall].
  apply Forall_cons in Hall as [[Ha2 Hd2] Hall].
  apply Forall_cons in Hall as [[Ha3 Hd3] _].
  subst q. unfold reports. cbn [foldl]. unfold call, at_moment.
  cbn [c_tracker c_update c_now c_delivered]. rewrite Hd0, Hd1, Hd2, Hd3.
  set (u0 := percent 0 msg0). set (u1 := percent 0 msg1).
  set (u2 := percent 100 msg2). set (u3 := percent 100 msg3).
  set (first := {| lastProgress := 0; lastUpdateTime := m_now m0; updateCount := 1 |}).
  (* the tool's initial report *)
  set (p1 := report (m_tracker m0) p tok u0 (m_now m0) true).
  destruct (report_emits (m_tracker m0) p tok u0 (m_now m0)) as [Hs1 Hst1].
  { split; [exact Ha0|]. intros st Hst. congruence. }
  fold p1 in Hs1, Hst1.
  assert (Hp1 : progressStates p1 !! tok = Some first).
  { rewrite Hst1. unfold accepted. cbn. rewrite Hnone. apply lookup_insert_eq. }
  (* the client method's initial report *)
  set (p2 := report (m_tracker m1) p1 tok u1 (m_now m1) true).
  destruct (report_drops (m_tracker m1) p1 tok u1 (m_now m1) true) as [Hs2 Hst2].
  { intros [_ H]. destruct (H _ Hp1) as [Hlt _]. cbn in Hlt. lia. }
  fold p2 in Hs2, Hst2.
  assert (Hp2 : progressStates p2 !! tok = Some first)
    by (rewrite Hst2; exact Hp1).
  set (p3 := report (m_tracker m2) p2 tok u2 (m_now m2) true).
  set (p4 := report (m_tracker m3) p3 tok u3 (m_now m3) true).
  destruct (Z.leb_spec 100 (m_now m2 - m_now m0)) as [H20|H20].
  - (* the client method's completion report is sent *)
    destruct (report_emits (m_tracker m2) p2 tok u2 (m_now m2)) as [Hs3 Hst3].
    { split; [exact Ha2|]. intros st Hst. rewrite Hp2 in Hst. injection Hst as <-.
      cbn. unfold minUpdateInterval. lia. }
    fold p3 in Hs3, Hst3.
    assert (Hp3 : progressStates p3 !! tok = None).
    { rewrite Hst3. unfold accepted. cbn. apply lookup_delete_eq. }
    destruct (report_emits (m_tracker m3) p3 tok u3 (m_now m3)) as [Hs4 Hst4].
    { split; [exact Ha3|]. intros st Hst. congruence. }
    fold p4 in Hs4, Hst4.
    exists [notificationOf tok u0; notificationOf tok u2; notificationOf tok u3].
    split; [|split; [reflexivity|]].
    + rewrite Hs4, Hs3, Hs2, Hs1. rewrite <- !app_assoc. reflexivity.
    + rewrite Hst4. unfold accepted. cbn. apply lookup_delete_eq.
  - destruct (report_drops (m_tracker m2) p2 tok u2 (m_now m2) true) as [Hs3 Hst3].
    { intros [_ H]. destruct (H _ Hp2) as [_ Hrate]. cbn in Hrate.
      unfold minUpdateInterval in Hrate. lia. }
    fold p3 in Hs3, Hst3.
    assert (Hp3 : progressStates p3 !! tok = Some first)
      by (rewrite Hst3; exact Hp2).
    destruct (Z.leb_spec 100 (m_now m3 - m_now m0)) as [H30|H30].
    + destruct (report_emits (m_tracker m3) p3 tok u3 (m_now m3)) as [Hs4 Hst4].
      { split; [exact Ha3|]. intros st Hst. rewrite Hp3 in Hst. injection Hst as <-.
        cbn. unfold minUpdateInterval. lia. }
      fold p4 in Hs4, Hst4.
      exists [notificationOf tok u0; notificationOf tok u3].
      split; [|split; [reflexivity|]].
      * rewrite Hs4, Hs3, Hs2, Hs1. rewrite <- !app_assoc. reflexivity.
      * rewrite Hst4. unfold accepted. cbn. apply lookup_delete_eq.
    + destruct (report_drops (m_tracker m3) p3 tok u3 (m_now m3) true) as [Hs4 Hst4].
      { intros [_ H]. destruct (H _ Hp3) as [_ Hrate]. cbn in Hrate.
        unfold minUpdateInterval in Hrate. lia. }
      fold p4 in Hs4, Hst4.
      exists [notificationOf tok u0].
      split; [|split; [reflexivity|]].
      * rewrite Hs4, Hs3, Hs2, Hs1. reflexivity.
      * rewrite Hst4, Hst3. exact Hp2.
Qed.

(** X9.  The progress calls of one tool execution whose client request
    succeeds, on a token that is active throughout, has no state yet, and
    whose notifications are delivered: the tool's initial [0] is sent and
    the client method's initial [0] is dropped; when at least 100 ms lie
    between the first call and the client method's completion call, both
    completion calls send [100]; otherwise the client method's [100] is
    dropped, and the tool's [100] is sent only when at least 100 ms lie
    between the first call and it.  The state of the token is removed
    whenever a [100] was sent.  Without a truthy progress token no call
    is made. *)
Theorem toolProgress_emissions :
  forall op context tok m0 m1 m2 m3 p,
    reportingToken context = Some tok ->
    progressStates p !! tok = None ->
    Forall (fun m => Tracker.isProgressTokenActive (m_tracker m) tok = true
                     /\ m_delivered m = true) [m0; m1; m2; m3] ->
    let q := toolProgress op context m0 m1 m2 m3 p in
    n_progress <$> emittedSince p q
    = (if 100 <=? m_now m2 - m_now m0 then [0; 100; 100]
       else if 100 <=? m_now m3 - m_now m0 then [0; 100]
       else [0])
    /\ progressStates q !! tok
       = (if (100 <=? m_now m2 - m_now m0) || (100 <=? m_now m3 - m_now m0)
          then None
          else Some {| lastProgress := 0; lastUpdateTime := m_now m0;
                       updateCount := 1 |})
    /\ (forall context', reportingToken context' = None ->
                         toolProgress op context' m0 m1 m2 m3 p = p).
Proof.
  intros op context tok m0 m1 m2 m3 p Htok Hnone Hall q.
  destruct (four_reports tok m0 m1 m2 m3 p
              ("Starting " ++ op ++ " operation...")
              ("Starting " ++ op ++ " request...")
              ("Completed " ++ op ++ " request")
              ("Completed " ++ op ++ " operation") Hnone Hall)
    as (ns & Hs & Hns & Hst).
  assert (Hq : q = reports tok
                     [ at_moment m0 (percent 0 ("Starting " ++ op ++ " operation..."));
                       at_moment m1 (percent 0 ("Starting " ++ op ++ " request..."));
                       at_moment m2 (percent 100 ("Completed " ++ op ++ " request"));
                       at_moment m3 (percent 100 ("Completed " ++ op ++ " operation")) ]
                     p).
  { subst q. unfold toolProgress. rewrite Htok. reflexivity. }
  split; [|split].
  - rewrite Hq, (emittedSince_app _ _ _ Hs). exact Hns.
  - rewrite Hq. exact Hst.
  - intros context' H. unfold toolProgress. rewrite H. reflexivity.
Qed.

Lemma toolProgress_emissions_witness :
  let context := {| Tracker.requestId := req1;
                    Tracker.abortController := Tracker.newAbortController;
                    Tracker.progressToken := Some tok1;
                    Tracker.startTime := 1000;
                    Tracker.toolName := None |} in
  let at_time now := {| m_tracker := tracked1; m_now := now; m_delivered := true |} in
  let q := toolProgress "search" context
             (at_time 1000) (at_time 1001) (at_time 1250) (at_time 1251)
             Reporter.new in
  n_progress <$> emittedSince Reporter.new q = [0; 100; 100].
Proof.
  intros context at_time q.
  destruct (toolProgress_emissions "search" context tok1
              (at_time 1000) (at_time 1001) (at_time 1250) (at_time 1251)
              Reporter.new) as (H & _).
  - reflexivity.
  - reflexivity.
  - repeat constructor.
  - exact H.
Defined.

(** *** Percentages *)

(** X10.  [reportPercentage] sends at most one notification; what it
    sends carries the token, a progress between 0 and 100 and the total
    100.  A percentage below 0 or above 100 is dropped with a warning.
    After a call with the percentage 100 that was not dropped, no state
    is kept for the token. *)
Theorem reportPercentage_in_range :
  forall t p tok percentage msg now delivered,
    let q := reportPercentage t p tok percentage msg now delivered in
    (dropped p q
     \/ (0 <= percentage <= 100
         /\ sent q = sent p ++ [ {| n_progressToken := tok;
                                    n_progress := percentage;
                                    n_total := Some 100;
                                    n_message := if opt_truthy msg then msg else None |} ]
         /\ (percentage = 100 -> progressStates q !! tok = None)))
    /\ (percentage < 0 \/ 100 < percentage ->
        dropped p q
        /\ logger q = logger p ++ [ {| lc_level := WARN;
                                       lc_code := "PROGRESS_PERCENTAGE_INVALID" |} ]).
Proof.
  intros t p tok percentage msg now delivered q. subst q. unfold reportPercentage.
  destruct ((percentage <? 0) || (100 <? percentage)) eqn:Hrange.
  - split; [left; split; reflexivity|]. intros _. split; [split|]; reflexivity.
  - apply orb_false_iff in Hrange as [H0 H100].
    apply Z.ltb_ge in H0. apply Z.ltb_ge in H100.
    split; [|lia].
    destruct (report_cases t p tok
                {| progress := percentage; total := Some 100; message := msg |}
                now delivered) as [[Hd _]|(_ & _ & Hs & Hst)].
    + left. exact Hd.
    + right. split; [lia|]. split; [exact Hs|].
      intros ->. rewrite Hst. unfold accepted. cbn. apply lookup_delete_eq.
Qed.

Lemma reportPercentage_in_range_witness :
  dropped Reporter.new
    (reportPercentage tracked1 Reporter.new tok1 150 None 0 true).
Proof.
  destruct (reportPercentage_in_range tracked1 Reporter.new tok1 150 None 0 true)
    as (_ & H).
  destruct H as (H & _); [right; lia|exact H].
Defined.

(** *** The state map mirrors what was sent *)

Lemma mirrors_shrink p q :
  mirrors p -> sent q = sent p ->
  (forall tok st, progressStates q !! tok = Some st ->
                  progressStates p !! tok = Some st) ->
  mirrors q.
Proof.
  intros Hm Hs Hsub tok st Hst. unfold lastSent. rewrite Hs.
  apply Hm, Hsub, Hst.
Qed.

Lemma report_mirrors t p tok u now delivered :
  mirrors p -> mirrors (report t p tok u now delivered).
Proof.
  intros Hm.
  destruct (report_cases t p tok u now delivered)
    as [[[Hs Hst] _]|(_ & _ & Hs & Hst)].
  - apply (mirrors_shrink p); [exact Hm|exact Hs|]. rewrite Hst. auto.
  - intros tok' st' Hst'. rewrite Hst in Hst'. unfold lastSent. rewrite Hs.
    rewrite filter_app, filter_cons, filter_nil. cbn [n_progressToken notificationOf].
    destruct (decide (tok' = tok)) as [->|Hne].
    + rewrite decide_True by reflexivity.
      unfold accepted in Hst'. destruct (isComplete u) eqn:Hc.
      * rewrite lookup_delete_eq in Hst'. discriminate.
      * rewrite lookup_insert_eq in Hst'. injection Hst' as <-. cbn. split.
        -- destruct (progressStates p !! tok) as [st|] eqn:Hp; [|lia].
           destruct (Hm _ _ Hp) as [Hge _]. lia.
        -- exists (notificationOf tok u). split; [apply last_snoc|].
           split; [reflexivity|exact Hc].
    + rewrite decide_False by congruence. rewrite app_nil_r.
      rewrite accepted_other in Hst' by exact Hne. apply Hm. exact Hst'.
Qed.

Lemma reachable_mirrors p : reachable p -> mirrors p.
Proof.
  induction 1 as [|t p tok u now delivered _ IH
                 |t p tok percentage msg now delivered _ IH
                 |t p tok currentStep totalSteps msg now delivered _ IH
                 |p tok _ IH|tokens t p _ IH Henum|p _ IH].
  - intros tok st H. cbn in H. rewrite lookup_empty in H. discriminate.
  - apply report_mirrors, IH.
  - unfold reportPercentage. destruct (_ || _).
    + apply (mirrors_shrink p); auto.
    + apply report_mirrors, IH.
  - apply report_mirrors, IH.
  - unfold cleanup. destruct (progressStates p !! tok); [|exact IH].
    apply (mirrors_shrink p); [exact IH|reflexivity|].
    intros tok' st' H. cbn in H. apply lookup_delete_Some in H as [_ H]. exact H.
  - apply (mirrors_shrink p); [exact IH| |].
    + unfold cleanupCompletedRequests. destruct (0 <? _); reflexivity.
    + intros tok st H. rewrite sweep_states in H by exact Henum.
      destruct (Tracker.isProgressTokenActive t tok); [exact H|discriminate].
  - intros tok st H. cbn in H. rewrite lookup_empty in H. discriminate.
Qed.

(** X11.  In every state a reporter reaches from [new ProgressReporter]
    through its methods, the state kept for a token mirrors the last
    notification sent on that token: its [lastProgress] is the progress
    of that notification, that notification had not reached its total,
    and at least one update is counted. *)
Theorem state_mirrors_last_notification :
  forall p tok st,
    reachable p ->
    progressStates p !! tok = Some st ->
    1 <= updateCount st
    /\ exists n, lastSent tok p = Some n
                 /\ n_progress n = lastProgress st
                 /\ reachedTotal n = false.
Proof. intros p tok st Hreach. apply reachable_mirrors, Hreach. Qed.

Lemma state_mirrors_last_notification_witness :
  let p := report tracked1 Reporter.new tok1 (update 10 (Some 100)) 0 true in
  exists n, lastSent tok1 p = Some n /\ n_progress n = 10.
Proof.
  intros p.
  destruct (state_mirrors_last_notification p tok1
              {| lastProgress := 10; lastUpdateTime := 0; updateCount := 1 |})
    as (_ & n & Hn & Hprog & _).
  - apply reached_report, reached_new.
  - vm_compute. reflexivity.
  - exists n. split; [exact Hn|exact Hprog].
Defined.

End ReporterOpsFacts.

(** ** LogShipper: disabled shippers, retries, health, shutdown, sizes *)

Module ShipperOpsFacts.
Import Js Shipper ShipperOps Scenario ShipperFacts DeliveryFacts.

(** *** A newly constructed shipper *)

Lemma construct_result c timer out s :
  construct c timer = (out, Normal s) ->
  config s = c
  /\ logQueue s = []
  /\ isShuttingDown s = false
  /\ lastSuccessfulFlush s = 0
  /\ (enabled c = false -> flushTimer s = None).
Proof.
  unfold construct. destruct (enabled c); cbn [negb].
  - destruct (validateConfig c) as [out' [[]|msg]]; [|discriminate].
    intros [= _ <-]. repeat split. discriminate.
  - intros [= _ <-]. repeat split.
Qed.

(** *** The batches held by suspended flushes *)

Lemma flat_map_agree {A B} (f g : A -> list B) l :
  (forall x, In x l -> f x = g x) -> flat_map f l = flat_map g l.
Proof.
  induction l as [|x l IH]; intros H; [reflexivity|].
  cbn. rewrite (H x) by (left; reflexivity). f_equal.
  apply IH. intros y Hy. apply H. right. exact Hy.
Qed.

Lemma heldFrom_snoc n m (k : nat) :
  (n <= k)%nat ->
  forall m',
    nextFlush m' = S k ->
    nextFlush m = k ->
    (forall id, (id < k)%nat -> pending m' !! id = pending m !! id) ->
    heldFrom n m'
    = heldFrom n m ++ batchOf m' k.
Proof.
  intros Hn m' Hnext' Hnext Hsame. unfold heldFrom.
  rewrite Hnext', Hnext.
  replace (S k - n)%nat with (S (k - n)) by lia.
  rewrite seq_S, flat_map_app. cbn [flat_map]. rewrite app_nil_r.
  replace (n + (k - n))%nat with k by lia.
  f_equal. apply flat_map_agree. intros id Hin.
  apply in_seq in Hin. unfold batchOf. rewrite Hsame by lia. reflexivity.
Qed.

Lemma heldFrom_ext n m m' :
  nextFlush m' = nextFlush m ->
  (forall id, batchOf m' id = batchOf m id) ->
  heldFrom n m' = heldFrom n m.
Proof.
  intros Hnext Hsame. unfold heldFrom. rewrite Hnext.
  apply flat_map_agree. intros id _. apply Hsame.
Qed.

Lemma flat_map_without {A B} `{EqDecision A} (f g : A -> list B) (a : A) l :
  NoDup l -> a ∈ l -> g a = [] ->
  (forall x, x <> a -> g x = f x) ->
  flat_map f l ≡ₚ f a ++ flat_map g l.
Proof.
  intros Hnd Hin Hga Hsame. induction l as [|x l IH]; [inversion Hin|].
  apply NoDup_cons in Hnd as [Hx Hnd]. cbn [flat_map].
  destruct (decide (x = a)) as [->|Hne].
  - rewrite Hga. cbn. apply Permutation_app_head.
    rewrite (flat_map_agree g f l); [reflexivity|].
    intros y Hy. apply Hsame. intros ->. apply Hx. apply list_elem_of_In. exact Hy.
  - apply elem_of_cons in Hin as [Heq|Hin]; [congruence|].
    rewrite (Hsame x Hne), (IH Hnd Hin).
    rewrite !app_assoc. apply Permutation_app_tail, Permutation_app_comm.
Qed.

Lemma heldFrom_delete m m' id t :
  nextFlush m' = nextFlush m ->
  pending m !! id = Some t ->
  (id < nextFlush m)%nat ->
  pending m' = delete id (pending m) ->
  heldFrom 0 m ≡ₚ batch t ++ heldFrom 0 m'.
Proof.
  intros Hnext Hid Hlt Hpend. unfold heldFrom. rewrite Hnext.
  replace (batch t) with (batchOf m id) by (unfold batchOf; rewrite Hid; reflexivity).
  apply flat_map_without.
  - apply NoDup_ListNoDup, seq_NoDup.
  - apply list_elem_of_In, in_seq. lia.
  - unfold batchOf. rewrite Hpend, lookup_delete_eq. reflexivity.
  - intros x Hne. unfold batchOf. rewrite Hpend, lookup_delete_ne by congruence.
    reflexivity.
Qed.

(** A call of [flush] moves entries from the front of the queue into
    the batch of a new suspended flush, or moves nothing. *)
Lemma flush_hands_over who h m n :
  (n <= nextFlush m)%nat ->
  let m' := flush who h m in
  heldFrom n m' ++ logQueue (shipper m')
  = heldFrom n m ++ logQueue (shipper m)
  /\ config (shipper m') = config (shipper m)
  /\ isShuttingDown (shipper m') = isShuttingDown (shipper m)
  /\ (nextFlush m <= nextFlush m')%nat.
Proof.
  intros Hn m'. subst m'.
  assert (Hc : config (shipper (flush who h m)) = config (shipper m)).
  { unfold flush. destruct (_ || _); [reflexivity|].
    unfold startAttempt. destruct (1 <=? _); reflexivity. }
  assert (Hdown : isShuttingDown (shipper (flush who h m)) = isShuttingDown (shipper m)).
  { unfold flush. destruct (_ || _); [reflexivity|].
    unfold startAttempt. destruct (1 <=? _); reflexivity. }
  split; [|split; [exact Hc|split; [exact Hdown|rewrite flush_nextFlush; lia]]].
  unfold flush.
  destruct (negb (enabled (config (shipper m)))
            || (length (logQueue (shipper m)) =? 0)%nat).
  - rewrite (heldFrom_snoc n m (nextFlush m) Hn); [| reflexivity | reflexivity |].
    + unfold batchOf. cbn [settle pending shipper].
      rewrite lookup_delete_eq, app_nil_r. reflexivity.
    + intros id Hid. cbn. apply lookup_delete_ne. lia.
  - set (size := Z.to_nat (batchSize (config (shipper m)))).
    match goal with
    | |- context [startAttempt ?i ?t 1 h ?m0] =>
        assert (Hstart : batchOf (startAttempt i t 1 h m0) i = batch t
                         /\ (forall id, id <> i ->
                               pending (startAttempt i t 1 h m0) !! id = pending m !! id)
                         /\ nextFlush (startAttempt i t 1 h m0) = S (nextFlush m)
                         /\ logQueue (shipper (startAttempt i t 1 h m0))
                            = drop size (logQueue (shipper m)))
    end.
    { unfold startAttempt, batchOf. cbn [with_shipper with_queue shipper config].
      destruct (1 <=? maxRetries (config (shipper m))); cbn;
        (split; [rewrite lookup_insert_eq; reflexivity|]);
        (split; [intros id Hid; apply lookup_insert_ne; congruence|]);
        split; reflexivity. }
    destruct Hstart as (H1 & H2 & H3 & H4).
    rewrite (heldFrom_snoc n m (nextFlush m) Hn _ H3 eq_refl).
    + rewrite H1, H4. cbn [batch].
      rewrite <- app_assoc. f_equal. apply take_drop.
    + intros id Hid. apply H2. lia.
Qed.

(** *** A disabled shipper *)

Lemma disabled_step m x :
  enabled (config (shipper m)) = false ->
  pending m = ∅ ->
  let m' := step m x in
  enabled (config (shipper m')) = false
  /\ pending m' = ∅
  /\ posts (io m') = posts (io m)
  /\ sleeps (io m') = sleeps (io m)
  /\ logQueue (shipper m') = logQueue (shipper m)
  /\ lastSuccessfulFlush (shipper m') = lastSuccessfulFlush (shipper m).
Proof.
  intros Hen Hpend m'. subst m'.
  assert (Hflush : forall who m0,
            enabled (config (shipper m0)) = false ->
            pending m0 = ∅ ->
            enabled (config (shipper (flush who x.2 m0))) = false
            /\ pending (flush who x.2 m0) = ∅
            /\ posts (io (flush who x.2 m0)) = posts (io m0)
            /\ sleeps (io (flush who x.2 m0)) = sleeps (io m0)
            /\ logQueue (shipper (flush who x.2 m0)) = logQueue (shipper m0)
            /\ lastSuccessfulFlush (shipper (flush who x.2 m0))
               = lastSuccessfulFlush (shipper m0)).
  { intros who m0 Hen0 Hpend0. unfold flush. rewrite Hen0. cbn [negb orb].
    unfold settle. cbn [shipper pending io].
    split; [exact Hen0|]. split; [rewrite Hpend0; apply delete_empty|].
    rewrite posts_app, sleeps_app.
    destruct who; cbn; rewrite ?app_nil_r; auto. }
  destruct x as [[e| | |id o|id|id|] h]; unfold step; cbn [fst snd] in *.
  - unfold addLog. rewrite Hen. cbn. auto 10.
  - apply Hflush; assumption.
  - unfold tick. destruct (flushTimer (shipper m)); [|auto 10].
    apply Hflush; assumption.
  - unfold respond. rewrite Hpend, lookup_empty. auto 10.
  - unfold wake. rewrite Hpend, lookup_empty. auto 10.
  - unfold resume. rewrite Hpend, lookup_empty. auto 10.
  - unfold shutdown.
    match goal with
    | |- context [if ?b then flush ByShutdown h ?m1 else _] =>
        destruct b; [destruct (Hflush ByShutdown m1) as (H1 & H2 & H3 & H4 & H5 & H6)|]
    end.
    + exact Hen.
    + exact Hpend.
    + rewrite H3, H4, H5, H6. cbn [io emit with_shipper shipper logQueue
                                   lastSuccessfulFlush].
      rewrite posts_app, sleeps_app. cbn. rewrite !app_nil_r. auto 10.
    + cbn [io emit with_shipper shipper logQueue lastSuccessfulFlush config pending].
      rewrite posts_app, sleeps_app. cbn. rewrite !app_nil_r. auto 10.
Qed.

(** X12.  A shipper whose configuration is not enabled does nothing,
    whatever is called on it: it never posts, never waits, never holds a
    batch, and its queue stays as it was; [addLog] discards the entry. *)
Theorem disabled_shipper_inert :
  forall s xs,
    enabled (config s) = false ->
    let m := run (boot s) xs in
    posts (io m) = []
    /\ sleeps (io m) = []
    /\ pending m = ∅
    /\ logQueue (shipper m) = logQueue s
    /\ lastSuccessfulFlush (shipper m) = lastSuccessfulFlush s.
Proof.
  intros s xs Hen.
  assert (Hgen : forall m0,
            enabled (config (shipper m0)) = false -> pending m0 = ∅ ->
            posts (io (run m0 xs)) = posts (io m0)
            /\ sleeps (io (run m0 xs)) = sleeps (io m0)
            /\ pending (run m0 xs) = ∅
            /\ logQueue (shipper (run m0 xs)) = logQueue (shipper m0)
            /\ lastSuccessfulFlush (shipper (run m0 xs))
               = lastSuccessfulFlush (shipper m0)).
  { induction xs as [|x xs IH]; intros m0 Hen0 Hpend0; [cbn; auto|].
    destruct (disabled_step m0 x Hen0 Hpend0) as (H1 & H2 & H3 & H4 & H5 & H6).
    unfold run. cbn [foldl]. fold (run (step m0 x) xs).
    destruct (IH _ H1 H2) as (I1 & I2 & I3 & I4 & I5).
    rewrite I1, I2, I3, I4, I5. auto. }
  apply (Hgen (boot s)); [exact Hen|reflexivity].
Qed.

Lemma disabled_shipper_inert_witness :
  let m := run (boot (initial disabledConfig))
             [ (AddLog (entry "a"), host 0); (Flush, host 1); (Shutdown, host 2) ] in
  posts (io m) = [] /\ logQueue (shipper m) = [].
Proof.
  destruct (disabled_shipper_inert (initial disabledConfig)
              [ (AddLog (entry "a"), host 0); (Flush, host 1); (Shutdown, host 2) ])
    as (H1 & _ & _ & H4 & _).
  - reflexivity.
  - split; [exact H1|exact H4].
Defined.

(** *** Retries *)

Lemma retryable_result c o :
  retryable c o ->
  exists out f, sendLogsResult c o = (out, Some f)
                /\ isClientError (statusOf f) = false
                /\ failureStatus c o = statusOf f
                /\ posts out = [] /\ sleeps out = [].
Proof.
  intros (f & Hf & Hc). destruct (sendLogsResult_quiet c o) as [Hp Hs].
  unfold failureStatus. rewrite Hf.
  destruct (sendLogsResult c o) as [out r] eqn:Hres. cbn in Hf, Hp, Hs. subst r.
  exists out, f. auto.
Qed.

(** An attempt ends in an error that is retried when [sendLogs] throws
    before its [fetch], and when the [fetch] it reaches has an outcome
    that is retried. *)
Lemma errorAt_retried c fetched clock logs k :
  (serializes (validateAndCleanLogs (onAttempt clock k) logs) = true ->
   retryable c (fetched k)) ->
  exists f, errorAt c fetched clock logs k = Some f
            /\ isClientError (statusOf f) = false
            /\ statusOf f
               = if serializes (validateAndCleanLogs (onAttempt clock k) logs)
                 then failureStatus c (fetched k) else None.
Proof.
  intros Hretry. unfold errorAt, sendLogsRequest.
  destruct (serializes (validateAndCleanLogs (onAttempt clock k) logs)); cbn [snd].
  - destruct (retryable_result c (fetched k) (Hretry eq_refl))
      as (out & f & Hres & Hc & Hst & _).
    exists f. rewrite Hres. auto.
  - exists NoStatus. auto.
Qed.

Lemma flat_map_singletons {A B} (f : A -> list B) (g : A -> B) l :
  (forall x, x ∈ l -> f x = [g x]) -> flat_map f l = g <$> l.
Proof.
  induction l as [|x l IH]; intros H; [reflexivity|].
  cbn. rewrite (H x) by left. cbn. f_equal. apply IH.
  intros y Hy. apply H. right. exact Hy.
Qed.

Lemma flat_map_nothing {A B} (f : A -> list B) l :
  (forall x, x ∈ l -> f x = []) -> flat_map f l = [].
Proof.
  induction l as [|x l IH]; intros H; [reflexivity|].
  cbn. rewrite (H x) by left. cbn. apply IH.
  intros y Hy. apply H. right. exact Hy.
Qed.

(** X13.  An awaited [flush] all of whose attempts fail with errors
    that are retried: a payload that does not serialise, for which no
    request is made, and for a request that is made a network error, an
    unparsable answer, 429 or another status outside 400..499.  The
    batch is normalised anew at every attempt, with the clock of that
    attempt, and posted at the attempts at which it serialises: at all
    [maxRetries] attempts when it always does, at none when it never
    does.  Between two attempts the shipper waits the base delay of the
    failed attempt's status (500 ms when no request was made) doubled
    for every earlier attempt; the promise is rejected with the last
    error; the batch is back at the front of the queue, and the time of
    the last successful flush is unchanged. *)
Theorem flush_retries_exhausted :
  forall fetched clock m,
    enabled (config (shipper m)) = true ->
    logQueue (shipper m) <> [] ->
    1 <= maxRetries (config (shipper m)) ->
    pending m !! nextFlush m = None ->
    let c := config (shipper m) in
    let sent := take (Z.to_nat (batchSize c)) (logQueue (shipper m)) in
    let payload := fun k => validateAndCleanLogs (onAttempt clock k) sent in
    (forall k, 1 <= k <= maxRetries c ->
               serializes (payload k) = true -> retryable c (fetched k)) ->
    let m' := flushAndWait fetched clock m in
    posts (io m')
    = posts (io m)
      ++ flat_map (fun k => if serializes (payload k) then [payload k] else [])
           (seqZ 1 (maxRetries c))
    /\ ((forall k, 1 <= k <= maxRetries c -> serializes (payload k) = true) ->
        posts (io m') = posts (io m) ++ (payload <$> seqZ 1 (maxRetries c)))
    /\ ((forall k, 1 <= k <= maxRetries c -> serializes (payload k) = false) ->
        posts (io m') = posts (io m))
    /\ sleeps (io m')
       = sleeps (io m)
         ++ ((fun k => baseDelay (if serializes (payload k)
                                  then failureStatus c (fetched k) else None)
                       * 2 ^ (k - 1))
               <$> seqZ 1 (maxRetries c - 1))
    /\ (exists f, errorAt c fetched clock sent (maxRetries c) = Some f
                  /\ settled m' = settled m ++ [(nextFlush m, Direct, Some f)])
    /\ pending m' = pending m
    /\ logQueue (shipper m') = logQueue (shipper m)
    /\ lastSuccessfulFlush (shipper m') = lastSuccessfulFlush (shipper m).
Proof.
  intros fetched clock m Hen Hq Hretries Hfresh c sent payload Hall m'.
  assert (Herr : forall k, 1 <= k <= maxRetries c ->
            exists f, errorAt c fetched clock sent k = Some f
                      /\ isClientError (statusOf f) = false
                      /\ statusOf f
                         = if serializes (payload k)
                           then failureStatus c (fetched k) else None).
  { intros k Hk. apply errorAt_retried. apply Hall. exact Hk. }
  assert (Hmax : 1 <= maxRetries c <= maxRetries c) by (unfold c; lia).
  destruct (Herr (maxRetries c) Hmax) as (f & Hf & _ & _).
  destruct (flushAndWait_raises fetched clock m (maxRetries c) f Hen Hq Hfresh)
    as (H1 & H2 & H3 & H4 & H5 & H6).
  - exact Hmax.
  - intros k Hk. fold c in Hk.
    assert (Hk' : 1 <= k <= maxRetries c) by (clear -Hk; lia).
    destruct (Herr k Hk') as (f' & H & Hc & _).
    exists f'. auto.
  - exact Hf.
  - right. reflexivity.
  - fold c sent m' in H1, H2, H3, H4, H5, H6.
    assert (Hposts : posts (io m')
                     = posts (io m)
                       ++ flat_map (fun k => if serializes (payload k)
                                             then [payload k] else [])
                            (seqZ 1 (maxRetries c))).
    { rewrite H1. f_equal. apply flat_map_agree. intros k _.
      unfold postedAt. apply posts_request. }
    split; [exact Hposts|].
    split.
    { intros Hser. rewrite Hposts. f_equal. apply flat_map_singletons.
      intros k Hk. apply elem_of_seqZ in Hk. rewrite Hser by (clear -Hk; lia).
      reflexivity. }
    split.
    { intros Hser. rewrite Hposts. rewrite flat_map_nothing; [apply app_nil_r|].
      intros k Hk. apply elem_of_seqZ in Hk. rewrite Hser by (clear -Hk; lia).
      reflexivity. }
    split.
    { rewrite H2. f_equal. apply list_fmap_ext. intros i k Hk.
      apply list_elem_of_lookup_2, elem_of_seqZ in Hk.
      assert (Hk' : 1 <= k <= maxRetries c) by (clear -Hk; lia).
      destruct (Herr k Hk') as (f' & Hf' & _ & Hst).
      unfold backoffDelay, statusAt. rewrite Hf'. cbn. rewrite Hst. reflexivity. }
    split; [exists f; split; [exact Hf|exact H3]|].
    split; [exact H4|]. split; [exact H5|exact H6].
Qed.

Lemma flush_retries_exhausted_witness :
  let fetched := fun k => if k =? 2 then Response 429 "busy" false
                          else NetworkError in
  let m0 := addLog (entryWith []) (host 0) (started 10 3) in
  let m := flushAndWait fetched clock m0 in
  let b0 := addLog (entryWith [("count", MBigInt)]%string) (host 0) (started 10 3) in
  let b := flushAndWait fetched clock b0 in
  sleeps (io m) = [500; 2000]
  /\ map (map timestamp) (posts (io m))
     = [ ["2024-01-01T00:00:01.000Z"]; ["2024-01-01T00:00:02.000Z"];
         ["2024-01-01T00:00:03.000Z"] ]%string
  /\ logQueue (shipper m) = [entryWith []]
  /\ posts (io b) = []
  /\ sleeps (io b) = [500; 1000]
  /\ logQueue (shipper b) = [entryWith [("count", MBigInt)]%string].
Proof.
  intros fetched m0 m b0 b.
  assert (Hretried : forall k, retryable (testConfig 10 3) (fetched k)).
  { intros k. unfold fetched. destruct (k =? 2).
    - exists (HttpFailure 429 "busy"). split; reflexivity.
    - exists NoStatus. split; reflexivity. }
  destruct (flush_retries_exhausted fetched clock m0)
    as (_ & H1 & _ & H2 & _ & _ & H5 & _).
  { reflexivity. }
  { discriminate. }
  { vm_compute. discriminate. }
  { reflexivity. }
  { intros k _ _. apply Hretried. }
  destruct (flush_retries_exhausted fetched clock b0)
    as (_ & _ & B1 & B2 & _ & _ & B5 & _).
  { reflexivity. }
  { discriminate. }
  { vm_compute. discriminate. }
  { reflexivity. }
  { intros k _ _. apply Hretried. }
  fold m in H1, H2, H5. fold b in B1, B2, B5.
  split; [rewrite H2; vm_compute; reflexivity|].
  split.
  { rewrite H1; [vm_compute; reflexivity|]. intros k Hk.
    assert (Hcases : k = 1 \/ k = 2 \/ k = 3)
      by (change (maxRetries (config (shipper m0))) with 3 in Hk; lia).
    destruct Hcases as [-> | [-> | ->]]; vm_compute; reflexivity. }
  split; [rewrite H5; vm_compute; reflexivity|].
  split.
  { rewrite B1; [vm_compute; reflexivity|]. intros k Hk.
    assert (Hcases : k = 1 \/ k = 2 \/ k = 3)
      by (change (maxRetries (config (shipper b0))) with 3 in Hk; lia).
    destruct Hcases as [-> | [-> | ->]]; vm_compute; reflexivity. }
  split; [rewrite B2; vm_compute; reflexivity|].
  rewrite B5. vm_compute. reflexivity.
Defined.

(** X14.  A response with a success status whose body does not parse
    counts as a failed attempt without status: before the last attempt
    the shipper waits 500 ms doubled for every earlier attempt and calls
    [sendLogs] on the batch again, which posts it, normalised anew,
    provided it serialises, as it does when it did at an earlier
    attempt; at the last attempt the promise is rejected and the batch
    is put back at the front of the queue.  In neither case is the time
    of the last successful flush set, as it is when the body parses. *)
Theorem unparsable_success_is_retried :
  forall m id t status body h h',
    pending m !! id = Some t ->
    phase t = Fetching ->
    ok status = true ->
    let c := config (shipper m) in
    let m1 := respond id (Response status body false) h m in
    (attempt t + 1 <= maxRetries c ->
     sleeps (io m1) = sleeps (io m) ++ [500 * 2 ^ (attempt t - 1)]
     /\ io (wake id h' m1) = io m1 ++ (sendLogsRequest c h' (batch t)).1
     /\ posts (io (wake id h' m1))
        = posts (io m)
          ++ (if serializes (validateAndCleanLogs h' (batch t))
              then [validateAndCleanLogs h' (batch t)] else [])
     /\ (forall h0,
           isoNow h0 <> EmptyString ->
           isoNow h' <> EmptyString ->
           serializes (validateAndCleanLogs h0 (batch t)) = true ->
           posts (io (wake id h' m1))
           = posts (io m) ++ [validateAndCleanLogs h' (batch t)])
     /\ pending (wake id h' m1) !! id
        = Some {| batch := batch t; attempt := attempt t + 1;
                  phase := if serializes (validateAndCleanLogs h' (batch t))
                           then Fetching else Failing;
                  caller := caller t |}
     /\ settled (wake id h' m1) = settled m
     /\ lastSuccessfulFlush (shipper (wake id h' m1))
        = lastSuccessfulFlush (shipper m))
    /\ (attempt t = maxRetries c ->
        settled m1 = settled m ++ [(id, caller t, Some NoStatus)]
        /\ logQueue (shipper m1) = batch t ++ logQueue (shipper m)
        /\ posts (io m1) = posts (io m)
        /\ lastSuccessfulFlush (shipper m1) = lastSuccessfulFlush (shipper m))
    /\ lastSuccessfulFlush
         (shipper (respond id (Response status body true) h m)) = now h.
Proof.
  intros m id t status body h h' Hp Hb Hok c m1.
  assert (Hres : sendLogsResult c (Response status body false) = ([], Some NoStatus)).
  { unfold sendLogsResult. rewrite Hok. reflexivity. }
  assert (Hres' : sendLogsResult c (Response status body true) = ([], None)).
  { unfold sendLogsResult. rewrite Hok. reflexivity. }
  assert (Hm1 : m1 = caught id t NoStatus (emit [] m)).
  { subst m1. rewrite (respond_failure m id t _ h [] NoStatus Hp Hb Hres).
    reflexivity. }
  split; [|split].
  - intros Hle.
    assert (Hcatch : catchBlock c (attempt t) NoStatus
                     = RetryAfter (500 * 2 ^ (attempt t - 1))).
    { unfold catchBlock. cbn [statusOf isClientError].
      replace (attempt t =? maxRetries c) with false
        by (symmetry; apply Z.eqb_neq; lia).
      reflexivity. }
    rewrite (caught_retry id t NoStatus (emit [] m) _ Hcatch) in Hm1.
    set (ts := {| batch := batch t; attempt := attempt t;
                  phase := Sleeping (500 * 2 ^ (attempt t - 1));
                  caller := caller t |}) in *.
    assert (Hp1 : pending m1 !! id = Some ts) by (rewrite Hm1; apply lookup_insert_eq).
    assert (Hw : wake id h' m1 = startAttempt id ts (attempt t + 1) h' m1).
    { unfold wake. rewrite Hp1. reflexivity. }
    assert (Hc1 : config (shipper m1) = c) by (rewrite Hm1; reflexivity).
    rewrite startAttempt_within in Hw by (rewrite Hc1; cbn; lia).
    rewrite Hc1 in Hw. cbn [batch caller ts] in Hw.
    assert (Hs1 : sleeps (io m1) = sleeps (io m) ++ [500 * 2 ^ (attempt t - 1)]).
    { rewrite Hm1. cbn [io emit with_pending]. rewrite !sleeps_app. cbn.
      rewrite app_nil_r. reflexivity. }
    assert (Hposts1 : posts (io m1) = posts (io m)).
    { rewrite Hm1. cbn [io emit with_pending]. rewrite !posts_app. cbn.
      rewrite !app_nil_r. reflexivity. }
    split; [exact Hs1|]. rewrite Hw. cbn [io pending settled shipper with_pending emit].
    split; [reflexivity|]. split.
    { rewrite posts_app, Hposts1, posts_request. reflexivity. }
    split.
    { intros h0 Hh0 Hh' Hser.
      rewrite posts_app, Hposts1, posts_request.
      rewrite (serializes_any_clock h0 h' _ Hh0 Hh'), Hser. reflexivity. }
    split.
    { rewrite lookup_insert_eq, phaseAfter_request. reflexivity. }
    rewrite Hm1. split; reflexivity.
  - intros Hlast.
    assert (Hcatch : catchBlock c (attempt t) NoStatus = Rethrow "Max retries exceeded").
    { unfold catchBlock. cbn [statusOf isClientError].
      replace (attempt t =? maxRetries c) with true
        by (symmetry; apply Z.eqb_eq; lia).
      reflexivity. }
    rewrite (caught_rethrow id t NoStatus (emit [] m) _ Hcatch) in Hm1.
    rewrite Hm1.
    destruct (flushFailed_spec id t NoStatus
                (emit [Console "ERROR" "Max retries exceeded"] (emit [] m)))
      as (Hq & _ & _ & _ & Hsettled & Hposts & _).
    rewrite Hq, Hsettled, Hposts. cbn [emit io settled shipper logQueue].
    rewrite !posts_app. cbn. rewrite !app_nil_r. auto.
  - rewrite (respond_success m id t _ h [] Hp Hb Hres').
    destruct (flushSucceeded_spec id t h (emit [] m)) as (_ & _ & Hlsf & _).
    exact Hlsf.
Qed.

Lemma unparsable_success_is_retried_witness :
  let m0 := addLog (entry "a") (host 0) (started 1 2) in
  let m1 := respond 0 (Response 200 "OK" false) (host 1) m0 in
  sleeps (io m1) = [500]
  /\ posts (io (wake 0 (host 2) m1))
     = posts (io m0) ++ [validateAndCleanLogs (host 2) [entry "a"]].
Proof.
  intros m0 m1.
  destruct (unparsable_success_is_retried m0 0%nat
              {| batch := [entry "a"]; attempt := 1; phase := Fetching;
                 caller := ByAddLog |} 200 "OK" (host 1) (host 2))
    as (H & _).
  - reflexivity.
  - reflexivity.
  - reflexivity.
  - destruct H as (H1 & _ & _ & H2 & _).
    + vm_compute. discriminate.
    + split; [exact H1|].
      apply (H2 (host 0)); [discriminate|discriminate|reflexivity].
Defined.

(** *** Shutdown *)

Lemma flush_shuttingDown who h m :
  isShuttingDown (shipper (flush who h m)) = isShuttingDown (shipper m)
  /\ flushTimer (shipper (flush who h m)) = flushTimer (shipper m).
Proof.
  unfold flush. destruct (_ || _); [split; reflexivity|].
  unfold startAttempt. destruct (1 <=? _); split; reflexivity.
Qed.

(** X15.  [shutdown] on an enabled shipper with a non-empty queue calls
    [sendLogs] on one batch, the first [batchSize] entries, and posts it
    provided its payload serialises; when that request succeeds the
    promise of the final flush is resolved and the entries beyond the
    first [batchSize] are still in the queue, unsent.  When the payload
    does not serialise no request is made, and the flush goes on to
    catch the error.  After [shutdown], [addLog] discards its entry and
    the timer callback does nothing. *)
Theorem shutdown_ships_one_batch :
  forall m h h' status body,
    enabled (config (shipper m)) = true ->
    logQueue (shipper m) <> [] ->
    1 <= maxRetries (config (shipper m)) ->
    pending m !! nextFlush m = None ->
    ok status = true ->
    let size := Z.to_nat (batchSize (config (shipper m))) in
    let sent := take size (logQueue (shipper m)) in
    let payload := validateAndCleanLogs h sent in
    let m1 := shutdown h m in
    let m2 := respond (nextFlush m) (Response status body true) h' m1 in
    posts (io m1) = posts (io m) ++ (if serializes payload then [payload] else [])
    /\ pending m1
       = <[nextFlush m := {| batch := sent; attempt := 1;
                             phase := if serializes payload
                                      then Fetching else Failing;
                             caller := ByShutdown |}]> (pending m)
    /\ logQueue (shipper m1) = drop size (logQueue (shipper m))
    /\ (serializes payload = true ->
        posts (io m2) = posts (io m) ++ [payload]
        /\ logQueue (shipper m2) = drop size (logQueue (shipper m))
        /\ settled m2 = settled m ++ [(nextFlush m, ByShutdown, None)]
        /\ pending m2 = pending m)
    /\ (serializes payload = false -> m2 = m1)
    /\ (forall e h'', addLog e h'' m1 = m1 /\ addLog e h'' m2 = m2)
    /\ (forall h'', tick h'' m1 = m1 /\ tick h'' m2 = m2).
Proof.
  intros m h h' status body Hen Hq Hretries Hfresh Hok size sent payload m1 m2.
  set (s1 := {| config := config (shipper m); logQueue := logQueue (shipper m);
                flushTimer := None; isShuttingDown := true;
                lastSuccessfulFlush := lastSuccessfulFlush (shipper m) |}).
  set (m0 := emit [Console "INFO" "LogShipper shutting down"] (with_shipper m s1)).
  assert (Hm1 : m1 = flush ByShutdown h m0).
  { subst m1. unfold shutdown. fold s1. fold m0.
    destruct (logQueue (shipper m)) as [|e q]; [contradiction|]. reflexivity. }
  rewrite (flush_starts ByShutdown h m0 Hen Hq Hretries) in Hm1.
  cbn [m0 emit with_shipper shipper s1 config logQueue pending nextFlush io settled]
    in Hm1. fold size sent in Hm1. rewrite phaseAfter_request in Hm1.
  fold payload in Hm1.
  set (t := {| batch := sent; attempt := 1;
               phase := if serializes payload then Fetching else Failing;
               caller := ByShutdown |}) in *.
  assert (Hp1 : pending m1 !! nextFlush m = Some t).
  { rewrite Hm1. cbn [pending]. apply lookup_insert_eq. }
  assert (Hposts1 : posts (io m1)
                    = posts (io m) ++ (if serializes payload then [payload] else [])).
  { rewrite Hm1. cbn [io]. rewrite !posts_app, posts_request.
    cbn [posts omap list_omap]. rewrite app_nil_r. reflexivity. }
  assert (Hdown1 : isShuttingDown (shipper m1) = true /\ flushTimer (shipper m1) = None).
  { rewrite Hm1. split; reflexivity. }
  assert (Hdown2 : isShuttingDown (shipper m2) = true /\ flushTimer (shipper m2) = None).
  { subst m2. unfold respond. rewrite Hp1.
    destruct (phase t); try exact Hdown1.
    destruct (sendLogsResult (config (shipper m1)) (Response status body true))
      as [out [f|]].
    - unfold caught. destruct (catchBlock _ _ _); exact Hdown1.
    - exact Hdown1. }
  split; [exact Hposts1|].
  split; [rewrite Hm1; reflexivity|].
  split; [rewrite Hm1; reflexivity|].
  split; [|split; [|split]].
  - intros Hser.
    assert (Hb : phase t = Fetching) by (cbn; rewrite Hser; reflexivity).
    assert (Hres : sendLogsResult (config (shipper m1)) (Response status body true)
                   = ([], None)).
    { unfold sendLogsResult. rewrite Hok. reflexivity. }
    assert (Hm2 : m2 = flushSucceeded (nextFlush m) t h' (emit [] m1)).
    { subst m2. apply (respond_success m1 (nextFlush m) t _ h' [] Hp1 Hb Hres). }
    destruct (flushSucceeded_spec (nextFlush m) t h' (emit [] m1))
      as (Hq2 & _ & _ & Hpend2 & _ & Hsettled2 & Hposts2 & _).
    rewrite <- Hm2 in Hq2, Hpend2, Hsettled2, Hposts2.
    split; [|split; [|split]].
    + rewrite Hposts2. cbn [emit io]. rewrite app_nil_r, Hposts1, Hser. reflexivity.
    + rewrite Hq2, Hm1. reflexivity.
    + rewrite Hsettled2, Hm1. reflexivity.
    + rewrite Hpend2. cbn [emit pending]. rewrite Hm1. cbn [pending].
      rewrite delete_insert_eq. apply delete_id. exact Hfresh.
  - intros Hser. subst m2. unfold respond. rewrite Hp1. cbn [phase t].
    rewrite Hser. reflexivity.
  - intros e h''. unfold addLog.
    rewrite (proj1 Hdown1), (proj1 Hdown2), !orb_true_r. auto.
  - intros h''. unfold tick. rewrite (proj2 Hdown1), (proj2 Hdown2). auto.
Qed.

Lemma shutdown_ships_one_batch_witness :
  let m0 := run (started 5 3) [ (AddLog (entry "a"), host 0) ] in
  let m2 := respond 0 (Response 200 "{}" true) (host 3) (shutdown (host 2) m0) in
  let b0 := run (started 5 3)
              [ (AddLog (entryWith [("count", MBigInt)]%string), host 0) ] in
  logQueue (shipper m2) = []
  /\ settled m2 = [(0%nat, ByShutdown, None)]
  /\ addLog (entry "late") (host 4) m2 = m2
  /\ posts (io (shutdown (host 2) b0)) = posts (io b0) ++ [].
Proof.
  intros m0 m2 b0.
  destruct (shutdown_ships_one_batch m0 (host 2) (host 3) 200 "{}")
    as (_ & _ & _ & H3 & _ & H6 & _).
  - reflexivity.
  - discriminate.
  - vm_compute. discriminate.
  - reflexivity.
  - reflexivity.
  - destruct H3 as (_ & H3 & H4 & _); [vm_compute; reflexivity|].
    destruct (shutdown_ships_one_batch b0 (host 2) (host 3) 200 "{}")
      as (B1 & _).
    + reflexivity.
    + discriminate.
    + vm_compute. discriminate.
    + reflexivity.
    + reflexivity.
    + split; [exact H3|]. split; [exact H4|]. split; [apply H6|exact B1].
Defined.

(** *** What every step keeps *)

Lemma ledger_refl m : ledger m m.
Proof. repeat split; reflexivity. Qed.

Lemma ledger_trans a b c : ledger a b -> ledger b c -> ledger a c.
Proof.
  intros (H1 & H2 & H3 & H4) (I1 & I2 & I3 & I4). repeat split.
  - congruence.
  - etrans; eassumption.
  - etrans; eassumption.
  - intros Hno. rewrite I4 by exact Hno. apply H4.
    intros Hin. apply Hno. destruct I2 as [ext Hext]. rewrite Hext.
    apply elem_of_app. auto.
Qed.

Lemma ledger_quiet m m' :
  config (shipper m') = config (shipper m) ->
  io m `prefix_of` io m' ->
  settled m `prefix_of` settled m' ->
  lastSuccessfulFlush (shipper m') = lastSuccessfulFlush (shipper m) ->
  ledger m m'.
Proof. intros. repeat split; auto. Qed.

Lemma ledger_settle id who r m : ledger m (settle id who r m).
Proof.
  apply ledger_quiet; cbn; try reflexivity; apply prefix_app_r; reflexivity.
Qed.

Lemma ledger_flushFailed id t f m : ledger m (flushFailed id t f m).
Proof.
  apply ledger_quiet; cbn; try reflexivity; repeat apply prefix_app_r; reflexivity.
Qed.

Lemma ledger_flushSucceeded id t h m : ledger m (flushSucceeded id t h m).
Proof.
  repeat split; cbn; try (repeat apply prefix_app_r; reflexivity).
  intros Hno. exfalso. apply Hno. apply elem_of_app. left.
  apply elem_of_app. right. apply elem_of_cons. left. reflexivity.
Qed.

Lemma ledger_startAttempt id t n h m : ledger m (startAttempt id t n h m).
Proof.
  unfold startAttempt. destruct (n <=? _);
    apply ledger_quiet; cbn; try reflexivity; apply prefix_app_r; reflexivity.
Qed.

Lemma ledger_flush who h m : ledger m (flush who h m).
Proof.
  unfold flush. destruct (_ || _).
  - eapply ledger_trans; [|apply ledger_settle].
    apply ledger_quiet; reflexivity.
  - eapply ledger_trans; [|apply ledger_startAttempt].
    apply ledger_quiet; reflexivity.
Qed.

Lemma ledger_caught id t f m : ledger m (caught id t f m).
Proof.
  unfold caught. destruct (catchBlock (config (shipper m)) (attempt t) f).
  - eapply ledger_trans; [|apply ledger_flushFailed].
    apply ledger_quiet; cbn; try reflexivity; repeat apply prefix_app_r; reflexivity.
  - apply ledger_quiet; cbn; try reflexivity; repeat apply prefix_app_r; reflexivity.
Qed.

Lemma ledger_emit out m : ledger m (emit out m).
Proof. apply ledger_quiet; cbn; try reflexivity; apply prefix_app_r; reflexivity. Qed.

Lemma ledger_respond id o h m : ledger m (respond id o h m).
Proof.
  unfold respond. destruct (pending m !! id) as [t|]; [|apply ledger_refl].
  destruct (phase t); try apply ledger_refl.
  destruct (sendLogsResult (config (shipper m)) o) as [out [f|]].
  - eapply ledger_trans; [apply (ledger_emit out)|apply ledger_caught].
  - eapply ledger_trans; [apply (ledger_emit out)|apply ledger_flushSucceeded].
Qed.

Lemma ledger_wake id h m : ledger m (wake id h m).
Proof.
  unfold wake. destruct (pending m !! id) as [t|]; [|apply ledger_refl].
  destruct (phase t); try apply ledger_refl. apply ledger_startAttempt.
Qed.

Lemma ledger_resume id h m : ledger m (resume id h m).
Proof.
  unfold resume. destruct (pending m !! id) as [t|]; [|apply ledger_refl].
  destruct (phase t); try apply ledger_refl;
    [apply ledger_flushSucceeded|apply ledger_caught].
Qed.

Lemma ledger_step m x : ledger m (step m x).
Proof.
  destruct x as [[e| | |id o|id|id|] h]; unfold step; cbn [fst snd].
  - unfold addLog. destruct (_ || _); [apply ledger_refl|].
    destruct (_ <=? _).
    + eapply ledger_trans; [|apply ledger_flush]. apply ledger_quiet; reflexivity.
    + apply ledger_quiet; reflexivity.
  - apply ledger_flush.
  - unfold tick. destruct (flushTimer _); [apply ledger_flush|apply ledger_refl].
  - apply ledger_respond.
  - apply ledger_wake.
  - apply ledger_resume.
  - unfold shutdown.
    match goal with
    | |- context [if ?b then flush ByShutdown h ?m1 else _] =>
        assert (Hm1 : ledger m m1)
          by (apply ledger_quiet; cbn; try reflexivity;
              apply prefix_app_r; reflexivity);
        destruct b; [eapply ledger_trans; [exact Hm1|apply ledger_flush]|exact Hm1]
    end.
Qed.

Lemma ledger_run xs : forall m, ledger m (run m xs).
Proof.
  induction xs as [|x xs IH]; intros m; [apply ledger_refl|].
  unfold run. cbn [foldl]. fold (run (step m x) xs).
  eapply ledger_trans; [apply ledger_step|apply IH].
Qed.

(** *** The queue stays below the batch size while nothing fails *)

Lemma keeps_refl m : keeps m m.
Proof. repeat split; auto. Qed.

Lemma keeps_trans a b c : keeps a b -> keeps b c -> keeps a c.
Proof.
  intros (H1 & H2 & H3) (I1 & I2 & I3). repeat split.
  - congruence.
  - etrans; eassumption.
  - intros Ha Hc. apply I3; [|exact Hc]. apply H3; [exact Ha|].
    destruct I2 as [ext Hext]. rewrite Hext in Hc.
    apply Forall_app in Hc as [Hc _]. exact Hc.
Qed.

Lemma keeps_shorter m m' :
  config (shipper m') = config (shipper m) ->
  settled m `prefix_of` settled m' ->
  (length (logQueue (shipper m')) <= length (logQueue (shipper m)))%nat ->
  keeps m m'.
Proof.
  intros Hc Hs Hl. repeat split; auto.
  unfold belowBatch. rewrite Hc. intros Hb _. lia.
Qed.

Lemma keeps_settle id who r m : keeps m (settle id who r m).
Proof. apply keeps_shorter; cbn; [reflexivity|apply prefix_app_r|]; reflexivity. Qed.

Lemma keeps_flushSucceeded id t h m : keeps m (flushSucceeded id t h m).
Proof. apply keeps_shorter; cbn; [reflexivity|apply prefix_app_r|]; reflexivity. Qed.

Lemma keeps_flushFailed id t f m : keeps m (flushFailed id t f m).
Proof.
  repeat split; cbn; [apply prefix_app_r; reflexivity|].
  intros _ Hall. apply Forall_app in Hall as [_ Hall].
  apply Forall_cons in Hall as [Hr _]. discriminate Hr.
Qed.

Lemma keeps_startAttempt id t n h m : keeps m (startAttempt id t n h m).
Proof.
  unfold startAttempt. destruct (n <=? _); apply keeps_shorter; reflexivity.
Qed.

Lemma keeps_flush who h m : keeps m (flush who h m).
Proof.
  unfold flush. destruct (_ || _).
  - eapply keeps_trans; [|apply keeps_settle]. apply keeps_shorter; reflexivity.
  - eapply keeps_trans; [|apply keeps_startAttempt].
    apply keeps_shorter; cbn; [reflexivity|reflexivity|].
    rewrite length_drop. lia.
Qed.

Lemma keeps_caught id t f m : keeps m (caught id t f m).
Proof.
  unfold caught. destruct (catchBlock (config (shipper m)) (attempt t) f).
  - eapply keeps_trans; [|apply keeps_flushFailed].
    apply keeps_shorter; reflexivity.
  - apply keeps_shorter; reflexivity.
Qed.

Lemma keeps_respond id o h m : keeps m (respond id o h m).
Proof.
  unfold respond. destruct (pending m !! id) as [t|]; [|apply keeps_refl].
  destruct (phase t); try apply keeps_refl.
  destruct (sendLogsResult (config (shipper m)) o) as [out [f|]].
  - eapply keeps_trans; [|apply keeps_caught].
    apply keeps_shorter; reflexivity.
  - eapply keeps_trans; [|apply keeps_flushSucceeded].
    apply keeps_shorter; reflexivity.
Qed.

Lemma keeps_wake id h m : keeps m (wake id h m).
Proof.
  unfold wake. destruct (pending m !! id) as [t|]; [|apply keeps_refl].
  destruct (phase t); try apply keeps_refl. apply keeps_startAttempt.
Qed.

Lemma keeps_resume id h m : keeps m (resume id h m).
Proof.
  unfold resume. destruct (pending m !! id) as [t|]; [|apply keeps_refl].
  destruct (phase t); try apply keeps_refl;
    [apply keeps_flushSucceeded|apply keeps_caught].
Qed.

Lemma keeps_addLog e h m : keeps m (addLog e h m).
Proof.
  unfold addLog.
  destruct (negb (enabled (config (shipper m))) || isShuttingDown (shipper m))
    eqn:Hguard; [apply keeps_refl|].
  apply orb_false_iff in Hguard as [Hen _]. apply negb_false_iff in Hen.
  cbn [with_shipper with_queue shipper logQueue].
  destruct (batchSize (config (shipper m))
            <=? Z.of_nat (length (logQueue (shipper m) ++ [e]))) eqn:Hfull.
  - apply Z.leb_le in Hfull. rewrite length_app in Hfull. cbn in Hfull.
    set (m1 := with_shipper m _).
    assert (Hflush : config (shipper (flush ByAddLog h m1)) = config (shipper m)
                     /\ settled (flush ByAddLog h m1) = settled m
                     /\ logQueue (shipper (flush ByAddLog h m1))
                        = drop (Z.to_nat (batchSize (config (shipper m))))
                               (logQueue (shipper m) ++ [e])).
    { unfold flush. cbn [m1 with_shipper with_queue shipper config logQueue].
      rewrite Hen. rewrite length_app. cbn [negb orb length].
      replace (length (logQueue (shipper m)) + 1 =? 0)%nat with false
        by (symmetry; apply Nat.eqb_neq; lia).
      unfold startAttempt. cbn [with_shipper with_queue shipper config].
      destruct (1 <=? _); repeat split; reflexivity. }
    destruct Hflush as (Hc & Hs & Hq).
    repeat split; [exact Hc|rewrite Hs; reflexivity|].
    unfold belowBatch. rewrite Hc, Hq, length_drop, length_app. cbn.
    intros Hb _. lia.
  - apply Z.leb_gt in Hfull.
    repeat split; cbn; [reflexivity|]. unfold belowBatch. cbn. intros _ _. exact Hfull.
Qed.

Lemma keeps_step m x : keeps m (step m x).
Proof.
  destruct x as [[e| | |id o|id|id|] h]; unfold step; cbn [fst snd].
  - apply keeps_addLog.
  - apply keeps_flush.
  - unfold tick. destruct (flushTimer _); [apply keeps_flush|apply keeps_refl].
  - apply keeps_respond.
  - apply keeps_wake.
  - apply keeps_resume.
  - unfold shutdown.
    match goal with
    | |- context [if ?b then flush ByShutdown h ?m1 else _] =>
        assert (Hm1 : keeps m m1) by (apply keeps_shorter; reflexivity);
        destruct b; [eapply keeps_trans; [exact Hm1|apply keeps_flush]|exact Hm1]
    end.
Qed.

Lemma keeps_run xs : forall m, keeps m (run m xs).
Proof.
  induction xs as [|x xs IH]; intros m; [apply keeps_refl|].
  unfold run. cbn [foldl]. fold (run (step m x) xs).
  eapply keeps_trans; [apply keeps_step|apply IH].
Qed.

(** X16.  In a run of a shipper constructed with a batch size of at
    least one, as long as no [flush] promise has been rejected, the queue
    holds fewer entries than a batch: an [addLog] that fills the batch
    hands it to a flush at once. *)
Theorem queue_below_batch_until_failure :
  forall c timer out s xs,
    construct c timer = (out, Normal s) ->
    1 <= batchSize c ->
    let m := run (boot s) xs in
    Forall resolved (settled m) ->
    Z.of_nat (length (logQueue (shipper m))) < batchSize c.
Proof.
  intros c timer out s xs Hnew Hsize m Hall.
  destruct (construct_result c timer out s Hnew) as (Hc & Hq & _).
  destruct (keeps_run xs (boot s)) as (Hconf & _ & Hkeep).
  fold m in Hconf, Hkeep. cbn in Hconf. rewrite Hc in Hconf.
  unfold belowBatch in Hkeep. rewrite Hconf in Hkeep. cbn in Hkeep.
  apply Hkeep; [|exact Hall]. rewrite Hq, Hc. cbn. lia.
Qed.

Lemma queue_below_batch_until_failure_witness :
  let m := run (started 2 3)
             [ (AddLog (entry "a"), host 0);
               (AddLog (entry "b"), host 1);
               (AddLog (entry "c"), host 2);
               (Respond 0 (Response 200 "{}" true), host 3) ] in
  Z.of_nat (length (logQueue (shipper m))) < 2.
Proof.
  apply (queue_below_batch_until_failure (testConfig 2 3) 1
           [Console "INFO" "LogShipper initialized"]
           (startFlushTimer (initial (testConfig 2 3)) 1)).
  - reflexivity.
  - cbn. lia.
  - vm_compute. repeat constructor.
Defined.

(** *** Payload sizes *)

Lemma payloadsSized_app n a b :
  payloadsSized n a -> payloadsSized n b -> payloadsSized n (a ++ b).
Proof. unfold payloadsSized. rewrite posts_app. apply Forall_app_2. Qed.

Lemma payloadsSized_silent n out : posts out = [] -> payloadsSized n out.
Proof. unfold payloadsSized. intros ->. constructor. Qed.

Lemma sized_settle id who r m : sized m -> sized (settle id who r m).
Proof.
  intros [Hb Hp]. split.
  - intros id' t' H. cbn in H. apply lookup_delete_Some in H as [_ H].
    exact (Hb _ _ H).
  - cbn. apply payloadsSized_app; [exact Hp|].
    apply payloadsSized_silent. destruct who, r; reflexivity.
Qed.

Lemma sized_flushSucceeded id t h m : sized m -> sized (flushSucceeded id t h m).
Proof.
  intros [Hb Hp]. apply sized_settle. split; [exact Hb|].
  cbn. apply payloadsSized_app; [exact Hp|]. apply payloadsSized_silent. reflexivity.
Qed.

Lemma sized_flushFailed id t f m : sized m -> sized (flushFailed id t f m).
Proof.
  intros [Hb Hp]. apply sized_settle. split; [exact Hb|].
  cbn. apply payloadsSized_app; [exact Hp|]. apply payloadsSized_silent. reflexivity.
Qed.

Lemma sized_emit out m : posts out = [] -> sized m -> sized (emit out m).
Proof.
  intros Hout [Hb Hp]. split; [exact Hb|].
  cbn. apply payloadsSized_app; [exact Hp|]. apply payloadsSized_silent, Hout.
Qed.

Lemma sized_startAttempt id t n h m :
  isoNow h <> EmptyString ->
  (1 <= length (batch t) <= Z.to_nat (batchSize (config (shipper m))))%nat ->
  sized m -> sized (startAttempt id t n h m).
Proof.
  intros Hiso Ht [Hb Hp]. unfold startAttempt.
  assert (Hins : forall t', batch t' = batch t ->
            forall id0 t0, <[id := t']> (pending m) !! id0 = Some t0 ->
            (1 <= length (batch t0)
             <= Z.to_nat (batchSize (config (shipper m))))%nat).
  { intros t' Ht' id0 t0 H. apply lookup_insert_Some in H as [[_ <-]|[_ H]].
    - rewrite Ht'. exact Ht.
    - exact (Hb _ _ H). }
  destruct (n <=? _); split; cbn [with_pending emit pending io shipper].
  - intros id0 t0 H.
    exact (Hins {| batch := batch t; attempt := n;
                   phase := phaseAfter
                              (sendLogsRequest (config (shipper m)) h (batch t));
                   caller := caller t |} eq_refl _ _ H).
  - apply payloadsSized_app; [exact Hp|].
    unfold payloadsSized. rewrite posts_request.
    destruct (serializes (validateAndCleanLogs h (batch t))); [|constructor].
    constructor; [|constructor].
    rewrite (validateAndCleanLogs_keeps_all _ _ Hiso), length_imap. exact Ht.
  - intros id0 t0 H. exact (Hins {| batch := batch t; attempt := n; phase := Returning;
                                    caller := caller t |} eq_refl _ _ H).
  - exact Hp.
Qed.

Lemma sized_flush who h m :
  isoNow h <> EmptyString ->
  1 <= batchSize (config (shipper m)) ->
  sized m -> sized (flush who h m).
Proof.
  intros Hiso Hsize Hs. unfold flush.
  destruct (negb _ || (length _ =? 0)%nat) eqn:Hguard.
  - apply sized_settle. exact Hs.
  - apply orb_false_iff in Hguard as [_ Hlen]. apply Nat.eqb_neq in Hlen.
    apply sized_startAttempt; [exact Hiso| |exact Hs].
    cbn. rewrite length_take. lia.
Qed.

Lemma sized_caught id t f m :
  pending m !! id = Some t -> sized m -> sized (caught id t f m).
Proof.
  intros Hp Hs. unfold caught.
  destruct (catchBlock (config (shipper m)) (attempt t) f).
  - apply sized_flushFailed, sized_emit; [reflexivity|exact Hs].
  - destruct Hs as [Hb Hpay]. split; cbn.
    + intros id0 t0 H. cbn in H. apply lookup_insert_Some in H as [[_ <-]|[_ H]].
      * exact (Hb _ _ Hp).
      * exact (Hb _ _ H).
    + apply payloadsSized_app; [exact Hpay|apply payloadsSized_silent; reflexivity].
Qed.

Lemma sized_respond id o h m : sized m -> sized (respond id o h m).
Proof.
  intros Hs. unfold respond. destruct (pending m !! id) as [t|] eqn:Hp; [|exact Hs].
  destruct (phase t); try exact Hs.
  destruct (sendLogsResult_quiet (config (shipper m)) o) as [Hout _].
  destruct (sendLogsResult (config (shipper m)) o) as [out [f|]]; cbn in Hout.
  - apply sized_caught; [exact Hp|]. apply sized_emit; assumption.
  - apply sized_flushSucceeded, sized_emit; assumption.
Qed.

Lemma sized_wake id h m : isoNow h <> EmptyString -> sized m -> sized (wake id h m).
Proof.
  intros Hiso Hs. unfold wake. destruct (pending m !! id) as [t|] eqn:Hp; [|exact Hs].
  destruct (phase t); try exact Hs.
  apply sized_startAttempt; [exact Hiso| |exact Hs]. exact (proj1 Hs _ _ Hp).
Qed.

Lemma sized_resume id h m : sized m -> sized (resume id h m).
Proof.
  intros Hs. unfold resume. destruct (pending m !! id) as [t|] eqn:Hp; [|exact Hs].
  destruct (phase t); try exact Hs;
    [apply sized_flushSucceeded, Hs|apply sized_caught; assumption].
Qed.

Lemma sized_step m x :
  isoNow x.2 <> EmptyString ->
  1 <= batchSize (config (shipper m)) ->
  sized m -> sized (step m x).
Proof.
  intros Hiso Hsize Hs.
  destruct x as [[e| | |id o|id|id|] h]; unfold step; cbn [fst snd] in *.
  - unfold addLog. destruct (_ || _); [exact Hs|].
    destruct (_ <=? _); [apply sized_flush; [exact Hiso|exact Hsize|]|]; exact Hs.
  - apply sized_flush; assumption.
  - unfold tick. destruct (flushTimer _); [apply sized_flush|]; assumption.
  - apply sized_respond, Hs.
  - apply sized_wake; assumption.
  - apply sized_resume, Hs.
  - unfold shutdown.
    match goal with
    | |- context [if ?b then flush ByShutdown h ?m1 else _] =>
        assert (Hm1 : sized m1)
          by (destruct Hs as [Hb Hp]; split; [exact Hb|];
              cbn; apply payloadsSized_app;
              [exact Hp|apply payloadsSized_silent; reflexivity]);
        destruct b; [apply sized_flush; [exact Hiso|exact Hsize|exact Hm1]|exact Hm1]
    end.
Qed.

(** X17.  In a run of a shipper with a batch size of at least one, every
    payload posted holds at least one entry and at most [batchSize]
    entries, and as many entries as the batch it was built from: the
    cleaning of a batch never removes an entry. *)
Theorem payloads_within_batch_size :
  forall s xs,
    1 <= batchSize (config s) ->
    clocked xs ->
    (forall payload,
       payload ∈ posts (io (run (boot s) xs)) ->
       (1 <= length payload <= Z.to_nat (batchSize (config s)))%nat)
    /\ (forall h logs,
          isoNow h <> EmptyString ->
          length (validateAndCleanLogs h logs) = length logs).
Proof.
  intros s xs Hsize Hclock. split.
  - assert (Hgen : forall m,
              1 <= batchSize (config (shipper m)) -> sized m ->
              sized (run m xs) /\ config (shipper (run m xs)) = config (shipper m)).
    { induction Hclock as [|x xs Hiso _ IH]; intros m Hm Hs; [split; [exact Hs|reflexivity]|].
      unfold run. cbn [foldl]. fold (run (step m x) xs).
      destruct (ledger_step m x) as (Hc & _).
      destruct (IH (step m x)) as [I1 I2].
      - rewrite Hc. exact Hm.
      - apply sized_step; assumption.
      - split; [exact I1|congruence]. }
    destruct (Hgen (boot s) Hsize) as [[_ Hp] Hc].
    { split; [intros id t H; cbn in H; rewrite lookup_empty in H; discriminate|].
      constructor. }
    rewrite Hc in Hp. cbn in Hp. intros payload Hin.
    unfold payloadsSized in Hp. rewrite Forall_forall in Hp. exact (Hp _ Hin).
  - intros h logs Hiso.
    rewrite (validateAndCleanLogs_keeps_all _ _ Hiso). apply length_imap.
Qed.

Lemma payloads_within_batch_size_witness :
  let m := run (started 2 3)
             [ (AddLog (entry "a"), host 0); (AddLog (entry "b"), host 1) ] in
  Forall (fun payload : list LogEntry => (1 <= length payload <= 2)%nat)
         (posts (io m)).
Proof.
  destruct (payloads_within_batch_size (startFlushTimer (initial (testConfig 2 3)) 1)
              [ (AddLog (entry "a"), host 0); (AddLog (entry "b"), host 1) ])
    as (H & _).
  - cbn. lia.
  - repeat constructor; discriminate.
  - apply Forall_forall. exact H.
Defined.

(** *** No entry is lost or duplicated *)

Lemma counted_lt m id t :
  counted m -> pending m !! id = Some t -> (id < nextFlush m)%nat.
Proof.
  intros Hc Hid. destruct (le_lt_dec (nextFlush m) id) as [Hle|Hlt]; [|exact Hlt].
  rewrite (Hc _ Hle) in Hid. discriminate.
Qed.

Lemma flushSucceeded_conserves id t h m m0 :
  counted m0 ->
  pending m0 !! id = Some t ->
  pending m = pending m0 -> nextFlush m = nextFlush m0 ->
  logQueue (shipper m) = logQueue (shipper m0) ->
  (heldFrom 0 (flushSucceeded id t h m)
   ++ logQueue (shipper (flushSucceeded id t h m))) ++ batch t
  ≡ₚ (heldFrom 0 m0 ++ logQueue (shipper m0)) ++ [].
Proof.
  intros Hc Hid Hp Hn Hq.
  destruct (flushSucceeded_spec id t h m) as (Hq' & _ & _ & Hpend & Hnext & _).
  rewrite Hq', Hq, app_nil_r.
  rewrite (heldFrom_delete m0 (flushSucceeded id t h m) id t);
    [| congruence | exact Hid | exact (counted_lt _ _ _ Hc Hid) | congruence ].
  rewrite <- !app_assoc. rewrite (Permutation_app_comm (batch t)).
  rewrite <- !app_assoc. reflexivity.
Qed.

Lemma flushFailed_conserves id t f m m0 :
  counted m0 ->
  pending m0 !! id = Some t ->
  pending m = pending m0 -> nextFlush m = nextFlush m0 ->
  logQueue (shipper m) = logQueue (shipper m0) ->
  (heldFrom 0 (flushFailed id t f m)
   ++ logQueue (shipper (flushFailed id t f m))) ++ []
  ≡ₚ (heldFrom 0 m0 ++ logQueue (shipper m0)) ++ [].
Proof.
  intros Hc Hid Hp Hn Hq.
  destruct (flushFailed_spec id t f m) as (Hq' & _ & Hpend & Hnext & _).
  rewrite Hq', Hq, !app_nil_r.
  rewrite (heldFrom_delete m0 (flushFailed id t f m) id t);
    [| congruence | exact Hid | exact (counted_lt _ _ _ Hc Hid) | congruence ].
  rewrite !app_assoc. apply Permutation_app_tail, Permutation_app_comm.
Qed.

Lemma startAttempt_conserves id t0 t n h m :
  pending m !! id = Some t0 ->
  batch t = batch t0 ->
  heldFrom 0 (startAttempt id t n h m) = heldFrom 0 m
  /\ logQueue (shipper (startAttempt id t n h m)) = logQueue (shipper m).
Proof.
  intros Hid Hb. split.
  - apply heldFrom_ext; [apply startAttempt_nextFlush|].
    intros id'. unfold batchOf, startAttempt.
    destruct (n <=? _); cbn [with_pending emit pending];
      (destruct (decide (id' = id)) as [->|Hne];
       [rewrite lookup_insert_eq, Hid; exact Hb
       |rewrite lookup_insert_ne by congruence; reflexivity]).
  - unfold startAttempt. destruct (n <=? _); reflexivity.
Qed.

Lemma caught_conserves id t f m m0 :
  counted m0 ->
  pending m0 !! id = Some t ->
  pending m = pending m0 -> nextFlush m = nextFlush m0 ->
  logQueue (shipper m) = logQueue (shipper m0) ->
  (heldFrom 0 (caught id t f m) ++ logQueue (shipper (caught id t f m))) ++ []
  ≡ₚ (heldFrom 0 m0 ++ logQueue (shipper m0)) ++ [].
Proof.
  intros Hc Hid Hp Hn Hq. unfold caught.
  destruct (catchBlock (config (shipper m)) (attempt t) f).
  - apply (flushFailed_conserves id t f _ m0 Hc Hid); assumption.
  - rewrite !app_nil_r. cbn [with_pending emit shipper]. rewrite Hq.
    apply Permutation_app; [|reflexivity].
    erewrite heldFrom_ext; [reflexivity|exact Hn|].
    intros id'. unfold batchOf. cbn [with_pending emit pending]. rewrite Hp.
    destruct (decide (id' = id)) as [->|Hne].
    + rewrite lookup_insert_eq, Hid. reflexivity.
    + rewrite lookup_insert_ne by congruence. reflexivity.
Qed.

Lemma step_conserves m x :
  counted m ->
  (heldFrom 0 (step m x) ++ logQueue (shipper (step m x))) ++ released m x
  ≡ₚ (heldFrom 0 m ++ logQueue (shipper m)) ++ taken m x.
Proof.
  intros Hc.
  destruct x as [[e| | |id o|id|id|] h]; unfold step, released, taken; cbn [fst snd].
  - (* addLog *)
    unfold addLog.
    destruct (negb (enabled (config (shipper m))) || isShuttingDown (shipper m));
      [reflexivity|].
    set (m1 := with_shipper m _).
    rewrite !app_nil_r.
    destruct (_ <=? _).
    + destruct (flush_hands_over ByAddLog h m1 0 (Nat.le_0_l _)) as (H1 & _).
      rewrite H1. subst m1. cbn. rewrite app_assoc. reflexivity.
    + subst m1. cbn. rewrite app_assoc. reflexivity.
  - destruct (flush_hands_over Direct h m 0 (Nat.le_0_l _)) as (H1 & _).
    rewrite H1. reflexivity.
  - unfold tick. destruct (flushTimer _); [|reflexivity].
    destruct (flush_hands_over ByTimer h m 0 (Nat.le_0_l _)) as (H1 & _).
    rewrite H1. reflexivity.
  - (* respond *)
    unfold respond. destruct (pending m !! id) as [t|] eqn:Hid; [|reflexivity].
    destruct (phase t) eqn:Hph; try reflexivity.
    destruct (sendLogsResult (config (shipper m)) o) as [out [f|]]; cbn [snd].
    + apply (caught_conserves id t f _ m Hc Hid); reflexivity.
    + apply (flushSucceeded_conserves id t h _ m Hc Hid); reflexivity.
  - (* wake *)
    unfold wake. destruct (pending m !! id) as [t|] eqn:Hid; [|reflexivity].
    destruct (phase t); try reflexivity.
    destruct (startAttempt_conserves id t t (attempt t + 1) h m Hid eq_refl) as [H1 H2].
    rewrite H1, H2. reflexivity.
  - (* resume *)
    unfold resume. destruct (pending m !! id) as [t|] eqn:Hid; [|reflexivity].
    destruct (phase t); try reflexivity.
    + apply (flushSucceeded_conserves id t h _ m Hc Hid); reflexivity.
    + apply (caught_conserves id t NoStatus _ m Hc Hid); reflexivity.
  - (* shutdown *)
    unfold shutdown.
    match goal with
    | |- context [if ?b then flush ByShutdown h ?m1 else _] =>
        destruct b;
        [destruct (flush_hands_over ByShutdown h m1 0 (Nat.le_0_l _)) as (H1 & _);
         rewrite H1|]; reflexivity
    end.
Qed.

Lemma run_conserves xs :
  forall m,
    counted m ->
    (heldFrom 0 (run m xs) ++ logQueue (shipper (run m xs))) ++ releasedIn m xs
    ≡ₚ (heldFrom 0 m ++ logQueue (shipper m)) ++ takenIn m xs.
Proof.
  induction xs as [|x xs IH]; intros m Hc; [reflexivity|].
  unfold run. cbn [foldl releasedIn takenIn]. fold (run (step m x) xs).
  pose proof (IH (step m x) (step_counted m x Hc)) as Hrest.
  pose proof (step_conserves m x Hc) as Hstep.
  rewrite (Permutation_app_comm (released m x)), app_assoc, Hrest.
  rewrite <- app_assoc, (Permutation_app_comm (takenIn _ _)), app_assoc, Hstep.
  rewrite <- !app_assoc. reflexivity.
Qed.

(** *** A flush within its attempts *)

Lemma attempting_delete m m' id :
  config (shipper m') = config (shipper m) ->
  pending m' = delete id (pending m) ->
  attempting m -> attempting m'.
Proof.
  intros Hc Hp Ha id' t H. rewrite Hp in H. rewrite Hc.
  apply lookup_delete_Some in H as [_ H]. exact (Ha _ _ H).
Qed.

Lemma attempting_insert m m' id t :
  config (shipper m') = config (shipper m) ->
  pending m' = <[id := t]> (pending m) ->
  1 <= attempt t <= maxRetries (config (shipper m)) ->
  phase t <> Returning ->
  (forall d, phase t = Sleeping d -> attempt t < maxRetries (config (shipper m))) ->
  attempting m -> attempting m'.
Proof.
  intros Hc Hp H1 H2 H3 Ha id' t' H. rewrite Hp in H. rewrite Hc.
  apply lookup_insert_Some in H as [[_ <-]|[_ H]]; [auto|exact (Ha _ _ H)].
Qed.

Lemma attempting_startAttempt id t n h m :
  1 <= n <= maxRetries (config (shipper m)) ->
  attempting m -> attempting (startAttempt id t n h m).
Proof.
  intros Hn Ha. unfold startAttempt.
  replace (n <=? maxRetries (config (shipper m))) with true
    by (symmetry; apply Z.leb_le; lia).
  apply (attempting_insert m _ id
           {| batch := batch t; attempt := n;
              phase := phaseAfter (sendLogsRequest (config (shipper m)) h (batch t));
              caller := caller t |});
    try reflexivity; try assumption; cbn [phase]; rewrite phaseAfter_request;
    destruct (serializes (validateAndCleanLogs h (batch t))); discriminate.
Qed.

Lemma attempting_caught id t f m :
  pending m !! id = Some t ->
  attempting m -> attempting (caught id t f m).
Proof.
  intros Hid Ha. destruct (Ha _ _ Hid) as (Hrange & _ & _). unfold caught.
  destruct (catchBlock (config (shipper m)) (attempt t) f) as [why|d] eqn:Hcatch.
  - eapply attempting_delete; [| |exact Ha]; reflexivity.
  - apply catchBlock_retry in Hcatch as (Hne & _ & _).
    apply (attempting_insert m _ id
             {| batch := batch t; attempt := attempt t;
                phase := Sleeping d; caller := caller t |});
      try reflexivity; try assumption; cbn.
    + discriminate.
    + intros _ _. lia.
Qed.

Lemma attempting_flush who h m :
  1 <= maxRetries (config (shipper m)) ->
  attempting m -> attempting (flush who h m).
Proof.
  intros Hr Ha. unfold flush. destruct (_ || _).
  - eapply attempting_delete; [| |exact Ha]; reflexivity.
  - apply attempting_startAttempt; [cbn; lia|exact Ha].
Qed.

Lemma attempting_step m x :
  1 <= maxRetries (config (shipper m)) ->
  attempting m -> attempting (step m x).
Proof.
  intros Hr Ha.
  destruct x as [[e| | |id o|id|id|] h]; unfold step; cbn [fst snd].
  - unfold addLog. destruct (_ || _); [exact Ha|].
    destruct (_ <=? _); [apply attempting_flush; [exact Hr|]|]; exact Ha.
  - apply attempting_flush; assumption.
  - unfold tick. destruct (flushTimer _); [apply attempting_flush|]; assumption.
  - unfold respond. destruct (pending m !! id) as [t|] eqn:Hid; [|exact Ha].
    destruct (phase t) eqn:Hph; try exact Ha.
    destruct (sendLogsResult (config (shipper m)) o) as [out [f|]].
    + apply (attempting_caught id t f (emit out m) Hid Ha).
    + eapply attempting_delete; [| |exact Ha]; reflexivity.
  - unfold wake. destruct (pending m !! id) as [t|] eqn:Hid; [|exact Ha].
    destruct (phase t) eqn:Hph; try exact Ha.
    destruct (Ha _ _ Hid) as (Hrange & _ & Hsleep).
    apply attempting_startAttempt; [|exact Ha].
    specialize (Hsleep _ Hph). lia.
  - unfold resume. destruct (pending m !! id) as [t|] eqn:Hid; [|exact Ha].
    destruct (phase t) eqn:Hph; try exact Ha.
    + destruct (Ha _ _ Hid) as (_ & Hno & _). contradiction.
    + apply attempting_caught; assumption.
  - unfold shutdown.
    match goal with
    | |- context [if ?b then flush ByShutdown h ?m1 else _] =>
        assert (Hm1 : attempting m1) by exact Ha;
        destruct b; [apply attempting_flush; [exact Hr|exact Hm1]|exact Hm1]
    end.
Qed.

Lemma attempting_run xs :
  forall m,
    1 <= maxRetries (config (shipper m)) ->
    attempting m -> attempting (run m xs).
Proof.
  induction xs as [|x xs IH]; intros m Hr Ha; [exact Ha|].
  unfold run. cbn [foldl]. fold (run (step m x) xs).
  destruct (ledger_step m x) as (Hc & _).
  apply IH; [rewrite Hc; exact Hr|apply attempting_step; assumption].
Qed.

(** X18.  Over any run of a shipper, no entry is lost and none is
    duplicated: the entries held by suspended flushes, those in the
    queue and those let go of are, up to their order, the entries that
    were in the queue at the start and those [addLog] took in.  When at
    least one attempt is allowed, a flush lets go of its batch only at a
    response that [sendLogs] accepts; a rejected flush puts every entry
    of its batch back. *)
Theorem entries_conserved :
  forall s xs,
    let m := run (boot s) xs in
    (heldFrom 0 m ++ logQueue (shipper m)) ++ releasedIn (boot s) xs
    ≡ₚ logQueue s ++ takenIn (boot s) xs
    /\ (1 <= maxRetries (config s) ->
        forall id h, released m (Resume id, h) = []).
Proof.
  intros s xs m. split.
  - apply (run_conserves xs (boot s)), boot_counted.
  - intros Hr id h.
    assert (Ha : attempting m).
    { apply attempting_run; [exact Hr|].
      intros id' t H. cbn in H. rewrite lookup_empty in H. discriminate. }
    unfold released. cbn [fst].
    destruct (pending m !! id) as [t|] eqn:Hid; [|reflexivity].
    destruct (Ha _ _ Hid) as (_ & Hno & _).
    destruct (phase t); try reflexivity. contradiction.
Qed.

Lemma entries_conserved_witness :
  let s := startFlushTimer (initial (testConfig 1 1)) 1 in
  let xs := [ (AddLog (entry "a"), host 0);
              (AddLog (entry "b"), host 1);
              (Respond 0 NetworkError, host 2);
              (Respond 1 (Response 200 "{}" true), host 3) ] in
  let m := run (boot s) xs in
  (heldFrom 0 m ++ logQueue (shipper m)) ++ releasedIn (boot s) xs
  ≡ₚ logQueue s ++ takenIn (boot s) xs.
Proof.
  intros s xs m. destruct (entries_conserved s xs) as (H & _). exact H.
Defined.

(** *** Health *)

(** X19.  [getHealthStatus] of a shipper that was constructed enabled
    reports [healthy] for as long as no batch has been shipped, whatever
    has failed in the meantime and whatever the time; of a disabled
    shipper it never does.  The queue size it reports is the length of
    the queue and the configuration it reports is the one given at
    construction. *)
Theorem healthy_until_first_shipment :
  forall c timer out s xs now,
    construct c timer = (out, Normal s) ->
    let m := run (boot s) xs in
    let status := getHealthStatus (shipper m) now in
    (enabled c = true -> shippedLine ∉ io m ->
     healthy status = true /\ lastFlush status = None)
    /\ (enabled c = false -> healthy status = false)
    /\ queueSize status = length (logQueue (shipper m))
    /\ h_enabled status = enabled c
    /\ h_endpoint status = endpoint c
    /\ h_batchSize status = batchSize c
    /\ h_flushInterval status = flushInterval c.
Proof.
  intros c timer out s xs now Hnew m status.
  destruct (construct_result c timer out s Hnew) as (Hc & _ & _ & Hzero & _).
  destruct (ledger_run xs (boot s)) as (Hconf & _ & _ & Hlsf).
  fold m in Hconf, Hlsf. cbn in Hconf, Hlsf. rewrite Hc in Hconf.
  subst status. unfold getHealthStatus. cbn [healthy lastFlush queueSize h_enabled
    h_endpoint h_batchSize h_flushInterval]. rewrite Hconf.
  split; [|split; [|repeat split]].
  - intros Hen Hno. rewrite (Hlsf Hno), Hzero, Hen. cbn. auto.
  - intros Hen. rewrite Hen. reflexivity.
Qed.

Lemma healthy_until_first_shipment_witness :
  let m := run (started 1 1)
             [ (AddLog (entry "a"), host 0); (Respond 0 NetworkError, host 1) ] in
  healthy (getHealthStatus (shipper m) 1000000000) = true
  /\ settled m = [(0%nat, ByAddLog, Some NoStatus)].
Proof.
  destruct (healthy_until_first_shipment (testConfig 1 1) 1
              [Console "INFO" "LogShipper initialized"]
              (startFlushTimer (initial (testConfig 1 1)) 1)
              [ (AddLog (entry "a"), host 0); (Respond 0 NetworkError, host 1) ]
              1000000000) as (H & _).
  - reflexivity.
  - destruct H as (H & _).
    + reflexivity.
    + vm_compute. intros Hin.
      repeat (apply elem_of_cons in Hin as [Hin|Hin]; [discriminate Hin|]).
      apply elem_of_nil in Hin. exact Hin.
    + split; [exact H|reflexivity].
Defined.

End ShipperOpsFacts.

(** ** LogShipper: normalisation is a normal form *)

Module NormalFacts.
Import Js Shipper ShipperOps Scenario ShipperFacts.

Lemma truthy_toLowerCase s : truthy (toLowerCase s) = truthy s.
Proof. destruct s; reflexivity. Qed.

Lemma or_else_idem a b : or_else (or_else a b) b = or_else a b.
Proof.
  unfold or_else. destruct (truthy a) eqn:Ha; [rewrite Ha; reflexivity|].
  destruct (truthy b); reflexivity.
Qed.

Lemma opt_or_else_idem a b :
  opt_or_else (Some (opt_or_else a b)) b = opt_or_else a b.
Proof.
  destruct a as [s|]; cbn; [apply or_else_idem|].
  unfold or_else. destruct (truthy b); reflexivity.
Qed.

Lemma field_or_idem v d : field_or (field_or v d) d = field_or v d.
Proof.
  unfold field_or. destruct (field_truthy v) eqn:Hv; [rewrite Hv; reflexivity|].
  cbn. destruct (truthy d); reflexivity.
Qed.

Lemma truthy_toStr v : truthy (toStr v) = field_truthy v.
Proof.
  destruct v as [s|name]; [reflexivity|].
  cbn. destruct (String.eqb name "__proto__"); reflexivity.
Qed.

Lemma toStr_field_or v d : toStr (field_or v d) = or_else (toStr v) d.
Proof.
  unfold field_or, or_else. rewrite truthy_toStr.
  destruct (field_truthy v); reflexivity.
Qed.

Lemma or_else_lower a b d :
  toLowerCase a = toLowerCase b ->
  toLowerCase (or_else a d) = toLowerCase (or_else b d).
Proof.
  intros H. unfold or_else.
  rewrite <- (truthy_toLowerCase a), <- (truthy_toLowerCase b), H.
  destruct (truthy (toLowerCase b)); [exact H|reflexivity].
Qed.

(** *** Names an object literal inherits *)

Lemma lower_ascii_idem c : lower_ascii (lower_ascii c) = lower_ascii c.
Proof. destruct c as [[] [] [] [] [] [] [] []]; reflexivity. Qed.

Lemma toLowerCase_idem s : toLowerCase (toLowerCase s) = toLowerCase s.
Proof.
  induction s as [|c s IH]; [reflexivity|].
  cbn [toLowerCase]. rewrite lower_ascii_idem, IH. reflexivity.
Qed.

(** Of the names of [Object.prototype] only two are written without a
    capital letter, so only they can be the lower-cased key of a lookup. *)
Lemma inherited_lower s :
  toLowerCase s ∈ objectPrototype ->
  toLowerCase s = "constructor"%string \/ toLowerCase s = "__proto__"%string.
Proof.
  pose proof (toLowerCase_idem s) as Hk. revert Hk.
  generalize (toLowerCase s). intros k Hk Hin. unfold objectPrototype in Hin.
  repeat (apply elem_of_cons in Hin as [->|Hin];
          [first [left; reflexivity | right; reflexivity | discriminate Hk]|]).
  apply elem_of_nil in Hin. contradiction.
Qed.

Lemma ownProperty_value r k v : ownProperty r k = Some v -> v ∈ r.*2.
Proof.
  induction r as [|[k' v'] r IH]; [discriminate|].
  cbn [ownProperty]. destruct (String.eqb k' k).
  - intros [= ->]. cbn. left.
  - intros H. cbn. right. apply IH, H.
Qed.

Lemma mapped_or_lower r d s :
  Forall (fun v => truthy v = true) r.*2 ->
  toLowerCase s <> "constructor"%string ->
  toLowerCase s <> "__proto__"%string ->
  exists v, mapped_or (lookupRecord r (toLowerCase s)) d = Str v /\ v ∈ d :: r.*2.
Proof.
  intros Hr H1 H2. unfold lookupRecord.
  destruct (ownProperty r (toLowerCase s)) as [v|] eqn:Ho.
  - apply ownProperty_value in Ho. exists v. split; [|right; exact Ho].
    cbn. unfold field_or. cbn.
    rewrite Forall_forall in Hr. rewrite (Hr v Ho). reflexivity.
  - case_bool_decide as Hin.
    + destruct (inherited_lower s Hin); contradiction.
    + exists d. split; [reflexivity|left].
Qed.

Lemma mapLogLevelToValidEnum_cases l :
  let k := toLowerCase (toStr (field_or l "info")) in
  (k <> "constructor"%string -> k <> "__proto__"%string ->
   exists v : string,
     mapLogLevelToValidEnum l = Str v
     /\ v ∈ ["info"; "error"; "warn"; "debug"]%string)
  /\ (k = "constructor"%string \/ k = "__proto__"%string ->
      mapLogLevelToValidEnum l = Inherited k).
Proof.
  intros k. unfold mapLogLevelToValidEnum. fold k. split.
  - intros H1 H2.
    destruct (mapped_or_lower levelMap "info" (toStr (field_or l "info")))
      as (v & Hv & Hin); [|exact H1|exact H2|].
    { repeat constructor. }
    exists v. split; [exact Hv|]. cbn in Hin. set_solver.
  - intros [->| ->]; reflexivity.
Qed.

Lemma mapComponentToValidEnum_cases c :
  let k := toLowerCase (toStr (field_or c "client")) in
  (k <> "constructor"%string -> k <> "__proto__"%string ->
   exists v : string,
     mapComponentToValidEnum c = Str v
     /\ v ∈ ["client"; "tools"; "oauth-client"]%string)
  /\ (k = "constructor"%string \/ k = "__proto__"%string ->
      mapComponentToValidEnum c = Inherited k).
Proof.
  intros k. unfold mapComponentToValidEnum. fold k. split.
  - intros H1 H2.
    destruct (mapped_or_lower componentMap "client" (toStr (field_or c "client")))
      as (v & Hv & Hin); [|exact H1|exact H2|].
    { repeat constructor. }
    exists v. split; [exact Hv|]. cbn in Hin. set_solver.
  - intros [->| ->]; reflexivity.
Qed.

Lemma mapLogLevelToValidEnum_accepted v :
  v ∈ ["info"; "error"; "warn"; "debug"]%string ->
  mapLogLevelToValidEnum (Str v) = Str v.
Proof.
  intros Hv.
  repeat (apply elem_of_cons in Hv as [->|Hv]; [reflexivity|]).
  apply elem_of_nil in Hv. contradiction.
Qed.

Lemma mapComponentToValidEnum_accepted v :
  v ∈ ["client"; "tools"; "oauth-client"]%string ->
  mapComponentToValidEnum (Str v) = Str v.
Proof.
  intros Hv.
  repeat (apply elem_of_cons in Hv as [->|Hv]; [reflexivity|]).
  apply elem_of_nil in Hv. contradiction.
Qed.

(** X20.  The level written into a payload is one of info, error,
    warn and debug, and the component one of client, tools and
    oauth-client, unless the given value, in lower case, is
    [constructor] or [__proto__]: then it is what the lookup table
    inherits under that name, a function or [Object.prototype], and no
    string.  Both depend on the given value only up to the case of its
    letters; an accepted value is mapped to itself, and an inherited one
    to the default. *)
Theorem enum_mapping_stable :
  (forall l,
     let k := toLowerCase (toStr (field_or l "info")) in
     (k <> "constructor"%string -> k <> "__proto__"%string ->
      exists v : string,
        mapLogLevelToValidEnum l = Str v
        /\ v ∈ ["info"; "error"; "warn"; "debug"]%string)
     /\ (k = "constructor"%string \/ k = "__proto__"%string ->
         mapLogLevelToValidEnum l = Inherited k))
  /\ (forall c,
        let k := toLowerCase (toStr (field_or c "client")) in
        (k <> "constructor"%string -> k <> "__proto__"%string ->
         exists v : string,
           mapComponentToValidEnum c = Str v
           /\ v ∈ ["client"; "tools"; "oauth-client"]%string)
        /\ (k = "constructor"%string \/ k = "__proto__"%string ->
            mapComponentToValidEnum c = Inherited k))
  /\ (forall a b : Field,
        toLowerCase (toStr a) = toLowerCase (toStr b) ->
        mapLogLevelToValidEnum a = mapLogLevelToValidEnum b
        /\ mapComponentToValidEnum a = mapComponentToValidEnum b)
  /\ (forall v, v ∈ ["info"; "error"; "warn"; "debug"]%string ->
                mapLogLevelToValidEnum (Str v) = Str v)
  /\ (forall v, v ∈ ["client"; "tools"; "oauth-client"]%string ->
                mapComponentToValidEnum (Str v) = Str v)
  /\ (forall k, k = "constructor"%string \/ k = "__proto__"%string ->
                mapLogLevelToValidEnum (Inherited k) = Str "info"
                /\ mapComponentToValidEnum (Inherited k) = Str "client").
Proof.
  split; [apply mapLogLevelToValidEnum_cases|].
  split; [apply mapComponentToValidEnum_cases|].
  split; [|split; [apply mapLogLevelToValidEnum_accepted
                  |split; [apply mapComponentToValidEnum_accepted|]]].
  - intros a b H. unfold mapLogLevelToValidEnum, mapComponentToValidEnum.
    rewrite !toStr_field_or.
    rewrite (or_else_lower _ _ "info" H), (or_else_lower _ _ "client" H).
    split; reflexivity.
  - intros k [->| ->]; split; reflexivity.
Qed.

Lemma enum_mapping_stable_witness :
  mapLogLevelToValidEnum "WARNING" = mapLogLevelToValidEnum "warning"
  /\ mapComponentToValidEnum "Server" = mapComponentToValidEnum "server"
  /\ mapLogLevelToValidEnum "Constructor" = Inherited "constructor"
  /\ (exists v : string,
        mapLogLevelToValidEnum "toString" = Str v
        /\ v ∈ ["info"; "error"; "warn"; "debug"]%string).
Proof.
  destruct enum_mapping_stable as (Hl & _ & H & _).
  split; [|split; [|split]].
  - apply (H "WARNING" "warning")%string. reflexivity.
  - apply (H "Server" "server")%string. reflexivity.
  - apply (Hl "Constructor"%string). left. reflexivity.
  - apply (Hl "toString"%string); discriminate.
Defined.

(** *** Metadata *)

Lemma assign_key k v kv : assign k v = Some kv -> kv = (k, v) /\ k <> "__proto__"%string.
Proof.
  unfold assign. destruct (String.eqb k "__proto__") eqn:Hk; [discriminate|].
  intros [= <-]. split; [reflexivity|]. apply String.eqb_neq, Hk.
Qed.

Lemma cleanField_fixed kv kv' : cleanField kv = Some kv' -> cleanField kv' = Some kv'.
Proof.
  destruct kv as [k v]. unfold cleanField. cbn [fst snd].
  destruct v as [| |[] s| |s]; try destruct s as [s|]; try discriminate;
    intros H; apply assign_key in H as [-> Hk]; cbn [fst snd];
    unfold assign; apply String.eqb_neq in Hk; rewrite Hk; reflexivity.
Qed.

Lemma cleanMetadata_idem md : cleanMetadata (cleanMetadata md) = cleanMetadata md.
Proof.
  unfold cleanMetadata. induction md as [|kv md IH]; [reflexivity|].
  cbn [omap list_omap]. destruct (cleanField kv) as [kv'|] eqn:Hc; [|exact IH].
  cbn [omap list_omap]. rewrite (cleanField_fixed _ _ Hc).
  fold (omap cleanField (omap cleanField md)). rewrite IH. reflexivity.
Qed.

(** X21.  What [cleanMetadata] returns holds no undefined value, no
    function and no object that [JSON.stringify] rejects, and no key
    [__proto__]; a BigInt stays.  Its keys are, in their order, the
    keys of the given metadata other than [__proto__] whose value is
    neither undefined nor an object that both [JSON.stringify] and
    [String] reject.  Cleaning it again changes nothing, and it
    serialises exactly when it holds no BigInt. *)
Theorem cleanMetadata_normal_form :
  forall md,
    Forall (fun kv : string * MetaValue =>
              kv.1 <> "__proto__"%string
              /\ match kv.2 with
                 | MPlain _ | MObject true _ | MBigInt => True
                 | _ => False
                 end) (cleanMetadata md)
    /\ (cleanMetadata md).*1
       = (List.filter (fun kv : string * MetaValue =>
                         negb (String.eqb kv.1 "__proto__")
                         && match kv.2 with
                            | MUndefined | MObject false None => false
                            | _ => true
                            end) md).*1
    /\ cleanMetadata (cleanMetadata md) = cleanMetadata md
    /\ serializable (Some (cleanMetadata md))
       = forallb (fun kv : string * MetaValue =>
                    String.eqb kv.1 "__proto__"
                    || match kv.2 with MBigInt => false | _ => true end) md.
Proof.
  intros md. split; [|split; [|split; [apply cleanMetadata_idem|]]].
  - unfold cleanMetadata. induction md as [|[k v] md IH]; [constructor|].
    cbn [omap list_omap]. unfold cleanField at 1. cbn [fst snd]. unfold assign.
    destruct (String.eqb k "__proto__") eqn:Hk;
      destruct v as [| |[] s| |s]; try destruct s as [s|]; try exact IH;
      (constructor; [split; [apply String.eqb_neq, Hk|exact I]|exact IH]).
  - unfold cleanMetadata. induction md as [|[k v] md IH]; [reflexivity|].
    cbn [omap list_omap List.filter fst snd]. unfold cleanField at 1. cbn [fst snd].
    unfold assign.
    destruct (String.eqb k "__proto__") eqn:Hk;
      destruct v as [| |[] s| |s]; try destruct s as [s|];
      cbn [negb andb fmap list_fmap fst]; rewrite <- IH; reflexivity.
  - unfold serializable, cleanMetadata. cbn [from_option]. unfold id.
    induction md as [|[k v] md IH]; [reflexivity|].
    cbn [omap list_omap forallb fst snd]. unfold cleanField at 1. cbn [fst snd].
    unfold assign.
    destruct (String.eqb k "__proto__") eqn:Hk;
      destruct v as [| |[] s| |s]; try destruct s as [s|];
      cbn [forallb negb rejected fst snd orb andb]; rewrite <- ?IH; reflexivity.
Qed.

Lemma cleanMetadata_normal_form_witness :
  let md := [ ("user", MUndefined); ("callback", MFunction);
              ("__proto__", MPlain "x"); ("cycle", MObject false (Some "[object Object]"));
              ("revoked", MObject false None); ("nested", MObject true None);
              ("count", MBigInt) ]%string in
  cleanMetadata md
  = [ ("callback", MPlain "[Function]"); ("cycle", MPlain "[object Object]");
      ("nested", MObject true None); ("count", MBigInt) ]%string
  /\ (cleanMetadata md).*1 = ["callback"; "cycle"; "nested"; "count"]%string
  /\ serializable (Some (cleanMetadata md)) = false.
Proof.
  intros md. destruct (cleanMetadata_normal_form md) as (_ & Hkeys & _ & Hser).
  split; [reflexivity|]. split; [rewrite Hkeys|rewrite Hser]; reflexivity.
Defined.

(** *** Entries *)

Lemma field_or_str (v : string) d : truthy v = true -> field_or (Str v) d = Str v.
Proof. intros H. unfold field_or. cbn. rewrite H. reflexivity. Qed.

(** The level of a cleaned entry as a function of the level given. *)
Lemma level_recleaned l :
  let once := mapLogLevelToValidEnum (field_or l "info") in
  let twice := mapLogLevelToValidEnum (field_or once "info") in
  mapLogLevelToValidEnum (field_or twice "info") = twice
  /\ (twice = once <-> exists v, once = Str v).
Proof.
  intros once twice.
  destruct (mapLogLevelToValidEnum_cases (field_or l "info")) as [Hs Hi].
  fold once in Hs, Hi.
  set (k := toLowerCase (toStr (field_or (field_or l "info") "info"))) in *.
  destruct (decide (k = "constructor"%string)) as [Hc|Hc];
    [|destruct (decide (k = "__proto__"%string)) as [Hp|Hp]].
  - assert (Ho : once = Inherited "constructor") by (rewrite <- Hc; apply Hi; left; exact Hc).
    unfold twice. rewrite Ho. split; [reflexivity|].
    split; [discriminate|intros [v Hv]; discriminate Hv].
  - assert (Ho : once = Inherited "__proto__") by (rewrite <- Hp; apply Hi; right; exact Hp).
    unfold twice. rewrite Ho. split; [reflexivity|].
    split; [discriminate|intros [v Hv]; discriminate Hv].
  - destruct (Hs Hc Hp) as (v & Hv & Hin).
    assert (Ht : twice = once).
    { unfold twice. rewrite Hv.
      repeat (apply elem_of_cons in Hin as [->|Hin]; [reflexivity|]).
      apply elem_of_nil in Hin. contradiction. }
    split; [rewrite Ht; exact Ht|].
    split; [intros _; exists v; exact Hv|intros _; exact Ht].
Qed.

Lemma component_recleaned c :
  let once := mapComponentToValidEnum (field_or c "client") in
  let twice := mapComponentToValidEnum (field_or once "client") in
  mapComponentToValidEnum (field_or twice "client") = twice
  /\ (twice = once <-> exists v, once = Str v).
Proof.
  intros once twice.
  destruct (mapComponentToValidEnum_cases (field_or c "client")) as [Hs Hi].
  fold once in Hs, Hi.
  set (k := toLowerCase (toStr (field_or (field_or c "client") "client"))) in *.
  destruct (decide (k = "constructor"%string)) as [Hc|Hc];
    [|destruct (decide (k = "__proto__"%string)) as [Hp|Hp]].
  - assert (Ho : once = Inherited "constructor") by (rewrite <- Hc; apply Hi; left; exact Hc).
    unfold twice. rewrite Ho. split; [reflexivity|].
    split; [discriminate|intros [v Hv]; discriminate Hv].
  - assert (Ho : once = Inherited "__proto__") by (rewrite <- Hp; apply Hi; right; exact Hp).
    unfold twice. rewrite Ho. split; [reflexivity|].
    split; [discriminate|intros [v Hv]; discriminate Hv].
  - destruct (Hs Hc Hp) as (v & Hv & Hin).
    assert (Ht : twice = once).
    { unfold twice. rewrite Hv.
      repeat (apply elem_of_cons in Hin as [->|Hin]; [reflexivity|]).
      apply elem_of_nil in Hin. contradiction. }
    split; [rewrite Ht; exact Ht|].
    split; [intros _; exists v; exact Hv|intros _; exact Ht].
Qed.

Lemma cleanLog_other_fields h i log l c :
  cleanLog h i (cleanLog h i log)
  = {| timestamp := timestamp (cleanLog h i log);
       level := l;
       sessionId := sessionId (cleanLog h i log);
       user := user (cleanLog h i log);
       integration := integration (cleanLog h i log);
       component := c;
       action := action (cleanLog h i log);
       message := message (cleanLog h i log);
       serverName := serverName (cleanLog h i log);
       projectId := projectId (cleanLog h i log);
       organizationId := organizationId (cleanLog h i log);
       metadata := metadata (cleanLog h i log) |}
  <-> level (cleanLog h i (cleanLog h i log)) = l
      /\ component (cleanLog h i (cleanLog h i log)) = c.
Proof.
  split.
  - intros H. rewrite H. split; reflexivity.
  - intros [<- <-]. unfold cleanLog.
    cbn [timestamp level sessionId user integration component
         action message serverName projectId organizationId metadata].
    rewrite !or_else_idem, !opt_or_else_idem.
    f_equal. destruct (metadata log) as [md|]; cbn; [|reflexivity].
    rewrite cleanMetadata_idem. reflexivity.
Qed.

Lemma cleanLog_settles h i log :
  cleanLog h i (cleanLog h i (cleanLog h i log)) = cleanLog h i (cleanLog h i log).
Proof.
  set (e := cleanLog h i log).
  assert (He : cleanLog h i (cleanLog h i e)
               = {| timestamp := timestamp (cleanLog h i e);
                    level := level (cleanLog h i e);
                    sessionId := sessionId (cleanLog h i e);
                    user := user (cleanLog h i e);
                    integration := integration (cleanLog h i e);
                    component := component (cleanLog h i e);
                    action := action (cleanLog h i e);
                    message := message (cleanLog h i e);
                    serverName := serverName (cleanLog h i e);
                    projectId := projectId (cleanLog h i e);
                    organizationId := organizationId (cleanLog h i e);
                    metadata := metadata (cleanLog h i e) |});
    [|rewrite He; destruct (cleanLog h i e); reflexivity].
  apply cleanLog_other_fields. unfold e.
  destruct (level_recleaned (level log)) as [Hl _].
  destruct (component_recleaned (component log)) as [Hc _].
  split; [exact Hl|exact Hc].
Qed.

Lemma cleanLog_fixed h i log :
  cleanLog h i (cleanLog h i log) = cleanLog h i log
  <-> (exists v, level (cleanLog h i log) = Str v)
      /\ (exists v, component (cleanLog h i log) = Str v).
Proof.
  destruct (level_recleaned (level log)) as [_ Hl].
  destruct (component_recleaned (component log)) as [_ Hc].
  split.
  - intros H. split; [apply Hl|apply Hc].
    + exact (f_equal level H).
    + exact (f_equal component H).
  - intros [H1 H2]. apply Hl in H1. apply Hc in H2.
    transitivity {| timestamp := timestamp (cleanLog h i log);
                    level := level (cleanLog h i log);
                    sessionId := sessionId (cleanLog h i log);
                    user := user (cleanLog h i log);
                    integration := integration (cleanLog h i log);
                    component := component (cleanLog h i log);
                    action := action (cleanLog h i log);
                    message := message (cleanLog h i log);
                    serverName := serverName (cleanLog h i log);
                    projectId := projectId (cleanLog h i log);
                    organizationId := organizationId (cleanLog h i log);
                    metadata := metadata (cleanLog h i log) |};
      [|destruct (cleanLog h i log); reflexivity].
    apply cleanLog_other_fields. split; [exact H1|exact H2].
Qed.

Lemma imap_imap_same (f : nat -> LogEntry -> LogEntry) logs :
  imap f (imap f logs) = imap f logs
  <-> forall i x, logs !! i = Some x -> f i (f i x) = f i x.
Proof.
  revert f. induction logs as [|x logs IH]; intros f.
  - split; [intros _ i x Hx; discriminate Hx|reflexivity].
  - cbn [imap]. split.
    + intros [= H0 H] [|i] y Hy.
      * injection Hy as <-. exact H0.
      * exact (proj1 (IH (f ∘ S)) H i y Hy).
    + intros H. f_equal.
      * apply (H 0%nat). reflexivity.
      * apply IH. intros i y Hy. exact (H (S i) y Hy).
Qed.

(** X22.  Cleaning a batch a second time under the same environment
    and clock changes it exactly when the first cleaning left an entry
    whose level or component is no string (the inherited value of
    X20): the second cleaning replaces that value by the default.
    Cleaning a third time changes nothing. *)
Theorem validateAndCleanLogs_idempotent :
  forall h logs,
    isoNow h <> EmptyString ->
    let once := validateAndCleanLogs h logs in
    let twice := validateAndCleanLogs h once in
    validateAndCleanLogs h twice = twice
    /\ (twice = once
        <-> forall e, e ∈ once ->
                      (exists v, level e = Str v) /\ (exists v, component e = Str v)).
Proof.
  intros h logs Hiso once twice. unfold twice, once.
  rewrite !(validateAndCleanLogs_keeps_all _ _ Hiso). split.
  - apply imap_imap_same. intros i x Hx.
    apply list_lookup_imap_Some in Hx as (y & _ & ->).
    apply cleanLog_settles.
  - rewrite imap_imap_same. split.
    + intros H e He. apply list_elem_of_lookup in He as [i He].
      apply list_lookup_imap_Some in He as (y & Hy & ->).
      apply cleanLog_fixed, (H i y Hy).
    + intros H i x Hx. apply cleanLog_fixed, H.
      apply list_elem_of_lookup. exists i.
      apply list_lookup_imap_Some. exists x. split; [exact Hx|reflexivity].
Qed.

Lemma validateAndCleanLogs_idempotent_witness :
  (let logs := [entry EmptyString; entryAt "Constructor"] in
   let once := validateAndCleanLogs (host 0) logs in
   let twice := validateAndCleanLogs (host 0) once in
   validateAndCleanLogs (host 0) twice = twice
   /\ level <$> once = [Str "info"; Inherited "constructor"]
   /\ level <$> twice = [Str "info"; Str "info"])
  /\ (let logs := [entry EmptyString; entryAt "WARNING"] in
      let once := validateAndCleanLogs (host 0) logs in
      validateAndCleanLogs (host 0) once = once).
Proof.
  split.
  - destruct (validateAndCleanLogs_idempotent
                (host 0) [entry EmptyString; entryAt "Constructor"]) as [H _];
      [discriminate|].
    split; [exact H|split; reflexivity].
  - destruct (validateAndCleanLogs_idempotent
                (host 0) [entry EmptyString; entryAt "WARNING"]) as [_ H];
      [discriminate|].
    apply H. intros e He. vm_compute in He.
    repeat (apply elem_of_cons in He as [->|He]; [split; eexists; reflexivity|]).
    apply elem_of_nil in He. contradiction.
Defined.

End NormalFacts.

(** ** Configuration, Logger and LogBatcher *)

Module LoggingFacts.
Import Js Shipper ShipperOps Scenario ShipperFacts DeliveryFacts ShipperOpsFacts.

(** *** Configuration *)

Lemma when_nil b msg : Config.when b msg = [] -> b = false.
Proof. destruct b; [discriminate|reflexivity]. Qed.

(** X23.  A configuration that the server's [validateConfig] accepts
    never makes the constructor of [LogShipper] throw.  When log
    shipping is enabled in it, the endpoint is an HTTPS one, the batch
    size lies between 1 and 1000, the flush interval is at least 1000 ms
    and the log level is one of the five known; the number of attempts is
    not checked.  (Settings that are integers.) *)
Theorem accepted_config_constructs :
  forall cfg timer,
    Config.isValid cfg = true ->
    let c := Config.logShipping cfg in
    (exists out s, construct c timer = (out, Normal s))
    /\ (enabled c = true ->
        String.prefix "https://" (endpoint c) = true
        /\ 1 <= batchSize c <= 1000
        /\ 1000 <= flushInterval c
        /\ Config.logLevel cfg ∈ Config.logLevels)
    /\ Config.nOTIONACCESSTOKEN cfg <> EmptyString.
Proof.
  intros cfg timer Hvalid c. unfold Config.isValid in Hvalid.
  apply Nat.eqb_eq in Hvalid. apply length_zero_iff_nil in Hvalid.
  unfold Config.validateConfig in Hvalid. cbn [snd] in Hvalid. fold c in Hvalid.
  apply app_eq_nil in Hvalid as [Hship Htoken].
  apply when_nil, negb_false_iff, truthy_nonempty in Htoken.
  destruct (enabled c) eqn:Hen.
  - apply app_eq_nil in Hship as [H1 Hship]. apply when_nil, negb_false_iff in H1.
    apply app_eq_nil in Hship as [H2 Hship]. apply when_nil in H2.
    apply app_eq_nil in Hship as [H3 Hship]. apply when_nil in H3.
    apply app_eq_nil in Hship as [H4 Hship]. apply when_nil in H4.
    apply app_eq_nil in Hship as [H5 H6]. apply when_nil in H5.
    apply when_nil, negb_false_iff, bool_decide_eq_true in H6.
    rewrite H1 in H3. cbn in H3. apply negb_false_iff in H3.
    apply orb_false_iff in H4 as [H4a H4b].
    apply Z.ltb_ge in H4a, H4b, H5.
    split; [|split; [|exact Htoken]].
    + unfold construct, validateConfig. rewrite Hen, H1, H2, H3. cbn. eauto.
    + intros _. auto.
  - split; [|split; [discriminate|exact Htoken]].
    unfold construct. rewrite Hen. cbn. eauto.
Qed.

Lemma accepted_config_constructs_witness :
  exists out s, construct (testConfig 500 3) 1 = (out, Normal s).
Proof.
  destruct (accepted_config_constructs
              {| Config.logShipping := testConfig 500 3;
                 Config.logLevel := "ERROR";
                 Config.nOTIONACCESSTOKEN := "secret" |} 1) as (H & _).
  - reflexivity.
  - exact H.
Defined.

(** *** What the logger hands to the shipper *)

(** X25.  An entry the logger processes, with shipping enabled and a
    batcher that is not yet full, is appended to the batcher's entries
    and nothing is handed to the shipper yet, provided the console is
    disabled or the metadata serialises.  Whatever the level it was
    logged at, the line printed carries that level, while the entry, once
    cleaned for a payload, has the level info, the server name
    notion-mcp, the integration unknown, and the component the logger's
    component is mapped to.  With the console enabled and metadata that
    does not serialise the call throws while it makes the line: nothing
    is printed and the batcher does not get the entry. *)
Theorem logger_ships_level_info :
  forall lg b generated h l action message md m,
    Logging.batcher lg = Some b ->
    Logging.enableShipping (Logging.config lg) = true ->
    Logging.processed (Logging.config lg) l = true ->
    Z.of_nat (length (Batcher.logs b)) + 1 < Batcher.maxBatchSize b ->
    let r := Logging.log lg generated h l action message md m in
    (Logging.enableConsole (Logging.config lg) = false \/ serializable md = true ->
     Logging.threw r = false
     /\ exists e,
         Logging.batcher (Logging.o_logger r)
         = Some (Batcher.with_logs b (Batcher.logs b ++ [e]))
         /\ metadata e = md
         /\ Logging.o_machine r = m
         /\ length (Logging.printed r)
            = (if Logging.enableConsole (Logging.config lg) then 1 else 0)%nat
         /\ Forall (fun line => Logging.l_level line = Logging.levelName l
                                /\ Logging.l_entry line = e) (Logging.printed r)
         /\ (forall h' i,
               level (cleanLog h' i e) = Str "info"
               /\ serverName (cleanLog h' i e) = "notion-mcp"%string
               /\ integration (cleanLog h' i e) = "unknown"%string
               /\ component (cleanLog h' i e)
                  = mapComponentToValidEnum
                      (Str (Logging.component (Logging.config lg)))
               /\ sessionId (cleanLog h' i e)
                  = or_else (or_else (Batcher.sessionId b) generated)
                            (generateSessionId h' i)))
    /\ (Logging.enableConsole (Logging.config lg) = true ->
        serializable md = false ->
        Logging.threw r = true
        /\ Logging.printed r = []
        /\ Logging.o_logger r = lg
        /\ Logging.o_machine r = m).
Proof.
  intros lg b generated h l action message md m Hb Hship Hproc Hroom r.
  subst r. unfold Logging.log. rewrite Hproc, Hb, Hship. cbn [negb]. split.
  - intros Hprint.
    replace (Logging.enableConsole (Logging.config lg) && negb (serializable md))
      with false
      by (destruct Hprint as [-> | ->];
          [reflexivity|rewrite andb_false_r; reflexivity]).
    unfold Batcher.addStructuredLog.
    replace (Batcher.maxBatchSize b
             <=? Z.of_nat (length (Batcher.logs
                                     (Batcher.with_logs b (Batcher.logs b ++ [_])))))
      with false
      by (symmetry; apply Z.leb_gt; cbn; rewrite length_app; cbn; lia).
    cbn [fst snd Logging.threw Logging.o_logger Logging.o_machine Logging.printed
         Logging.batcher].
    split; [reflexivity|].
    eexists. split; [reflexivity|]. split; [reflexivity|].
    split; [reflexivity|]. split; [|split].
    + destruct (Logging.enableConsole (Logging.config lg)); reflexivity.
    + destruct (Logging.enableConsole (Logging.config lg)); repeat constructor.
    + intros h' i. unfold cleanLog, Logging.fullLogEntry, Batcher.getSessionId.
      cbn [level serverName integration component sessionId].
      repeat split.
      unfold mapComponentToValidEnum. rewrite NormalFacts.field_or_idem.
      reflexivity.
  - intros -> ->. repeat split.
Qed.

Lemma logger_ships_level_info_witness :
  let lg := Logging.construct
              {| Logging.logLevel := "INFO"; Logging.component := "server";
                 Logging.enableConsole := true; Logging.enableShipping := true;
                 Logging.serverName := "notion-mcp" |}
              true "session-1" 2 in
  (let r := Logging.log lg "generated" (host 0) ERROR "TOOL_ERROR" "failed" None
              (started 10 3) in
   exists e,
     Batcher.logs <$> Logging.batcher (Logging.o_logger r) = Some [e]
     /\ level (cleanLog (host 1) 0 e) = Str "info"
     /\ (Logging.l_level <$> Logging.printed r) = ["ERROR"%string])
  /\ (let r := Logging.log lg "generated" (host 0) ERROR "TOOL_ERROR" "failed"
                 (Some [("count"%string, MBigInt)]) (started 10 3) in
      Logging.threw r = true /\ Logging.o_logger r = lg).
Proof.
  intros lg. split.
  - intros r.
    destruct (logger_ships_level_info lg (Batcher.new None None "session-1" 2)
                "generated" (host 0) ERROR "TOOL_ERROR" "failed" None (started 10 3))
      as [H _].
    + reflexivity.
    + reflexivity.
    + reflexivity.
    + cbn. lia.
    + destruct H as (_ & e & H1 & _ & _ & _ & _ & H4); [right; reflexivity|].
      exists e. split; [|split].
      * fold r in H1. rewrite H1. reflexivity.
      * apply (H4 (host 1) 0%nat).
      * reflexivity.
  - intros r.
    destruct (logger_ships_level_info lg (Batcher.new None None "session-1" 2)
                "generated" (host 0) ERROR "TOOL_ERROR" "failed"
                (Some [("count"%string, MBigInt)]) (started 10 3))
      as [_ H].
    + reflexivity.
    + reflexivity.
    + reflexivity.
    + cbn. lia.
    + destruct H as (H1 & _ & H3 & _); [reflexivity|reflexivity|].
      split; [exact H1|exact H3].
Defined.

(** *** The batcher hands its entries over in order *)

Lemma addLog_hands_over e h m n :
  enabled (config (shipper m)) = true ->
  isShuttingDown (shipper m) = false ->
  (n <= nextFlush m)%nat ->
  let m' := addLog e h m in
  heldFrom n m' ++ logQueue (shipper m')
  = heldFrom n m ++ logQueue (shipper m) ++ [e]
  /\ config (shipper m') = config (shipper m)
  /\ isShuttingDown (shipper m') = isShuttingDown (shipper m)
  /\ (nextFlush m <= nextFlush m')%nat.
Proof.
  intros Hen Hdown Hn m'. subst m'. unfold addLog.
  assert (Hguard : negb (enabled (config (shipper m))) || isShuttingDown (shipper m)
                   = false) by (rewrite Hen, Hdown; reflexivity).
  rewrite Hguard.
  set (m1 := with_shipper m _).
  assert (Hheld : heldFrom n m1 = heldFrom n m) by reflexivity.
  destruct (_ <=? _).
  - destruct (flush_hands_over ByAddLog h m1 n Hn) as (H1 & H2 & H3 & H4).
    rewrite H1, Hheld. repeat split; assumption.
  - rewrite Hheld. split; [reflexivity|]. split; [reflexivity|].
    split; [reflexivity|]. cbn. lia.
Qed.

Lemma handOver_in_order batch h :
  forall m n,
    enabled (config (shipper m)) = true ->
    isShuttingDown (shipper m) = false ->
    (n <= nextFlush m)%nat ->
    let m' := Batcher.handOver batch h m in
    heldFrom n m' ++ logQueue (shipper m')
    = heldFrom n m ++ logQueue (shipper m) ++ batch
    /\ config (shipper m') = config (shipper m)
    /\ isShuttingDown (shipper m') = isShuttingDown (shipper m)
    /\ (nextFlush m <= nextFlush m')%nat.
Proof.
  induction batch as [|e batch IH]; intros m n Hen Hdown Hn m'.
  - subst m'. cbn. rewrite app_nil_r. repeat split. lia.
  - subst m'. unfold Batcher.handOver. cbn [foldl].
    fold (Batcher.handOver batch h (addLog e h m)).
    destruct (addLog_hands_over e h m n Hen Hdown Hn) as (H1 & H2 & H3 & H4).
    destruct (IH (addLog e h m) n) as (I1 & I2 & I3 & I4).
    + rewrite H2. exact Hen.
    + rewrite H3. exact Hdown.
    + lia.
    + rewrite I1, I2, I3. rewrite app_assoc, H1, <- !app_assoc.
      repeat split; [congruence|congruence|lia].
Qed.

(** X26.  One [flush] of the batcher takes its first [maxBatchSize]
    entries.  When the shipper is enabled and not shutting down, these
    entries join the shipper in their order: the batches of the shipper
    flushes started meanwhile, in the order they were started, followed
    by the shipper's queue, are the queue as it was followed by the
    entries taken.  When the shipper is disabled or shutting down, the
    entries taken are discarded. *)
Theorem batcher_flush_hands_over :
  forall h b m,
    Batcher.logs b <> [] ->
    let size := Z.to_nat (Batcher.maxBatchSize b) in
    let r := Batcher.flush h b m in
    Batcher.logs r.1 = drop size (Batcher.logs b)
    /\ (enabled (config (shipper m)) = true ->
        isShuttingDown (shipper m) = false ->
        heldFrom (nextFlush m) r.2 ++ logQueue (shipper r.2)
        = logQueue (shipper m) ++ take size (Batcher.logs b))
    /\ (enabled (config (shipper m)) = false \/ isShuttingDown (shipper m) = true ->
        Batcher.handOver (take size (Batcher.logs b)) h m = m).
Proof.
  intros h b m Hlogs size r.
  assert (Hr : r = (Batcher.with_logs b (drop size (Batcher.logs b)),
                    flush Direct h (Batcher.handOver (take size (Batcher.logs b)) h m))).
  { subst r. unfold Batcher.flush.
    destruct (Batcher.logs b) as [|e l]; [contradiction|]. reflexivity. }
  rewrite Hr. cbn [fst snd]. split; [reflexivity|]. split.
  - intros Hen Hdown.
    destruct (handOver_in_order (take size (Batcher.logs b)) h m (nextFlush m)
                Hen Hdown (le_n _)) as (H1 & H2 & _ & H4).
    destruct (flush_hands_over Direct h
                (Batcher.handOver (take size (Batcher.logs b)) h m) (nextFlush m) H4)
      as (F1 & _).
    rewrite F1, H1. unfold heldFrom at 1.
    rewrite Nat.sub_diag. reflexivity.
  - intros Hoff. generalize (take size (Batcher.logs b)). intros batch.
    induction batch as [|e batch IH]; [reflexivity|].
    unfold Batcher.handOver. cbn [foldl].
    assert (Hadd : addLog e h m = m).
    { unfold addLog. destruct Hoff as [-> | ->]; [reflexivity|].
      rewrite orb_true_r. reflexivity. }
    rewrite Hadd. exact IH.
Qed.

Lemma batcher_flush_hands_over_witness :
  let b := Batcher.with_logs (Batcher.new None None "session-1" 2)
             [entry "a"; entry "b"; entry "c"] in
  let r := Batcher.flush (host 0) b (started 2 3) in
  heldFrom 0 r.2 ++ logQueue (shipper r.2) = [entry "a"; entry "b"; entry "c"]
  /\ Batcher.logs r.1 = [].
Proof.
  intros b r.
  destruct (batcher_flush_hands_over (host 0) b (started 2 3)) as (H1 & H2 & _).
  - discriminate.
  - split; [|exact H1]. apply H2; reflexivity.
Defined.

End LoggingFacts.

(** ** The server's periodic cleanup *)

Module ServerFacts.
Import Js Scenario.

(** X27.  After one run of the server's periodic cleanup, every
    progress state the reporter keeps belongs to a token the tracker
    reports active; a request older than five minutes is no longer
    tracked, its handle is cancelled, and the progress state of its token
    is gone. *)
Theorem periodicCleanup_leaves_active :
  forall t p entries tokens now,
    Tracker.consistent t ->
    TrackerOps.enumerates entries t ->
    ReporterOps.enumerates tokens p ->
    let r := Server.periodicCleanup entries tokens t p now in
    (forall tok st,
       Reporter.progressStates r.2 !! tok = Some st ->
       Tracker.isProgressTokenActive r.1 tok = true
       /\ Reporter.progressStates p !! tok = Some st)
    /\ (forall id l c tok,
          Tracker.activeRequests t !! id = Some l ->
          Tracker.store t !! l = Some c ->
          300000 < now - Tracker.startTime c ->
          Tracker.progressToken c = Some tok ->
          Tracker.getRequest r.1 id = None
          /\ Tracker.observedAborted r.1 l = Some true
          /\ Reporter.progressStates r.2 !! tok = None).
Proof.
  intros t p entries tokens now Hcons Henum Htokens r.
  subst r. unfold Server.periodicCleanup. cbn [fst snd].
  set (t' := (TrackerOps.cleanupStaleRequests entries t None now).1).
  split.
  - intros tok st Hst.
    rewrite (ReporterOpsFacts.sweep_states tokens t' p tok Htokens) in Hst.
    destruct (Tracker.isProgressTokenActive t' tok); [auto|discriminate].
  - intros id l c tok Hid Hl Hold Htok.
    destruct (TrackerOpsFacts.enumerates_entries _ _ Henum) as [Hnodup Hin].
    destruct (TrackerOpsFacts.sweep_fold 300000 now entries t 0 Hcons Hnodup
                (fun id l => proj1 (Hin id l))) as (_ & _ & I3 & _).
    specialize (I3 id l c Hid Hl).
    rewrite bool_decide_eq_true_2 in I3 by (apply Hin; exact Hid).
    unfold TrackerOps.stale in I3.
    replace (300000 <? now - Tracker.startTime c) with true in I3
      by (symmetry; apply Z.ltb_lt; exact Hold).
    cbn [andb] in I3. destruct I3 as (H1 & H2 & H3).
    assert (Hact : Tracker.activeRequests t'
                   = Tracker.activeRequests
                       (foldl (TrackerOps.sweepEntry 300000 now) (t, 0) entries).1).
    { subst t'. unfold TrackerOps.cleanupStaleRequests. cbn [fst default].
      destruct (0 <? _); reflexivity. }
    assert (Hstore : Tracker.store t'
                     = Tracker.store
                         (foldl (TrackerOps.sweepEntry 300000 now) (t, 0) entries).1).
    { subst t'. unfold TrackerOps.cleanupStaleRequests. cbn [fst default].
      destruct (0 <? _); reflexivity. }
    assert (Htoks : Tracker.progressTokens t'
                    = Tracker.progressTokens
                        (foldl (TrackerOps.sweepEntry 300000 now) (t, 0) entries).1).
    { subst t'. unfold TrackerOps.cleanupStaleRequests. cbn [fst default].
      destruct (0 <? _); reflexivity. }
    split; [|split].
    + unfold Tracker.getRequest. rewrite Hact, H1. reflexivity.
    + unfold Tracker.observedAborted. rewrite Hstore, H2. reflexivity.
    + rewrite (ReporterOpsFacts.sweep_states tokens t' p tok Htokens).
      unfold Tracker.isProgressTokenActive. rewrite Htoks, (H3 tok Htok). reflexivity.
Qed.

Lemma periodicCleanup_leaves_active_witness :
  let p := Reporter.report tracked1 Reporter.new tok1 (update 10 (Some 100)) 2000 true in
  let r := Server.periodicCleanup (map_to_list (Tracker.activeRequests tracked1))
             (map_to_list (Reporter.progressStates p)).*1 tracked1 p 400000 in
  Tracker.getRequest r.1 req1 = None
  /\ Reporter.progressStates r.2 !! tok1 = None.
Proof.
  intros p r.
  destruct (periodicCleanup_leaves_active tracked1 p
              (map_to_list (Tracker.activeRequests tracked1))
              (map_to_list (Reporter.progressStates p)).*1 400000) as (_ & H).
  - apply TrackerFacts.registerRequest_consistent, TrackerFacts.new_consistent.
  - unfold TrackerOps.enumerates. reflexivity.
  - unfold ReporterOps.enumerates. reflexivity.
  - destruct (H req1 ctx1
                {| Tracker.requestId := req1;
                   Tracker.abortController := Tracker.newAbortController;
                   Tracker.progressToken := Some tok1;
                   Tracker.startTime := 1000;
                   Tracker.toolName := None |} tok1) as (H1 & _ & H3).
    + vm_compute. reflexivity.
    + vm_compute. reflexivity.
    + cbn. lia.
    + reflexivity.
    + split; [exact H1|exact H3].
Defined.

End ServerFacts.
